(** * cpspg: the system-programming samples, embedded and verified

    Every sample of the repository is a thin layer of C over the system
    interface of one of two platforms, selected by [#ifdef _WIN32].  The
    development keeps that shape:

    - the functions of the samples ([ps_exec], [ps_wait], [pipe_read],
      [pipe_accept], [cpsem_open], [sig_subscribe], ...) are transcribed
      from the C text, one module per sample and per platform branch;
    - the system calls they are written over ([waitid], [read], [accept],
      [ReadFile], [CreateSemaphoreW], ...) are not code of the repository:
      each module starts with a small executable model of the kernel
      objects the sample touches, following the documented behaviour of
      the call (POSIX / Linux manual pages, Win32 reference).

    A state of the world is threaded explicitly through every call.  A call
    that would not return in the current state of the world (a read on an
    empty pipe whose writer is still open, a blocking wait on a running
    child) yields [Blocks]; an access outside an object yields [Fault]; a
    call in which a signal terminates the calling process yields
    [Killed]. *)

From Stdlib Require Import ZArith Lia.
From Stdlib.Strings Require Import Byte.
From stdpp Require Import base option list gmap strings.
Local Open Scope Z_scope.

(* ===================================================================== *)
(** * Part I: definitions                                                 *)
(* ===================================================================== *)

(** ** Machine integers, outcomes of a call, allocation of identifiers *)

(** The value of [x] read as a 32-bit two's complement [int]. *)
Definition to_int (x : Z) : Z := (x + 2 ^ 31) mod 2 ^ 32 - 2 ^ 31.

(** The value of [x] read as a 32-bit [unsigned int] ([DWORD], [id_t]). *)
Definition to_uint (x : Z) : Z := x mod 2 ^ 32.

(** The null pointer. *)
Definition NULL : Z := 0.

(** Outcome of running a piece of the program against the world. *)
Inductive result (A : Type) : Type :=
| Ret (a : A)
| Blocks
| Fault
| Killed (signal : Z).
Arguments Ret {A} a.
Arguments Blocks {A}.
Arguments Fault {A}.
Arguments Killed {A} signal.

#[global] Instance result_ret : MRet result := λ A a, Ret a.
#[global] Instance result_bind : MBind result := λ A B f m,
  match m with
  | Ret a => f a
  | Blocks => Blocks
  | Fault => Fault
  | Killed signal => Killed signal
  end.

(** [returned m]: the call came back, with whatever value. *)
Definition returned {A} (m : result A) : Prop :=
  match m with
  | Ret _ => True
  | _ => False
  end.

(** The lowest identifier, from [lo] upwards, that [m] does not use: the
    rule POSIX gives for file descriptors. *)
Definition alloc {A} (lo : Z) (m : gmap Z A) : Z :=
  default lo (head (filter (λ n, n ∉ dom m) (seqZ lo (Z.of_nat (size m) + 1)))).

(** The same for identifiers of kernel objects, which are natural numbers. *)
Definition alloc_nat {A} (m : gmap nat A) : nat := fresh (dom m).

(** [*p = v] on the caller's [int] objects: [p] must point to one. *)
Definition store (m : gmap Z Z) (p v : Z) : result (gmap Z Z) :=
  if decide (p = NULL) then Fault
  else match m !! p with
       | Some _ => Ret (<[p := v]> m)
       | None => Fault
       end.

(** ** [MultiByteToWideChar(CP_UTF8, 0, src, -1, dst, cch)]

    The transcoding itself is a parameter [decode] (UTF-8 bytes of a C
    string to UTF-16 code units).  With [cch = 0] the call only reports the
    size it needs, terminator included, and writes nothing; with a buffer
    that is too small (or a negative size) it fails and returns 0. *)
Definition MultiByteToWideChar (decode : string → list Z) (src : string) (cch : Z)
  : Z * option (list Z) :=
  let out := decode src ++ [0] in
  if decide (cch < 0) then (0, None)
  else if decide (cch = 0) then (Z.of_nat (length out), None)
  else if decide (Z.of_nat (length out) ≤ cch) then (Z.of_nat (length out), Some out)
  else (0, None).

(** The wide string a [wchar_t] array holds: the units before the first
    terminator; [None] when the array holds no terminator, so that a reader
    runs past its end. *)
Fixpoint wcs (buf : list Z) : option (list Z) :=
  match buf with
  | [] => None
  | c :: rest => if decide (c = 0) then Some [] else (c ::.) <$> wcs rest
  end.

(** [dst[n..] = ws], inside the array. *)
Definition write_at (buf : list Z) (n : Z) (ws : list Z) : list Z :=
  take (Z.to_nat n) buf ++ ws ++ drop (Z.to_nat n + length ws) buf.

(** [buf[n] = v], a [Fault] outside the array. *)
Definition poke (buf : list Z) (n v : Z) : result (list Z) :=
  if decide (0 ≤ n < Z.of_nat (length buf)) then Ret (<[Z.to_nat n := v]> buf)
  else Fault.

(* ===================================================================== *)
(** ** ps-exec.c, samples/ps-exec-wait.c: the UNIX branch                 *)
(* ===================================================================== *)
Module PsUnix.

(** Constants of <sys/wait.h>, <signal.h> and <errno.h> (Linux values). *)
Definition P_PID : Z := 1.
Definition WNOHANG : Z := 1.
Definition WEXITED : Z := 4.
Definition CLD_EXITED : Z := 1.
Definition CLD_KILLED : Z := 2.
Definition SIGKILL : Z := 9.
Definition ESRCH : Z := 3.
Definition ECHILD : Z := 10.
Definition EAGAIN : Z := 11.
Definition EINVAL : Z := 22.
Definition ETIMEDOUT : Z := 110.

(** [#define _PS_NULL (-1)], [#define ERR_TIMEDOUT ETIMEDOUT] *)
Definition _PS_NULL : Z := -1.
Definition ERR_TIMEDOUT : Z := ETIMEDOUT.

(** *** The kernel's side: child processes *)

(** A child of the calling process: executing a program, or terminated
    and not yet waited for, with the [si_code] and [si_status] that
    [waitid] will report.  A child that has been waited for has no entry. *)
Inductive pstate : Type :=
| Running (image : string) (args : list string)
| Zombie (code status : Z).

(** The fields of [siginfo_t] the program reads. *)
Record siginfo : Type := SigInfo { si_pid : Z; si_code : Z; si_status : Z }.

Record world : Type := World {
  procs : gmap Z pstate;   (* children of the caller, by process id *)
  exes : gset string;      (* the paths execve can execute *)
  nproc : nat;             (* how many children the caller may have *)
  intr : list Z;           (* errors that interrupt the coming blocking calls *)
  errno : Z;
  mem : gmap Z Z           (* the caller's int objects, by address *)
}.

Definition set_procs (f : gmap Z pstate → gmap Z pstate) (w : world) : world :=
  World (f (procs w)) (exes w) (nproc w) (intr w) (errno w) (mem w).
Definition set_intr (l : list Z) (w : world) : world :=
  World (procs w) (exes w) (nproc w) l (errno w) (mem w).
Definition set_errno (e : Z) (w : world) : world :=
  World (procs w) (exes w) (nproc w) (intr w) e (mem w).
Definition set_mem (m : gmap Z Z) (w : world) : world :=
  World (procs w) (exes w) (nproc w) (intr w) (errno w) m.

(** [execve] in a fresh child: the state the child is in once the image
    is replaced, or [None] when the call returns (it only returns on
    failure: no executable file at [filename]). *)
Definition sys_execve (w : world) (filename : string) (argv : list string) : option pstate :=
  if decide (filename ∈ exes w) then Some (Running filename argv) else None.

(** [_exit(status)]: the child terminates; the kernel keeps the low eight
    bits of the status. *)
Definition sys__exit (status : Z) : pstate := Zombie CLD_EXITED (Z.land status 255).

(** [vfork]: the parent is suspended until the child has called [execve]
    or [_exit]; [child] is what the code that sees [vfork() == 0] makes of
    the new process.  The parent then sees the child's id, or -1 when no
    process could be created.  A child that has called [_exit] is taken to
    have terminated when the parent goes on; the system may need a moment
    more, during which a poll still finds the child running. *)
Definition sys_vfork (w : world) (child : pstate) : world * Z :=
  if decide (size (procs w) < nproc w)%nat then
    let pid := alloc 2 (procs w) in
    (set_procs <[pid := child]> w, pid)
  else (set_errno EAGAIN w, -1).

(** [waitid(idtype, id, &s, options)]: the new world, the value returned
    and the contents of [s] afterwards.  With [WNOHANG] and the child
    still running the call returns 0 and leaves [s] alone. *)
Definition sys_waitid (w : world) (idtype id : Z) (s : siginfo) (options : Z)
  : result (world * Z * siginfo) :=
  if decide (idtype ≠ P_PID ∨ Z.land options WEXITED = 0) then
    Ret (set_errno EINVAL w, -1, s)
  else
    match procs w !! id with
    | None => Ret (set_errno ECHILD w, -1, s)
    | Some (Zombie c st) => Ret (set_procs (delete id) w, 0, SigInfo id c st)
    | Some (Running _ _) =>
        if decide (Z.land options WNOHANG ≠ 0) then Ret (w, 0, s)
        else match intr w with
             | e :: rest => Ret (set_errno e (set_intr rest w), -1, s)
             | [] => Blocks
             end
    end.

(** [kill(pid, sig)] with a signal whose action is to terminate. *)
Definition sys_kill (w : world) (pid sig : Z) : world * Z :=
  match procs w !! pid with
  | None => (set_errno ESRCH w, -1)
  | Some (Running _ _) => (set_procs <[pid := Zombie CLD_KILLED sig]> w, 0)
  | Some (Zombie _ _) => (w, 0)
  end.

(** What the child does on its own, seen from the parent: it calls
    [exit(status)], or some signal [sig] terminates it. *)
Definition child_exits (w : world) (pid status : Z) : world :=
  match procs w !! pid with
  | Some (Running _ _) => set_procs <[pid := sys__exit status]> w
  | _ => w
  end.
Definition child_killed (w : world) (pid sig : Z) : world := fst (sys_kill w pid sig).

(** *** The program *)

(** ps-exec.c:60-69, ps-exec-wait.c:97-106.  The parent returns what
    [vfork] gave it ([p != 0]); the child ([p == 0]) calls [execve] and,
    when that returns, [_exit(255)]. *)
Definition ps_exec (w : world) (filename : string) (argv : list string) : world * Z :=
  sys_vfork w
    (match sys_execve w filename argv with
     | Some running => running
     | None => sys__exit 255
     end).

(** ps-exec-wait.c:109-112: [(void)p;] *)
Definition ps_close (w : world) (p : Z) : world := w.

(** ps-exec-wait.c:120-140. *)
Definition ps_wait (w : world) (p block exit_code : Z) : result (world * Z) :=
  let s := SigInfo 0 0 0 in
  let f := if decide (block = 0) then WNOHANG else 0 in
  '(w, r, s) ← sys_waitid w P_PID (to_uint p) s (Z.lor WEXITED f);
  if decide (r ≠ 0) then Ret (w, -1)
  else if decide (si_pid s = 0) then Ret (set_errno ETIMEDOUT w, -1)
  else
    m ← (if decide (exit_code ≠ NULL) then
           if decide (si_code s = CLD_EXITED) then store (mem w) exit_code (si_status s)
           else store (mem w) exit_code (to_int (- si_status s))
         else Ret (mem w));
    Ret (set_mem m w, 0).

(** ps-exec-wait.c:143-146. *)
Definition ps_kill (w : world) (p : Z) : world * Z := sys_kill w p SIGKILL.

(** ps-exec-wait.c:149-152. *)
Definition ps_id (p : Z) : Z := to_uint p.

(** ps-exec-wait.c:154-157. *)
Definition err_last (w : world) : Z := errno w.

End PsUnix.

(* ===================================================================== *)
(** ** ps-exec.c, samples/ps-exec-wait.c: the Windows branch              *)
(* ===================================================================== *)
Module PsWin.

(** Constants of <windows.h>. *)
Definition WAIT_OBJECT_0 : Z := 0.
Definition WAIT_TIMEOUT : Z := 258.
Definition WAIT_FAILED : Z := 4294967295.
Definition INFINITE : Z := 4294967295.
Definition STILL_ACTIVE : Z := 259.
Definition ERROR_FILE_NOT_FOUND : Z := 2.
Definition ERROR_ACCESS_DENIED : Z := 5.
Definition ERROR_INVALID_HANDLE : Z := 6.
Definition WSAETIMEDOUT : Z := 10060.
Definition INVALID_HANDLE_VALUE : Z := -1.

(** [#define _PS_NULL INVALID_HANDLE_VALUE], [#define ERR_TIMEDOUT WSAETIMEDOUT] *)
Definition _PS_NULL : Z := INVALID_HANDLE_VALUE.
Definition ERR_TIMEDOUT : Z := WSAETIMEDOUT.

(** *** The kernel's side: process objects behind handles *)

(** A process object: running an image with a command line, or exited
    with a 32-bit exit code (whatever was given to [ExitProcess] or to
    [TerminateProcess]). *)
Inductive wproc : Type :=
| WRunning (image cmdline : list Z)
| WExited (code : Z).

Inductive hobj : Type :=
| HProcess (p : wproc)
| HThread.

Record world : Type := World {
  handles : gmap Z hobj;     (* the caller's open handles *)
  exes : gset (list Z);      (* the paths CreateProcessW can start *)
  inject : list Z;           (* errors the coming CreateProcessW calls fail with; 0: none *)
  last_error : Z;
  mem : gmap Z Z             (* the caller's int objects, by address *)
}.

Definition set_handles (f : gmap Z hobj → gmap Z hobj) (w : world) : world :=
  World (f (handles w)) (exes w) (inject w) (last_error w) (mem w).
Definition set_inject (l : list Z) (w : world) : world :=
  World (handles w) (exes w) l (last_error w) (mem w).
Definition sys_SetLastError (w : world) (e : Z) : world :=
  World (handles w) (exes w) (inject w) e (mem w).
Definition set_mem (m : gmap Z Z) (w : world) : world :=
  World (handles w) (exes w) (inject w) (last_error w) m.

(** [CreateProcessW(app, cmdline, ..., &info)]: the new world, the [BOOL]
    returned, and [info.hProcess], [info.hThread]. *)
Definition sys_CreateProcessW (w : world) (app cmdline : list Z) : world * Z * Z * Z :=
  let fail e w := (sys_SetLastError w e, 0, INVALID_HANDLE_VALUE, INVALID_HANDLE_VALUE) in
  let go w :=
    if decide (app ∈ exes w) then
      let hp := alloc 4 (handles w) in
      let w := set_handles <[hp := HProcess (WRunning app cmdline)]> w in
      let ht := alloc 4 (handles w) in
      (set_handles <[ht := HThread]> w, 1, hp, ht)
    else fail ERROR_FILE_NOT_FOUND w in
  match inject w with
  | [] => go w
  | e :: rest => if decide (e = 0) then go (set_inject rest w) else fail e (set_inject rest w)
  end.

(** [CloseHandle(h)] *)
Definition sys_CloseHandle (w : world) (h : Z) : world * Z :=
  match handles w !! h with
  | Some _ => (set_handles (delete h) w, 1)
  | None => (sys_SetLastError w ERROR_INVALID_HANDLE, 0)
  end.

(** [WaitForSingleObject(h, ms)], the [DWORD] it returns. *)
Definition sys_WaitForSingleObject (w : world) (h ms : Z) : result (world * Z) :=
  match handles w !! h with
  | Some (HProcess (WExited _)) => Ret (w, WAIT_OBJECT_0)
  | Some _ => if decide (ms = INFINITE) then Blocks else Ret (w, WAIT_TIMEOUT)
  | None => Ret (sys_SetLastError w ERROR_INVALID_HANDLE, WAIT_FAILED)
  end.

(** [GetExitCodeProcess(h, lpExitCode)]: the exit code is stored where
    [lpExitCode] points; seen through an [int *] it reads as [to_int]. *)
Definition sys_GetExitCodeProcess (w : world) (h lpExitCode : Z) : result (world * Z) :=
  match handles w !! h with
  | Some (HProcess (WExited c)) => m ← store (mem w) lpExitCode (to_int c); Ret (set_mem m w, 1)
  | Some (HProcess (WRunning _ _)) =>
      m ← store (mem w) lpExitCode (to_int STILL_ACTIVE); Ret (set_mem m w, 1)
  | _ => Ret (sys_SetLastError w ERROR_INVALID_HANDLE, 0)
  end.

(** [TerminateProcess(h, uExitCode)] *)
Definition sys_TerminateProcess (w : world) (h code : Z) : world * Z :=
  match handles w !! h with
  | Some (HProcess (WRunning _ _)) => (set_handles <[h := HProcess (WExited code)]> w, 1)
  | Some (HProcess (WExited _)) => (sys_SetLastError w ERROR_ACCESS_DENIED, 0)
  | _ => (sys_SetLastError w ERROR_INVALID_HANDLE, 0)
  end.

(** What the child does on its own: [ExitProcess(code)]. *)
Definition child_exits (w : world) (h code : Z) : world :=
  match handles w !! h with
  | Some (HProcess (WRunning _ _)) => set_handles <[h := HProcess (WExited (to_uint code))]> w
  | _ => w
  end.

(** *** The program *)

(** ps-exec.c:18-29, ps-exec-wait.c:20-31: the loop over [argv] that fills
    [wargs].  [i] is the loop index, [n] the number of units written so far;
    [None] is the [return _PS_NULL] inside the loop. *)
Fixpoint join_args (decode : string → list Z) (argv : list string) (i : Z)
    (wargs : list Z) (n : Z) : result (option (list Z * Z)) :=
  match argv with
  | [] => Ret (Some (wargs, n))
  | arg :: argv =>
      '(wargs, n) ← (if decide (i ≠ 0)
                     then wargs ← poke wargs n 32; Ret (wargs, n + 1)
                     else Ret (wargs, n));
      let '(r, out) := MultiByteToWideChar decode arg (to_int (1000 - n)) in
      let wargs := from_option (write_at wargs n) wargs out in
      if decide (r = 0) then Ret None
      else
        let r := r - 1 in
        join_args decode argv (i + 1) wargs (n + r)
  end.

(** ps-exec.c:33-41, ps-exec-wait.c:33-42: the call of [CreateProcessW]
    and what follows it. *)
Definition spawn (w : world) (app cmdline : list Z) : world * Z :=
  let '(w, ok, hProcess, hThread) := sys_CreateProcessW w app cmdline in
  if decide (ok = 0) then (w, _PS_NULL)
  else (fst (sys_CloseHandle w hThread), hProcess).

(** ps-exec.c:12-41, ps-exec-wait.c:14-43.  [junk] is what the array
    [wargs] holds before the loop (it is not initialised).  The two
    arrays are read by [CreateProcessW] as wide strings. *)
Definition ps_exec (decode : string → list Z) (junk : list Z) (w : world)
    (filename : string) (argv : list string) : result (world * Z) :=
  let '(r, wfn) := MultiByteToWideChar decode filename 1000 in
  if decide (0 = r) then Ret (w, _PS_NULL)
  else
    args ← join_args decode argv 0 junk 0;
    match args with
    | None => Ret (w, _PS_NULL)
    | Some (wargs, _) =>
        match wfn ≫= wcs, wcs wargs with
        | Some app, Some cmdline => Ret (spawn w app cmdline)
        | _, _ => Fault
        end
    end.

(** ps-exec-wait.c:45-48. *)
Definition ps_close (w : world) (p : Z) : world := fst (sys_CloseHandle w p).

(** ps-exec-wait.c:50-64. *)
Definition ps_wait (w : world) (p block exit_code : Z) : result (world * Z) :=
  let timeout_ms := to_uint (if decide (block ≠ 0) then -1 else 0) in
  '(w, r) ← sys_WaitForSingleObject w p timeout_ms;
  let r := to_int r in
  if decide (r = WAIT_OBJECT_0) then
    w ← (if decide (exit_code ≠ NULL)
         then '(w, _) ← sys_GetExitCodeProcess w p exit_code; Ret w
         else Ret w);
    let w := fst (sys_CloseHandle w p) in
    Ret (w, 0)
  else if decide (r = WAIT_TIMEOUT) then Ret (sys_SetLastError w WSAETIMEDOUT, r)
  else Ret (w, r).

(** ps-exec-wait.c:66-69: [return !TerminateProcess(p, -9);] *)
Definition ps_kill (w : world) (p : Z) : world * Z :=
  let '(w, ok) := sys_TerminateProcess w p (to_uint (-9)) in
  (w, if decide (ok = 0) then 1 else 0).

(** ps-exec-wait.c:76-79. *)
Definition err_last (w : world) : Z := last_error w.

End PsWin.

(* ===================================================================== *)
(** ** pipe.c: the UNIX branch                                            *)
(* ===================================================================== *)
Module PipeUnix.

(** Constants of <errno.h> and <signal.h> (Linux values). *)
Definition EBADF : Z := 9.
Definition EMFILE : Z := 24.
Definition EPIPE : Z := 32.
Definition SIGPIPE : Z := 13.

(** [#define FFPIPE_NULL (-1)] *)
Definition FFPIPE_NULL : Z := -1.

(** *** The kernel's side: pipes behind file descriptors *)

(** What a descriptor of the caller is open on. *)
Inductive fdesc : Type :=
| FdRead (i : nat)      (* the read end of pipe [i] *)
| FdWrite (i : nat)     (* the write end of pipe [i] *)
| FdOther.              (* a terminal, a file, ... *)

(** A pipe: the bytes written and not yet read, oldest first, and which
    of its two ends are still open. *)
Record pipe_obj : Type := Pipe { pbuf : list byte; rd_open : bool; wr_open : bool }.

Record world : Type := World {
  fds : gmap Z fdesc;         (* the caller's descriptor table *)
  pipes : gmap nat pipe_obj;
  nofile : nat;               (* how many descriptors the caller may hold *)
  pipe_cap : nat;             (* capacity of a pipe, in bytes *)
  sigpipe_ignored : bool;     (* SIGPIPE is ignored: the program never sets its action,
                                 it has the one the process was started with *)
  errno : Z
}.

Definition set_fds (f : gmap Z fdesc → gmap Z fdesc) (w : world) : world :=
  World (f (fds w)) (pipes w) (nofile w) (pipe_cap w) (sigpipe_ignored w) (errno w).
Definition set_pipes (f : gmap nat pipe_obj → gmap nat pipe_obj) (w : world) : world :=
  World (fds w) (f (pipes w)) (nofile w) (pipe_cap w) (sigpipe_ignored w) (errno w).
Definition set_errno (e : Z) (w : world) : world :=
  World (fds w) (pipes w) (nofile w) (pipe_cap w) (sigpipe_ignored w) e.

(** [pipe(p)]: the value returned and the contents of the array [p]. *)
Definition sys_pipe (w : world) (p : Z * Z) : world * Z * (Z * Z) :=
  if decide (size (fds w) + 2 ≤ nofile w)%nat then
    let i := alloc_nat (pipes w) in
    let w := set_pipes <[i := Pipe [] true true]> w in
    let p0 := alloc 0 (fds w) in
    let w := set_fds <[p0 := FdRead i]> w in
    let p1 := alloc 0 (fds w) in
    let w := set_fds <[p1 := FdWrite i]> w in
    (w, 0, (p0, p1))
  else (set_errno EMFILE w, -1, p).

(** [read(fd, buf, size)]: the value returned and the bytes put in [buf].
    On a pipe: whatever is buffered, up to [size] bytes; 0 once the buffer
    is empty and the write end closed; otherwise the caller sleeps.  The
    write end of a pipe is not open for reading.  Of the other descriptors
    the model knows nothing but that they are open: nothing arrives on
    them, and a read from one sleeps. *)
Definition sys_read (w : world) (fd size : Z) : result (world * Z * list byte) :=
  match fds w !! fd with
  | Some (FdRead i) =>
      match pipes w !! i with
      | Some p =>
          match pbuf p with
          | [] => if wr_open p && negb (bool_decide (size = 0)) then Blocks else Ret (w, 0, [])
          | _ =>
              let n := Z.to_nat size in
              Ret (set_pipes <[i := Pipe (drop n (pbuf p)) (rd_open p) (wr_open p)]> w,
                   Z.of_nat (length (take n (pbuf p))), take n (pbuf p))
          end
      | None => Ret (set_errno EBADF w, -1, [])
      end
  | Some (FdWrite _) => Ret (set_errno EBADF w, -1, [])
  | Some FdOther => Blocks
  | None => Ret (set_errno EBADF w, -1, [])
  end.

(** [write(fd, buf, size)] with [data] the [size] bytes at [buf].  A write
    of no byte returns 0.  A write to a pipe returns once every byte is in
    the pipe; with no reader left the caller is sent [SIGPIPE], which
    terminates it unless the signal is ignored, and then the call fails
    with [EPIPE].  The read end of a pipe is not open for writing; the
    other descriptors take what is written to them. *)
Definition sys_write (w : world) (fd : Z) (data : list byte) : result (world * Z) :=
  match fds w !! fd with
  | Some (FdWrite i) =>
      match pipes w !! i with
      | Some p =>
          match data with
          | [] => Ret (w, 0)
          | _ =>
              if negb (rd_open p) then
                if sigpipe_ignored w then Ret (set_errno EPIPE w, -1) else Killed SIGPIPE
              else if decide (length (pbuf p) + length data ≤ pipe_cap w)%nat then
                Ret (set_pipes <[i := Pipe (pbuf p ++ data) (rd_open p) (wr_open p)]> w,
                     Z.of_nat (length data))
              else Blocks
          end
      | None => Ret (set_errno EBADF w, -1)
      end
  | Some (FdRead _) => Ret (set_errno EBADF w, -1)
  | Some FdOther => Ret (w, Z.of_nat (length data))
  | None => Ret (set_errno EBADF w, -1)
  end.

(** [close(fd)] *)
Definition sys_close (w : world) (fd : Z) : world * Z :=
  match fds w !! fd with
  | Some d =>
      let w := set_fds (delete fd) w in
      let shut i (f : pipe_obj → pipe_obj) := set_pipes (alter f i) w in
      (match d with
       | FdRead i => shut i (λ p, Pipe (pbuf p) false (wr_open p))
       | FdWrite i => shut i (λ p, Pipe (pbuf p) (rd_open p) false)
       | FdOther => w
       end, 0)
  | None => (set_errno EBADF w, -1)
  end.

(** *** The program *)

(** pipe.c:50-58.  [rd], [wr]: what the two objects pointed to hold
    before the call; they are only assigned on success. *)
Definition pipe_create (w : world) (rd wr : Z) : world * Z * Z * Z :=
  let '(w, r, (p0, p1)) := sys_pipe w (0, 0) in
  if decide (0 ≠ r) then (w, -1, rd, wr)
  else (w, 0, p0, p1).

(** pipe.c:61-64. *)
Definition pipe_close (w : world) (p : Z) : world := fst (sys_close w p).

(** pipe.c:69-72. *)
Definition pipe_read (w : world) (p size : Z) : result (world * Z * list byte) :=
  sys_read w p size.

(** pipe.c:77-80. *)
Definition pipe_write (w : world) (p : Z) (data : list byte) : result (world * Z) :=
  sys_write w p data.

(** Successive calls of [pipe_write] on [p], one per chunk: the values
    returned. *)
Fixpoint write_seq (w : world) (p : Z) (chunks : list (list byte)) : result (world * list Z) :=
  match chunks with
  | [] => Ret (w, [])
  | d :: chunks =>
      '(w, n) ← pipe_write w p d;
      '(w, ns) ← write_seq w p chunks;
      Ret (w, n :: ns)
  end.

(** Successive calls of [pipe_read] on [p], one per buffer size: the
    value returned by each with the bytes it delivered. *)
Fixpoint read_seq (w : world) (p : Z) (sizes : list Z) : result (world * list (Z * list byte)) :=
  match sizes with
  | [] => Ret (w, [])
  | c :: sizes =>
      '(w, n, d) ← pipe_read w p c;
      '(w, rs) ← read_seq w p sizes;
      Ret (w, (n, d) :: rs)
  end.

End PipeUnix.

(* ===================================================================== *)
(** ** pipe.c: the Windows branch                                         *)
(* ===================================================================== *)
Module PipeWin.

(** Constants of <windows.h>. *)
Definition ERROR_TOO_MANY_OPEN_FILES : Z := 4.
Definition ERROR_ACCESS_DENIED : Z := 5.
Definition ERROR_INVALID_HANDLE : Z := 6.
Definition ERROR_BROKEN_PIPE : Z := 109.
Definition ERROR_NO_DATA : Z := 232.
Definition INVALID_HANDLE_VALUE : Z := -1.

(** [#define FFPIPE_NULL INVALID_HANDLE_VALUE] *)
Definition FFPIPE_NULL : Z := INVALID_HANDLE_VALUE.

(** *** The kernel's side: pipes behind handles *)

Inductive hobj : Type :=
| HRead (i : nat)       (* the read end of pipe [i] *)
| HWrite (i : nat)      (* the write end of pipe [i] *)
| HOther.               (* a console, a file, ... *)

Record pipe_obj : Type := Pipe { pbuf : list byte; rd_open : bool; wr_open : bool }.

Record world : Type := World {
  handles : gmap Z hobj;
  pipes : gmap nat pipe_obj;
  quota : nat;                (* how many handles the caller may hold *)
  pipe_cap : nat;
  last_error : Z
}.

Definition set_handles (f : gmap Z hobj → gmap Z hobj) (w : world) : world :=
  World (f (handles w)) (pipes w) (quota w) (pipe_cap w) (last_error w).
Definition set_pipes (f : gmap nat pipe_obj → gmap nat pipe_obj) (w : world) : world :=
  World (handles w) (f (pipes w)) (quota w) (pipe_cap w) (last_error w).
Definition sys_SetLastError (w : world) (e : Z) : world :=
  World (handles w) (pipes w) (quota w) (pipe_cap w) e.
Definition sys_GetLastError (w : world) : Z := last_error w.

(** [CreatePipe(&rd, &wr, NULL, 0)]: the [BOOL] returned and the two
    handles; [rd], [wr] are left alone on failure. *)
Definition sys_CreatePipe (w : world) (rd wr : Z) : world * Z * Z * Z :=
  if decide (size (handles w) + 2 ≤ quota w)%nat then
    let i := alloc_nat (pipes w) in
    let w := set_pipes <[i := Pipe [] true true]> w in
    let hr := alloc 4 (handles w) in
    let w := set_handles <[hr := HRead i]> w in
    let hw := alloc 4 (handles w) in
    let w := set_handles <[hw := HWrite i]> w in
    (w, 1, hr, hw)
  else (sys_SetLastError w ERROR_TOO_MANY_OPEN_FILES, 0, rd, wr).

(** [ReadFile(h, buf, n, &rd, 0)] with [n] a [DWORD]: the [BOOL]
    returned, the count stored in [rd] and the bytes put in [buf].  On a
    pipe whose write end is closed and whose buffer is empty the call fails
    with [ERROR_BROKEN_PIPE].  The write end of a pipe is not open for
    reading.  Of the other handles the model knows nothing but that they
    are open: nothing arrives on them, and a read from one sleeps. *)
Definition sys_ReadFile (w : world) (h n : Z) : result (world * Z * Z * list byte) :=
  match handles w !! h with
  | Some (HRead i) =>
      match pipes w !! i with
      | Some p =>
          match pbuf p with
          | [] => if wr_open p then Blocks
                  else Ret (sys_SetLastError w ERROR_BROKEN_PIPE, 0, 0, [])
          | _ =>
              let n := Z.to_nat n in
              Ret (set_pipes <[i := Pipe (drop n (pbuf p)) (rd_open p) (wr_open p)]> w,
                   1, Z.of_nat (length (take n (pbuf p))), take n (pbuf p))
          end
      | None => Ret (sys_SetLastError w ERROR_INVALID_HANDLE, 0, 0, [])
      end
  | Some (HWrite _) => Ret (sys_SetLastError w ERROR_ACCESS_DENIED, 0, 0, [])
  | Some HOther => Blocks
  | None => Ret (sys_SetLastError w ERROR_INVALID_HANDLE, 0, 0, [])
  end.

(** [WriteFile(h, buf, n, &wr, 0)] with [data] the [n] bytes at [buf]: the
    [BOOL] returned and the count stored in [wr].  The read end of a pipe
    is not open for writing; the other handles take what is written to
    them. *)
Definition sys_WriteFile (w : world) (h : Z) (data : list byte) : result (world * Z * Z) :=
  match handles w !! h with
  | Some (HWrite i) =>
      match pipes w !! i with
      | Some p =>
          if negb (rd_open p) then Ret (sys_SetLastError w ERROR_NO_DATA, 0, 0)
          else if decide (length (pbuf p) + length data ≤ pipe_cap w)%nat then
            Ret (set_pipes <[i := Pipe (pbuf p ++ data) (rd_open p) (wr_open p)]> w,
                 1, Z.of_nat (length data))
          else Blocks
      | None => Ret (sys_SetLastError w ERROR_INVALID_HANDLE, 0, 0)
      end
  | Some (HRead _) => Ret (sys_SetLastError w ERROR_ACCESS_DENIED, 0, 0)
  | Some HOther => Ret (w, 1, Z.of_nat (length data))
  | None => Ret (sys_SetLastError w ERROR_INVALID_HANDLE, 0, 0)
  end.

(** [CloseHandle(h)] *)
Definition sys_CloseHandle (w : world) (h : Z) : world * Z :=
  match handles w !! h with
  | Some d =>
      let w := set_handles (delete h) w in
      let shut i (f : pipe_obj → pipe_obj) := set_pipes (alter f i) w in
      (match d with
       | HRead i => shut i (λ p, Pipe (pbuf p) false (wr_open p))
       | HWrite i => shut i (λ p, Pipe (pbuf p) (rd_open p) false)
       | HOther => w
       end, 1)
  | None => (sys_SetLastError w ERROR_INVALID_HANDLE, 0)
  end.

(** *** The program *)

(** pipe.c:12-15: [return !CreatePipe(rd, wr, NULL, 0);] *)
Definition pipe_create (w : world) (rd wr : Z) : world * Z * Z * Z :=
  let '(w, ok, rd, wr) := sys_CreatePipe w rd wr in
  (w, if decide (ok = 0) then 1 else 0, rd, wr).

(** pipe.c:17-20. *)
Definition pipe_close (w : world) (p : Z) : world := fst (sys_CloseHandle w p).

(** pipe.c:22-31.  [cap] is a [size_t] and [ReadFile] takes a [DWORD]:
    only the low 32 bits of [cap] reach the call (where [size_t] has 64
    bits, a capacity of 2^32 asks for no byte at all). *)
Definition pipe_read (w : world) (p cap : Z) : result (world * Z * list byte) :=
  '(w, ok, rd, data) ← sys_ReadFile w p (to_uint cap);
  if decide (ok = 0) then
    if decide (sys_GetLastError w = ERROR_BROKEN_PIPE) then Ret (w, 0, [])
    else Ret (w, -1, [])
  else Ret (w, rd, data).

(** pipe.c:33-39.  [size] is a [size_t] and [WriteFile] takes a [DWORD]:
    of the [size] bytes at [data] the call is given as many as the low 32
    bits of [size] say. *)
Definition pipe_write (w : world) (p : Z) (data : list byte) : result (world * Z) :=
  let size := Z.of_nat (length data) in
  '(w, ok, wr) ← sys_WriteFile w p (take (Z.to_nat (to_uint size)) data);
  if decide (ok = 0) then Ret (w, -1)
  else Ret (w, wr).

(** Successive calls of [pipe_write] and of [pipe_read], as for the UNIX
    branch. *)
Fixpoint write_seq (w : world) (p : Z) (chunks : list (list byte)) : result (world * list Z) :=
  match chunks with
  | [] => Ret (w, [])
  | d :: chunks =>
      '(w, n) ← pipe_write w p d;
      '(w, ns) ← write_seq w p chunks;
      Ret (w, n :: ns)
  end.

Fixpoint read_seq (w : world) (p : Z) (sizes : list Z) : result (world * list (Z * list byte)) :=
  match sizes with
  | [] => Ret (w, [])
  | c :: sizes =>
      '(w, n, d) ← pipe_read w p c;
      '(w, rs) ← read_seq w p sizes;
      Ret (w, (n, d) :: rs)
  end.

End PipeWin.

(* ===================================================================== *)
(** ** samples-sys/pipe-named.c: the UNIX branch                          *)
(* ===================================================================== *)
Module NamedUnix.

(** Constants of <errno.h> (Linux values). *)
Definition ENOENT : Z := 2.
Definition EBADF : Z := 9.
Definition EINVAL : Z := 22.
Definition EPIPE : Z := 32.
Definition EADDRINUSE : Z := 98.
Definition ECONNREFUSED : Z := 111.

(** [#define PIPE_NULL (-1)] *)
Definition PIPE_NULL : Z := -1.

(** *** The kernel's side: UNIX-domain stream sockets *)

(** What a descriptor of the caller is open on. *)
Inductive sock : Type :=
| SockFresh                          (* socket(): neither bound nor connected *)
| SockBound (path : string)          (* bind() *)
| SockListen (l : nat)               (* listen(): listener [l] *)
| SockConn (c : nat) (server : bool) (* one end of connection [c] *).

(** A connection: the bytes in flight in each direction, oldest first,
    and which of its two ends are still open. *)
Record conn : Type := Conn {
  c2s : list byte;
  s2c : list byte;
  srv_open : bool;
  cli_open : bool
}.

Record world : Type := World {
  fds : gmap Z sock;                 (* the caller's descriptor table *)
  paths : gmap string (option nat);  (* socket files: [Some l] while listener [l] serves it *)
  queues : gmap nat (list nat);      (* per listener: connections made, not yet accepted *)
  conns : gmap nat conn;
  inject : list Z;                   (* errors the coming calls fail with; 0: none *)
  errno : Z
}.

Definition set_fds (f : gmap Z sock → gmap Z sock) (w : world) : world :=
  World (f (fds w)) (paths w) (queues w) (conns w) (inject w) (errno w).
Definition set_paths (f : gmap string (option nat) → gmap string (option nat)) (w : world)
  : world :=
  World (fds w) (f (paths w)) (queues w) (conns w) (inject w) (errno w).
Definition set_queues (f : gmap nat (list nat) → gmap nat (list nat)) (w : world) : world :=
  World (fds w) (paths w) (f (queues w)) (conns w) (inject w) (errno w).
Definition set_conns (f : gmap nat conn → gmap nat conn) (w : world) : world :=
  World (fds w) (paths w) (queues w) (f (conns w)) (inject w) (errno w).
Definition set_inject (l : list Z) (w : world) : world :=
  World (fds w) (paths w) (queues w) (conns w) l (errno w).
Definition set_errno (e : Z) (w : world) : world :=
  World (fds w) (paths w) (queues w) (conns w) (inject w) e.

(** The error, if any, the environment makes the coming call fail with
    (no descriptor left, no memory, no permission, ...). *)
Definition pop_fault (w : world) : world * Z :=
  match inject w with
  | [] => (w, 0)
  | e :: rest => (set_inject rest w, e)
  end.

(** [socket(AF_UNIX, SOCK_STREAM, 0)] *)
Definition sys_socket (w : world) : world * Z :=
  let '(w, e) := pop_fault w in
  if decide (e ≠ 0) then (set_errno e w, -1)
  else
    let fd := alloc 0 (fds w) in
    (set_fds <[fd := SockFresh]> w, fd).

(** [bind(fd, &a, sizeof a)] with [a.sun_path = path]: creates the socket
    file, and fails when the name is taken. *)
Definition sys_bind (w : world) (fd : Z) (path : string) : world * Z :=
  let '(w, e) := pop_fault w in
  if decide (e ≠ 0) then (set_errno e w, -1)
  else
    match fds w !! fd with
    | Some SockFresh =>
        match paths w !! path with
        | Some _ => (set_errno EADDRINUSE w, -1)
        | None => (set_paths <[path := None]> (set_fds <[fd := SockBound path]> w), 0)
        end
    | Some _ => (set_errno EINVAL w, -1)
    | None => (set_errno EBADF w, -1)
    end.

(** [listen(fd, backlog)].  The queue of the model has no bound: what the
    backlog does to a [connect] that finds the queue full is left out. *)
Definition sys_listen (w : world) (fd : Z) : world * Z :=
  let '(w, e) := pop_fault w in
  if decide (e ≠ 0) then (set_errno e w, -1)
  else
    match fds w !! fd with
    | Some (SockBound path) =>
        let l := alloc_nat (queues w) in
        (set_paths (alter (λ _, Some l) path)
           (set_queues <[l := []]> (set_fds <[fd := SockListen l]> w)), 0)
    | Some (SockListen _) => (w, 0)
    | Some _ => (set_errno EINVAL w, -1)
    | None => (set_errno EBADF w, -1)
    end.

(** [connect(fd, &a, sizeof a)] with [a.sun_path = path]: on success the
    connection exists and waits in the listener's queue. *)
Definition sys_connect (w : world) (fd : Z) (path : string) : world * Z :=
  let '(w, e) := pop_fault w in
  if decide (e ≠ 0) then (set_errno e w, -1)
  else
    match fds w !! fd with
    | Some SockFresh =>
        match paths w !! path with
        | None => (set_errno ENOENT w, -1)
        | Some None => (set_errno ECONNREFUSED w, -1)
        | Some (Some l) =>
            match queues w !! l with
            | None => (set_errno ECONNREFUSED w, -1)
            | Some q =>
                let c := alloc_nat (conns w) in
                (set_conns <[c := Conn [] [] true true]>
                   (set_queues <[l := q ++ [c]]> (set_fds <[fd := SockConn c false]> w)), 0)
            end
        end
    | Some _ => (set_errno EINVAL w, -1)
    | None => (set_errno EBADF w, -1)
    end.

(** [accept(fd, NULL, NULL)]: a new descriptor on the oldest connection
    of the queue; the caller sleeps while the queue is empty. *)
Definition sys_accept (w : world) (fd : Z) : result (world * Z) :=
  let '(w, e) := pop_fault w in
  if decide (e ≠ 0) then Ret (set_errno e w, -1)
  else
    match fds w !! fd with
    | Some (SockListen l) =>
        match queues w !! l with
        | Some (c :: q) =>
            let nfd := alloc 0 (fds w) in
            Ret (set_queues <[l := q]> (set_fds <[nfd := SockConn c true]> w), nfd)
        | Some [] => Blocks
        | None => Ret (set_errno EINVAL w, -1)
        end
    | Some _ => Ret (set_errno EINVAL w, -1)
    | None => Ret (set_errno EBADF w, -1)
    end.

(** The bytes travelling towards the [server] end of [k], and whether the
    peer of that end is still open. *)
Definition inbound (server : bool) (k : conn) : list byte := if server then c2s k else s2c k.
Definition peer_open (server : bool) (k : conn) : bool := if server then cli_open k else srv_open k.
Definition set_inbound (server : bool) (l : list byte) (k : conn) : conn :=
  if server then Conn l (s2c k) (srv_open k) (cli_open k)
  else Conn (c2s k) l (srv_open k) (cli_open k).
Definition shut (server : bool) (k : conn) : conn :=
  if server then Conn (c2s k) (s2c k) false (cli_open k)
  else Conn (c2s k) (s2c k) (srv_open k) false.

(** [read(fd, buf, size)] *)
Definition sys_read (w : world) (fd size : Z) : result (world * Z * list byte) :=
  match fds w !! fd with
  | Some (SockConn c server) =>
      match conns w !! c with
      | Some k =>
          match inbound server k with
          | [] => if peer_open server k && negb (bool_decide (size = 0)) then Blocks
                  else Ret (w, 0, [])
          | data =>
              let n := Z.to_nat size in
              Ret (set_conns <[c := set_inbound server (drop n data) k]> w,
                   Z.of_nat (length (take n data)), take n data)
          end
      | None => Ret (set_errno EBADF w, -1, [])
      end
  | Some _ => Ret (set_errno EINVAL w, -1, [])
  | None => Ret (set_errno EBADF w, -1, [])
  end.

(** [write(fd, buf, size)] with [data] the [size] bytes at [buf].  The
    signal [SIGPIPE] is taken as ignored: with its default action a write
    to a connection whose peer has closed ends the process instead of
    failing with [EPIPE]. *)
Definition sys_write (w : world) (fd : Z) (data : list byte) : world * Z :=
  match fds w !! fd with
  | Some (SockConn c server) =>
      match conns w !! c with
      | Some k =>
          if negb (peer_open server k) then (set_errno EPIPE w, -1)
          else
            (set_conns <[c := set_inbound (negb server) (inbound (negb server) k ++ data) k]> w,
             Z.of_nat (length data))
      | None => (set_errno EBADF w, -1)
      end
  | Some _ => (set_errno EINVAL w, -1)
  | None => (set_errno EBADF w, -1)
  end.

(** [close(fd)].  Closing a listener refuses the connections still in its
    queue and leaves the socket file behind, with nobody serving it.
    Closing an end of a connection only shuts that end: the reset that the
    peer is told of when the end had unread data is left out. *)
Definition sys_close (w : world) (fd : Z) : world * Z :=
  match fds w !! fd with
  | Some d =>
      let w := set_fds (delete fd) w in
      (match d with
       | SockConn c server => set_conns (alter (shut server) c) w
       | SockListen l =>
           let q := default [] (queues w !! l) in
           set_conns (λ m, foldr (alter (shut true)) m q)
             (set_queues (delete l)
                (set_paths (fmap (λ o, if decide (o = Some l) then None else o)) w))
       | _ => w
       end, 0)
  | None => (set_errno EBADF w, -1)
  end.

(** [unlink(path)] *)
Definition sys_unlink (w : world) (path : string) : world * Z :=
  match paths w !! path with
  | Some _ => (set_paths (delete path) w, 0)
  | None => (set_errno ENOENT w, -1)
  end.

(** *** The program *)

Section Program.

(** [sizeof(a.sun_path)] of <sys/un.h>: 108 on Linux, 104 on the BSDs. *)
Variable sun_path_size : Z.

(** pipe-named.c:92-121. *)
Definition pipe_create_named (w : world) (name : string) : world * Z :=
  let len := Z.of_nat (String.length name) in
  if decide (len + 1 > sun_path_size) then (set_errno EINVAL w, -1)
  else
    let '(w, p) := sys_socket w in
    if decide (-1 = p) then (w, -1)
    else
      let '(w, r) := sys_bind w p name in
      if decide (0 ≠ r) then (fst (sys_close w p), -1)
      else
        let '(w, r) := sys_listen w p in
        if decide (0 ≠ r) then (fst (sys_close w p), -1)
        else (w, p).

(** pipe-named.c:137-161. *)
Definition pipe_connect (w : world) (name : string) : world * Z :=
  let len := Z.of_nat (String.length name) in
  if decide (len + 1 > sun_path_size) then (set_errno EINVAL w, -1)
  else
    let '(w, p) := sys_socket w in
    if decide (-1 = p) then (w, -1)
    else
      let '(w, r) := sys_connect w p name in
      if decide (0 ≠ r) then (fst (sys_close w p), -1)
      else (w, p).

End Program.

(** pipe-named.c:124-127. *)
Definition pipe_close (w : world) (p : Z) : world := fst (sys_close w p).

(** pipe-named.c:130-133. *)
Definition pipe_peer_close (w : world) (p : Z) : world := fst (sys_close w p).

(** pipe-named.c:168-171. *)
Definition pipe_accept (w : world) (listen_pipe : Z) : result (world * Z) :=
  sys_accept w listen_pipe.

(** pipe-named.c:176-179. *)
Definition pipe_read (w : world) (p size : Z) : result (world * Z * list byte) :=
  sys_read w p size.

(** pipe-named.c:184-187. *)
Definition pipe_write (w : world) (p : Z) (data : list byte) : world * Z :=
  sys_write w p data.

(** One use of a connection, and what its caller observes of it. *)
Inductive io : Type :=
| Read (size : Z)
| Write (data : list byte).

Definition do_io (w : world) (p : Z) (op : io) : result (world * (Z * list byte)) :=
  match op with
  | Read size => '(w, n, d) ← pipe_read w p size; Ret (w, (n, d))
  | Write data => let '(w, n) := pipe_write w p data in Ret (w, (n, []))
  end.

(** A run of uses of [p], up to the first that does not return. *)
Fixpoint io_seq (w : world) (p : Z) (ops : list io) : list (Z * list byte) :=
  match ops with
  | [] => []
  | op :: ops =>
      match do_io w p op with
      | Ret (w, o) => o :: io_seq w p ops
      | _ => []
      end
  end.

End NamedUnix.

(* ===================================================================== *)
(** ** samples-sys/pipe-named.c: the Windows branch                       *)
(* ===================================================================== *)
Module NamedWin.

(** Constants of <windows.h>. *)
Definition ERROR_FILE_NOT_FOUND : Z := 2.
Definition ERROR_ACCESS_DENIED : Z := 5.
Definition ERROR_INVALID_HANDLE : Z := 6.
Definition ERROR_BROKEN_PIPE : Z := 109.
Definition ERROR_PIPE_BUSY : Z := 231.
Definition ERROR_NO_DATA : Z := 232.
Definition ERROR_PIPE_NOT_CONNECTED : Z := 233.
Definition ERROR_PIPE_CONNECTED : Z := 535.
Definition ERROR_PIPE_LISTENING : Z := 536.
Definition INVALID_HANDLE_VALUE : Z := -1.

(** [#define PIPE_NULL INVALID_HANDLE_VALUE] *)
Definition PIPE_NULL : Z := INVALID_HANDLE_VALUE.

(** *** The kernel's side: instances of a named pipe *)

Inductive hobj : Type :=
| HServer (i : nat)    (* the server end of instance [i] *)
| HClient (i : nat)    (* the client end of instance [i] *)
| HDetached.           (* a client end whose server has disconnected it *)

#[global] Instance hobj_eq_dec : EqDecision hobj.
Proof. solve_decision. Defined.

(** The client end of an instance: nobody yet, a client, or a client
    that has closed its handle. *)
Inductive cstate : Type :=
| NoClient
| Attached
| Gone.

Record inst : Type := Inst {
  iname : list Z;
  client : cstate;
  c2s : list byte;
  s2c : list byte;
  srv_open : bool
}.

Record world : Type := World {
  handles : gmap Z hobj;
  names : gmap (list Z) nat;     (* pipe names, each with its (first) instance *)
  insts : gmap nat inst;
  inject : list Z;               (* errors the coming calls fail with; 0: none *)
  last_error : Z
}.

Definition set_handles (f : gmap Z hobj → gmap Z hobj) (w : world) : world :=
  World (f (handles w)) (names w) (insts w) (inject w) (last_error w).
Definition set_names (f : gmap (list Z) nat → gmap (list Z) nat) (w : world) : world :=
  World (handles w) (f (names w)) (insts w) (inject w) (last_error w).
Definition set_insts (f : gmap nat inst → gmap nat inst) (w : world) : world :=
  World (handles w) (names w) (f (insts w)) (inject w) (last_error w).
Definition set_inject (l : list Z) (w : world) : world :=
  World (handles w) (names w) (insts w) l (last_error w).
Definition sys_SetLastError (w : world) (e : Z) : world :=
  World (handles w) (names w) (insts w) (inject w) e.
Definition sys_GetLastError (w : world) : Z := last_error w.

Definition pop_fault (w : world) : world * Z :=
  match inject w with
  | [] => (w, 0)
  | e :: rest => (set_inject rest w, e)
  end.

(** [CreateNamedPipeW(name, PIPE_ACCESS_DUPLEX | FILE_FLAG_FIRST_PIPE_INSTANCE,
    ...)]: fails when the name already has an instance. *)
Definition sys_CreateNamedPipeW (w : world) (name : list Z) : world * Z :=
  let '(w, e) := pop_fault w in
  if decide (e ≠ 0) then (sys_SetLastError w e, INVALID_HANDLE_VALUE)
  else
    match names w !! name with
    | Some _ => (sys_SetLastError w ERROR_ACCESS_DENIED, INVALID_HANDLE_VALUE)
    | None =>
        let i := alloc_nat (insts w) in
        let h := alloc 4 (handles w) in
        (set_handles <[h := HServer i]>
           (set_insts <[i := Inst name NoClient [] [] true]> (set_names <[name := i]> w)), h)
    end.

(** [CreateFileW(name, GENERIC_READ | GENERIC_WRITE, ..., OPEN_EXISTING, ...)]
    on a pipe name: the client end of its instance, when that is free. *)
Definition sys_CreateFileW (w : world) (name : list Z) : world * Z :=
  let '(w, e) := pop_fault w in
  if decide (e ≠ 0) then (sys_SetLastError w e, INVALID_HANDLE_VALUE)
  else
    match names w !! name ≫= λ i, (i,.) <$> insts w !! i with
    | Some (i, k) =>
        match client k with
        | NoClient =>
            let h := alloc 4 (handles w) in
            (set_handles <[h := HClient i]>
               (set_insts <[i := Inst (iname k) Attached (c2s k) (s2c k) (srv_open k)]> w), h)
        | _ => (sys_SetLastError w ERROR_PIPE_BUSY, INVALID_HANDLE_VALUE)
        end
    | None => (sys_SetLastError w ERROR_FILE_NOT_FOUND, INVALID_HANDLE_VALUE)
    end.

(** [ConnectNamedPipe(h, NULL)]: waits for a client; fails with
    [ERROR_PIPE_CONNECTED] when one is attached already.  While the call
    waits, a client of another process may arrive (the next entry of
    [inject] is 0) or the wait may fail. *)
Definition sys_ConnectNamedPipe (w : world) (h : Z) : result (world * Z) :=
  match handles w !! h ≫= λ o, if o is HServer i then (i,.) <$> insts w !! i else None with
  | Some (i, k) =>
      match client k with
      | NoClient =>
          match inject w with
          | [] => Blocks
          | e :: rest =>
              let w := set_inject rest w in
              if decide (e ≠ 0) then Ret (sys_SetLastError w e, 0)
              else Ret (set_insts <[i := Inst (iname k) Attached (c2s k) (s2c k) (srv_open k)]> w, 1)
          end
      | Attached => Ret (sys_SetLastError w ERROR_PIPE_CONNECTED, 0)
      | Gone => Ret (sys_SetLastError w ERROR_NO_DATA, 0)
      end
  | None => Ret (sys_SetLastError w ERROR_INVALID_HANDLE, 0)
  end.

(** [DisconnectNamedPipe(h)]: the server end drops its client, whose
    handle is of no use any more; the instance can take a new client. *)
Definition sys_DisconnectNamedPipe (w : world) (h : Z) : world * Z :=
  match handles w !! h with
  | Some (HServer i) =>
      (set_handles (fmap (λ o, if decide (o = HClient i) then HDetached else o))
         (set_insts (alter (λ k, Inst (iname k) NoClient [] [] (srv_open k)) i) w), 1)
  | _ => (sys_SetLastError w ERROR_INVALID_HANDLE, 0)
  end.

(** [ReadFile(h, buf, cap, &rd, 0)]: the [BOOL] returned, the count stored
    in [rd] and the bytes put in [buf]. *)
Definition sys_ReadFile (w : world) (h cap : Z) : result (world * Z * Z * list byte) :=
  let fail e := Ret (sys_SetLastError w e, 0, 0, []) in
  let take_from i k (data : list byte) (put : list byte → inst) :=
    let n := Z.to_nat cap in
    Ret (set_insts <[i := put (drop n data)]> w, 1, Z.of_nat (length (take n data)), take n data) in
  match handles w !! h with
  | Some (HServer i) =>
      match insts w !! i with
      | Some k =>
          match c2s k, client k with
          | [], NoClient => fail ERROR_PIPE_LISTENING
          | [], Attached => Blocks
          | [], Gone => fail ERROR_BROKEN_PIPE
          | data, _ =>
              take_from i k data (λ l, Inst (iname k) (client k) l (s2c k) (srv_open k))
          end
      | None => fail ERROR_INVALID_HANDLE
      end
  | Some (HClient i) =>
      match insts w !! i with
      | Some k =>
          match s2c k with
          | [] => if srv_open k then Blocks else fail ERROR_BROKEN_PIPE
          | data =>
              take_from i k data (λ l, Inst (iname k) (client k) (c2s k) l (srv_open k))
          end
      | None => fail ERROR_INVALID_HANDLE
      end
  | Some HDetached => fail ERROR_PIPE_NOT_CONNECTED
  | None => fail ERROR_INVALID_HANDLE
  end.

(** [WriteFile(h, data, size, &wr, 0)]: the [BOOL] returned and the count
    stored in [wr]. *)
Definition sys_WriteFile (w : world) (h : Z) (data : list byte) : world * Z * Z :=
  let fail e := (sys_SetLastError w e, 0, 0) in
  match handles w !! h with
  | Some (HServer i) =>
      match insts w !! i with
      | Some k =>
          match client k with
          | NoClient => fail ERROR_PIPE_LISTENING
          | Gone => fail ERROR_NO_DATA
          | Attached =>
              (set_insts <[i := Inst (iname k) (client k) (c2s k) (s2c k ++ data) (srv_open k)]> w,
               1, Z.of_nat (length data))
          end
      | None => fail ERROR_INVALID_HANDLE
      end
  | Some (HClient i) =>
      match insts w !! i with
      | Some k =>
          if srv_open k then
            (set_insts <[i := Inst (iname k) (client k) (c2s k ++ data) (s2c k) (srv_open k)]> w,
             1, Z.of_nat (length data))
          else fail ERROR_NO_DATA
      | None => fail ERROR_INVALID_HANDLE
      end
  | Some HDetached => fail ERROR_PIPE_NOT_CONNECTED
  | None => fail ERROR_INVALID_HANDLE
  end.

(** [CloseHandle(h)].  With its server end closed an instance takes no
    client any more, and its name is free again. *)
Definition sys_CloseHandle (w : world) (h : Z) : world * Z :=
  match handles w !! h with
  | Some d =>
      let w := set_handles (delete h) w in
      (match d with
       | HServer i =>
           set_names (filter (λ kv, kv.2 ≠ i))
             (set_insts (alter (λ k, Inst (iname k) (client k) (c2s k) (s2c k) false) i) w)
       | HClient i =>
           set_insts (alter (λ k, Inst (iname k) Gone (c2s k) (s2c k) (srv_open k)) i) w
       | HDetached => w
       end, 1)
  | None => (sys_SetLastError w ERROR_INVALID_HANDLE, 0)
  end.

(** *** The program *)

Section Program.

(** The transcoding done by [MultiByteToWideChar]. *)
Variable decode : string → list Z.

(** pipe-named.c:14-24. *)
Definition pipe_create_named (w : world) (name : string) : world * Z :=
  let '(r, wbuf) := MultiByteToWideChar decode name 1000 in
  if decide (0 = r) then (w, INVALID_HANDLE_VALUE)
  else
    match wbuf ≫= wcs with
    | Some wname => sys_CreateNamedPipeW w wname
    | None => (w, INVALID_HANDLE_VALUE)
    end.

(** pipe-named.c:47-54. *)
Definition pipe_connect (w : world) (name : string) : world * Z :=
  let '(r, wbuf) := MultiByteToWideChar decode name 1000 in
  if decide (0 = r) then (w, INVALID_HANDLE_VALUE)
  else
    match wbuf ≫= wcs with
    | Some wname => sys_CreateFileW w wname
    | None => (w, INVALID_HANDLE_VALUE)
    end.

End Program.

(** pipe-named.c:26-29. *)
Definition pipe_close (w : world) (p : Z) : world := fst (sys_CloseHandle w p).

(** pipe-named.c:31-34. *)
Definition pipe_peer_close (w : world) (p : Z) : world := fst (sys_DisconnectNamedPipe w p).

(** pipe-named.c:36-45. *)
Definition pipe_accept (w : world) (listen_pipe : Z) : result (world * Z) :=
  '(w, b) ← sys_ConnectNamedPipe w listen_pipe;
  if decide (b = 0) then
    if decide (sys_GetLastError w = ERROR_PIPE_CONNECTED) then Ret (w, listen_pipe)
    else Ret (w, INVALID_HANDLE_VALUE)
  else Ret (w, listen_pipe).

(** pipe-named.c:56-65.  [cap] is a [size_t] and [ReadFile] takes a
    [DWORD]: only the low 32 bits of [cap] reach the call. *)
Definition pipe_read (w : world) (p cap : Z) : result (world * Z * list byte) :=
  '(w, ok, rd, data) ← sys_ReadFile w p (to_uint cap);
  if decide (ok = 0) then
    if decide (sys_GetLastError w = ERROR_BROKEN_PIPE) then Ret (w, 0, [])
    else Ret (w, -1, [])
  else Ret (w, rd, data).

(** pipe-named.c:67-73.  [size] is a [size_t] and [WriteFile] takes a
    [DWORD]: of the [size] bytes at [data] the call is given as many as the
    low 32 bits of [size] say. *)
Definition pipe_write (w : world) (p : Z) (data : list byte) : world * Z :=
  let size := Z.of_nat (length data) in
  let '(w, ok, wr) := sys_WriteFile w p (take (Z.to_nat (to_uint size)) data) in
  if decide (ok = 0) then (w, -1)
  else (w, wr).

End NamedWin.

(* ===================================================================== *)
(** ** samples-sys/semaphore.c: the UNIX branch                           *)
(* ===================================================================== *)
Module SemUnix.

(** Constants of <fcntl.h>, <semaphore.h> and <errno.h> (Linux values). *)
Definition O_CREAT : Z := 64.
Definition O_EXCL : Z := 128.
Definition SEM_FAILED : Z := 0.
Definition ENOENT : Z := 2.
Definition EEXIST : Z := 17.
Definition EINVAL : Z := 22.
Definition EOVERFLOW : Z := 75.

(** [#define CPSEM_NULL SEM_FAILED], [#define CPSEM_CREATE O_CREAT] *)
Definition CPSEM_NULL : Z := SEM_FAILED.
Definition CPSEM_CREATE : Z := O_CREAT.

(** *** The kernel's side: named semaphores *)

(** A [sem_t] object the caller has mapped: the semaphore behind it, and
    how often it has been opened again since: the C library keeps one
    object for each semaphore a process has open and counts the opens. *)
Record opened : Type := Opened { sem_of : nat; again : nat }.

Record world : Type := World {
  names : gmap string nat;   (* the names, each with its semaphore *)
  sems : gmap nat Z;         (* the value of each semaphore *)
  maps : gmap Z opened;      (* the sem_t objects the caller has open, by address *)
  inject : list Z;           (* errors the coming sem_open calls fail with; 0: none *)
  errno : Z
}.

Definition set_names (f : gmap string nat → gmap string nat) (w : world) : world :=
  World (f (names w)) (sems w) (maps w) (inject w) (errno w).
Definition set_sems (f : gmap nat Z → gmap nat Z) (w : world) : world :=
  World (names w) (f (sems w)) (maps w) (inject w) (errno w).
Definition set_maps (f : gmap Z opened → gmap Z opened) (w : world) : world :=
  World (names w) (sems w) (f (maps w)) (inject w) (errno w).
Definition set_inject (l : list Z) (w : world) : world :=
  World (names w) (sems w) (maps w) l (errno w).
Definition set_errno (e : Z) (w : world) : world :=
  World (names w) (sems w) (maps w) (inject w) e.

Definition pop_fault (w : world) : world * Z :=
  match inject w with
  | [] => (w, 0)
  | e :: rest => (set_inject rest w, e)
  end.

(** The value of the semaphore behind [sem], if [sem] is open. *)
Definition value_of (w : world) (sem : Z) : option Z :=
  maps w !! sem ≫= λ m, sems w !! sem_of m.

(** The object through which the caller has the semaphore [o] open, if it
    has; nothing is mapped at [SEM_FAILED]. *)
Definition mapped (w : world) (o : nat) : option (Z * opened) :=
  head (filter (λ am, am.1 ≠ SEM_FAILED ∧ sem_of am.2 = o) (map_to_list (maps w))).

Section Kernel.

(** [SEM_VALUE_MAX] of <limits.h>, and the names the system accepts
    (a leading slash, no further slash, at most [NAME_MAX - 4] bytes). *)
Variable SEM_VALUE_MAX : Z.
Variable name_ok : string → bool.

(** [sem_open(name, oflag, mode, value)].  A semaphore the caller has
    open already is not mapped again: the call returns the object it has
    and counts the open.  [value] plays a part only when the semaphore is
    created. *)
Definition sys_sem_open (w : world) (name : string) (oflag value : Z) : world * Z :=
  let '(w, e) := pop_fault w in
  if decide (e ≠ 0) then (set_errno e w, SEM_FAILED)
  else if negb (name_ok name) then (set_errno EINVAL w, SEM_FAILED)
  else
    let map_new o w := let a := alloc 4096 (maps w) in (set_maps <[a := Opened o 0]> w, a) in
    match names w !! name with
    | Some o =>
        if decide (Z.land oflag O_CREAT ≠ 0 ∧ Z.land oflag O_EXCL ≠ 0)
        then (set_errno EEXIST w, SEM_FAILED)
        else
          match mapped w o with
          | Some (a, m) => (set_maps <[a := Opened o (S (again m))]> w, a)
          | None => map_new o w
          end
    | None =>
        if decide (Z.land oflag O_CREAT = 0) then (set_errno ENOENT w, SEM_FAILED)
        else if decide (value > SEM_VALUE_MAX) then (set_errno EINVAL w, SEM_FAILED)
        else
          let o := alloc_nat (sems w) in
          map_new o (set_names <[name := o]> (set_sems <[o := value]> w))
    end.

(** [sem_post(sem)] *)
Definition sys_sem_post (w : world) (sem : Z) : world * Z :=
  match maps w !! sem ≫= λ m, (sem_of m,.) <$> sems w !! sem_of m with
  | Some (o, v) =>
      if decide (v < SEM_VALUE_MAX) then (set_sems <[o := v + 1]> w, 0)
      else (set_errno EOVERFLOW w, -1)
  | None => (set_errno EINVAL w, -1)
  end.

End Kernel.

(** [sem_wait(sem)] *)
Definition sys_sem_wait (w : world) (sem : Z) : result (world * Z) :=
  match maps w !! sem ≫= λ m, (sem_of m,.) <$> sems w !! sem_of m with
  | Some (o, v) => if decide (0 < v) then Ret (set_sems <[o := v - 1]> w, 0) else Blocks
  | None => Ret (set_errno EINVAL w, -1)
  end.

(** [sem_close(sem)]: the object goes with the last of its opens. *)
Definition sys_sem_close (w : world) (sem : Z) : world * Z :=
  match maps w !! sem with
  | Some (Opened o (S k)) => (set_maps <[sem := Opened o k]> w, 0)
  | Some (Opened _ O) => (set_maps (delete sem) w, 0)
  | None => (set_errno EINVAL w, -1)
  end.

(** [sem_unlink(name)]: the name goes, the semaphore stays for those who
    have it open. *)
Definition sys_sem_unlink (w : world) (name : string) : world * Z :=
  match names w !! name with
  | Some _ => (set_names (delete name) w, 0)
  | None => (set_errno ENOENT w, -1)
  end.

(** *** The program *)

Section Program.
Variable SEM_VALUE_MAX : Z.
Variable name_ok : string → bool.

(** semaphore.c:85-88: [return sem_open(name, flags, 0666, value);] *)
Definition cpsem_open (w : world) (name : string) (flags value : Z) : world * Z :=
  sys_sem_open SEM_VALUE_MAX name_ok w name (to_int flags) value.

(** semaphore.c:109-112. *)
Definition cpsem_post (w : world) (sem : Z) : world * Z := sys_sem_post SEM_VALUE_MAX w sem.

End Program.

(** semaphore.c:91-94. *)
Definition cpsem_close (w : world) (sem : Z) : world := fst (sys_sem_close w sem).

(** semaphore.c:97-100. *)
Definition cpsem_unlink (w : world) (name : string) : world * Z := sys_sem_unlink w name.

(** semaphore.c:103-106. *)
Definition cpsem_wait (w : world) (sem : Z) : result (world * Z) := sys_sem_wait w sem.

End SemUnix.

(* ===================================================================== *)
(** ** samples-sys/semaphore.c: the Windows branch                        *)
(* ===================================================================== *)
Module SemWin.

(** Constants of <windows.h>. *)
Definition ERROR_FILE_NOT_FOUND : Z := 2.
Definition ERROR_INVALID_HANDLE : Z := 6.
Definition ERROR_INVALID_PARAMETER : Z := 87.
Definition ERROR_ALREADY_EXISTS : Z := 183.
Definition ERROR_TOO_MANY_POSTS : Z := 298.
Definition WAIT_OBJECT_0 : Z := 0.
Definition WAIT_FAILED : Z := 4294967295.

(** [#define CPSEM_NULL NULL], [#define CPSEM_CREATE 1] *)
Definition CPSEM_NULL : Z := NULL.
Definition CPSEM_CREATE : Z := 1.

(** *** The kernel's side: semaphore objects behind handles *)

(** A semaphore object: its count and the maximum it was created with. *)
Record sem : Type := Sem { count : Z; maximum : Z }.

Record world : Type := World {
  handles : gmap Z nat;          (* the open handles, each with its object *)
  names : gmap (list Z) nat;     (* the named objects *)
  sems : gmap nat sem;
  inject : list Z;               (* errors the coming creations fail with; 0: none *)
  last_error : Z
}.

Definition set_handles (f : gmap Z nat → gmap Z nat) (w : world) : world :=
  World (f (handles w)) (names w) (sems w) (inject w) (last_error w).
Definition set_names (f : gmap (list Z) nat → gmap (list Z) nat) (w : world) : world :=
  World (handles w) (f (names w)) (sems w) (inject w) (last_error w).
Definition set_sems (f : gmap nat sem → gmap nat sem) (w : world) : world :=
  World (handles w) (names w) (f (sems w)) (inject w) (last_error w).
Definition set_inject (l : list Z) (w : world) : world :=
  World (handles w) (names w) (sems w) l (last_error w).
Definition sys_SetLastError (w : world) (e : Z) : world :=
  World (handles w) (names w) (sems w) (inject w) e.

Definition pop_fault (w : world) : world * Z :=
  match inject w with
  | [] => (w, 0)
  | e :: rest => (set_inject rest w, e)
  end.

(** The count of the semaphore behind [h], if [h] is open. *)
Definition value_of (w : world) (h : Z) : option Z :=
  count <$> (handles w !! h ≫= λ o, sems w !! o).

(** [CreateSemaphoreW(NULL, lInitialCount, lMaximumCount, name)].  The
    counts are checked first; for a name that exists the existing object
    is opened and the counts play no further part.  Every name is taken
    as one the system accepts: the limits it puts on object names (their
    length, the backslash) are left out. *)
Definition sys_CreateSemaphoreW (w : world) (lInitialCount lMaximumCount : Z) (name : list Z)
  : world * Z :=
  let '(w, e) := pop_fault w in
  if decide (e ≠ 0) then (sys_SetLastError w e, NULL)
  else if decide (lMaximumCount ≤ 0 ∨ lInitialCount < 0 ∨ lInitialCount > lMaximumCount)
  then (sys_SetLastError w ERROR_INVALID_PARAMETER, NULL)
  else
    let h := alloc 4 (handles w) in
    match names w !! name with
    | Some o => (sys_SetLastError (set_handles <[h := o]> w) ERROR_ALREADY_EXISTS, h)
    | None =>
        let o := alloc_nat (sems w) in
        (sys_SetLastError
           (set_handles <[h := o]>
              (set_names <[name := o]> (set_sems <[o := Sem lInitialCount lMaximumCount]> w))) 0,
         h)
    end.

(** [OpenSemaphoreW(SEMAPHORE_ALL_ACCESS, 0, name)] *)
Definition sys_OpenSemaphoreW (w : world) (name : list Z) : world * Z :=
  let '(w, e) := pop_fault w in
  if decide (e ≠ 0) then (sys_SetLastError w e, NULL)
  else
    match names w !! name with
    | Some o => let h := alloc 4 (handles w) in (set_handles <[h := o]> w, h)
    | None => (sys_SetLastError w ERROR_FILE_NOT_FOUND, NULL)
    end.

(** [WaitForSingleObject(h, INFINITE)] on a semaphore. *)
Definition sys_WaitForSingleObject (w : world) (h : Z) : result (world * Z) :=
  match handles w !! h ≫= λ o, (o,.) <$> sems w !! o with
  | Some (o, s) =>
      if decide (0 < count s) then Ret (set_sems <[o := Sem (count s - 1) (maximum s)]> w, WAIT_OBJECT_0)
      else Blocks
  | None => Ret (sys_SetLastError w ERROR_INVALID_HANDLE, WAIT_FAILED)
  end.

(** [ReleaseSemaphore(h, 1, NULL)] *)
Definition sys_ReleaseSemaphore (w : world) (h : Z) : world * Z :=
  match handles w !! h ≫= λ o, (o,.) <$> sems w !! o with
  | Some (o, s) =>
      if decide (count s + 1 ≤ maximum s) then (set_sems <[o := Sem (count s + 1) (maximum s)]> w, 1)
      else (sys_SetLastError w ERROR_TOO_MANY_POSTS, 0)
  | None => (sys_SetLastError w ERROR_INVALID_HANDLE, 0)
  end.

(** [CloseHandle(h)]: the object and its name go with its last handle. *)
Definition sys_CloseHandle (w : world) (h : Z) : world * Z :=
  match handles w !! h with
  | Some o =>
      let w := set_handles (delete h) w in
      (if decide (map_Forall (λ _ o', o' ≠ o) (handles w))
       then set_names (filter (λ kv, kv.2 ≠ o)) (set_sems (delete o) w)
       else w, 1)
  | None => (sys_SetLastError w ERROR_INVALID_HANDLE, 0)
  end.

(** *** The program *)

Section Program.

(** The transcoding done by [MultiByteToWideChar]. *)
Variable decode : string → list Z.

(** semaphore.c:15-28. *)
Definition cpsem_open (w : world) (name : string) (flags value : Z) : world * Z :=
  let '(r, wbuf) := MultiByteToWideChar decode name 1000 in
  if decide (0 = r) then (w, NULL)
  else
    match wbuf ≫= wcs with
    | Some wname =>
        if decide (flags = CPSEM_CREATE) then
          sys_CreateSemaphoreW w (to_int value) 65535 wname
        else if decide (flags = 0) then
          sys_OpenSemaphoreW w wname
        else (sys_SetLastError w ERROR_INVALID_PARAMETER, NULL)
    | None => (w, NULL)
    end.

End Program.

(** semaphore.c:30-33. *)
Definition cpsem_close (w : world) (sem : Z) : world := fst (sys_CloseHandle w sem).

(** semaphore.c:35-41. *)
Definition cpsem_wait (w : world) (sem : Z) : result (world * Z) :=
  '(w, r) ← sys_WaitForSingleObject w sem;
  let r := to_int r in
  if decide (r = WAIT_OBJECT_0) then Ret (w, 0)
  else Ret (w, r).

(** semaphore.c:43-47. *)
Definition cpsem_unlink (w : world) (name : string) : world * Z := (w, 0).

(** semaphore.c:49-52: [return !ReleaseSemaphore(sem, 1, NULL);] *)
Definition cpsem_post (w : world) (sem : Z) : world * Z :=
  let '(w, ok) := sys_ReleaseSemaphore w sem in
  (w, if decide (ok = 0) then 1 else 0).

End SemWin.

(* ===================================================================== *)
(** ** samples/signal-cpu-exception.c                                     *)
(* ===================================================================== *)

(** signal-cpu-exception.c:5-9: [struct sig_info]. *)
Record sig_info : Type := SigInfo { sig : Z; addr : Z; flags : Z }.

(** *** The UNIX branch *)
Module SigUnix.

(** Constants of <signal.h> and <errno.h> (Linux values). *)
Definition SIGILL : Z := 4.
Definition SIGFPE : Z := 8.
Definition SIGKILL : Z := 9.
Definition SIGSEGV : Z := 11.
Definition SIGSTOP : Z := 19.
(** The two signals below [SIGRTMIN] that the C library uses itself. *)
Definition SIGCANCEL : Z := 32.
Definition SIGSETXID : Z := 33.
Definition SA_SIGINFO : Z := 4.
Definition SA_ONSTACK : Z := 134217728.
Definition SA_RESETHAND : Z := 2147483648.
Definition SIGSTKSZ : Z := 8192.
Definition ENOMEM : Z := 12.
Definition EINVAL : Z := 22.

(** signal-cpu-exception.c:57-62: [enum CPSIG]. *)
Definition CPSIG_SEGV : Z := SIGSEGV.
Definition CPSIG_FPE : Z := SIGFPE.
Definition CPSIG_ILL : Z := SIGILL.
Definition CPSIG_STACK : Z := Z.lor 1073741824 SIGSEGV.

(** **** The kernel's side: signal actions *)

(** The fields of [siginfo_t] the handler reads. *)
Record siginfo : Type := KInfo { si_addr : Z; si_code : Z }.

(** A synchronous fault of the running thread: the signal it raises, what
    the kernel reports of it, and whether the thread's own stack is used
    up (so that a handler can only run on an alternate stack). *)
Record fault : Type := Fault_ { signo : Z; info : siginfo; stack_exhausted : bool }.

Record world : Type := World {
  actions : gmap Z Z;        (* signals caught by _sig_exc_handler, with their sa_flags;
                                every other signal has its default action *)
  altstack : option Z;       (* the alternate signal stack, if one is set *)
  _sig_userhandler : Z;      (* the program's global: address of the user's handler *)
  alive : bool;              (* the process has not been terminated *)
  inject : list Z;           (* errors the coming malloc / sigaltstack calls fail with; 0: none *)
  errno : Z
}.

Definition set_actions (f : gmap Z Z → gmap Z Z) (w : world) : world :=
  World (f (actions w)) (altstack w) (_sig_userhandler w) (alive w) (inject w) (errno w).
Definition set_altstack (s : option Z) (w : world) : world :=
  World (actions w) s (_sig_userhandler w) (alive w) (inject w) (errno w).
Definition set_userhandler (h : Z) (w : world) : world :=
  World (actions w) (altstack w) h (alive w) (inject w) (errno w).
Definition set_alive (b : bool) (w : world) : world :=
  World (actions w) (altstack w) (_sig_userhandler w) b (inject w) (errno w).
Definition set_inject (l : list Z) (w : world) : world :=
  World (actions w) (altstack w) (_sig_userhandler w) (alive w) l (errno w).
Definition set_errno (e : Z) (w : world) : world :=
  World (actions w) (altstack w) (_sig_userhandler w) (alive w) (inject w) e.

Definition pop_fault (w : world) : world * Z :=
  match inject w with
  | [] => (w, 0)
  | e :: rest => (set_inject rest w, e)
  end.

(** [malloc(size)]: an address, or [NULL]. *)
Definition sys_malloc (w : world) (size : Z) : world * Z :=
  let '(w, e) := pop_fault w in
  if decide (e ≠ 0) then (set_errno e w, NULL) else (w, 65536).

(** [sigaltstack(&stack, NULL)] with [stack.ss_sp = sp], [stack.ss_size = size]. *)
Definition sys_sigaltstack (w : world) (sp size : Z) : world * Z :=
  let '(w, e) := pop_fault w in
  if decide (e ≠ 0) then (set_errno e w, -1) else (set_altstack (Some sp) w, 0).

(** [sigaction(signum, &sa, NULL)] with [sa.sa_sigaction = _sig_exc_handler]
    and [sa.sa_flags = sa_flags].  [SIGKILL] and [SIGSTOP] cannot be
    caught, and the C library refuses the two signals it keeps for
    itself. *)
Definition sys_sigaction (w : world) (signum sa_flags : Z) : world * Z :=
  if decide (1 ≤ signum ≤ 64 ∧ signum ≠ SIGKILL ∧ signum ≠ SIGSTOP ∧
             signum ≠ SIGCANCEL ∧ signum ≠ SIGSETXID)
  then (set_actions <[signum := sa_flags]> w, 0)
  else (set_errno EINVAL w, -1).

(** **** The program *)

Section Program.

(** What calling the function at a given address does to the world: the
    code of the user's handlers. *)
Variable code : Z → sig_info → world → world.

(** signal-cpu-exception.c:64-71.  The second component lists the calls
    made to the user's handler. *)
Definition _sig_exc_handler (w : world) (signo : Z) (info : siginfo) : world * list sig_info :=
  let i := SigInfo (to_uint signo) (si_addr info) (to_uint (si_code info)) in
  (code (_sig_userhandler w) i w, [i]).

(** The kernel delivers a fault: with the default action the process is
    terminated; a caught signal runs [_sig_exc_handler], on the alternate
    stack if [SA_ONSTACK] asks for it, after the action is reset to the
    default if [SA_RESETHAND] asks for it.  A handler that would have to
    run on an exhausted stack cannot run. *)
Definition deliver (w : world) (f : fault) : world * list sig_info :=
  if negb (alive w) then (w, [])
  else
    match actions w !! signo f with
    | None => (set_alive false w, [])
    | Some sa_flags =>
        if stack_exhausted f
           && negb (bool_decide (Z.land sa_flags SA_ONSTACK ≠ 0 ∧ is_Some (altstack w)))
        then (set_alive false w, [])
        else
          let w := if decide (Z.land sa_flags SA_RESETHAND ≠ 0)
                   then set_actions (delete (signo f)) w else w in
          _sig_exc_handler w (signo f) (info f)
    end.

End Program.

(** signal-cpu-exception.c:81-98: the first loop, up to its [break].
    The result holds the value returned from inside the loop, if any, and
    [have_stack_sig]. *)
Fixpoint subscribe_stack (w : world) (sigs : list Z) : world * option Z * bool :=
  match sigs with
  | [] => (w, None, false)
  | s :: sigs =>
      if decide (s = CPSIG_STACK) then
        let '(w, ss_sp) := sys_malloc w SIGSTKSZ in
        if decide (ss_sp = NULL) then (w, Some (-1), false)
        else
          let '(w, r) := sys_sigaltstack w ss_sp SIGSTKSZ in
          if decide (0 ≠ r) then (w, Some (-1), false)
          else
            let sa_flags := Z.lor (Z.lor SA_SIGINFO SA_RESETHAND) SA_ONSTACK in
            let '(w, r) := sys_sigaction w SIGSEGV sa_flags in
            if decide (0 ≠ r) then (w, Some (-1), false)
            else (w, None, true)
      else subscribe_stack w sigs
  end.

(** signal-cpu-exception.c:100-108: the second loop. *)
Fixpoint subscribe_rest (w : world) (have_stack_sig : bool) (sigs : list Z) : world * Z :=
  match sigs with
  | [] => (w, 0)
  | s :: sigs =>
      if decide (s = CPSIG_STACK ∨ (s = SIGSEGV ∧ have_stack_sig = true))
      then subscribe_rest w have_stack_sig sigs
      else
        let '(w, r) := sys_sigaction w (to_int s) (Z.lor SA_SIGINFO SA_RESETHAND) in
        if decide (0 ≠ r) then (w, -1)
        else subscribe_rest w have_stack_sig sigs
  end.

(** signal-cpu-exception.c:73-110.  [sigs] is the array of [sigs_n]
    elements. *)
Definition sig_subscribe (w : world) (handler : Z) (sigs : list Z) : world * Z :=
  let w := set_userhandler handler w in
  let '(w, ret, have_stack_sig) := subscribe_stack w sigs in
  match ret with
  | Some r => (w, r)
  | None => subscribe_rest w have_stack_sig sigs
  end.

(** The signal that reports a fault of kind [k] of [enum CPSIG]. *)
Definition signal_of (k : Z) : Z := if decide (k = CPSIG_STACK) then SIGSEGV else k.

End SigUnix.

(** *** The Windows branch *)
Module SigWin.

(** Constants of <windows.h>. *)
Definition EXCEPTION_ACCESS_VIOLATION : Z := 3221225477.
Definition EXCEPTION_ILLEGAL_INSTRUCTION : Z := 3221225501.
Definition EXCEPTION_FLT_DIVIDE_BY_ZERO : Z := 3221225614.
Definition EXCEPTION_STACK_OVERFLOW : Z := 3221225725.
Definition EXCEPTION_CONTINUE_SEARCH : Z := 0.

(** signal-cpu-exception.c:20-25: [enum CPSIG]. *)
Definition CPSIG_SEGV : Z := EXCEPTION_ACCESS_VIOLATION.
Definition CPSIG_ILL : Z := EXCEPTION_ILLEGAL_INSTRUCTION.
Definition CPSIG_STACK : Z := EXCEPTION_STACK_OVERFLOW.
Definition CPSIG_FPE : Z := EXCEPTION_FLT_DIVIDE_BY_ZERO.

(** **** The system's side: the unhandled-exception filter *)

(** The fields of [EXCEPTION_RECORD] the filter reads. *)
Record exception_record : Type := ExcRecord {
  ExceptionCode : Z;
  ExceptionInformation : list Z
}.

(** The functions of the program that can stand as top-level filter. *)
Inductive filter_fn : Type :=
| The_sig_exc_handler.

Record world : Type := World {
  filter : option filter_fn;   (* the top-level exception filter; None is NULL *)
  _sig_userhandler : Z;        (* the program's global: address of the user's handler *)
  alive : bool
}.

(** [SetUnhandledExceptionFilter(f)] *)
Definition sys_SetUnhandledExceptionFilter (w : world) (f : option filter_fn) : world :=
  World f (_sig_userhandler w) (alive w).

Definition set_userhandler (h : Z) (w : world) : world := World (filter w) h (alive w).
Definition set_alive (b : bool) (w : world) : world := World (filter w) (_sig_userhandler w) b.

(** **** The program *)

Section Program.

(** What calling the function at a given address does to the world. *)
Variable code : Z → sig_info → world → world.

(** signal-cpu-exception.c:27-43: the new world, the calls made to the
    user's handler and the value returned to the system. *)
Definition _sig_exc_handler (w : world) (inf : exception_record) : world * list sig_info * Z :=
  let w := sys_SetUnhandledExceptionFilter w None in
  let i := SigInfo (ExceptionCode inf) 0 0 in
  let i :=
    if decide (ExceptionCode inf = EXCEPTION_ACCESS_VIOLATION)
    then SigInfo (sig i) (default 0 (ExceptionInformation inf !! 1%nat))
                 (to_uint (default 0 (ExceptionInformation inf !! 0%nat)))
    else i in
  (code (_sig_userhandler w) i w, [i], EXCEPTION_CONTINUE_SEARCH).

(** An exception no frame handles: the system calls the top-level filter,
    if there is one; when the filter answers [EXCEPTION_CONTINUE_SEARCH],
    or there is none, the process is terminated. *)
Definition deliver (w : world) (inf : exception_record) : world * list sig_info :=
  if negb (alive w) then (w, [])
  else
    match filter w with
    | None => (set_alive false w, [])
    | Some The_sig_exc_handler =>
        let '(w, calls, r) := _sig_exc_handler w inf in
        (if decide (r = EXCEPTION_CONTINUE_SEARCH) then set_alive false w else w, calls)
    end.

End Program.

(** signal-cpu-exception.c:45-50. *)
Definition sig_subscribe (w : world) (handler : Z) (sigs : list Z) : world * Z :=
  let w := set_userhandler handler w in
  let w := sys_SetUnhandledExceptionFilter w (Some The_sig_exc_handler) in
  (w, 0).

End SigWin.

(* ===================================================================== *)
(** ** Vocabulary of the statements                                       *)
(* ===================================================================== *)

(** A place where [ps_wait] may store the exit code: nowhere ([NULL]), or
    an [int] object of the caller. *)
Definition valid_out (m : gmap Z Z) (p : Z) : Prop := p = NULL ∨ (p ≠ NULL ∧ is_Some (m !! p)).

(** The units of [l] before its first terminator (all of [l] if it has none). *)
Fixpoint upto0 (l : list Z) : list Z :=
  match l with
  | [] => []
  | c :: l => if decide (c = 0) then [] else c :: upto0 l
  end.

(** The wide string a system call receives for the C string [s]. *)
Definition wide (decode : string → list Z) (s : string) : list Z := upto0 (decode s).

(** The command line as the specification words it: the arguments in
    order, exactly one space (U+0020) between consecutive ones, nothing
    else added. *)
Fixpoint spec_command_line (args : list (list Z)) : list Z :=
  match args with
  | [] => []
  | [a] => a
  | a :: args => a ++ 32 :: spec_command_line args
  end.

(** What the loop of [ps_exec] appends for the arguments after the first. *)
Definition spaced (decode : string → list Z) (argv : list string) : list Z :=
  concat ((λ a, 32 :: decode a) <$> argv).

(** A transcoding to compute with: each byte of the C string as one unit
    (what UTF-8 to UTF-16 does on ASCII text). *)
Definition ascii_units (s : string) : list Z :=
  (λ c, Z.of_nat (Ascii.nat_of_ascii c)) <$> String.list_ascii_of_string s.

(** The C string of [n] letters [a]. *)
Fixpoint letters (n : nat) : string :=
  match n with
  | O => EmptyString
  | S n => String (Ascii.ascii_of_nat 97) (letters n)
  end.

(** Well-formed queues of pending connections: a connection waits at most
    once in a queue, and it exists. *)
Definition queues_wf (w : NamedUnix.world) : Prop :=
  map_Forall (λ _ q, NoDup q ∧ Forall (λ k, is_Some (NamedUnix.conns w !! k)) q)
    (NamedUnix.queues w).

(** Two worlds that agree on what descriptor [p] is open on and, if that
    is a connection, on the state of that connection. *)
Definition same_conn (p : Z) (w w' : NamedUnix.world) : Prop :=
  NamedUnix.fds w !! p = NamedUnix.fds w' !! p ∧
  ∀ k server, NamedUnix.fds w !! p = Some (NamedUnix.SockConn k server) →
    NamedUnix.conns w !! k = NamedUnix.conns w' !! k.

(** A descriptor (a handle) [r] on the read end of a pipe whose write end
    is closed and that still holds [rest]. *)
Definition unix_draining (w : PipeUnix.world) (r : Z) (rest : list byte) : Prop :=
  ∃ i rd, PipeUnix.fds w !! r = Some (PipeUnix.FdRead i) ∧
    PipeUnix.pipes w !! i = Some (PipeUnix.Pipe rest rd false).

Definition win_draining (w : PipeWin.world) (r : Z) (rest : list byte) : Prop :=
  ∃ i rd, PipeWin.handles w !! r = Some (PipeWin.HRead i) ∧
    PipeWin.pipes w !! i = Some (PipeWin.Pipe rest rd false).




(** Every signal the process catches is caught with [SA_RESETHAND]. *)
Definition one_shot (w : SigUnix.world) : Prop :=
  map_Forall (λ _ sa_flags, Z.land sa_flags SigUnix.SA_RESETHAND ≠ 0) (SigUnix.actions w).

(** A user's handler that only reports, as [sig_handler] of the sample does. *)
Definition unix_reporting_handler : Z → sig_info → SigUnix.world → SigUnix.world :=
  λ _ _ w, w.

(* ===================================================================== *)
(** ** Worlds to run the program in                                       *)
(* ===================================================================== *)

(** The caller of ps-exec-wait.c after a successful [ps_exec]: the child
    has process id 2 and runs std-echo; the caller's [int code] lives at
    address 100. *)
Definition unix_ps_world : PsUnix.world :=
  PsUnix.World {[ 2 := PsUnix.Running "std-echo" ["std-echo"] ]} {[ "std-echo" ]} 8 [] 0
    {[ 100 := 0 ]}.

(** The same caller before [ps_exec], on a system with std-echo and
    nothing else to execute. *)
Definition unix_ps_fresh : PsUnix.world :=
  PsUnix.World ∅ {[ "std-echo" ]} 8 [] 0 {[ 100 := 0 ]}.

(** The Windows counterparts: the child behind handle 4. *)
Definition win_ps_world : PsWin.world :=
  PsWin.World
    {[ 4 := PsWin.HProcess (PsWin.WRunning (ascii_units "std-echo.exe") (ascii_units "std-echo")) ]}
    {[ ascii_units "std-echo.exe" ]} [] 0 {[ 100 := 0 ]}.

Definition win_ps_fresh : PsWin.world :=
  PsWin.World ∅ {[ ascii_units "std-echo.exe" ]} [] 0 {[ 100 := 0 ]}.

(** An array of 1000 wide characters that was never written: here, all 7. *)
Definition junk1000 : list Z := replicate 1000 7.

(** The six bytes of "hello!". *)
Definition hello : list byte := [x68; x65; x6c; x6c; x6f; x21].

(** pipe-named.c on UNIX, from a world without sockets: the server has
    created the named pipe (descriptor 0); then a client has connected
    (descriptor 1) and written "hello!". *)
Definition named_unix_empty : NamedUnix.world := NamedUnix.World ∅ ∅ ∅ ∅ [] 0.

Definition named_unix_listening : NamedUnix.world :=
  fst (NamedUnix.pipe_create_named 108 named_unix_empty "/tmp/cpspg.pipe").

Definition named_unix_connected : NamedUnix.world :=
  fst (NamedUnix.pipe_write
         (fst (NamedUnix.pipe_connect 108 named_unix_listening "/tmp/cpspg.pipe")) 1 hello).

(** The same on Windows: the server's handle is 4, the client's is 5. *)
Definition named_win_empty : NamedWin.world := NamedWin.World ∅ ∅ ∅ [] 0.

Definition named_win_listening : NamedWin.world :=
  fst (NamedWin.pipe_create_named ascii_units named_win_empty "\\.\pipe\cpspg.pipe").

Definition named_win_connected : NamedWin.world :=
  fst (NamedWin.pipe_write
         (fst (NamedWin.pipe_connect ascii_units named_win_listening "\\.\pipe\cpspg.pipe"))
         5 hello).

(** pipe.c: a process with its three standard descriptors (handles);
    on UNIX, with the default action for [SIGPIPE]. *)
Definition pipe_unix_world : PipeUnix.world :=
  PipeUnix.World {[ 0 := PipeUnix.FdOther; 1 := PipeUnix.FdOther; 2 := PipeUnix.FdOther ]}
    ∅ 1024 4096 false 0.

Definition pipe_win_world : PipeWin.world :=
  PipeWin.World {[ 4 := PipeWin.HOther; 8 := PipeWin.HOther; 12 := PipeWin.HOther ]}
    ∅ 1024 4096 0.

(** semaphore.c: systems without any semaphore. *)
Definition sem_unix_empty : SemUnix.world := SemUnix.World ∅ ∅ ∅ [] 0.


(** The names a Linux system accepts for a semaphore, in short: a leading
    slash and at most 251 bytes. *)
Definition linux_sem_name (s : string) : bool :=
  match s with
  | String c _ => bool_decide (Ascii.nat_of_ascii c = 47%nat ∧ (String.length s ≤ 251)%nat)
  | EmptyString => false
  end.

(** signal-cpu-exception.c: a process at the start of [main], and the
    array [sigs] of [main]. *)
Definition sig_unix_fresh : SigUnix.world := SigUnix.World ∅ None 0 true [] 0.

Definition main_sigs : list Z :=
  [SigUnix.CPSIG_SEGV; SigUnix.CPSIG_STACK; SigUnix.CPSIG_ILL; SigUnix.CPSIG_FPE].

(** The write through the address 0x16 of [sig_raise]. *)
Definition segv_at_0x16 : SigUnix.fault := SigUnix.Fault_ SigUnix.SIGSEGV (SigUnix.KInfo 22 1) false.

(* ===================================================================== *)
(** ** Tactics                                                            *)
(* ===================================================================== *)

(** Pushes [length] through the list operations of the array lemmas. *)
Ltac list_len :=
  repeat first
    [ rewrite length_app | rewrite length_cons | rewrite length_drop | rewrite length_nil ].

(* ===================================================================== *)
(** ** The [main] functions of the samples                                *)
(* ===================================================================== *)

(** How a run of [main] ends: it returns, or the [assert] of a source
    line fails and the process aborts there. *)
Inductive ending : Type :=
| Returns
| AssertionFailed (line : nat).

(** *** pipe.c *)

Module PipeMainUnix.
Import PipeUnix.

(** pipe.c:84-107.  [r0], [w0]: what the locals [r] and [w] hold before
    they are assigned. *)
Definition main (w : world) (r0 w0 : Z) : result (world * ending) :=
  let '(w, e, r, wr) := pipe_create w r0 w0 in
  if decide (0 ≠ e) then Ret (w, AssertionFailed 88)
  else
    '(w, n) ← pipe_write w wr hello;
    if decide (n < 0) then Ret (w, AssertionFailed 92)
    else
      let w := pipe_close w wr in
      '(w, n, _) ← pipe_read w r 100;
      if decide (n < 0) then Ret (w, AssertionFailed 100)
      else
        '(w, n, _) ← pipe_read w r 100;
        if decide (n ≠ 0) then Ret (w, AssertionFailed 103)
        else Ret (pipe_close w r, Returns).

End PipeMainUnix.

Module PipeMainWin.
Import PipeWin.

(** pipe.c:84-107, over the Windows branch. *)
Definition main (w : world) (r0 w0 : Z) : result (world * ending) :=
  let '(w, e, r, wr) := pipe_create w r0 w0 in
  if decide (0 ≠ e) then Ret (w, AssertionFailed 88)
  else
    '(w, n) ← pipe_write w wr hello;
    if decide (n < 0) then Ret (w, AssertionFailed 92)
    else
      let w := pipe_close w wr in
      '(w, n, _) ← pipe_read w r 100;
      if decide (n < 0) then Ret (w, AssertionFailed 100)
      else
        '(w, n, _) ← pipe_read w r 100;
        if decide (n ≠ 0) then Ret (w, AssertionFailed 103)
        else Ret (pipe_close w r, Returns).

End PipeMainWin.

(** *** ps-exec.c *)

Module PsExecMainUnix.
Import PsUnix.

(** ps-exec.c:79-96. *)
Definition main (w : world) : world * ending :=
  let path := "dir-list" in
  let arg0 := "dir-list" in
  let args := [arg0] in
  let '(w, p) := ps_exec w path args in
  if decide (p = _PS_NULL) then (w, AssertionFailed 92)
  else (ps_close w p, Returns).

End PsExecMainUnix.

Module PsExecMainWin.
Import PsWin.

Section Program.
Variable decode : string → list Z.

(** ps-exec.c:79-96, over the Windows branch ([path = "dir-list.exe"]). *)
Definition main (junk : list Z) (w : world) : result (world * ending) :=
  let path := "dir-list.exe" in
  let arg0 := "dir-list" in
  let args := [arg0] in
  '(w, p) ← ps_exec decode junk w path args;
  if decide (p = _PS_NULL) then Ret (w, AssertionFailed 92)
  else Ret (ps_close w p, Returns).

End Program.
End PsExecMainWin.

(** *** samples/ps-exec-wait.c *)

Module PsExecWaitMainUnix.
Import PsUnix.

(** The value of the caller's [int] at [p]; reading through a pointer to
    no object is a [Fault]. *)
Definition load (m : gmap Z Z) (p : Z) : result Z :=
  match m !! p with
  | Some v => Ret v
  | None => Fault
  end.

(** ps-exec-wait.c:161-193.  [code] is the address of the local
    [int code]; the last component lists the numbers [printf] prints.
    The child is left to itself between the calls: it does not terminate
    on its own while [main] runs (std-echo waits for its input). *)
Definition main (w : world) (code : Z) : result (world * ending * list Z) :=
  let path := "std-echo" in
  let arg0 := "std-echo" in
  let args := [arg0] in
  let '(w, p) := ps_exec w path args in
  if decide (p = _PS_NULL) then Ret (w, AssertionFailed 174, [])
  else
    let pid := ps_id p in
    let out := [pid] in
    '(w, r) ← ps_wait w p 0 code;
    if decide (0 = r) then Ret (w, AssertionFailed 182, out)
    else if decide (err_last w ≠ ERR_TIMEDOUT) then Ret (w, AssertionFailed 183, out)
    else
      let '(w, r) := ps_kill w p in
      if decide (0 ≠ r) then Ret (w, AssertionFailed 186, out)
      else
        '(w, r) ← ps_wait w p 1 code;
        if decide (0 ≠ r) then Ret (w, AssertionFailed 189, out)
        else
          c ← load (mem w) code;
          if decide (c ≠ -9) then Ret (w, AssertionFailed 190, out)
          else Ret (ps_close w p, Returns, out).

End PsExecWaitMainUnix.

Module PsExecWaitMainWin.
Import PsWin.

Definition load (m : gmap Z Z) (p : Z) : result Z :=
  match m !! p with
  | Some v => Ret v
  | None => Fault
  end.

Section Program.
Variable decode : string → list Z.

(** [GetProcessId(p)]: the identifiers the system gives to processes are
    not part of the model of the handle table. *)
Variable sys_GetProcessId : world → Z → Z.

(** ps-exec-wait.c:71-74. *)
Definition ps_id (w : world) (p : Z) : Z := sys_GetProcessId w p.

(** ps-exec-wait.c:161-193, over the Windows branch
    ([path = "std-echo.exe"]). *)
Definition main (junk : list Z) (w : world) (code : Z) : result (world * ending * list Z) :=
  let path := "std-echo.exe" in
  let arg0 := "std-echo" in
  let args := [arg0] in
  '(w, p) ← ps_exec decode junk w path args;
  if decide (p = _PS_NULL) then Ret (w, AssertionFailed 174, [])
  else
    let pid := ps_id w p in
    let out := [pid] in
    '(w, r) ← ps_wait w p 0 code;
    if decide (0 = r) then Ret (w, AssertionFailed 182, out)
    else if decide (err_last w ≠ ERR_TIMEDOUT) then Ret (w, AssertionFailed 183, out)
    else
      let '(w, r) := ps_kill w p in
      if decide (0 ≠ r) then Ret (w, AssertionFailed 186, out)
      else
        '(w, r) ← ps_wait w p 1 code;
        if decide (0 ≠ r) then Ret (w, AssertionFailed 189, out)
        else
          c ← load (mem w) code;
          if decide (c ≠ -9) then Ret (w, AssertionFailed 190, out)
          else Ret (ps_close w p, Returns, out).

End Program.
End PsExecWaitMainWin.

(** *** Vocabulary for the runs of [main] *)

(** [CreateProcessW] can start [app]: the file is there and the system
    raises no other obstacle to the coming call. *)
Definition win_can_start (w : PsWin.world) (app : list Z) : Prop :=
  default 0 (head (PsWin.inject w)) = 0 ∧ app ∈ PsWin.exes w.

#[global] Instance win_can_start_dec w app : Decision (win_can_start w app).
Proof. unfold win_can_start. apply _. Defined.

(** The caller of ps-exec-wait.c on a system that has no std-echo. *)
Definition unix_ps_bare : PsUnix.world := PsUnix.World ∅ ∅ 8 [] 0 {[ 100 := 0 ]}.

(** The same caller on a Windows system that has no std-echo.exe. *)
Definition win_ps_bare : PsWin.world := PsWin.World ∅ ∅ [] 0 {[ 100 := 0 ]}.


(** *** samples-sys/pipe-named.c *)

(** What [printf("%.*s", n, buf)] prints: the bytes of [buf] before its
    first null byte, [n] of them at most. *)
Fixpoint upto_nul (l : list byte) : list byte :=
  match l with
  | [] => []
  | b :: l => if Byte.eqb b x00 then [] else b :: upto_nul l
  end.

Definition printf_s (n : Z) (buf : list byte) : list byte := upto_nul (take (Z.to_nat n) buf).

Module PipeNamedMainUnix.
Import NamedUnix.

Section Program.
Variable sun_path_size : Z.

(** pipe-named.c:191-233.  [argv1] is [argv[1]] when [argc > 1].  The
    server sleeps in [pipe_accept] until a client has connected: [others]
    is what the other processes do between the creation of the pipe and
    the moment [pipe_accept] looks at its queue.  The last component is
    what [printf] prints. *)
Definition main (w : world) (argv1 : option string) (others : world → world)
  : result (world * ending * list byte) :=
  let name := "/tmp/cpspg.pipe" in
  if decide (argv1 = Some "server") then
    let w := fst (sys_unlink w name) in
    let '(w, p) := pipe_create_named sun_path_size w name in
    if decide (PIPE_NULL = p) then Ret (w, AssertionFailed 206, [])
    else
      let w := others w in
      '(w, pc) ← pipe_accept w p;
      if decide (PIPE_NULL = pc) then Ret (w, AssertionFailed 210, [])
      else
        '(w, n, buf) ← pipe_read w pc 100;
        if decide (n < 0) then Ret (w, AssertionFailed 215, [])
        else
          let out := printf_s (to_int n) buf ++ [x0a] in
          let w := pipe_peer_close w pc in
          let w := pipe_close w p in
          Ret (w, Returns, out)
  else
    let '(w, p) := pipe_connect sun_path_size w name in
    if decide (PIPE_NULL = p) then Ret (w, AssertionFailed 226, [])
    else
      let '(w, n) := pipe_write w p hello in
      if decide (n < 0) then Ret (w, AssertionFailed 230, [])
      else Ret (pipe_close w p, Returns, []).

End Program.
End PipeNamedMainUnix.

Module PipeNamedMainWin.
Import NamedWin.

Section Program.
Variable decode : string → list Z.

(** pipe-named.c:191-233, over the Windows branch: no [unlink], and the
    name is [PIPE_NAME_PREFIX "cpspg.pipe"]. *)
Definition main (w : world) (argv1 : option string) (others : world → world)
  : result (world * ending * list byte) :=
  let name := "\\.\pipe\cpspg.pipe" in
  if decide (argv1 = Some "server") then
    let '(w, p) := pipe_create_named decode w name in
    if decide (PIPE_NULL = p) then Ret (w, AssertionFailed 206, [])
    else
      let w := others w in
      '(w, pc) ← pipe_accept w p;
      if decide (PIPE_NULL = pc) then Ret (w, AssertionFailed 210, [])
      else
        '(w, n, buf) ← pipe_read w pc 100;
        if decide (n < 0) then Ret (w, AssertionFailed 215, [])
        else
          let out := printf_s (to_int n) buf ++ [x0a] in
          let w := pipe_peer_close w pc in
          let w := pipe_close w p in
          Ret (w, Returns, out)
  else
    let '(w, p) := pipe_connect decode w name in
    if decide (PIPE_NULL = p) then Ret (w, AssertionFailed 226, [])
    else
      let '(w, n) := pipe_write w p hello in
      if decide (n < 0) then Ret (w, AssertionFailed 230, [])
      else Ret (pipe_close w p, Returns, []).

End Program.
End PipeNamedMainWin.

(** A whole run of the client ([main] without arguments), as something
    the other processes do while the server waits. *)
Definition unix_client_run (sun_path_size : Z) (w : NamedUnix.world) : NamedUnix.world :=
  match PipeNamedMainUnix.main sun_path_size w None id with
  | Ret (w', _, _) => w'
  | _ => w
  end.

Definition win_client_run (decode : string → list Z) (w : NamedWin.world) : NamedWin.world :=
  match PipeNamedMainWin.main decode w None id with
  | Ret (w', _, _) => w'
  | _ => w
  end.

(** The run of the client up to, and without, its closing [pipe_close]:
    the client has connected and written, and still holds its end. *)
Definition win_client_writes (decode : string → list Z) (w : NamedWin.world) : NamedWin.world :=
  let '(w, p) := NamedWin.pipe_connect decode w "\\.\pipe\cpspg.pipe" in
  fst (NamedWin.pipe_write w p hello).

(** pipe-named.c on UNIX once the server has accepted the client of
    [named_unix_connected]: the client holds descriptor 1, the server the
    listener 0 and the accepted connection 2. *)
Definition named_unix_accepted : NamedUnix.world :=
  match NamedUnix.pipe_accept named_unix_connected 0 with
  | Ret (w, _) => w
  | _ => named_unix_connected
  end.

(** The same once the server has read the six bytes of the client. *)
Definition named_unix_served : NamedUnix.world :=
  match NamedUnix.pipe_read named_unix_accepted 2 100 with
  | Ret (w, _, _) => w
  | _ => named_unix_accepted
  end.


(** *** Vocabulary for semaphore.c *)

(** Every open handle of the Windows world is on a semaphore that exists. *)
Definition sem_win_wf (w : SemWin.world) : Prop :=
  map_Forall (λ _ o, is_Some (SemWin.sems w !! o)) (SemWin.handles w).


(** *** Vocabulary for signal-cpu-exception.c *)

(** The flags [sig_subscribe] installs its handler with: for the signals
    of the second loop, and for [SIGSEGV] when [CPSIG_STACK] is asked for. *)
Definition sa_plain : Z := Z.lor SigUnix.SA_SIGINFO SigUnix.SA_RESETHAND.
Definition sa_onstack : Z :=
  Z.lor (Z.lor SigUnix.SA_SIGINFO SigUnix.SA_RESETHAND) SigUnix.SA_ONSTACK.

(** Signal [signum] is caught by [_sig_exc_handler], with the extended
    information and for one delivery. *)
Definition armed (w : SigUnix.world) (signum : Z) : Prop :=
  ∃ fl, SigUnix.actions w !! signum = Some fl ∧
    Z.land fl SigUnix.SA_SIGINFO ≠ 0 ∧ Z.land fl SigUnix.SA_RESETHAND ≠ 0.

(** The signal numbers [sigaction] accepts. *)
Definition catchable (signum : Z) : Prop :=
  1 ≤ signum ≤ 64 ∧ signum ≠ SigUnix.SIGKILL ∧ signum ≠ SigUnix.SIGSTOP ∧
  signum ≠ SigUnix.SIGCANCEL ∧ signum ≠ SigUnix.SIGSETXID.

(** An array of [unsigned int]. *)
Definition uints (l : list Z) : Prop := Forall (λ s, 0 ≤ s < 2 ^ 32) l.

(** What the user's handler is told of a fault on UNIX. *)
Definition unix_report (f : SigUnix.fault) : sig_info :=
  SigInfo (to_uint (SigUnix.signo f)) (SigUnix.si_addr (SigUnix.info f))
    (to_uint (SigUnix.si_code (SigUnix.info f))).



(** A stack overflow on UNIX: the faulting access is below the stack. *)
Definition stack_overflow_fault : SigUnix.fault :=
  SigUnix.Fault_ SigUnix.SIGSEGV (SigUnix.KInfo 140737488347136 1) true.




(** A process all of whose coming [malloc] calls fail. *)
Definition sig_unix_no_memory : SigUnix.world :=
  SigUnix.World ∅ None 0 true [SigUnix.ENOMEM] 0.


(* ===================================================================== *)
(** ** samples/ps-exec-out.c: the UNIX branch                             *)
(* ===================================================================== *)
Module OutUnix.

(** Constants of <unistd.h>, <sys/wait.h> and <errno.h> (Linux values). *)
Definition STDIN_FILENO : Z := 0.
Definition STDOUT_FILENO : Z := 1.
Definition STDERR_FILENO : Z := 2.
Definition CLD_EXITED : Z := 1.
Definition EBADF : Z := 9.
Definition EAGAIN : Z := 11.
Definition EMFILE : Z := 24.
Definition EPIPE : Z := 32.

(** [#define PIPE_NULL (-1)], [#define _PS_NULL (-1)] *)
Definition PIPE_NULL : Z := -1.
Definition _PS_NULL : Z := -1.

(** *** The kernel's side: descriptors shared between parent and child *)

(** What a descriptor is open on: an end of a pipe, or a terminal or
    file. *)
Inductive fdesc : Type :=
| FdRead (i : nat)
| FdWrite (i : nat)
| FdFile (f : nat).

#[global] Instance fdesc_eq_dec : EqDecision fdesc.
Proof. solve_decision. Defined.

(** A child of the caller: running a program, with a descriptor table of
    its own, or terminated (its descriptors are closed) and not yet waited
    for. *)
Inductive pstate : Type :=
| Running (image : string) (args : list string) (cfds : gmap Z fdesc)
| Zombie (code status : Z).

Record world : Type := World {
  fds : gmap Z fdesc;             (* the caller's descriptor table *)
  pipes : gmap nat (list byte);   (* per pipe: the bytes written and not yet read *)
  files : gmap nat (list byte);   (* per terminal or file: what was written to it *)
  procs : gmap Z pstate;          (* the children of the caller *)
  exes : gset string;             (* the paths execve can execute *)
  nofile : nat;                   (* how many descriptors the caller may hold *)
  nproc : nat;                    (* how many children the caller may have *)
  pipe_cap : nat;                 (* capacity of a pipe, in bytes *)
  errno : Z
}.

Definition set_fds (f : gmap Z fdesc → gmap Z fdesc) (w : world) : world :=
  World (f (fds w)) (pipes w) (files w) (procs w) (exes w) (nofile w) (nproc w) (pipe_cap w)
    (errno w).
Definition set_pipes (f : gmap nat (list byte) → gmap nat (list byte)) (w : world) : world :=
  World (fds w) (f (pipes w)) (files w) (procs w) (exes w) (nofile w) (nproc w) (pipe_cap w)
    (errno w).
Definition set_files (f : gmap nat (list byte) → gmap nat (list byte)) (w : world) : world :=
  World (fds w) (pipes w) (f (files w)) (procs w) (exes w) (nofile w) (nproc w) (pipe_cap w)
    (errno w).
Definition set_procs (f : gmap Z pstate → gmap Z pstate) (w : world) : world :=
  World (fds w) (pipes w) (files w) (f (procs w)) (exes w) (nofile w) (nproc w) (pipe_cap w)
    (errno w).
Definition set_errno (e : Z) (w : world) : world :=
  World (fds w) (pipes w) (files w) (procs w) (exes w) (nofile w) (nproc w) (pipe_cap w) e.

(** Table [t] has a descriptor open on [d]. *)
Definition held (d : fdesc) (t : gmap Z fdesc) : Prop := map_Exists (λ _ d', d' = d) t.

#[global] Instance held_dec d t : Decision (held d t).
Proof. unfold held. apply _. Defined.

Definition held_by_child (d : fdesc) (p : pstate) : Prop :=
  match p with
  | Running _ _ t => held d t
  | Zombie _ _ => False
  end.

#[global] Instance held_by_child_dec d p : Decision (held_by_child d p).
Proof. destruct p; apply _. Defined.

(** An end of a pipe stays open as long as some process, the caller or a
    running child, has a descriptor on it. *)
Definition open_somewhere (w : world) (d : fdesc) : Prop :=
  held d (fds w) ∨ map_Exists (λ _ p, held_by_child d p) (procs w).

#[global] Instance open_somewhere_dec w d : Decision (open_somewhere w d).
Proof. unfold open_somewhere. apply _. Defined.

(** [pipe(p)] *)
Definition sys_pipe (w : world) (p : Z * Z) : world * Z * (Z * Z) :=
  if decide (size (fds w) + 2 ≤ nofile w)%nat then
    let i := alloc_nat (pipes w) in
    let w := set_pipes <[i := []]> w in
    let p0 := alloc 0 (fds w) in
    let w := set_fds <[p0 := FdRead i]> w in
    let p1 := alloc 0 (fds w) in
    let w := set_fds <[p1 := FdWrite i]> w in
    (w, 0, (p0, p1))
  else (set_errno EMFILE w, -1, p).

(** [read(fd, buf, size)] by the caller.  On an empty pipe the caller
    sleeps while anybody can still write to it.  Nothing is typed on the
    terminals of the model: a read from one sleeps. *)
Definition sys_read (w : world) (fd size : Z) : result (world * Z * list byte) :=
  match fds w !! fd with
  | Some (FdRead i) =>
      match pipes w !! i with
      | Some [] =>
          if decide (open_somewhere w (FdWrite i) ∧ size ≠ 0) then Blocks else Ret (w, 0, [])
      | Some buf =>
          let n := Z.to_nat size in
          Ret (set_pipes <[i := drop n buf]> w, Z.of_nat (length (take n buf)), take n buf)
      | None => Ret (set_errno EBADF w, -1, [])
      end
  | Some (FdFile _) => Blocks
  | _ => Ret (set_errno EBADF w, -1, [])
  end.

(** [write(fd, buf, size)] by the caller, with [data] the [size] bytes at
    [buf] ([SIGPIPE] taken as ignored). *)
Definition sys_write (w : world) (fd : Z) (data : list byte) : result (world * Z) :=
  match fds w !! fd with
  | Some (FdWrite i) =>
      match pipes w !! i with
      | Some buf =>
          if decide (open_somewhere w (FdRead i)) then
            if decide (length buf + length data ≤ pipe_cap w)%nat then
              Ret (set_pipes <[i := buf ++ data]> w, Z.of_nat (length data))
            else Blocks
          else Ret (set_errno EPIPE w, -1)
      | None => Ret (set_errno EBADF w, -1)
      end
  | Some (FdFile f) =>
      Ret (set_files <[f := default [] (files w !! f) ++ data]> w, Z.of_nat (length data))
  | _ => Ret (set_errno EBADF w, -1)
  end.

(** [close(fd)] by the caller. *)
Definition sys_close (w : world) (fd : Z) : world * Z :=
  match fds w !! fd with
  | Some _ => (set_fds (delete fd) w, 0)
  | None => (set_errno EBADF w, -1)
  end.

(** [dup2(oldfd, newfd)] in a process whose descriptor table is [t]:
    [newfd] is made a copy of [oldfd], whatever it was open on. *)
Definition sys_dup2 (w : world) (t : gmap Z fdesc) (oldfd newfd : Z)
  : world * gmap Z fdesc * Z :=
  match t !! oldfd with
  | Some d =>
      if decide (0 ≤ newfd) then (w, <[newfd := d]> t, newfd)
      else (set_errno EBADF w, t, -1)
  | None => (set_errno EBADF w, t, -1)
  end.

(** [execve] in a child whose table is [t]: the state of the child once
    the image is replaced, or [None] when the call returns. *)
Definition sys_execve (w : world) (filename : string) (argv : list string)
    (t : gmap Z fdesc) : option pstate :=
  if decide (filename ∈ exes w) then Some (Running filename argv t) else None.

(** [_exit(status)] *)
Definition sys__exit (status : Z) : pstate := Zombie CLD_EXITED (Z.land status 255).

(** [vfork]: the child starts with a copy of the caller's descriptor
    table, in the caller's memory (what it stores in [errno] the caller
    sees); the caller resumes when the child has called [execve] or
    [_exit].  [child] is the code that sees [vfork() == 0].  A child that
    has called [_exit] is taken to have terminated when the caller goes on;
    the system may need a moment more. *)
Definition sys_vfork (w : world) (child : world → gmap Z fdesc → world * pstate)
  : world * Z :=
  if decide (size (procs w) < nproc w)%nat then
    let pid := alloc 2 (procs w) in
    let '(w, st) := child w (fds w) in
    (set_procs <[pid := st]> w, pid)
  else (set_errno EAGAIN w, -1).

(** What a child does on its own, seen from the parent: it writes to one
    of its descriptors, or it exits.  A write to a pipe that nobody can
    read from fails, and one that does not fit the pipe leaves the child
    asleep in it: neither changes what the parent can see. *)
Inductive child_action : Type :=
| ChildWrites (fd : Z) (data : list byte)
| ChildExits (status : Z).

Definition child_step (pid : Z) (w : world) (a : child_action) : world :=
  match procs w !! pid with
  | Some (Running image args t) =>
      match a with
      | ChildWrites fd data =>
          match t !! fd with
          | Some (FdWrite i) =>
              match pipes w !! i with
              | Some buf =>
                  if decide (open_somewhere w (FdRead i) ∧
                             (length buf + length data ≤ pipe_cap w)%nat)
                  then set_pipes <[i := buf ++ data]> w
                  else w
              | None => w
              end
          | Some (FdFile f) => set_files <[f := default [] (files w !! f) ++ data]> w
          | _ => w
          end
      | ChildExits status => set_procs <[pid := sys__exit status]> w
      end
  | _ => w
  end.

Definition child_run (pid : Z) (w : world) (acts : list child_action) : world :=
  foldl (child_step pid) w acts.

(** *** The program *)

(** ps-exec-out.c:16-19. *)
Record ps_execinfo : Type := ExecInfo { argv : list string; in_ : Z; out : Z; err : Z }.

(** ps-exec-out.c:128-131. *)
Definition stdout_write (w : world) (data : list byte) : result (world * Z) :=
  sys_write w 1 data.

(** ps-exec-out.c:136-144. *)
Definition pipe_create (w : world) (rd wr : Z) : world * Z * Z * Z :=
  let '(w, r, (p0, p1)) := sys_pipe w (0, 0) in
  if decide (0 ≠ r) then (w, -1, rd, wr)
  else (w, 0, p0, p1).

(** ps-exec-out.c:146-149. *)
Definition pipe_close (w : world) (p : Z) : world := fst (sys_close w p).

(** ps-exec-out.c:151-154. *)
Definition pipe_read (w : world) (p size : Z) : result (world * Z * list byte) :=
  sys_read w p size.

(** One of the three redirections of the child: ps-exec-out.c:170-175. *)
Definition redirect (target newfd : Z) (wt : world * gmap Z fdesc) : world * gmap Z fdesc :=
  if decide (target ≠ -1) then
    let '(w, t, _) := sys_dup2 wt.1 wt.2 target newfd in (w, t)
  else wt.

(** ps-exec-out.c:164-180. *)
Definition ps_exec_info (w : world) (filename : string) (info : ps_execinfo) : world * Z :=
  sys_vfork w (λ w t,
    let wt := redirect (in_ info) STDIN_FILENO (w, t) in
    let wt := redirect (out info) STDOUT_FILENO wt in
    let '(w, t) := redirect (err info) STDERR_FILENO wt in
    match sys_execve w filename (argv info) t with
    | Some running => (w, running)
    | None => (w, sys__exit 255)
    end).

(** ps-exec-out.c:183-186. *)
Definition ps_close (w : world) (p : Z) : world := w.

(** ps-exec-out.c:190-226.  [r0], [w0]: what the locals [r] and [w] hold
    before they are assigned.  [acts]: what the child does between its
    start and the moment the parent's [pipe_read] is served; if the read
    finds nothing to return, the child does nothing more. *)
Definition main (w : world) (r0 w0 : Z) (acts : list child_action) : result (world * ending) :=
  let path := "std-echo" in
  let arg0 := "std-echo" in
  let '(w, e, r, wr) := pipe_create w r0 w0 in
  if decide (0 ≠ e) then Ret (w, AssertionFailed 199)
  else
    let args := [arg0] in
    let info := ExecInfo args PIPE_NULL wr wr in
    let '(w, p) := ps_exec_info w path info in
    if decide (p = _PS_NULL) then Ret (w, AssertionFailed 213)
    else
      let w := child_run p w acts in
      '(w, n, buf) ← pipe_read w r 1000;
      if decide (n < 0) then Ret (w, AssertionFailed 218)
      else
        '(w, _) ← stdout_write w (take (Z.to_nat n) buf);
        let w := ps_close w p in
        let w := pipe_close w r in
        let w := pipe_close w wr in
        Ret (w, Returns).

End OutUnix.

(** ps-exec-out.c: a process with its three standard descriptors on one
    terminal, on a system with std-echo. *)
Definition out_unix_world : OutUnix.world :=
  OutUnix.World
    {[ 0 := OutUnix.FdFile 0; 1 := OutUnix.FdFile 0; 2 := OutUnix.FdFile 0 ]}
    ∅ {[ 0%nat := [] ]} ∅ {[ "std-echo" ]} 1024 8 4096 0.

(** The child only exits: it writes nothing. *)
Definition silent (acts : list OutUnix.child_action) : Prop :=
  Forall (λ a, ∃ status, a = OutUnix.ChildExits status) acts.


(** *** samples-sys/semaphore.c: [main] *)

Module SemMainUnix.
Import SemUnix.

Section Program.
Variable SEM_VALUE_MAX : Z.
Variable name_ok : string → bool.

(** semaphore.c:121-146.  [argv1] is [argv[1]] when [argc > 1].  Inside
    the protected region [main] prints a fixed line and sleeps in
    [stdin_read] until a line is typed; what the call returns is not
    looked at.  [others] is what the other processes do to the semaphores
    in the meantime. *)
Definition main (w : world) (argv1 : option string) (others : world → world)
  : result (world * ending) :=
  let name := "/cpspg.sem" in
  if decide (argv1 = Some "unlink") then
    let '(w, r) := cpsem_unlink w name in
    if decide (0 ≠ r) then Ret (w, AssertionFailed 127)
    else Ret (w, Returns)
  else
    let '(w, s) := cpsem_open SEM_VALUE_MAX name_ok w name CPSEM_CREATE 1 in
    if decide (s = CPSEM_NULL) then Ret (w, AssertionFailed 133)
    else
      '(w, r) ← cpsem_wait w s;
      if decide (0 ≠ r) then Ret (w, AssertionFailed 136)
      else
        let w := others w in
        let '(w, r) := cpsem_post SEM_VALUE_MAX w s in
        if decide (0 ≠ r) then Ret (w, AssertionFailed 143)
        else Ret (cpsem_close w s, Returns).

End Program.
End SemMainUnix.

Module SemMainWin.
Import SemWin.

Section Program.
Variable decode : string → list Z.

(** semaphore.c:121-146, over the Windows branch. *)
Definition main (w : world) (argv1 : option string) (others : world → world)
  : result (world * ending) :=
  let name := "/cpspg.sem" in
  if decide (argv1 = Some "unlink") then
    let '(w, r) := cpsem_unlink w name in
    if decide (0 ≠ r) then Ret (w, AssertionFailed 127)
    else Ret (w, Returns)
  else
    let '(w, s) := cpsem_open decode w name CPSEM_CREATE 1 in
    if decide (s = CPSEM_NULL) then Ret (w, AssertionFailed 133)
    else
      '(w, r) ← cpsem_wait w s;
      if decide (0 ≠ r) then Ret (w, AssertionFailed 136)
      else
        let w := others w in
        let '(w, r) := cpsem_post w s in
        if decide (0 ≠ r) then Ret (w, AssertionFailed 143)
        else Ret (cpsem_close w s, Returns).

End Program.
End SemMainWin.

(** While [main] waits for its line of input nobody touches the
    semaphores: the other users are asleep in [cpsem_wait]. *)
Definition sem_unix_quiet (others : SemUnix.world → SemUnix.world) : Prop :=
  ∀ w, SemUnix.names (others w) = SemUnix.names w ∧
       SemUnix.sems (others w) = SemUnix.sems w ∧
       SemUnix.maps (others w) = SemUnix.maps w.

Definition sem_win_quiet (others : SemWin.world → SemWin.world) : Prop :=
  ∀ w, SemWin.names (others w) = SemWin.names w ∧
       SemWin.sems (others w) = SemWin.sems w ∧
       SemWin.handles (others w) = SemWin.handles w.

(** semaphore.c on UNIX after one whole run of [main] in a system that
    had no semaphore: the semaphore is still there, under its name. *)
Definition sem_unix_after_main : SemUnix.world :=
  match SemMainUnix.main 2147483647 linux_sem_name sem_unix_empty None id with
  | Ret (w, _) => w
  | _ => sem_unix_empty
  end.


(* ===================================================================== *)
(** ** samples/ps-exec-out.c: the Windows branch                          *)
(* ===================================================================== *)
Module OutWin.

(** Constants of <windows.h>. *)
Definition ERROR_FILE_NOT_FOUND : Z := 2.
Definition ERROR_TOO_MANY_OPEN_FILES : Z := 4.
Definition ERROR_ACCESS_DENIED : Z := 5.
Definition ERROR_INVALID_HANDLE : Z := 6.
Definition ERROR_BROKEN_PIPE : Z := 109.
Definition ERROR_NO_DATA : Z := 232.
Definition INVALID_HANDLE_VALUE : Z := -1.
Definition HANDLE_FLAG_INHERIT : Z := 1.
Definition STARTF_USESTDHANDLES : Z := 256.
Definition STD_INPUT_HANDLE : Z := -10.
Definition STD_OUTPUT_HANDLE : Z := -11.
Definition STD_ERROR_HANDLE : Z := -12.

(** [#define PIPE_NULL INVALID_HANDLE_VALUE],
    [#define _PS_NULL INVALID_HANDLE_VALUE] *)
Definition PIPE_NULL : Z := INVALID_HANDLE_VALUE.
Definition _PS_NULL : Z := INVALID_HANDLE_VALUE.

(** *** The kernel's side: handles shared between parent and child *)

(** What a handle is open on: an end of a pipe, a console or a file, a
    process, a thread. *)
Inductive hobj : Type :=
| HRead (i : nat)
| HWrite (i : nat)
| HDevice (console : bool) (f : nat)
| HProcess (pid : nat)
| HThread.

#[global] Instance hobj_eq_dec : EqDecision hobj.
Proof. solve_decision. Defined.

(** An entry of a handle table: the object, and whether a child started
    with [bInheritHandles] gets the handle too. *)
Record hentry : Type := Handle { obj : hobj; inheritable : bool }.

(** The three standard handles of a process. *)
Record stdhandles : Type := Std { std_in : Z; std_out : Z; std_err : Z }.

(** A process object: running an image with a command line, a handle
    table of its own and its standard handles; or exited (its handles are
    closed). *)
Inductive wproc : Type :=
| WRunning (image cmdline : list Z) (tbl : gmap Z hentry) (std : stdhandles)
| WExited (code : Z).

(** What a console or a file has received: bytes through [WriteFile],
    UTF-16 units through [WriteConsoleW]. *)
Inductive written : Type :=
| Bytes (data : list byte)
| Units (units : list Z).

Record world : Type := World {
  handles : gmap Z hentry;          (* the caller's handle table *)
  stdh : stdhandles;                (* the caller's standard handles *)
  pipes : gmap nat (list byte);     (* per pipe: the bytes written and not yet read *)
  devices : gmap nat (list written);(* per console or file: what was written to it *)
  procs : gmap nat wproc;           (* the process objects *)
  exes : gset (list Z);             (* the paths CreateProcessW can start *)
  inject : list Z;                  (* errors the coming CreateProcessW calls fail with *)
  quota : nat;                      (* how many handles the caller may hold *)
  pipe_cap : nat;                   (* capacity of a pipe, in bytes *)
  last_error : Z
}.

Definition set_handles (f : gmap Z hentry → gmap Z hentry) (w : world) : world :=
  World (f (handles w)) (stdh w) (pipes w) (devices w) (procs w) (exes w) (inject w)
    (quota w) (pipe_cap w) (last_error w).
Definition set_pipes (f : gmap nat (list byte) → gmap nat (list byte)) (w : world) : world :=
  World (handles w) (stdh w) (f (pipes w)) (devices w) (procs w) (exes w) (inject w)
    (quota w) (pipe_cap w) (last_error w).
Definition set_devices (f : gmap nat (list written) → gmap nat (list written)) (w : world)
  : world :=
  World (handles w) (stdh w) (pipes w) (f (devices w)) (procs w) (exes w) (inject w)
    (quota w) (pipe_cap w) (last_error w).
Definition set_procs (f : gmap nat wproc → gmap nat wproc) (w : world) : world :=
  World (handles w) (stdh w) (pipes w) (devices w) (f (procs w)) (exes w) (inject w)
    (quota w) (pipe_cap w) (last_error w).
Definition set_inject (l : list Z) (w : world) : world :=
  World (handles w) (stdh w) (pipes w) (devices w) (procs w) (exes w) l
    (quota w) (pipe_cap w) (last_error w).
Definition sys_SetLastError (w : world) (e : Z) : world :=
  World (handles w) (stdh w) (pipes w) (devices w) (procs w) (exes w) (inject w)
    (quota w) (pipe_cap w) e.
Definition sys_GetLastError (w : world) : Z := last_error w.

(** Table [t] has a handle open on [d]. *)
Definition held (d : hobj) (t : gmap Z hentry) : Prop := map_Exists (λ _ e, obj e = d) t.

#[global] Instance held_dec d t : Decision (held d t).
Proof. unfold held. apply _. Defined.

Definition held_by_child (d : hobj) (p : wproc) : Prop :=
  match p with
  | WRunning _ _ t _ => held d t
  | WExited _ => False
  end.

#[global] Instance held_by_child_dec d p : Decision (held_by_child d p).
Proof. destruct p; apply _. Defined.

(** An end of a pipe stays open as long as some process, the caller or a
    running child, has a handle on it. *)
Definition open_somewhere (w : world) (d : hobj) : Prop :=
  held d (handles w) ∨ map_Exists (λ _ p, held_by_child d p) (procs w).

#[global] Instance open_somewhere_dec w d : Decision (open_somewhere w d).
Proof. unfold open_somewhere. apply _. Defined.

(** [GetStdHandle(nStdHandle)] *)
Definition sys_GetStdHandle (w : world) (nStdHandle : Z) : Z :=
  if decide (nStdHandle = STD_INPUT_HANDLE) then std_in (stdh w)
  else if decide (nStdHandle = STD_OUTPUT_HANDLE) then std_out (stdh w)
  else if decide (nStdHandle = STD_ERROR_HANDLE) then std_err (stdh w)
  else INVALID_HANDLE_VALUE.

(** [GetConsoleMode(h, &mode)]: succeeds on the handle of a console. *)
Definition sys_GetConsoleMode (w : world) (h : Z) : world * Z :=
  match obj <$> handles w !! h with
  | Some (HDevice true _) => (w, 1)
  | _ => (sys_SetLastError w ERROR_INVALID_HANDLE, 0)
  end.

(** [WriteConsoleW(h, buf, n, &written, NULL)] with [units] the [n] units
    at [buf]: the [BOOL] returned. *)
Definition sys_WriteConsoleW (w : world) (h : Z) (units : list Z) : world * Z :=
  match obj <$> handles w !! h with
  | Some (HDevice true f) =>
      (set_devices <[f := default [] (devices w !! f) ++ [Units units]]> w, 1)
  | _ => (sys_SetLastError w ERROR_INVALID_HANDLE, 0)
  end.

(** [MultiByteToWideChar(CP_UTF8, 0, src, cb, dst, cch)] with a count of
    bytes: the value returned and the units stored at [dst].  The
    transcoding itself is the parameter [decode_bytes].  A count of 0 is
    refused; with a negative count [src] is read as a C string, up to and
    with its terminator. *)
Definition sys_MultiByteToWideChar_n (decode_bytes : list byte → list Z)
    (src : list byte) (cb cch : Z) : result (Z * list Z) :=
  if decide (cb = 0) then Ret (0, [])
  else
    bytes ← (if decide (cb < 0)
             then (if existsb (Byte.eqb x00) src then Ret (upto_nul src ++ [x00]) else Fault)
             else Ret (take (Z.to_nat cb) src));
    let out := decode_bytes bytes in
    if decide (cch < 0) then Ret (0, [])
    else if decide (cch = 0) then Ret (Z.of_nat (length out), [])
    else if decide (Z.of_nat (length out) ≤ cch) then Ret (Z.of_nat (length out), out)
    else Ret (0, []).

(** [CreatePipe(&rd, &wr, NULL, 0)]: without security attributes the two
    handles are not inheritable. *)
Definition sys_CreatePipe (w : world) (rd wr : Z) : world * Z * Z * Z :=
  if decide (size (handles w) + 2 ≤ quota w)%nat then
    let i := alloc_nat (pipes w) in
    let w := set_pipes <[i := []]> w in
    let hr := alloc 4 (handles w) in
    let w := set_handles <[hr := Handle (HRead i) false]> w in
    let hw := alloc 4 (handles w) in
    let w := set_handles <[hw := Handle (HWrite i) false]> w in
    (w, 1, hr, hw)
  else (sys_SetLastError w ERROR_TOO_MANY_OPEN_FILES, 0, rd, wr).

(** [ReadFile(h, buf, cap, &rd, 0)] by the caller: the [BOOL] returned,
    the count stored in [rd] and the bytes put in [buf].  On an empty pipe
    the caller sleeps while anybody can still write to it, and fails with
    [ERROR_BROKEN_PIPE] otherwise.  Nothing is typed on the consoles of the
    model: a read from one sleeps. *)
Definition sys_ReadFile (w : world) (h cap : Z) : result (world * Z * Z * list byte) :=
  match obj <$> handles w !! h with
  | Some (HRead i) =>
      match pipes w !! i with
      | Some [] =>
          if decide (open_somewhere w (HWrite i)) then Blocks
          else Ret (sys_SetLastError w ERROR_BROKEN_PIPE, 0, 0, [])
      | Some buf =>
          let n := Z.to_nat cap in
          Ret (set_pipes <[i := drop n buf]> w, 1, Z.of_nat (length (take n buf)), take n buf)
      | None => Ret (sys_SetLastError w ERROR_INVALID_HANDLE, 0, 0, [])
      end
  | Some (HDevice _ _) => Blocks
  | Some _ => Ret (sys_SetLastError w ERROR_ACCESS_DENIED, 0, 0, [])
  | None => Ret (sys_SetLastError w ERROR_INVALID_HANDLE, 0, 0, [])
  end.

(** [WriteFile(h, data, size, &wr, 0)] by the caller: the [BOOL] returned
    and the count stored in [wr]. *)
Definition sys_WriteFile (w : world) (h : Z) (data : list byte) : result (world * Z * Z) :=
  match obj <$> handles w !! h with
  | Some (HWrite i) =>
      match pipes w !! i with
      | Some buf =>
          if decide (open_somewhere w (HRead i)) then
            if decide (length buf + length data ≤ pipe_cap w)%nat then
              Ret (set_pipes <[i := buf ++ data]> w, 1, Z.of_nat (length data))
            else Blocks
          else Ret (sys_SetLastError w ERROR_NO_DATA, 0, 0)
      | None => Ret (sys_SetLastError w ERROR_INVALID_HANDLE, 0, 0)
      end
  | Some (HDevice _ f) =>
      Ret (set_devices <[f := default [] (devices w !! f) ++ [Bytes data]]> w, 1,
           Z.of_nat (length data))
  | Some _ => Ret (sys_SetLastError w ERROR_ACCESS_DENIED, 0, 0)
  | None => Ret (sys_SetLastError w ERROR_INVALID_HANDLE, 0, 0)
  end.

(** [CloseHandle(h)] *)
Definition sys_CloseHandle (w : world) (h : Z) : world * Z :=
  match handles w !! h with
  | Some _ => (set_handles (delete h) w, 1)
  | None => (sys_SetLastError w ERROR_INVALID_HANDLE, 0)
  end.

(** [SetHandleInformation(h, mask, flags)]: the flags selected by [mask]
    are set to what [flags] says. *)
Definition sys_SetHandleInformation (w : world) (h mask flags : Z) : world * Z :=
  match handles w !! h with
  | Some e =>
      let inh :=
        if decide (Z.land mask HANDLE_FLAG_INHERIT ≠ 0)
        then bool_decide (Z.land flags HANDLE_FLAG_INHERIT ≠ 0)
        else inheritable e in
      (set_handles <[h := Handle (obj e) inh]> w, 1)
  | None => (sys_SetLastError w ERROR_INVALID_HANDLE, 0)
  end.

(** The fields of [STARTUPINFOW] that the program sets. *)
Record startupinfo : Type :=
  StartupInfo { dwFlags : Z; hStdInput : Z; hStdOutput : Z; hStdError : Z }.

(** [CreateProcessW(app, cmdline, NULL, NULL, bInheritHandles, 0, NULL,
    NULL, &si, &info)]: the new world, the [BOOL] returned, and
    [info.hProcess], [info.hThread].  With [bInheritHandles] the child
    starts with the caller's inheritable handles, under the same values;
    its standard handles are those of [si] when [STARTF_USESTDHANDLES] is
    set, and the caller's otherwise. *)
Definition sys_CreateProcessW (w : world) (app cmdline : list Z) (bInheritHandles : Z)
    (si : startupinfo) : world * Z * Z * Z :=
  let fail e w := (sys_SetLastError w e, 0, INVALID_HANDLE_VALUE, INVALID_HANDLE_VALUE) in
  let go w :=
    if decide (app ∈ exes w) then
      let tbl : gmap Z hentry :=
        if decide (bInheritHandles ≠ 0)
        then filter (λ kv, inheritable kv.2 = true) (handles w) else ∅ in
      let std :=
        if decide (Z.land (dwFlags si) STARTF_USESTDHANDLES ≠ 0)
        then Std (hStdInput si) (hStdOutput si) (hStdError si) else stdh w in
      let pid := alloc_nat (procs w) in
      let w := set_procs <[pid := WRunning app cmdline tbl std]> w in
      let hp := alloc 4 (handles w) in
      let w := set_handles <[hp := Handle (HProcess pid) false]> w in
      let ht := alloc 4 (handles w) in
      (set_handles <[ht := Handle HThread false]> w, 1, hp, ht)
    else fail ERROR_FILE_NOT_FOUND w in
  match inject w with
  | [] => go w
  | e :: rest => if decide (e = 0) then go (set_inject rest w) else fail e (set_inject rest w)
  end.

(** What a child does on its own, seen from the parent: it writes to its
    standard output or to its standard error, or it exits.  A write to a
    pipe that nobody can read from fails, and one that does not fit the
    pipe leaves the child asleep in it: neither changes what the parent
    can see. *)
Inductive child_action : Type :=
| ChildWrites (to_stderr : bool) (data : list byte)
| ChildExits (code : Z).

Definition child_step (pid : nat) (w : world) (a : child_action) : world :=
  match procs w !! pid with
  | Some (WRunning image cmdline t std) =>
      match a with
      | ChildWrites to_stderr data =>
          let h := if to_stderr then std_err std else std_out std in
          match obj <$> t !! h with
          | Some (HWrite i) =>
              match pipes w !! i with
              | Some buf =>
                  if decide (open_somewhere w (HRead i) ∧
                             (length buf + length data ≤ pipe_cap w)%nat)
                  then set_pipes <[i := buf ++ data]> w
                  else w
              | None => w
              end
          | Some (HDevice _ f) =>
              set_devices <[f := default [] (devices w !! f) ++ [Bytes data]]> w
          | _ => w
          end
      | ChildExits code => set_procs <[pid := WExited (to_uint code)]> w
      end
  | _ => w
  end.

(** The child behind the process handle [p] performs [acts]. *)
Definition child_run (p : Z) (w : world) (acts : list child_action) : world :=
  match obj <$> handles w !! p with
  | Some (HProcess pid) => foldl (child_step pid) w acts
  | _ => w
  end.

(** *** The program *)

(** ps-exec-out.c:16-19. *)
Record ps_execinfo : Type := ExecInfo { argv : list string; in_ : Z; out : Z; err : Z }.

Section Program.

(** The transcodings done by [MultiByteToWideChar]: of a C string, and of
    a counted run of bytes. *)
Variable decode : string → list Z.
Variable decode_bytes : list byte → list Z.

(** ps-exec-out.c:23-40.  [len] reaches [MultiByteToWideChar] as an
    [int] and [WriteFile] as a [DWORD]. *)
Definition stdout_write (w : world) (data : list byte) : result (world * Z) :=
  let len := Z.of_nat (length data) in
  let h := sys_GetStdHandle w STD_OUTPUT_HANDLE in
  let '(w, ok) := sys_GetConsoleMode w h in
  if decide (ok ≠ 0) then
    '(r, units) ← sys_MultiByteToWideChar_n decode_bytes data (to_int len) 1000;
    let '(w, ok) := sys_WriteConsoleW w h (take (Z.to_nat r) units) in
    if decide (ok = 0) then Ret (w, -1)
    else Ret (w, len)
  else
    '(w, ok, r) ← sys_WriteFile w h (take (Z.to_nat (to_uint len)) data);
    if decide (ok = 0) then Ret (w, -1)
    else Ret (w, r).

(** ps-exec-out.c:45-48: [return !CreatePipe(rd, wr, NULL, 0);] *)
Definition pipe_create (w : world) (rd wr : Z) : world * Z * Z * Z :=
  let '(w, ok, rd, wr) := sys_CreatePipe w rd wr in
  (w, if decide (ok = 0) then 1 else 0, rd, wr).

(** ps-exec-out.c:50-53. *)
Definition pipe_close (w : world) (p : Z) : world := fst (sys_CloseHandle w p).

(** ps-exec-out.c:55-64.  [cap] is a [size_t] and [ReadFile] takes a
    [DWORD]: only the low 32 bits of [cap] reach the call. *)
Definition pipe_read (w : world) (p cap : Z) : result (world * Z * list byte) :=
  '(w, ok, rd, data) ← sys_ReadFile w p (to_uint cap);
  if decide (ok = 0) then
    if decide (sys_GetLastError w = ERROR_BROKEN_PIPE) then Ret (w, 0, [])
    else Ret (w, -1, [])
  else Ret (w, rd, data).

(** ps-exec-out.c:88-107: the standard handles of the child. *)
Definition startup (w : world) (ei : ps_execinfo) : world * startupinfo :=
  let si := StartupInfo 0 0 0 0 in
  if decide (in_ ei ≠ INVALID_HANDLE_VALUE ∨ out ei ≠ INVALID_HANDLE_VALUE ∨
             err ei ≠ INVALID_HANDLE_VALUE) then
    let si := StartupInfo (Z.lor (dwFlags si) STARTF_USESTDHANDLES)
                (sys_GetStdHandle w STD_INPUT_HANDLE)
                (sys_GetStdHandle w STD_OUTPUT_HANDLE)
                (sys_GetStdHandle w STD_ERROR_HANDLE) in
    let '(w, si) :=
      if decide (in_ ei ≠ INVALID_HANDLE_VALUE) then
        (fst (sys_SetHandleInformation w (in_ ei) HANDLE_FLAG_INHERIT 1),
         StartupInfo (dwFlags si) (in_ ei) (hStdOutput si) (hStdError si))
      else (w, si) in
    let '(w, si) :=
      if decide (out ei ≠ INVALID_HANDLE_VALUE) then
        (fst (sys_SetHandleInformation w (out ei) HANDLE_FLAG_INHERIT 1),
         StartupInfo (dwFlags si) (hStdInput si) (out ei) (hStdError si))
      else (w, si) in
    if decide (err ei ≠ INVALID_HANDLE_VALUE) then
      (fst (sys_SetHandleInformation w (err ei) HANDLE_FLAG_INHERIT 1),
       StartupInfo (dwFlags si) (hStdInput si) (hStdOutput si) (err ei))
    else (w, si)
  else (w, si).

(** ps-exec-out.c:110-116: the call of [CreateProcessW] and what follows
    it. *)
Definition spawn (w : world) (app cmdline : list Z) (si : startupinfo) : world * Z :=
  let '(w, ok, hProcess, hThread) := sys_CreateProcessW w app cmdline 1 si in
  if decide (ok = 0) then (w, _PS_NULL)
  else (fst (sys_CloseHandle w hThread), hProcess).

(** ps-exec-out.c:69-117.  The loop over [argv] is that of ps-exec.c.
    [junk] is what the array [wargs] holds before the loop. *)
Definition ps_exec_info (junk : list Z) (w : world) (filename : string) (ei : ps_execinfo)
  : result (world * Z) :=
  let '(r, wfn) := MultiByteToWideChar decode filename 1000 in
  if decide (0 = r) then Ret (w, _PS_NULL)
  else
    args ← PsWin.join_args decode (argv ei) 0 junk 0;
    match args with
    | None => Ret (w, _PS_NULL)
    | Some (wargs, _) =>
        let '(w, si) := startup w ei in
        match wfn ≫= wcs, wcs wargs with
        | Some app, Some cmdline => Ret (spawn w app cmdline si)
        | _, _ => Fault
        end
    end.

(** ps-exec-out.c:119-122. *)
Definition ps_close (w : world) (p : Z) : world := fst (sys_CloseHandle w p).

(** ps-exec-out.c:190-226, over the Windows branch
    ([path = "std-echo.exe"]).  [r0], [w0]: what the locals [r] and [w]
    hold before they are assigned.  [acts]: what the child does between
    its start and the moment the parent's [pipe_read] is served; if the
    read finds nothing to return, the child does nothing more. *)
Definition main (junk : list Z) (w : world) (r0 w0 : Z) (acts : list child_action)
  : result (world * ending) :=
  let path := "std-echo.exe" in
  let arg0 := "std-echo" in
  let '(w, e, r, wr) := pipe_create w r0 w0 in
  if decide (0 ≠ e) then Ret (w, AssertionFailed 199)
  else
    let args := [arg0] in
    let info := ExecInfo args PIPE_NULL wr wr in
    '(w, p) ← ps_exec_info junk w path info;
    if decide (p = _PS_NULL) then Ret (w, AssertionFailed 213)
    else
      let w := child_run p w acts in
      '(w, n, buf) ← pipe_read w r 1000;
      if decide (n < 0) then Ret (w, AssertionFailed 218)
      else
        '(w, _) ← stdout_write w (take (Z.to_nat n) buf);
        let w := ps_close w p in
        let w := pipe_close w r in
        let w := pipe_close w wr in
        Ret (w, Returns).

End Program.
End OutWin.

(** [CreateProcessW] can start [app] in the world of ps-exec-out.c. *)
Definition out_win_can_start (w : OutWin.world) (app : list Z) : Prop :=
  default 0 (head (OutWin.inject w)) = 0 ∧ app ∈ OutWin.exes w.

#[global] Instance out_win_can_start_dec w app : Decision (out_win_can_start w app).
Proof. unfold out_win_can_start. apply _. Defined.

(** The child only exits: it writes nothing. *)
Definition win_silent (acts : list OutWin.child_action) : Prop :=
  Forall (λ a, ∃ code, a = OutWin.ChildExits code) acts.

(** A transcoding of counted bytes to compute with: each byte as one
    unit. *)
Definition byte_units (data : list byte) : list Z := (λ b, Z.of_N (Byte.to_N b)) <$> data.

(** ps-exec-out.c on Windows: a process with its three standard handles
    on one console, on a system with std-echo.exe. *)
Definition out_win_world : OutWin.world :=
  OutWin.World
    {[ 4 := OutWin.Handle (OutWin.HDevice true 0) true;
       8 := OutWin.Handle (OutWin.HDevice true 0) true;
       12 := OutWin.Handle (OutWin.HDevice true 0) true ]}
    (OutWin.Std 4 8 12)
    ∅ {[ 0%nat := [] ]} ∅ {[ ascii_units "std-echo.exe" ]} [] 1024 4096 0.

(** The same process on a system without std-echo.exe. *)
Definition out_win_bare : OutWin.world :=
  OutWin.World
    {[ 4 := OutWin.Handle (OutWin.HDevice true 0) true;
       8 := OutWin.Handle (OutWin.HDevice true 0) true;
       12 := OutWin.Handle (OutWin.HDevice true 0) true ]}
    (OutWin.Std 4 8 12)
    ∅ {[ 0%nat := [] ]} ∅ ∅ [] 1024 4096 0.


(* ===================================================================== *)
(** * Part II: theorems                                                   *)
(* ===================================================================== *)

(** ** Allocation, stores, wide strings *)

Lemma alloc_spec {A} (lo : Z) (m : gmap Z A) : m !! alloc lo m = None ∧ lo ≤ alloc lo m.
Proof.
  unfold alloc.
  destruct (head _) as [n|] eqn:Hh; simpl.
  - apply head_Some_elem_of, list_elem_of_filter in Hh as [Hn Hin].
    apply elem_of_seqZ in Hin. split; [by apply not_elem_of_dom|lia].
  - exfalso. apply head_None in Hh.
    assert (Hsub : list_to_set (C := gset Z) (seqZ lo (Z.of_nat (size m) + 1)) ⊆ dom m).
    { intros n Hn. apply elem_of_list_to_set in Hn.
      destruct (decide (n ∈ dom m)) as [|Hnot]; [done|].
      assert (n ∈ filter (λ n, n ∉ dom m) (seqZ lo (Z.of_nat (size m) + 1))) as Hf
        by (by apply list_elem_of_filter).
      rewrite Hh in Hf. by apply elem_of_nil in Hf. }
    apply subseteq_size in Hsub.
    rewrite size_list_to_set, length_seqZ, size_dom in Hsub by apply NoDup_seqZ.
    lia.
Qed.

Lemma alloc_fresh {A} (lo : Z) (m : gmap Z A) : m !! alloc lo m = None.
Proof. apply alloc_spec. Qed.

Lemma alloc_ge {A} (lo : Z) (m : gmap Z A) : lo ≤ alloc lo m.
Proof. apply alloc_spec. Qed.

Lemma alloc_nat_fresh {A} (m : gmap nat A) : m !! alloc_nat m = None.
Proof. apply not_elem_of_dom, is_fresh. Qed.

Lemma store_frame m p v m' a : store m p v = Ret m' → a ≠ p → m' !! a = m !! a.
Proof.
  unfold store. intros H Ha. destruct (decide (p = NULL)); [done|].
  destruct (m !! p); [|done]. injection H as <-. by rewrite lookup_insert_ne.
Qed.

Lemma store_valid m p v : p ≠ NULL → is_Some (m !! p) → store m p v = Ret (<[p := v]> m).
Proof.
  intros Hp [x Hx]. unfold store. rewrite decide_False by done. by rewrite Hx.
Qed.

Lemma to_uint_pid p : 0 < p < 2 ^ 31 → to_uint p = p.
Proof. intros. unfold to_uint. apply Z.mod_small. lia. Qed.

Lemma to_int_small x : - 2 ^ 31 ≤ x < 2 ^ 31 → to_int x = x.
Proof. intros. unfold to_int. rewrite Z.mod_small; lia. Qed.

Lemma wcs_terminated (l rest : list Z) : wcs (l ++ 0 :: rest) = Some (upto0 l).
Proof.
  induction l as [|c l IH]; simpl; [done|].
  destruct (decide (c = 0)); [done|]. by rewrite IH.
Qed.

Lemma upto0_id (l : list Z) : 0 ∉ l → upto0 l = l.
Proof.
  induction l as [|c l IH]; simpl; [done|]. intros Hin.
  apply not_elem_of_cons in Hin as [? ?].
  rewrite decide_False by done. by rewrite IH.
Qed.

(** ** ps-exec-wait.c: what [ps_wait] writes *)

Lemma unix_waitid_mem w idt id s o w' r s' :
  PsUnix.sys_waitid w idt id s o = Ret (w', r, s') → PsUnix.mem w' = PsUnix.mem w.
Proof.
  unfold PsUnix.sys_waitid. intros H.
  repeat (case_match; simplify_eq/=); done.
Qed.

Lemma unix_ps_wait_frame w p block exit_code w' r :
  PsUnix.ps_wait w p block exit_code = Ret (w', r) →
  (r ≠ 0 → PsUnix.mem w' = PsUnix.mem w) ∧
  (∀ a, a ≠ exit_code → PsUnix.mem w' !! a = PsUnix.mem w !! a).
Proof.
  unfold PsUnix.ps_wait. intros H.
  destruct (PsUnix.sys_waitid _ _ _ _ _) as [[[w1 r1] s1]| | |?] eqn:Hw; simplify_eq/=.
  apply unix_waitid_mem in Hw. rewrite <- Hw. clear Hw.
  destruct (decide (r1 ≠ 0)); simplify_eq/=; [done|].
  destruct (decide (PsUnix.si_pid s1 = 0)); simplify_eq/=; [done|].
  destruct (decide (exit_code ≠ NULL)); simplify_eq/=; [|done].
  destruct (decide (PsUnix.si_code s1 = PsUnix.CLD_EXITED));
    destruct (store _ _ _) eqn:Hs; simplify_eq/=;
    (split; [done|]; intros ??; by eapply store_frame).
Qed.

Lemma unix_ps_wait_null w p block : PsUnix.ps_wait w p block NULL ≠ Fault.
Proof.
  unfold PsUnix.ps_wait, PsUnix.sys_waitid.
  repeat (case_match; simplify_eq/=); done.
Qed.

Lemma win_CloseHandle_mem w h : PsWin.mem (PsWin.sys_CloseHandle w h).1 = PsWin.mem w.
Proof. unfold PsWin.sys_CloseHandle. by case_match. Qed.

Lemma win_GetExitCodeProcess_frame w h p w' ok :
  PsWin.sys_GetExitCodeProcess w h p = Ret (w', ok) →
  ∀ a, a ≠ p → PsWin.mem w' !! a = PsWin.mem w !! a.
Proof.
  unfold PsWin.sys_GetExitCodeProcess. intros H a Ha.
  repeat case_match; simplify_eq/=; try done;
    destruct (store _ _ _) eqn:Hs; simplify_eq/=; by eapply store_frame.
Qed.

Lemma win_ps_wait_frame w p block exit_code w' r :
  PsWin.ps_wait w p block exit_code = Ret (w', r) →
  (r ≠ 0 → PsWin.mem w' = PsWin.mem w) ∧
  (∀ a, a ≠ exit_code → PsWin.mem w' !! a = PsWin.mem w !! a).
Proof.
  unfold PsWin.ps_wait. intros H.
  destruct (PsWin.sys_WaitForSingleObject _ _ _) as [[w1 r1]| | |?] eqn:Hw; simplify_eq/=.
  assert (PsWin.mem w1 = PsWin.mem w) as <-.
  { unfold PsWin.sys_WaitForSingleObject in Hw. by repeat case_match; simplify_eq/=. }
  clear Hw.
  destruct (decide (to_int r1 = PsWin.WAIT_OBJECT_0)) as [Hr|Hr]; simplify_eq/=.
  - destruct (decide (exit_code ≠ NULL)); simplify_eq/=.
    + destruct (PsWin.sys_GetExitCodeProcess _ _ _) as [[w2 ok]| | |?] eqn:Hg; simplify_eq/=.
      split; [done|]. intros a Ha. rewrite win_CloseHandle_mem.
      by eapply win_GetExitCodeProcess_frame.
    + by rewrite win_CloseHandle_mem.
  - by destruct (decide (to_int r1 = PsWin.WAIT_TIMEOUT)); simplify_eq/=.
Qed.

Lemma win_ps_wait_null w p block : PsWin.ps_wait w p block NULL ≠ Fault.
Proof.
  unfold PsWin.ps_wait, PsWin.sys_WaitForSingleObject, PsWin.sys_CloseHandle.
  repeat (case_match; simplify_eq/=); done.
Qed.

(** C10.  On both platforms [ps_wait] stores through [exit_code] only
    when it returns 0: whenever it returns a non-zero value the caller's
    memory is what it was, and whenever it returns at all no object other
    than [*exit_code] has changed.  With [exit_code == NULL] the call never
    touches memory, so it cannot fault and leaves memory as it was. *)
Theorem ps_wait_writes_exit_code_only_on_success :
  (∀ w p block exit_code w' r,
     PsUnix.ps_wait w p block exit_code = Ret (w', r) →
     (r ≠ 0 → PsUnix.mem w' = PsUnix.mem w) ∧
     (∀ a, a ≠ exit_code → PsUnix.mem w' !! a = PsUnix.mem w !! a)) ∧
  (∀ w p block,
     PsUnix.ps_wait w p block NULL ≠ Fault ∧
     ∀ w' r, PsUnix.ps_wait w p block NULL = Ret (w', r) → PsUnix.mem w' = PsUnix.mem w) ∧
  (∀ w p block exit_code w' r,
     PsWin.ps_wait w p block exit_code = Ret (w', r) →
     (r ≠ 0 → PsWin.mem w' = PsWin.mem w) ∧
     (∀ a, a ≠ exit_code → PsWin.mem w' !! a = PsWin.mem w !! a)) ∧
  (∀ w p block,
     PsWin.ps_wait w p block NULL ≠ Fault ∧
     ∀ w' r, PsWin.ps_wait w p block NULL = Ret (w', r) → PsWin.mem w' = PsWin.mem w).
Proof.
  split_and!.
  - apply unix_ps_wait_frame.
  - intros w p block. split; [apply unix_ps_wait_null|].
    intros w' r H. apply map_eq. intros a.
    destruct (decide (a = NULL)) as [->|Ha].
    + clear -H. unfold PsUnix.ps_wait in H.
      destruct (PsUnix.sys_waitid _ _ _ _ _) as [[[w1 r1] s1]| | |?] eqn:Hw; simplify_eq/=.
      apply unix_waitid_mem in Hw. rewrite <- Hw.
      by repeat (case_match; simplify_eq/=).
    + by eapply unix_ps_wait_frame.
  - apply win_ps_wait_frame.
  - intros w p block. split; [apply win_ps_wait_null|].
    intros w' r H. clear -H. unfold PsWin.ps_wait in H.
    destruct (PsWin.sys_WaitForSingleObject _ _ _) as [[w1 r1]| | |?] eqn:Hw; simplify_eq/=.
    assert (PsWin.mem w1 = PsWin.mem w) as <-.
    { unfold PsWin.sys_WaitForSingleObject in Hw. by repeat case_match; simplify_eq/=. }
    repeat (case_match; simplify_eq/=); try done; by rewrite win_CloseHandle_mem.
Qed.

Lemma ps_wait_writes_exit_code_only_on_success_witness :
  PsUnix.mem (PsUnix.set_errno PsUnix.ETIMEDOUT unix_ps_world) = PsUnix.mem unix_ps_world.
Proof.
  refine (proj1 (proj1 ps_wait_writes_exit_code_only_on_success
                   unix_ps_world 2 0 100 _ (-1) _) _).
  - vm_compute. reflexivity.
  - lia.
Defined.

(** ** ps-exec-wait.c: [ps_wait] in each state of the child *)

(** The memory after [*exit_code = v], when [exit_code] is not [NULL]. *)
Lemma store_out m x v :
  valid_out m x →
  (if decide (x ≠ NULL) then store m x v else Ret m)
  = Ret (if decide (x ≠ NULL) then <[x := v]> m else m).
Proof.
  intros [->|[Hx Hm]].
  - by rewrite !decide_False by (intros H; by apply H).
  - rewrite !decide_True by done. by apply store_valid.
Qed.

Lemma unix_ps_wait_running w p image args x :
  0 < p < 2 ^ 31 → PsUnix.procs w !! p = Some (PsUnix.Running image args) →
  PsUnix.ps_wait w p 0 x = Ret (PsUnix.set_errno PsUnix.ETIMEDOUT w, -1).
Proof.
  intros Hp Hrun. unfold PsUnix.ps_wait, PsUnix.sys_waitid.
  rewrite to_uint_pid by done. rewrite Hrun. reflexivity.
Qed.

Lemma unix_ps_wait_zombie w p block c st x :
  0 < p < 2 ^ 31 → PsUnix.procs w !! p = Some (PsUnix.Zombie c st) →
  valid_out (PsUnix.mem w) x →
  PsUnix.ps_wait w p block x =
    Ret (PsUnix.set_mem
           (if decide (x ≠ NULL)
            then <[x := if decide (c = PsUnix.CLD_EXITED) then st else to_int (- st)]> (PsUnix.mem w)
            else PsUnix.mem w)
           (PsUnix.set_procs (delete p) w), 0).
Proof.
  intros Hp Hz Hx. unfold PsUnix.ps_wait, PsUnix.sys_waitid.
  rewrite to_uint_pid by done. rewrite Hz.
  assert (Z.land (Z.lor PsUnix.WEXITED (if decide (block = 0) then PsUnix.WNOHANG else 0))
            PsUnix.WEXITED ≠ 0) as Hopt by (by destruct (decide (block = 0))).
  rewrite decide_False by (intros [?|?]; done). simpl.
  destruct (decide (0 ≠ 0)) as [?|_]; [done|].
  destruct (decide (p = 0)) as [?|_]; [lia|].
  destruct (decide (c = PsUnix.CLD_EXITED)).
  - pose proof (store_out (PsUnix.mem w) x st Hx) as Hs.
    destruct (decide (x ≠ NULL)); [by rewrite Hs|done].
  - pose proof (store_out (PsUnix.mem w) x (to_int (- st)) Hx) as Hs.
    destruct (decide (x ≠ NULL)); [by rewrite Hs|done].
Qed.

Lemma unix_ps_wait_gone w p block x :
  0 < p < 2 ^ 31 → PsUnix.procs w !! p = None →
  PsUnix.ps_wait w p block x = Ret (PsUnix.set_errno PsUnix.ECHILD w, -1).
Proof.
  intros Hp Hnone. unfold PsUnix.ps_wait, PsUnix.sys_waitid.
  rewrite to_uint_pid by done. rewrite Hnone.
  by destruct (decide (block = 0)).
Qed.

Lemma win_ps_wait_running w h image cmdline x :
  PsWin.handles w !! h = Some (PsWin.HProcess (PsWin.WRunning image cmdline)) →
  PsWin.ps_wait w h 0 x = Ret (PsWin.sys_SetLastError w PsWin.WSAETIMEDOUT, PsWin.WAIT_TIMEOUT).
Proof.
  intros Hrun. unfold PsWin.ps_wait, PsWin.sys_WaitForSingleObject.
  rewrite Hrun. reflexivity.
Qed.

Lemma win_ps_wait_exited w h block c x :
  PsWin.handles w !! h = Some (PsWin.HProcess (PsWin.WExited c)) →
  valid_out (PsWin.mem w) x →
  PsWin.ps_wait w h block x =
    Ret (PsWin.set_handles (delete h)
           (PsWin.set_mem (if decide (x ≠ NULL) then <[x := to_int c]> (PsWin.mem w)
                           else PsWin.mem w) w), 0).
Proof.
  intros He Hx. unfold PsWin.ps_wait, PsWin.sys_WaitForSingleObject.
  rewrite He. simpl. unfold PsWin.sys_GetExitCodeProcess. rewrite He.
  destruct Hx as [->|[Hx Hm]].
  - rewrite !decide_False by (intros H; by apply H). simpl.
    unfold PsWin.sys_CloseHandle. rewrite He. by destruct w.
  - rewrite !decide_True by done. rewrite store_valid by done. simpl.
    unfold PsWin.sys_CloseHandle. simpl. by rewrite He.
Qed.

Lemma win_ps_wait_closed w h block x :
  PsWin.handles w !! h = None →
  PsWin.ps_wait w h block x = Ret (PsWin.sys_SetLastError w PsWin.ERROR_INVALID_HANDLE, -1).
Proof.
  intros Hnone. unfold PsWin.ps_wait, PsWin.sys_WaitForSingleObject.
  by rewrite Hnone.
Qed.

Lemma unix_child_exits_running w p image args status :
  PsUnix.procs w !! p = Some (PsUnix.Running image args) →
  PsUnix.child_exits w p status
  = PsUnix.set_procs <[p := PsUnix.Zombie PsUnix.CLD_EXITED (Z.land status 255)]> w.
Proof. intros H. unfold PsUnix.child_exits. by rewrite H. Qed.

Lemma win_child_exits_running w h image cmdline code :
  PsWin.handles w !! h = Some (PsWin.HProcess (PsWin.WRunning image cmdline)) →
  PsWin.child_exits w h code
  = PsWin.set_handles <[h := PsWin.HProcess (PsWin.WExited (to_uint code))]> w.
Proof. intros H. unfold PsWin.child_exits. by rewrite H. Qed.

(** C3.  While the child runs, a non-blocking [ps_wait] returns a
    non-zero value with [err_last() == ERR_TIMEDOUT] and changes neither
    the child nor the caller's memory.  Once the child has exited the same
    call returns 0, and it consumes the handle: the same call once more
    fails.  On both platforms. *)
Theorem ps_wait_poll_times_out_until_exit :
  (∀ w p image args x,
     0 < p < 2 ^ 31 →
     PsUnix.procs w !! p = Some (PsUnix.Running image args) →
     valid_out (PsUnix.mem w) x →
     ∃ w1 r, PsUnix.ps_wait w p 0 x = Ret (w1, r) ∧ r ≠ 0 ∧
       PsUnix.err_last w1 = PsUnix.ERR_TIMEDOUT ∧
       PsUnix.procs w1 = PsUnix.procs w ∧ PsUnix.mem w1 = PsUnix.mem w ∧
       ∀ status, ∃ w2,
         PsUnix.ps_wait (PsUnix.child_exits w1 p status) p 0 x = Ret (w2, 0) ∧
         ∃ w3 r', PsUnix.ps_wait w2 p 0 x = Ret (w3, r') ∧ r' ≠ 0) ∧
  (∀ w h image cmdline x,
     PsWin.handles w !! h = Some (PsWin.HProcess (PsWin.WRunning image cmdline)) →
     valid_out (PsWin.mem w) x →
     ∃ w1 r, PsWin.ps_wait w h 0 x = Ret (w1, r) ∧ r ≠ 0 ∧
       PsWin.err_last w1 = PsWin.ERR_TIMEDOUT ∧
       PsWin.handles w1 = PsWin.handles w ∧ PsWin.mem w1 = PsWin.mem w ∧
       ∀ code, ∃ w2,
         PsWin.ps_wait (PsWin.child_exits w1 h code) h 0 x = Ret (w2, 0) ∧
         ∃ w3 r', PsWin.ps_wait w2 h 0 x = Ret (w3, r') ∧ r' ≠ 0).
Proof.
  split.
  - intros w p image args x Hp Hrun Hx.
    eexists _, _. split; [by eapply unix_ps_wait_running|].
    split_and!; try done. intros status.
    rewrite (unix_child_exits_running _ _ image args) by done.
    eexists. split.
    + apply unix_ps_wait_zombie; [done| |done]. simpl. by rewrite lookup_insert_eq.
    + eexists _, _. split.
      * apply unix_ps_wait_gone; [done|]. simpl. by rewrite lookup_delete_eq.
      * done.
  - intros w h image cmdline x Hrun Hx.
    eexists _, _. split; [by eapply win_ps_wait_running|].
    split_and!; try done. intros code.
    rewrite (win_child_exits_running _ _ image cmdline) by done.
    eexists. split.
    + apply win_ps_wait_exited; [|done]. simpl. by rewrite lookup_insert_eq.
    + eexists _, _. split.
      * apply win_ps_wait_closed. simpl. by rewrite lookup_delete_eq.
      * done.
Qed.

Lemma ps_wait_poll_times_out_until_exit_witness :
  ∃ w1 r, PsUnix.ps_wait unix_ps_world 2 0 100 = Ret (w1, r) ∧ r ≠ 0 ∧
    PsUnix.err_last w1 = PsUnix.ERR_TIMEDOUT ∧
    PsUnix.procs w1 = PsUnix.procs unix_ps_world ∧ PsUnix.mem w1 = PsUnix.mem unix_ps_world ∧
    ∀ status, ∃ w2,
      PsUnix.ps_wait (PsUnix.child_exits w1 2 status) 2 0 100 = Ret (w2, 0) ∧
      ∃ w3 r', PsUnix.ps_wait w2 2 0 100 = Ret (w3, r') ∧ r' ≠ 0.
Proof.
  apply (proj1 ps_wait_poll_times_out_until_exit unix_ps_world 2 "std-echo" ["std-echo"] 100).
  - lia.
  - vm_compute. reflexivity.
  - right. split; [done|]. vm_compute. eauto.
Defined.

(** ** ps-exec-wait.c: the exit status [ps_wait] reports *)

Lemma land_255_range s : 0 ≤ Z.land s 255 ≤ 255.
Proof.
  change 255 with (Z.ones 8). rewrite Z.land_ones by lia.
  change (2 ^ 8) with 256. change (Z.ones 8) with 255.
  pose proof (Z.mod_pos_bound s 256 ltac:(lia)). lia.
Qed.

Lemma unix_kill_running w p image args sig :
  PsUnix.procs w !! p = Some (PsUnix.Running image args) →
  PsUnix.sys_kill w p sig
  = (PsUnix.set_procs <[p := PsUnix.Zombie PsUnix.CLD_KILLED sig]> w, 0).
Proof. intros H. unfold PsUnix.sys_kill. by rewrite H. Qed.

Lemma win_kill_running w h image cmdline :
  PsWin.handles w !! h = Some (PsWin.HProcess (PsWin.WRunning image cmdline)) →
  PsWin.ps_kill w h
  = (PsWin.set_handles <[h := PsWin.HProcess (PsWin.WExited (to_uint (-9)))]> w, 0).
Proof. intros H. unfold PsWin.ps_kill, PsWin.sys_TerminateProcess. by rewrite H. Qed.

(** C4, as the code has it.  UNIX: a child that exits is reported with
    the low eight bits of its status, a value in [0,255]; a child that a
    signal terminates is reported with minus the signal's number, a
    negative value; [ps_kill] followed by a blocking [ps_wait] reports -9.
    Windows: [ps_kill] followed by a blocking [ps_wait] reports -9 too, and
    a child that exits is reported with its 32-bit exit code read as an
    [int], whatever that is. *)
Theorem ps_wait_exit_status_encoding :
  (∀ w p image args block x status,
     0 < p < 2 ^ 31 → PsUnix.procs w !! p = Some (PsUnix.Running image args) →
     x ≠ NULL → is_Some (PsUnix.mem w !! x) →
     ∃ w' c, PsUnix.ps_wait (PsUnix.child_exits w p status) p block x = Ret (w', 0) ∧
       PsUnix.mem w' !! x = Some c ∧ c = Z.land status 255 ∧ 0 ≤ c ≤ 255) ∧
  (∀ w p image args block x sig,
     0 < p < 2 ^ 31 → PsUnix.procs w !! p = Some (PsUnix.Running image args) →
     x ≠ NULL → is_Some (PsUnix.mem w !! x) → 1 ≤ sig ≤ 64 →
     ∃ w' c, PsUnix.ps_wait (PsUnix.child_killed w p sig) p block x = Ret (w', 0) ∧
       PsUnix.mem w' !! x = Some c ∧ c = - sig ∧ c < 0) ∧
  (∀ w p image args x,
     0 < p < 2 ^ 31 → PsUnix.procs w !! p = Some (PsUnix.Running image args) →
     x ≠ NULL → is_Some (PsUnix.mem w !! x) →
     ∃ w1 w2, PsUnix.ps_kill w p = (w1, 0) ∧ PsUnix.ps_wait w1 p 1 x = Ret (w2, 0) ∧
       PsUnix.mem w2 !! x = Some (-9)) ∧
  (∀ w h image cmdline x,
     PsWin.handles w !! h = Some (PsWin.HProcess (PsWin.WRunning image cmdline)) →
     x ≠ NULL → is_Some (PsWin.mem w !! x) →
     ∃ w1 w2, PsWin.ps_kill w h = (w1, 0) ∧ PsWin.ps_wait w1 h 1 x = Ret (w2, 0) ∧
       PsWin.mem w2 !! x = Some (-9)) ∧
  (∀ w h image cmdline block x code,
     PsWin.handles w !! h = Some (PsWin.HProcess (PsWin.WRunning image cmdline)) →
     x ≠ NULL → is_Some (PsWin.mem w !! x) →
     ∃ w', PsWin.ps_wait (PsWin.child_exits w h code) h block x = Ret (w', 0) ∧
       PsWin.mem w' !! x = Some (to_int (to_uint code))).
Proof.
  split_and!.
  - intros w p image args block x status Hp Hrun Hx Hm.
    rewrite (unix_child_exits_running _ _ image args) by done.
    eexists _, _. split.
    + apply unix_ps_wait_zombie; [done| |by right]. simpl. by rewrite lookup_insert_eq.
    + simpl. rewrite !decide_True by done. rewrite lookup_insert_eq.
      split_and!; [done..|apply land_255_range|apply land_255_range].
  - intros w p image args block x sig Hp Hrun Hx Hm Hsig.
    unfold PsUnix.child_killed. rewrite (unix_kill_running _ _ image args) by done.
    eexists _, _. split.
    + apply unix_ps_wait_zombie; [done| |by right]. simpl. by rewrite lookup_insert_eq.
    + simpl. rewrite decide_True by done.
      rewrite lookup_insert_eq, to_int_small by lia. split_and!; [done..|lia].
  - intros w p image args x Hp Hrun Hx Hm.
    unfold PsUnix.ps_kill. rewrite (unix_kill_running _ _ image args) by done.
    eexists _, _. split; [done|]. split.
    + apply unix_ps_wait_zombie; [done| |by right]. simpl. by rewrite lookup_insert_eq.
    + simpl. rewrite decide_True by done.
      by rewrite lookup_insert_eq.
  - intros w h image cmdline x Hrun Hx Hm.
    rewrite (win_kill_running _ _ image cmdline) by done.
    eexists _, _. split; [done|]. split.
    + apply win_ps_wait_exited; [|by right]. simpl. by rewrite lookup_insert_eq.
    + simpl. rewrite decide_True by done. by rewrite lookup_insert_eq.
  - intros w h image cmdline block x code Hrun Hx Hm.
    rewrite (win_child_exits_running _ _ image cmdline) by done.
    eexists. split.
    + apply win_ps_wait_exited; [|by right]. simpl. by rewrite lookup_insert_eq.
    + simpl. rewrite decide_True by done. by rewrite lookup_insert_eq.
Qed.

(** C4 as stated fails on the Windows branch: a child that exits on its
    own with [ExitProcess(-9)] is reported as -9, which is not in [0,255]
    and is exactly what a child terminated by [ps_kill] is reported as. *)
Lemma ps_wait_exit_status_conflated_on_windows :
  ∃ w1 w2,
    PsWin.ps_wait (PsWin.child_exits win_ps_world 4 (-9)) 4 1 100 = Ret (w1, 0) ∧
    PsWin.mem w1 !! 100 = Some (-9) ∧
    PsWin.ps_wait (fst (PsWin.ps_kill win_ps_world 4)) 4 1 100 = Ret (w2, 0) ∧
    PsWin.mem w2 !! 100 = Some (-9) ∧
    ¬ (0 ≤ -9 ≤ 255).
Proof.
  eexists _, _. split_and!.
  - vm_compute. reflexivity.
  - vm_compute. reflexivity.
  - vm_compute. reflexivity.
  - vm_compute. reflexivity.
  - lia.
Qed.

Lemma ps_wait_exit_status_encoding_witness :
  ∃ w1 w2, PsUnix.ps_kill unix_ps_world 2 = (w1, 0) ∧
    PsUnix.ps_wait w1 2 1 100 = Ret (w2, 0) ∧ PsUnix.mem w2 !! 100 = Some (-9).
Proof.
  apply (proj1 (proj2 (proj2 ps_wait_exit_status_encoding))
           unix_ps_world 2 "std-echo" ["std-echo"] 100).
  - lia.
  - vm_compute. reflexivity.
  - done.
  - vm_compute. eauto.
Defined.

(** ** ps-exec.c: what [ps_exec] returns *)

Lemma unix_ps_exec_cases w filename argv :
  let '(w', p) := PsUnix.ps_exec w filename argv in
  (p = PsUnix._PS_NULL ∧ PsUnix.procs w' = PsUnix.procs w) ∨
  (2 ≤ p ∧ PsUnix.procs w !! p = None ∧
   PsUnix.procs w' =
     <[p := if decide (filename ∈ PsUnix.exes w)
            then PsUnix.Running filename argv
            else PsUnix.Zombie PsUnix.CLD_EXITED 255]> (PsUnix.procs w)).
Proof.
  unfold PsUnix.ps_exec, PsUnix.sys_vfork, PsUnix.sys_execve.
  destruct (decide (size (PsUnix.procs w) < PsUnix.nproc w)%nat); [|by left].
  right. split_and!; [apply alloc_ge|apply alloc_fresh|].
  simpl. by destruct (decide (filename ∈ PsUnix.exes w)).
Qed.






(** ** ps-exec.c: the command line of the Windows branch *)

Lemma spec_command_line_cons (x : list Z) (xs : list (list Z)) :
  spec_command_line (x :: xs) = x ++ concat ((32 ::.) <$> xs).
Proof.
  revert x. induction xs as [|y xs IH]; intros x; simpl.
  - by rewrite app_nil_r.
  - f_equal. f_equal. exact (IH y).
Qed.

Lemma spec_command_line_spaced decode a argv :
  spec_command_line (decode <$> a :: argv) = decode a ++ spaced decode argv.
Proof.
  rewrite fmap_cons, spec_command_line_cons. unfold spaced.
  by rewrite <- list_fmap_compose.
Qed.

Lemma mb2wc_fits decode s cch :
  Z.of_nat (length (decode s)) + 1 ≤ cch →
  MultiByteToWideChar decode s cch
  = (Z.of_nat (length (decode s)) + 1, Some (decode s ++ [0])).
Proof.
  intros H. unfold MultiByteToWideChar.
  assert (Z.of_nat (length (decode s ++ [0])) = Z.of_nat (length (decode s)) + 1) as Hl
    by (rewrite length_app; simpl; lia).
  rewrite Hl.
  rewrite decide_False by lia. rewrite decide_False by lia. by rewrite decide_True by lia.
Qed.

Lemma write_at_end (pre old ws : list Z) :
  (length ws ≤ length old)%nat →
  write_at (pre ++ old) (Z.of_nat (length pre)) ws = pre ++ ws ++ drop (length ws) old.
Proof.
  intros H. unfold write_at. rewrite Nat2Z.id.
  rewrite take_app_length. f_equal. f_equal.
  by rewrite drop_app_add.
Qed.

Lemma spaced_cons decode a argv :
  spaced decode (a :: argv) = 32 :: decode a ++ spaced decode argv.
Proof. reflexivity. Qed.

(** The iterations after the first: the array holds [acc], a terminator
    and a tail; each argument overwrites the terminator with a space and
    puts its units and a new terminator behind it. *)
Lemma join_args_rest decode argv : ∀ acc tail i,
  0 < i →
  length (acc ++ 0 :: tail) = 1000%nat →
  (length (acc ++ spaced decode argv) < 1000)%nat →
  ∃ tail',
    PsWin.join_args decode argv i (acc ++ 0 :: tail) (Z.of_nat (length acc))
    = Ret (Some ((acc ++ spaced decode argv) ++ 0 :: tail',
                 Z.of_nat (length (acc ++ spaced decode argv)))).
Proof.
  induction argv as [|a argv IH]; intros acc tail i Hi Hlen Hfit.
  - exists tail. unfold spaced. simpl. by rewrite !app_nil_r.
  - rewrite spaced_cons in *.
    rewrite length_app, length_cons, length_app in Hfit.
    rewrite length_app, length_cons in Hlen.
    simpl. rewrite decide_True by lia.
    unfold poke. rewrite decide_True by (rewrite length_app, length_cons; lia).
    simpl. rewrite Nat2Z.id.
    replace (<[length acc := 32]> (acc ++ 0 :: tail)) with (acc ++ 32 :: tail)
      by (rewrite insert_app_r_alt by lia; by rewrite Nat.sub_diag).
    rewrite to_int_small by lia.
    rewrite mb2wc_fits by lia. simpl.
    rewrite decide_False by lia.
    replace (acc ++ 32 :: tail) with ((acc ++ [32]) ++ tail) by (by rewrite <- app_assoc).
    replace (Z.of_nat (length acc) + 1) with (Z.of_nat (length (acc ++ [32])))
      by (rewrite length_app; simpl; lia).
    rewrite write_at_end by (rewrite length_app; simpl; lia).
    replace (Z.of_nat (length (acc ++ [32])) + (Z.of_nat (length (decode a)) + 1 - 1))
      with (Z.of_nat (length ((acc ++ [32]) ++ decode a)))
      by (rewrite !length_app; simpl; lia).
    replace ((acc ++ [32]) ++ (decode a ++ [0]) ++ drop (length (decode a ++ [0])) tail)
      with (((acc ++ [32]) ++ decode a) ++ 0 :: drop (length (decode a ++ [0])) tail)
      by (by rewrite <- !app_assoc).
    destruct (IH ((acc ++ [32]) ++ decode a) (drop (length (decode a ++ [0])) tail) (i + 1))
      as [tail' Heq].
    + lia.
    + list_len. lia.
    + list_len. lia.
    + exists tail'. rewrite Heq.
      by replace (((acc ++ [32]) ++ decode a) ++ spaced decode argv)
        with (acc ++ 32 :: decode a ++ spaced decode argv) by (by rewrite <- !app_assoc).
Qed.

(** The whole loop, for arguments that fit with their terminator. *)
Lemma join_args_fits decode junk a argv :
  length junk = 1000%nat →
  (length (spec_command_line (decode <$> a :: argv)) < 1000)%nat →
  ∃ tail n,
    PsWin.join_args decode (a :: argv) 0 junk 0
    = Ret (Some (spec_command_line (decode <$> a :: argv) ++ 0 :: tail, n)).
Proof.
  intros Hjunk Hfit. rewrite spec_command_line_spaced in *.
  assert (length (decode a) < 1000)%nat as Ha by (rewrite length_app in Hfit; lia).
  simpl. rewrite to_int_small by lia.
  rewrite mb2wc_fits by lia. simpl.
  rewrite decide_False by lia.
  pose proof (write_at_end [] junk (decode a ++ [0])) as Hw.
  change (Z.of_nat (length [])) with 0 in Hw. simpl in Hw.
  rewrite Hw by (rewrite length_app; simpl; lia). clear Hw.
  replace ((decode a ++ [0]) ++ drop (length (decode a ++ [0])) junk)
    with (decode a ++ 0 :: drop (length (decode a ++ [0])) junk)
    by (by rewrite <- app_assoc).
  replace (Z.of_nat (length (decode a)) + 1 - 1) with (Z.of_nat (length (decode a))) by lia.
  destruct (join_args_rest decode argv (decode a)
              (drop (length (decode a ++ [0])) junk) 1) as [tail' Heq].
  - lia.
  - list_len. lia.
  - done.
  - eexists _, _. exact Heq.
Qed.

Lemma spaced_no_nul (decode : string → list Z) (argv : list string) :
  (∀ a, a ∈ argv → 0 ∉ decode a) → 0 ∉ spaced decode argv.
Proof.
  induction argv as [|a argv IH]; intros Hno; [by apply not_elem_of_nil|].
  rewrite spaced_cons. rewrite not_elem_of_cons, not_elem_of_app. split_and!.
  - done.
  - apply Hno. by left.
  - apply IH. intros b Hb. apply Hno. by right.
Qed.

Lemma spec_command_line_no_nul (decode : string → list Z) (argv : list string) :
  (∀ a, a ∈ argv → 0 ∉ decode a) → 0 ∉ spec_command_line (decode <$> argv).
Proof.
  intros Hno. destruct argv as [|a argv]; [by apply not_elem_of_nil|].
  rewrite spec_command_line_spaced, not_elem_of_app. split.
  - apply Hno. by left.
  - apply spaced_no_nul. intros b Hb. apply Hno. by right.
Qed.










(** ** pipe-named.c, UNIX branch: descriptors on the failure paths *)

Lemma named_pop_fault_fds w :
  NamedUnix.fds (NamedUnix.pop_fault w).1 = NamedUnix.fds w.
Proof. unfold NamedUnix.pop_fault. by destruct (NamedUnix.inject w). Qed.

Lemma named_socket_cases w :
  let '(w', p) := NamedUnix.sys_socket w in
  (p = -1 ∧ NamedUnix.fds w' = NamedUnix.fds w) ∨
  (0 ≤ p ∧ NamedUnix.fds w !! p = None ∧
   NamedUnix.fds w' = <[p := NamedUnix.SockFresh]> (NamedUnix.fds w)).
Proof.
  unfold NamedUnix.sys_socket.
  pose proof (named_pop_fault_fds w) as Hf.
  destruct (NamedUnix.pop_fault w) as [w1 e]. simpl in Hf.
  destruct (decide (e ≠ 0)); simpl; rewrite Hf; [by left|right].
  split_and!; [apply alloc_ge|apply alloc_fresh|done].
Qed.

Lemma named_bind_cases w fd path :
  let '(w', r) := NamedUnix.sys_bind w fd path in
  (r = -1 ∧ NamedUnix.fds w' = NamedUnix.fds w) ∨
  (r = 0 ∧ NamedUnix.fds w' = <[fd := NamedUnix.SockBound path]> (NamedUnix.fds w)).
Proof.
  unfold NamedUnix.sys_bind.
  pose proof (named_pop_fault_fds w) as Hf.
  destruct (NamedUnix.pop_fault w) as [w1 e]. simpl in Hf.
  repeat case_match; simplify_eq/=; rewrite <- ?Hf; auto.
Qed.

Lemma named_listen_cases w fd :
  let '(w', r) := NamedUnix.sys_listen w fd in
  (r = -1 ∧ NamedUnix.fds w' = NamedUnix.fds w) ∨
  (r = 0 ∧ ∃ l, NamedUnix.fds w' = <[fd := NamedUnix.SockListen l]> (NamedUnix.fds w)).
Proof.
  unfold NamedUnix.sys_listen.
  pose proof (named_pop_fault_fds w) as Hf.
  destruct (NamedUnix.pop_fault w) as [w1 e]. simpl in Hf.
  repeat case_match; simplify_eq/=; rewrite <- ?Hf; eauto.
  right. split; [done|]. eexists. symmetry. by apply insert_id.
Qed.

Lemma named_connect_cases w fd path :
  let '(w', r) := NamedUnix.sys_connect w fd path in
  (r = -1 ∧ NamedUnix.fds w' = NamedUnix.fds w) ∨
  (r = 0 ∧ ∃ c, NamedUnix.fds w' = <[fd := NamedUnix.SockConn c false]> (NamedUnix.fds w)).
Proof.
  unfold NamedUnix.sys_connect.
  pose proof (named_pop_fault_fds w) as Hf.
  destruct (NamedUnix.pop_fault w) as [w1 e]. simpl in Hf.
  repeat case_match; simplify_eq/=; rewrite <- ?Hf; eauto.
Qed.

Lemma named_close_fds w fd :
  NamedUnix.fds (NamedUnix.sys_close w fd).1 = delete fd (NamedUnix.fds w).
Proof.
  unfold NamedUnix.sys_close. destruct (NamedUnix.fds w !! fd) as [d|] eqn:Hd; simpl.
  - by destruct d.
  - by rewrite delete_id.
Qed.

(** C9.  On the UNIX branch [pipe_create_named] and [pipe_connect] leave
    the descriptor table as they found it whenever they return
    [PIPE_NULL].  A name that does not fit [sun_path] with its terminator
    is refused with [errno = EINVAL] before any system call: nothing of
    the world changes but [errno].  On success the one new descriptor is
    the one returned. *)
Theorem named_pipe_unix_no_descriptor_leak :
  ∀ sun_path_size w name,
    (let '(w', r) := NamedUnix.pipe_create_named sun_path_size w name in
     (Z.of_nat (String.length name) + 1 > sun_path_size →
      r = NamedUnix.PIPE_NULL ∧ w' = NamedUnix.set_errno NamedUnix.EINVAL w) ∧
     (r = NamedUnix.PIPE_NULL → NamedUnix.fds w' = NamedUnix.fds w) ∧
     (r ≠ NamedUnix.PIPE_NULL →
      NamedUnix.fds w !! r = None ∧
      ∃ l, NamedUnix.fds w' = <[r := NamedUnix.SockListen l]> (NamedUnix.fds w))) ∧
    (let '(w', r) := NamedUnix.pipe_connect sun_path_size w name in
     (Z.of_nat (String.length name) + 1 > sun_path_size →
      r = NamedUnix.PIPE_NULL ∧ w' = NamedUnix.set_errno NamedUnix.EINVAL w) ∧
     (r = NamedUnix.PIPE_NULL → NamedUnix.fds w' = NamedUnix.fds w) ∧
     (r ≠ NamedUnix.PIPE_NULL →
      NamedUnix.fds w !! r = None ∧
      ∃ c, NamedUnix.fds w' = <[r := NamedUnix.SockConn c false]> (NamedUnix.fds w))).
Proof.
  intros sz w name. split.
  - unfold NamedUnix.pipe_create_named.
    destruct (decide (Z.of_nat (String.length name) + 1 > sz)) as [Hlong|Hfit]; [done|].
    pose proof (named_socket_cases w) as Hs.
    destruct (NamedUnix.sys_socket w) as [w1 p].
    destruct Hs as [[-> Hs]|(Hp & Hfresh & Hs)]; [done|].
    rewrite decide_False by lia.
    pose proof (named_bind_cases w1 p name) as Hb.
    destruct (NamedUnix.sys_bind w1 p name) as [w2 r].
    destruct Hb as [[-> Hb]|[-> Hb]].
    { rewrite decide_True by done. split_and!; [done| |done].
      intros _. rewrite named_close_fds, Hb, Hs. by apply delete_insert_id. }
    rewrite decide_False by (intros H; by apply H).
    pose proof (named_listen_cases w2 p) as Hl.
    destruct (NamedUnix.sys_listen w2 p) as [w3 r].
    destruct Hl as [[-> Hl]|[-> [l Hl]]].
    { rewrite decide_True by done. split_and!; [done| |done].
      intros _. rewrite named_close_fds, Hl, Hb, Hs.
      rewrite insert_insert_eq. by apply delete_insert_id. }
    rewrite decide_False by (intros H; by apply H).
    split_and!; [done|unfold NamedUnix.PIPE_NULL; lia|].
    intros _. split; [done|]. exists l. by rewrite Hl, Hb, Hs, !insert_insert_eq.
  - unfold NamedUnix.pipe_connect.
    destruct (decide (Z.of_nat (String.length name) + 1 > sz)) as [Hlong|Hfit]; [done|].
    pose proof (named_socket_cases w) as Hs.
    destruct (NamedUnix.sys_socket w) as [w1 p].
    destruct Hs as [[-> Hs]|(Hp & Hfresh & Hs)]; [done|].
    rewrite decide_False by lia.
    pose proof (named_connect_cases w1 p name) as Hc.
    destruct (NamedUnix.sys_connect w1 p name) as [w2 r].
    destruct Hc as [[-> Hc]|[-> [c Hc]]].
    { rewrite decide_True by done. split_and!; [done| |done].
      intros _. rewrite named_close_fds, Hc, Hs. by apply delete_insert_id. }
    rewrite decide_False by (intros H; by apply H).
    split_and!; [done|unfold NamedUnix.PIPE_NULL; lia|].
    intros _. split; [done|]. exists c. by rewrite Hc, Hs, insert_insert_eq.
Qed.

Lemma named_pipe_unix_no_descriptor_leak_witness :
  (NamedUnix.pipe_create_named 108 named_unix_listening (letters 108)).2 = NamedUnix.PIPE_NULL ∧
  NamedUnix.fds (NamedUnix.pipe_create_named 108 named_unix_listening (letters 108)).1
  = NamedUnix.fds named_unix_listening.
Proof.
  pose proof (proj1 (named_pipe_unix_no_descriptor_leak 108 named_unix_listening (letters 108)))
    as H.
  assert (NamedUnix.pipe_create_named 108 named_unix_listening (letters 108)
          = (NamedUnix.set_errno NamedUnix.EINVAL named_unix_listening, -1)) as Heq
    by (vm_compute; reflexivity).
  rewrite Heq in *. destruct H as (Hlong & Hnull & _).
  split; [reflexivity|]. apply Hnull. reflexivity.
Defined.

(** ** pipe-named.c: lifetimes of a listener and of its connections *)

(** What a use of [p] returns and does to its connection depends only on
    what [p] is open on and on that connection. *)
Lemma do_io_same_conn p w w' op :
  same_conn p w w' →
  match NamedUnix.do_io w p op, NamedUnix.do_io w' p op with
  | Ret (w1, o), Ret (w1', o') => o = o' ∧ same_conn p w1 w1'
  | Blocks, Blocks => True
  | _, _ => False
  end.
Proof.
  assert (∀ w1 w1' : NamedUnix.world,
    NamedUnix.fds w1 = NamedUnix.fds w → NamedUnix.fds w1' = NamedUnix.fds w' →
    (∀ k server, NamedUnix.fds w !! p = Some (NamedUnix.SockConn k server) →
       NamedUnix.conns w1 !! k = NamedUnix.conns w1' !! k) →
    NamedUnix.fds w !! p = NamedUnix.fds w' !! p →
    same_conn p w1 w1') as Hkeep.
  { intros w1 w1' H1 H1' Hc Hfd. split; rewrite H1, ?H1'; [done|]. apply Hc. }
  intros [Hfd Hconn]. destruct op as [size|data]; simpl.
  - unfold NamedUnix.pipe_read, NamedUnix.sys_read. rewrite <- Hfd.
    destruct (NamedUnix.fds w !! p) as [[| | |k server]|] eqn:Hp; simpl;
      try (split; [done|]; by apply Hkeep).
    rewrite <- (Hconn k server eq_refl).
    destruct (NamedUnix.conns w !! k) as [c|] eqn:Hk; simpl;
      [|split; [done|]; by apply Hkeep].
    destruct (NamedUnix.inbound server c) as [|b data] eqn:Hin; simpl.
    + destruct (NamedUnix.peer_open server c && negb (bool_decide (size = 0))); simpl; [done|].
      split; [done|]. by apply Hkeep.
    + split; [done|]. apply Hkeep; simpl; try done.
      intros ?? ?; simplify_eq. by rewrite !lookup_insert_eq.
  - unfold NamedUnix.pipe_write, NamedUnix.sys_write. rewrite <- Hfd.
    destruct (NamedUnix.fds w !! p) as [[| | |k server]|] eqn:Hp; simpl;
      try (split; [done|]; by apply Hkeep).
    rewrite <- (Hconn k server eq_refl).
    destruct (NamedUnix.conns w !! k) as [c|] eqn:Hk; simpl;
      [|split; [done|]; by apply Hkeep].
    destruct (negb (NamedUnix.peer_open server c)); simpl.
    + split; [done|]. by apply Hkeep.
    + split; [done|]. apply Hkeep; simpl; try done.
      intros ?? ?; simplify_eq. by rewrite !lookup_insert_eq.
Qed.

Lemma io_seq_same_conn p ops : ∀ w w',
  same_conn p w w' → NamedUnix.io_seq w p ops = NamedUnix.io_seq w' p ops.
Proof.
  induction ops as [|op ops IH]; intros w w' Hsame; simpl; [done|].
  pose proof (do_io_same_conn p w w' op Hsame) as Hstep.
  destruct (NamedUnix.do_io w p op) as [[w1 o]| | |?],
           (NamedUnix.do_io w' p op) as [[w1' o']| | |?]; try done.
  destruct Hstep as [-> Hsame']. f_equal. by apply IH.
Qed.

(** Resetting the connections of a queue leaves the others alone. *)
Lemma shut_queue_other (q : list nat) (m : gmap nat NamedUnix.conn) k :
  k ∉ q → foldr (alter (NamedUnix.shut true)) m q !! k = m !! k.
Proof.
  induction q as [|k' q IH]; simpl; [done|]. intros Hk.
  apply not_elem_of_cons in Hk as [Hne Hk].
  rewrite lookup_alter_ne by done. by apply IH.
Qed.

(** What [pipe_accept] returns on the UNIX branch: a descriptor that was
    not open, on the connection that headed the queue of the listener. *)
Lemma named_accept_cases w l w1 c :
  NamedUnix.pipe_accept w l = Ret (w1, c) → c ≠ NamedUnix.PIPE_NULL →
  ∃ li k q,
    NamedUnix.fds (NamedUnix.pop_fault w).1 !! l = Some (NamedUnix.SockListen li) ∧
    NamedUnix.queues w !! li = Some (k :: q) ∧
    NamedUnix.fds w !! c = None ∧
    NamedUnix.fds w1 = <[c := NamedUnix.SockConn k true]> (NamedUnix.fds w) ∧
    NamedUnix.queues w1 = <[li := q]> (NamedUnix.queues w) ∧
    NamedUnix.conns w1 = NamedUnix.conns w ∧
    NamedUnix.paths w1 = NamedUnix.paths w.
Proof.
  unfold NamedUnix.pipe_accept, NamedUnix.sys_accept, NamedUnix.PIPE_NULL.
  intros H Hc.
  assert (NamedUnix.fds (NamedUnix.pop_fault w).1 = NamedUnix.fds w ∧
          NamedUnix.queues (NamedUnix.pop_fault w).1 = NamedUnix.queues w ∧
          NamedUnix.conns (NamedUnix.pop_fault w).1 = NamedUnix.conns w ∧
          NamedUnix.paths (NamedUnix.pop_fault w).1 = NamedUnix.paths w)
    as (Hf & Hq & Hk & Hp)
    by (unfold NamedUnix.pop_fault; by destruct (NamedUnix.inject w)).
  destruct (NamedUnix.pop_fault w) as [w0 e]. simpl in *.
  destruct (decide (e ≠ 0)); simplify_eq/=.
  destruct (NamedUnix.fds w0 !! l) as [[| |li|]|] eqn:Hl; simplify_eq/=.
  destruct (NamedUnix.queues w0 !! li) as [[|k q]|] eqn:Hli; simplify_eq/=.
  exists li, k, q. rewrite <- Hf, <- Hq, <- Hk, <- Hp.
  split_and!; try done. apply alloc_fresh.
Qed.

(** *** Well-formed queues are an invariant of the kernel's side *)

Lemma queues_wf_mono w w' :
  (∀ k, is_Some (NamedUnix.conns w !! k) → is_Some (NamedUnix.conns w' !! k)) →
  map_Forall (λ _ q, NoDup q ∧ Forall (λ k, is_Some (NamedUnix.conns w !! k)) q)
    (NamedUnix.queues w') →
  queues_wf w'.
Proof.
  intros Hmono Hwf l q Hq. destruct (Hwf l q Hq) as [Hnd Hall].
  split; [done|]. eapply Forall_impl; [exact Hall|]. intros k. apply Hmono.
Qed.

Lemma queues_wf_same w w' :
  queues_wf w →
  NamedUnix.queues w' = NamedUnix.queues w →
  (∀ k, is_Some (NamedUnix.conns w !! k) → is_Some (NamedUnix.conns w' !! k)) →
  queues_wf w'.
Proof.
  intros Hwf Hq Hmono. apply (queues_wf_mono w); [done|]. by rewrite Hq.
Qed.

Lemma queues_wf_pop_fault w : queues_wf w → queues_wf (NamedUnix.pop_fault w).1.
Proof.
  unfold NamedUnix.pop_fault. destruct (NamedUnix.inject w); [done|].
  intros Hwf. by apply (queues_wf_same _ _ Hwf).
Qed.

Lemma queues_wf_socket w : queues_wf w → queues_wf (NamedUnix.sys_socket w).1.
Proof.
  intros Hwf%queues_wf_pop_fault. unfold NamedUnix.sys_socket.
  destruct (NamedUnix.pop_fault w) as [w0 e]. simpl in Hwf.
  destruct (decide (e ≠ 0)); simpl; by apply (queues_wf_same _ _ Hwf).
Qed.

Lemma queues_wf_bind w fd path : queues_wf w → queues_wf (NamedUnix.sys_bind w fd path).1.
Proof.
  intros Hwf%queues_wf_pop_fault. unfold NamedUnix.sys_bind.
  destruct (NamedUnix.pop_fault w) as [w0 e]. simpl in Hwf.
  repeat case_match; simpl; by apply (queues_wf_same _ _ Hwf).
Qed.

Lemma queues_wf_listen w fd : queues_wf w → queues_wf (NamedUnix.sys_listen w fd).1.
Proof.
  intros Hwf%queues_wf_pop_fault. unfold NamedUnix.sys_listen.
  destruct (NamedUnix.pop_fault w) as [w0 e]. simpl in Hwf.
  repeat case_match; simpl; try by apply (queues_wf_same _ _ Hwf).
  apply (queues_wf_mono w0); [done|]. simpl.
  apply map_Forall_insert_2; [|done]. split; [apply NoDup_nil_2|apply Forall_nil_2].
Qed.

Lemma queues_wf_connect w fd path : queues_wf w → queues_wf (NamedUnix.sys_connect w fd path).1.
Proof.
  intros Hwf%queues_wf_pop_fault. unfold NamedUnix.sys_connect.
  destruct (NamedUnix.pop_fault w) as [w0 e]. simpl in Hwf.
  repeat case_match; simpl; try by apply (queues_wf_same _ _ Hwf).
  match goal with H : NamedUnix.queues w0 !! ?l = Some ?q |- _ =>
    destruct (Hwf l q H) as [Hnd Hall]; rename H into Hq end.
  intros l' q' Hq'. simpl in Hq'.
  assert (∀ k, is_Some (NamedUnix.conns w0 !! k) →
    is_Some (<[alloc_nat (NamedUnix.conns w0) := NamedUnix.Conn [] [] true true]>
               (NamedUnix.conns w0) !! k)) as Hmono.
  { intros k Hk. rewrite lookup_insert_is_Some. destruct (decide (alloc_nat (NamedUnix.conns w0) = k));
      [by left|by right]. }
  apply lookup_insert_Some in Hq' as [[<- <-]|[Hne Hq']]; simpl.
  - split.
    + apply NoDup_app. split_and!; [done| |apply NoDup_singleton].
      intros k Hk ->%list_elem_of_singleton.
      rewrite Forall_forall in Hall. apply Hall in Hk as [x Hx].
      by rewrite alloc_nat_fresh in Hx.
    + apply Forall_app. split.
      * eapply Forall_impl; [exact Hall|]. exact Hmono.
      * apply Forall_singleton. rewrite lookup_insert_eq. by eexists.
  - destruct (Hwf l' q' Hq') as [Hnd' Hall']. split; [done|].
    eapply Forall_impl; [exact Hall'|]. exact Hmono.
Qed.

Lemma queues_wf_accept w fd w' c :
  NamedUnix.sys_accept w fd = Ret (w', c) → queues_wf w → queues_wf w'.
Proof.
  intros H Hwf%queues_wf_pop_fault. unfold NamedUnix.sys_accept in H.
  destruct (NamedUnix.pop_fault w) as [w0 e]. simpl in Hwf.
  repeat case_match; simplify_eq/=; try by apply (queues_wf_same _ _ Hwf).
  match goal with H : NamedUnix.queues w0 !! ?l = Some (?k :: ?q) |- _ =>
    destruct (Hwf l (k :: q) H) as [Hnd Hall] end.
  apply (queues_wf_mono w0); [done|]. simpl.
  apply map_Forall_insert_2; [|done].
  apply NoDup_cons in Hnd as [_ Hnd]. apply Forall_cons in Hall as [_ Hall]. done.
Qed.

Lemma queues_wf_read w fd size w' n d :
  NamedUnix.sys_read w fd size = Ret (w', n, d) → queues_wf w → queues_wf w'.
Proof.
  unfold NamedUnix.sys_read. intros H Hwf.
  repeat case_match; simplify_eq/=; try by apply (queues_wf_same _ _ Hwf).
  apply (queues_wf_same _ _ Hwf); [done|]. simpl. intros k' Hk'.
  rewrite lookup_insert_is_Some'. by right.
Qed.

Lemma queues_wf_write w fd data : queues_wf w → queues_wf (NamedUnix.sys_write w fd data).1.
Proof.
  unfold NamedUnix.sys_write. intros Hwf.
  repeat case_match; simplify_eq/=; try by apply (queues_wf_same _ _ Hwf).
  apply (queues_wf_same _ _ Hwf); [done|]. simpl. intros k' Hk'.
  rewrite lookup_insert_is_Some'. by right.
Qed.

Lemma shut_queue_is_Some (q : list nat) (m : gmap nat NamedUnix.conn) k :
  is_Some (m !! k) → is_Some (foldr (alter (NamedUnix.shut true)) m q !! k).
Proof.
  induction q as [|k' q IH]; simpl; [done|]. intros Hk.
  apply lookup_alter_is_Some. by apply IH.
Qed.

Lemma queues_wf_close w fd : queues_wf w → queues_wf (NamedUnix.sys_close w fd).1.
Proof.
  unfold NamedUnix.sys_close. intros Hwf.
  destruct (NamedUnix.fds w !! fd) as [[| |l|k server]|]; simpl;
    try by apply (queues_wf_same _ _ Hwf).
  - apply (queues_wf_mono w); simpl.
    + intros k. apply shut_queue_is_Some.
    + by apply map_Forall_delete.
  - apply (queues_wf_same _ _ Hwf); [done|]. simpl. intros k'.
    by rewrite lookup_alter_is_Some.
Qed.

(** Every function of the sample keeps the queues well formed. *)
Lemma queues_wf_api w :
  queues_wf w →
  (∀ sz name, queues_wf (NamedUnix.pipe_create_named sz w name).1) ∧
  (∀ sz name, queues_wf (NamedUnix.pipe_connect sz w name).1) ∧
  (∀ l w' c, NamedUnix.pipe_accept w l = Ret (w', c) → queues_wf w') ∧
  (∀ p size w' n d, NamedUnix.pipe_read w p size = Ret (w', n, d) → queues_wf w') ∧
  (∀ p data, queues_wf (NamedUnix.pipe_write w p data).1) ∧
  (∀ p, queues_wf (NamedUnix.pipe_close w p)) ∧
  (∀ p, queues_wf (NamedUnix.pipe_peer_close w p)).
Proof.
  intros Hwf. split_and!.
  - intros sz name. unfold NamedUnix.pipe_create_named.
    case_decide; [by apply (queues_wf_same _ _ Hwf)|].
    pose proof (queues_wf_socket w Hwf) as Hk1.
    destruct (NamedUnix.sys_socket w) as [w1 p]. simpl in Hk1.
    case_decide; [done|].
    pose proof (queues_wf_bind w1 p name Hk1) as Hk2.
    destruct (NamedUnix.sys_bind w1 p name) as [w2 r]. simpl in Hk2.
    case_decide; [by apply queues_wf_close|].
    pose proof (queues_wf_listen w2 p Hk2) as Hk3.
    destruct (NamedUnix.sys_listen w2 p) as [w3 r']. simpl in Hk3.
    case_decide; [by apply queues_wf_close|done].
  - intros sz name. unfold NamedUnix.pipe_connect.
    case_decide; [by apply (queues_wf_same _ _ Hwf)|].
    pose proof (queues_wf_socket w Hwf) as Hk1.
    destruct (NamedUnix.sys_socket w) as [w1 p]. simpl in Hk1.
    case_decide; [done|].
    pose proof (queues_wf_connect w1 p name Hk1) as Hk2.
    destruct (NamedUnix.sys_connect w1 p name) as [w2 r]. simpl in Hk2.
    case_decide; [by apply queues_wf_close|done].
  - intros l w' c H. by eapply queues_wf_accept.
  - intros p size w' n d H. by eapply queues_wf_read.
  - intros p data. by apply queues_wf_write.
  - intros p. by apply queues_wf_close.
  - intros p. by apply queues_wf_close.
Qed.

(** *** The Windows branch: the connection is the listener *)

Lemma named_win_accept_cases w l w1 c :
  NamedWin.pipe_accept w l = Ret (w1, c) → c ≠ NamedWin.PIPE_NULL →
  c = l ∧ NamedWin.handles w1 = NamedWin.handles w ∧
  ∃ i, NamedWin.handles w !! l = Some (NamedWin.HServer i).
Proof.
  unfold NamedWin.pipe_accept, NamedWin.sys_ConnectNamedPipe, NamedWin.PIPE_NULL.
  intros H Hc.
  destruct (NamedWin.handles w !! l) as [o|] eqn:Hl; simpl in H; [|by simplify_eq/=].
  destruct o as [i| |]; simpl in H; try (by simplify_eq/=).
  destruct (NamedWin.insts w !! i) as [k|] eqn:Hi; simpl in H; [|by simplify_eq/=].
  destruct (NamedWin.client k); simpl in H.
  - destruct (NamedWin.inject w) as [|e rest]; simpl in H; [done|].
    destruct (decide (e ≠ 0)); simpl in H;
      repeat (case_decide; simplify_eq/=); simplify_eq/=; split_and!; eauto.
  - repeat (case_decide; simplify_eq/=); simplify_eq/=; split_and!; eauto.
  - by simplify_eq/=.
Qed.

(** C5, as the code has it.  UNIX: the descriptor [pipe_accept] returns
    is a new one; closing the listener changes nothing that later reads and
    writes on the connection return, and closing the connection changes
    neither the listener, nor its queue, nor the name, nor any other
    connection.  Windows: [pipe_accept] returns the listener's own handle,
    so closing the listener closes the connection and every later read on
    it fails; closing the connection with [pipe_peer_close] leaves the
    listener's handle open. *)
Theorem named_pipe_accepted_connection_lifetime :
  (∀ w l w1 c,
     queues_wf w → NamedUnix.pipe_accept w l = Ret (w1, c) → c ≠ NamedUnix.PIPE_NULL →
     c ≠ l ∧
     (∀ ops, NamedUnix.io_seq (NamedUnix.pipe_close w1 l) c ops = NamedUnix.io_seq w1 c ops) ∧
     NamedUnix.fds (NamedUnix.pipe_peer_close w1 c) = delete c (NamedUnix.fds w1) ∧
     NamedUnix.queues (NamedUnix.pipe_peer_close w1 c) = NamedUnix.queues w1 ∧
     NamedUnix.paths (NamedUnix.pipe_peer_close w1 c) = NamedUnix.paths w1 ∧
     ∃ k, NamedUnix.fds w1 !! c = Some (NamedUnix.SockConn k true) ∧
       ∀ k', k' ≠ k →
         NamedUnix.conns (NamedUnix.pipe_peer_close w1 c) !! k' = NamedUnix.conns w1 !! k') ∧
  (∀ w l w1 c,
     NamedWin.pipe_accept w l = Ret (w1, c) → c ≠ NamedWin.PIPE_NULL →
     c = l ∧
     NamedWin.handles (NamedWin.pipe_close w1 l) !! c = None ∧
     (∀ cap, ∃ w2, NamedWin.pipe_read (NamedWin.pipe_close w1 l) c cap = Ret (w2, -1, [])) ∧
     NamedWin.handles (NamedWin.pipe_peer_close w1 c) !! l = NamedWin.handles w1 !! l).
Proof.
  split.
  - intros w l w1 c Hwf Hacc Hc.
    destruct (named_accept_cases w l w1 c Hacc Hc)
      as (li & k & q & Hl & Hq & Hfresh & Hfds & Hqs & Hconns & Hpaths).
    rewrite named_pop_fault_fds in Hl.
    assert (c ≠ l) as Hne by (intros ->; congruence).
    assert (NamedUnix.fds w1 !! c = Some (NamedUnix.SockConn k true)) as Hc1
      by (by rewrite Hfds, lookup_insert_eq).
    assert (NamedUnix.fds w1 !! l = Some (NamedUnix.SockListen li)) as Hl1
      by (by rewrite Hfds, lookup_insert_ne).
    destruct (Hwf li (k :: q) Hq) as [Hnd _]. apply NoDup_cons in Hnd as [Hk _].
    split_and!; [done| | | | |].
    + intros ops. apply io_seq_same_conn. unfold NamedUnix.pipe_close. split.
      * rewrite named_close_fds. by rewrite lookup_delete_ne.
      * intros k0 server. rewrite named_close_fds, lookup_delete_ne, Hc1 by done.
        intros [= <- <-]. unfold NamedUnix.sys_close. rewrite Hl1. simpl.
        rewrite Hqs, lookup_insert_eq. simpl. by apply shut_queue_other.
    + apply named_close_fds.
    + unfold NamedUnix.pipe_peer_close, NamedUnix.sys_close. by rewrite Hc1.
    + unfold NamedUnix.pipe_peer_close, NamedUnix.sys_close. by rewrite Hc1.
    + exists k. split; [done|]. intros k' Hk'.
      unfold NamedUnix.pipe_peer_close, NamedUnix.sys_close. rewrite Hc1. simpl.
      by rewrite lookup_alter_ne.
  - intros w l w1 c Hacc Hc.
    destruct (named_win_accept_cases w l w1 c Hacc Hc) as (-> & Hh & i & Hl).
    assert (NamedWin.handles (NamedWin.pipe_close w1 l) !! l = None) as Hclosed.
    { unfold NamedWin.pipe_close, NamedWin.sys_CloseHandle. rewrite Hh, Hl. simpl.
      by rewrite Hh, lookup_delete_eq. }
    split_and!; [done|done| |].
    + intros cap. unfold NamedWin.pipe_read, NamedWin.sys_ReadFile.
      rewrite Hclosed. simpl. by eexists.
    + unfold NamedWin.pipe_peer_close, NamedWin.sys_DisconnectNamedPipe.
      rewrite Hh, Hl. simpl. rewrite lookup_fmap, Hh, Hl. simpl.
      by rewrite ?decide_False.
Qed.

(** C5 as stated fails on the Windows branch: the server accepts the
    client that wrote "hello!"; reading the connection gives the six
    bytes, but after the listener is closed the same read fails. *)
Lemma named_pipe_listener_close_breaks_connection_on_windows :
  ∃ w1, NamedWin.pipe_accept named_win_connected 4 = Ret (w1, 4) ∧
    4 ≠ NamedWin.PIPE_NULL ∧
    (∃ w2, NamedWin.pipe_read w1 4 100 = Ret (w2, 6, hello)) ∧
    (∃ w2, NamedWin.pipe_read (NamedWin.pipe_close w1 4) 4 100 = Ret (w2, -1, [])).
Proof.
  eexists. split_and!.
  - vm_compute. reflexivity.
  - done.
  - eexists. vm_compute. reflexivity.
  - eexists. vm_compute. reflexivity.
Qed.

Lemma named_unix_connected_wf : queues_wf named_unix_connected.
Proof.
  assert (queues_wf named_unix_empty) as H0 by (intros l q Hq; done).
  apply queues_wf_api. apply queues_wf_api. apply queues_wf_api. exact H0.
Qed.

Lemma named_pipe_accepted_connection_lifetime_witness :
  ∃ w1, NamedUnix.pipe_accept named_unix_connected 0 = Ret (w1, 2) ∧
    (2 ≠ 0 ∧
     (∀ ops, NamedUnix.io_seq (NamedUnix.pipe_close w1 0) 2 ops = NamedUnix.io_seq w1 2 ops) ∧
     NamedUnix.fds (NamedUnix.pipe_peer_close w1 2) = delete 2 (NamedUnix.fds w1) ∧
     NamedUnix.queues (NamedUnix.pipe_peer_close w1 2) = NamedUnix.queues w1 ∧
     NamedUnix.paths (NamedUnix.pipe_peer_close w1 2) = NamedUnix.paths w1 ∧
     ∃ k, NamedUnix.fds w1 !! 2 = Some (NamedUnix.SockConn k true) ∧
       ∀ k', k' ≠ k →
         NamedUnix.conns (NamedUnix.pipe_peer_close w1 2) !! k' = NamedUnix.conns w1 !! k').
Proof.
  eexists. split; [vm_compute; reflexivity|].
  apply (proj1 named_pipe_accepted_connection_lifetime named_unix_connected 0).
  - exact named_unix_connected_wf.
  - vm_compute. reflexivity.
  - done.
Defined.

(** ** pipe.c: what is written is what is read, then end of stream *)


Lemma take_all_more {A} (n : nat) (l : list A) : (length l ≤ n)%nat → take n l = l.
Proof. apply take_ge. Qed.

(** *** UNIX *)

Lemma unix_read_step w r rest size :
  unix_draining w r rest →
  ∃ w', PipeUnix.pipe_read w r size
        = Ret (w', Z.of_nat (length (take (Z.to_nat size) rest)), take (Z.to_nat size) rest) ∧
    unix_draining w' r (drop (Z.to_nat size) rest).
Proof.
  intros (i & rd & Hr & Hi). unfold PipeUnix.pipe_read, PipeUnix.sys_read.
  rewrite Hr, Hi. simpl. destruct rest as [|b rest]; simpl.
  - exists w. rewrite take_nil, drop_nil. split; [done|]. by exists i, rd.
  - eexists. split; [done|]. exists i, rd. simpl. by rewrite lookup_insert_eq.
Qed.



Lemma unix_pipe_create_ok w rd0 wr0 w1 r wr :
  PipeUnix.pipe_create w rd0 wr0 = (w1, 0, r, wr) →
  ∃ i, r ≠ wr ∧
    PipeUnix.fds w1 !! r = Some (PipeUnix.FdRead i) ∧
    PipeUnix.fds w1 !! wr = Some (PipeUnix.FdWrite i) ∧
    PipeUnix.pipes w1 !! i = Some (PipeUnix.Pipe [] true true).
Proof.
  unfold PipeUnix.pipe_create, PipeUnix.sys_pipe.
  destruct (decide (size (PipeUnix.fds w) + 2 ≤ PipeUnix.nofile w)%nat); simpl; [|done].
  intros [= <- <- <-]. eexists. simpl.
  set (m := <[alloc 0 (PipeUnix.fds w) := _]> (PipeUnix.fds w)).
  assert (alloc 0 (PipeUnix.fds w) ≠ alloc 0 m) as Hne.
  { intros Heq. pose proof (alloc_fresh 0 m) as Hf. rewrite <- Heq in Hf.
    unfold m in Hf. by rewrite lookup_insert_eq in Hf. }
  split_and!; [done| | |].
  - rewrite lookup_insert_ne by done. unfold m. by rewrite lookup_insert_eq.
  - by rewrite lookup_insert_eq.
  - by rewrite lookup_insert_eq.
Qed.


Lemma unix_close_writer w r wr i buf :
  r ≠ wr →
  PipeUnix.fds w !! r = Some (PipeUnix.FdRead i) →
  PipeUnix.fds w !! wr = Some (PipeUnix.FdWrite i) →
  PipeUnix.pipes w !! i = Some (PipeUnix.Pipe buf true true) →
  unix_draining (PipeUnix.pipe_close w wr) r buf.
Proof.
  intros Hne Hr Hw Hi. unfold PipeUnix.pipe_close, PipeUnix.sys_close. rewrite Hw. simpl.
  exists i, true. simpl. split.
  - by rewrite lookup_delete_ne.
  - by rewrite lookup_alter_eq, Hi.
Qed.

(** *** Windows *)

Lemma to_uint_small x : 0 ≤ x < 2 ^ 32 → to_uint x = x.
Proof. intros. unfold to_uint. by rewrite Z.mod_small. Qed.

Lemma win_read_step w r b rest size :
  win_draining w r (b :: rest) →
  ∃ w', PipeWin.pipe_read w r size
        = Ret (w', Z.of_nat (length (take (Z.to_nat (to_uint size)) (b :: rest))),
               take (Z.to_nat (to_uint size)) (b :: rest)) ∧
    win_draining w' r (drop (Z.to_nat (to_uint size)) (b :: rest)).
Proof.
  intros (i & rd & Hr & Hi). unfold PipeWin.pipe_read, PipeWin.sys_ReadFile.
  rewrite Hr, Hi. simpl.
  eexists. split; [done|]. exists i, rd. simpl. by rewrite lookup_insert_eq.
Qed.

Lemma win_read_end w r size :
  win_draining w r [] →
  PipeWin.pipe_read w r size = Ret (PipeWin.sys_SetLastError w PipeWin.ERROR_BROKEN_PIPE, 0, []) ∧
  win_draining (PipeWin.sys_SetLastError w PipeWin.ERROR_BROKEN_PIPE) r [].
Proof.
  intros (i & rd & Hr & Hi). unfold PipeWin.pipe_read, PipeWin.sys_ReadFile.
  rewrite Hr, Hi. simpl. split; [done|]. by exists i, rd.
Qed.




Lemma win_pipe_create_ok w rd0 wr0 w1 r wr :
  PipeWin.pipe_create w rd0 wr0 = (w1, 0, r, wr) →
  ∃ i, r ≠ wr ∧
    PipeWin.handles w1 !! r = Some (PipeWin.HRead i) ∧
    PipeWin.handles w1 !! wr = Some (PipeWin.HWrite i) ∧
    PipeWin.pipes w1 !! i = Some (PipeWin.Pipe [] true true).
Proof.
  unfold PipeWin.pipe_create, PipeWin.sys_CreatePipe.
  destruct (decide (size (PipeWin.handles w) + 2 ≤ PipeWin.quota w)%nat); simpl; [|done].
  intros [= <- <- <-]. eexists. simpl.
  set (m := <[alloc 4 (PipeWin.handles w) := _]> (PipeWin.handles w)).
  assert (alloc 4 (PipeWin.handles w) ≠ alloc 4 m) as Hne.
  { intros Heq. pose proof (alloc_fresh 4 m) as Hf. rewrite <- Heq in Hf.
    unfold m in Hf. by rewrite lookup_insert_eq in Hf. }
  split_and!; [done| | |].
  - rewrite lookup_insert_ne by done. unfold m. by rewrite lookup_insert_eq.
  - by rewrite lookup_insert_eq.
  - by rewrite lookup_insert_eq.
Qed.


Lemma win_close_writer w r wr i buf :
  r ≠ wr →
  PipeWin.handles w !! r = Some (PipeWin.HRead i) →
  PipeWin.handles w !! wr = Some (PipeWin.HWrite i) →
  PipeWin.pipes w !! i = Some (PipeWin.Pipe buf true true) →
  win_draining (PipeWin.pipe_close w wr) r buf.
Proof.
  intros Hne Hr Hw Hi. unfold PipeWin.pipe_close, PipeWin.sys_CloseHandle. rewrite Hw. simpl.
  exists i, true. simpl. split.
  - by rewrite lookup_delete_ne.
  - by rewrite lookup_alter_eq, Hi.
Qed.




(** ** semaphore.c: [cpsem_open] with [CPSEM_CREATE] *)



(** The object found by [mapped] is one of the caller's, on the semaphore
    asked for and not at [SEM_FAILED]. *)
Lemma sem_unix_mapped w o a m :
  SemUnix.mapped w o = Some (a, m) →
  SemUnix.maps w !! a = Some m ∧ SemUnix.sem_of m = o ∧ a ≠ SemUnix.SEM_FAILED.
Proof.
  unfold SemUnix.mapped. intros H. apply head_Some_elem_of in H.
  apply list_elem_of_filter in H as [[Ha Hm] H]. apply elem_of_map_to_list in H. done.
Qed.

Lemma sem_unix_not_mapped w o :
  SemUnix.mapped w o = None →
  ∀ a m, SemUnix.maps w !! a = Some m → SemUnix.sem_of m = o → a = SemUnix.SEM_FAILED.
Proof.
  unfold SemUnix.mapped. intros H a m Ha Hm. apply head_None in H.
  destruct (decide (a = SemUnix.SEM_FAILED)) as [|Hne]; [done|].
  assert ((a, m) ∈ filter (λ am, am.1 ≠ SemUnix.SEM_FAILED ∧ SemUnix.sem_of am.2 = o)
                     (map_to_list (SemUnix.maps w))) as Hin.
  { apply list_elem_of_filter. split; [done|]. by apply elem_of_map_to_list. }
  rewrite H in Hin. by apply elem_of_nil in Hin.
Qed.

Lemma sem_unix_new_address (maps : gmap Z SemUnix.opened) :
  alloc 4096 maps ≠ SemUnix.CPSEM_NULL ∧ maps !! alloc 4096 maps = None.
Proof.
  split; [|apply alloc_fresh].
  pose proof (alloc_ge 4096 maps). unfold SemUnix.CPSEM_NULL, SemUnix.SEM_FAILED. lia.
Qed.

(** [sem_open] on a name that exists: the caller's object on the semaphore
    with one more open, or a new object. *)
Lemma sem_unix_sys_open_existing vmax name_ok w w0 n oflag v o :
  SemUnix.pop_fault w = (w0, 0) → name_ok n = true → SemUnix.names w0 !! n = Some o →
  oflag = 0 ∨ oflag = SemUnix.O_CREAT →
  ∃ s k, SemUnix.sys_sem_open vmax name_ok w n oflag v
         = (SemUnix.set_maps <[s := SemUnix.Opened o k]> w0, s) ∧
    s ≠ SemUnix.CPSEM_NULL ∧
    (SemUnix.maps w0 !! s = None ∧ k = 0%nat ∧
     (∀ a m, SemUnix.maps w0 !! a = Some m → SemUnix.sem_of m = o → a = SemUnix.SEM_FAILED) ∨
     SemUnix.maps w0 !! s = Some (SemUnix.Opened o (Nat.pred k)) ∧ k ≠ 0%nat).
Proof.
  intros Hpop Hname Hn Hflag. unfold SemUnix.sys_sem_open. rewrite Hpop, Hname. simpl.
  rewrite Hn. rewrite decide_False by (destruct Hflag as [-> | ->]; intros [? ?]; done).
  destruct (SemUnix.mapped w0 o) as [[a m]|] eqn:Hmap.
  - apply sem_unix_mapped in Hmap as (Ha & Hm & Hne). destruct m as [o' k]. simpl in *.
    subst o'. exists a, (S k). split_and!; [done|done|]. right. by split.
  - destruct (sem_unix_new_address (SemUnix.maps w0)) as [Hne Hfresh].
    exists (alloc 4096 (SemUnix.maps w0)), 0%nat. split_and!; [done|done|]. left.
    split_and!; [done|done|]. by apply sem_unix_not_mapped.
Qed.




(** ** signal-cpu-exception.c: a fault is delivered once *)

Lemma one_shot_same w w' : SigUnix.actions w' = SigUnix.actions w → one_shot w → one_shot w'.
Proof. unfold one_shot. by intros ->. Qed.

Lemma one_shot_sigaction w signum sa_flags :
  Z.land sa_flags SigUnix.SA_RESETHAND ≠ 0 → one_shot w →
  one_shot (SigUnix.sys_sigaction w signum sa_flags).1.
Proof.
  intros Hfl Hw. unfold SigUnix.sys_sigaction. case_decide; simpl; [|done].
  unfold one_shot. simpl. by apply map_Forall_insert_2.
Qed.

Lemma one_shot_malloc w size : one_shot w → one_shot (SigUnix.sys_malloc w size).1.
Proof.
  unfold SigUnix.sys_malloc, SigUnix.pop_fault.
  destruct (SigUnix.inject w); simpl; [done|]. by case_decide.
Qed.

Lemma one_shot_sigaltstack w sp size : one_shot w → one_shot (SigUnix.sys_sigaltstack w sp size).1.
Proof.
  unfold SigUnix.sys_sigaltstack, SigUnix.pop_fault.
  destruct (SigUnix.inject w); simpl; [done|]. by case_decide.
Qed.

Lemma one_shot_subscribe_stack sigs : ∀ w,
  one_shot w → one_shot (SigUnix.subscribe_stack w sigs).1.1.
Proof.
  induction sigs as [|s sigs IH]; intros w Hw; simpl; [done|].
  case_decide; [|by apply IH].
  pose proof (one_shot_malloc w SigUnix.SIGSTKSZ Hw) as Hk1.
  destruct (SigUnix.sys_malloc w SigUnix.SIGSTKSZ) as [w1 sp]. simpl in Hk1.
  case_decide; [done|].
  pose proof (one_shot_sigaltstack w1 sp SigUnix.SIGSTKSZ Hk1) as Hk2.
  destruct (SigUnix.sys_sigaltstack w1 sp SigUnix.SIGSTKSZ) as [w2 r]. simpl in Hk2.
  case_decide; [done|].
  exact (one_shot_sigaction w2 SigUnix.SIGSEGV
    (Z.lor (Z.lor SigUnix.SA_SIGINFO SigUnix.SA_RESETHAND) SigUnix.SA_ONSTACK)
    ltac:(done) Hk2).
Qed.

Lemma one_shot_subscribe_rest have sigs : ∀ w,
  one_shot w → one_shot (SigUnix.subscribe_rest w have sigs).1.
Proof.
  induction sigs as [|s sigs IH]; intros w Hw; simpl; [done|].
  case_decide; [by apply IH|].
  pose proof (one_shot_sigaction w (to_int s)
    (Z.lor SigUnix.SA_SIGINFO SigUnix.SA_RESETHAND) ltac:(done) Hw) as Hk1.
  destruct (SigUnix.sys_sigaction w _ _) as [w1 r]. simpl in Hk1.
  case_decide; [done|]. by apply IH.
Qed.

(** Whatever it returns, [sig_subscribe] only installs one-shot actions. *)
Lemma one_shot_sig_subscribe w handler sigs :
  one_shot w → one_shot (SigUnix.sig_subscribe w handler sigs).1.
Proof.
  intros Hw. unfold SigUnix.sig_subscribe.
  pose proof (one_shot_subscribe_stack sigs (SigUnix.set_userhandler handler w) Hw) as Hk1.
  destruct (SigUnix.subscribe_stack _ sigs) as [[w1 ret] have]. simpl in Hk1.
  destruct ret; [done|]. by apply one_shot_subscribe_rest.
Qed.

Lemma sig_subscribe_userhandler w handler sigs :
  SigUnix._sig_userhandler (SigUnix.sig_subscribe w handler sigs).1 = handler.
Proof.
  assert (∀ w size, SigUnix._sig_userhandler (SigUnix.sys_malloc w size).1
                    = SigUnix._sig_userhandler w) as Hm.
  { intros w0 ?. unfold SigUnix.sys_malloc, SigUnix.pop_fault.
    destruct (SigUnix.inject w0); simpl; [done|]. by case_decide. }
  assert (∀ w sp size, SigUnix._sig_userhandler (SigUnix.sys_sigaltstack w sp size).1
                       = SigUnix._sig_userhandler w) as Hs.
  { intros w0 ??. unfold SigUnix.sys_sigaltstack, SigUnix.pop_fault.
    destruct (SigUnix.inject w0); simpl; [done|]. by case_decide. }
  assert (∀ w s fl, SigUnix._sig_userhandler (SigUnix.sys_sigaction w s fl).1
                    = SigUnix._sig_userhandler w) as Ha.
  { intros w0 ??. unfold SigUnix.sys_sigaction. by case_decide. }
  assert (∀ sigs w, SigUnix._sig_userhandler (SigUnix.subscribe_stack w sigs).1.1
                    = SigUnix._sig_userhandler w) as H1.
  { clear sigs. induction sigs as [|s sigs IH]; intros w0; simpl; [done|].
    case_decide; [|by apply IH].
    specialize (Hm w0 SigUnix.SIGSTKSZ).
    destruct (SigUnix.sys_malloc w0 SigUnix.SIGSTKSZ) as [w1 sp]. simpl in Hm.
    case_decide; [done|].
    specialize (Hs w1 sp SigUnix.SIGSTKSZ).
    destruct (SigUnix.sys_sigaltstack w1 sp SigUnix.SIGSTKSZ) as [w2 r]. simpl in Hs.
    case_decide; simpl; by rewrite Hs. }
  assert (∀ have sigs w, SigUnix._sig_userhandler (SigUnix.subscribe_rest w have sigs).1
                         = SigUnix._sig_userhandler w) as H2.
  { clear sigs. intros have sigs. induction sigs as [|s sigs IH]; intros w0; simpl; [done|].
    case_decide; [by apply IH|].
    match goal with |- context [SigUnix.sys_sigaction w0 ?s ?fl] =>
      specialize (Ha w0 s fl); destruct (SigUnix.sys_sigaction w0 s fl) as [w1 r] end.
    simpl in Ha. case_decide; [done|]. by rewrite IH. }
  unfold SigUnix.sig_subscribe.
  specialize (H1 sigs (SigUnix.set_userhandler handler w)).
  destruct (SigUnix.subscribe_stack _ sigs) as [[w1 ret] have]. simpl in H1.
  destruct ret; [done|]. by rewrite H2.
Qed.

(** In a world of one-shot actions, a delivery that reaches the user's
    handler leaves the signal with its default action. *)
Lemma unix_deliver_resets code w handler f w1 calls :
  one_shot w →
  SigUnix._sig_userhandler w = handler →
  (∀ i w, SigUnix.actions (code handler i w) = SigUnix.actions w) →
  SigUnix.deliver code w f = (w1, calls) → calls ≠ [] →
  SigUnix.actions w1 !! SigUnix.signo f = None.
Proof.
  intros Hone Hh Hkeep H Hcalls. unfold SigUnix.deliver in H.
  destruct (negb (SigUnix.alive w)); simplify_eq/=.
  destruct (SigUnix.actions w !! SigUnix.signo f) as [fl|] eqn:Hfl; simplify_eq/=.
  destruct (SigUnix.stack_exhausted f && _); [by simplify_eq/=|].
  rewrite decide_True in H by (by apply (Hone _ _ Hfl)).
  unfold SigUnix._sig_exc_handler in H. simpl in H. injection H as <- <-.
  rewrite Hkeep. simpl. by rewrite lookup_delete_eq.
Qed.

Lemma unix_deliver_default code w f :
  SigUnix.actions w !! SigUnix.signo f = None → (SigUnix.deliver code w f).2 = [].
Proof.
  intros H. unfold SigUnix.deliver. destruct (negb (SigUnix.alive w)); [done|].
  by rewrite H.
Qed.

(** C7.  A fault kind is subscribed with [sig_subscribe] by a process that
    caught no signal before, and the user's handler does not subscribe
    again.  Once an occurrence of the fault has been delivered to the
    handler, the kind is not armed any more (the signal is back to its
    default action on UNIX, the filter is removed on Windows), and a
    second occurrence of the same kind is not delivered to the handler. *)
Theorem fault_delivery_is_one_shot :
  (∀ code w0 handler sigs f f' w1 calls,
     SigUnix.actions w0 = ∅ →
     (∀ i w, SigUnix.actions (code handler i w) = SigUnix.actions w) →
     SigUnix.signo f' = SigUnix.signo f →
     SigUnix.deliver code (SigUnix.sig_subscribe w0 handler sigs).1 f = (w1, calls) →
     calls ≠ [] →
     SigUnix.actions w1 !! SigUnix.signo f = None ∧ (SigUnix.deliver code w1 f').2 = []) ∧
  (∀ code w0 handler sigs e e' w1 calls,
     (∀ i w, SigWin.filter (code handler i w) = SigWin.filter w) →
     SigWin.deliver code (SigWin.sig_subscribe w0 handler sigs).1 e = (w1, calls) →
     calls ≠ [] →
     SigWin.filter w1 = None ∧
     ∀ still_alive, (SigWin.deliver code (SigWin.set_alive still_alive w1) e').2 = []).
Proof.
  split.
  - intros code w0 handler sigs f f' w1 calls Hempty Hkeep Hsame Hd Hcalls.
    assert (SigUnix.actions w1 !! SigUnix.signo f = None) as Hreset.
    { eapply (unix_deliver_resets code _ handler); [| |exact Hkeep|exact Hd|exact Hcalls].
      - apply one_shot_sig_subscribe. unfold one_shot. rewrite Hempty. apply map_Forall_empty.
      - apply sig_subscribe_userhandler. }
    split; [done|]. apply unix_deliver_default. by rewrite Hsame.
  - intros code w0 handler sigs e e' w1 calls Hkeep Hd Hcalls.
    unfold SigWin.sig_subscribe, SigWin.deliver in Hd. simpl in Hd.
    destruct (negb (SigWin.alive w0)); simpl in Hd; [by simplify_eq|].
    injection Hd as <- <-.
    assert (∀ i w, SigWin.filter (SigWin.set_alive false
              (code handler i (SigWin.sys_SetUnhandledExceptionFilter w None))) = None)
      as Hnone by (intros i w; simpl; etrans; [apply Hkeep|done]).
    split; [apply Hnone|].
    intros still_alive. unfold SigWin.deliver.
    destruct (negb _); [done|]. simpl.
    replace (SigWin.filter _) with (@None SigWin.filter_fn); [done|].
    symmetry. etrans; [apply Hkeep|done].
Qed.

Lemma fault_delivery_is_one_shot_witness :
  SigUnix.actions
    (SigUnix.set_actions (delete SigUnix.SIGSEGV)
       (SigUnix.sig_subscribe sig_unix_fresh 7 main_sigs).1) !! SigUnix.signo segv_at_0x16
  = None ∧
  (SigUnix.deliver unix_reporting_handler
     (SigUnix.set_actions (delete SigUnix.SIGSEGV)
        (SigUnix.sig_subscribe sig_unix_fresh 7 main_sigs).1) segv_at_0x16).2 = [].
Proof.
  apply (proj1 fault_delivery_is_one_shot unix_reporting_handler sig_unix_fresh 7 main_sigs
           segv_at_0x16 segv_at_0x16 _ [SigInfo 11 22 1]).
  - reflexivity.
  - reflexivity.
  - reflexivity.
  - vm_compute. reflexivity.
  - discriminate.
Defined.

(* ===================================================================== *)
(** * Part III: further properties of the samples                        *)
(* ===================================================================== *)

(** ** pipe.c: creation, bounds of a read, misuse, [main] *)

Lemma alloc_next_ne {A} (lo : Z) (m : gmap Z A) (x : A) :
  alloc lo m ≠ alloc lo (<[alloc lo m := x]> m).
Proof.
  intros Heq. pose proof (alloc_fresh lo (<[alloc lo m := x]> m)) as Hf.
  rewrite <- Heq in Hf. by rewrite lookup_insert_eq in Hf.
Qed.

Lemma alloc_next_fresh {A} (lo : Z) (m : gmap Z A) (x : A) :
  m !! alloc lo (<[alloc lo m := x]> m) = None.
Proof.
  pose proof (alloc_fresh lo (<[alloc lo m := x]> m)) as Hf.
  apply lookup_insert_None in Hf as [Hf _]. exact Hf.
Qed.

Lemma delete_two_inserted {A} (m : gmap Z A) (a b : Z) (x y : A) :
  m !! a = None → m !! b = None → a ≠ b →
  delete a (delete b (<[b := y]> (<[a := x]> m))) = m.
Proof.
  intros Ha Hb Hab. rewrite delete_insert_eq.
  rewrite (delete_insert_ne _ b a) by congruence.
  rewrite delete_insert_eq. rewrite (delete_id m b) by done. by apply delete_id.
Qed.

Lemma unix_pipe_create_cases w rd wr :
  let '(w1, e, r', wr') := PipeUnix.pipe_create w rd wr in
  (e = 0 ∧ (size (PipeUnix.fds w) + 2 ≤ PipeUnix.nofile w)%nat ∧ r' ≠ wr' ∧
   PipeUnix.fds w !! r' = None ∧ PipeUnix.fds w !! wr' = None ∧
   ∃ i, PipeUnix.pipes w !! i = None ∧
     PipeUnix.fds w1
     = <[wr' := PipeUnix.FdWrite i]> (<[r' := PipeUnix.FdRead i]> (PipeUnix.fds w)) ∧
     PipeUnix.pipes w1 = <[i := PipeUnix.Pipe [] true true]> (PipeUnix.pipes w) ∧
     PipeUnix.pipe_cap w1 = PipeUnix.pipe_cap w) ∨
  (e = -1 ∧ ¬ (size (PipeUnix.fds w) + 2 ≤ PipeUnix.nofile w)%nat ∧ r' = rd ∧ wr' = wr ∧
   PipeUnix.fds w1 = PipeUnix.fds w ∧ PipeUnix.pipes w1 = PipeUnix.pipes w ∧
   PipeUnix.errno w1 = PipeUnix.EMFILE).
Proof.
  unfold PipeUnix.pipe_create, PipeUnix.sys_pipe.
  destruct (decide (size (PipeUnix.fds w) + 2 ≤ PipeUnix.nofile w)%nat); simpl; [left|by right].
  split_and!; [done|done|apply alloc_next_ne|apply alloc_fresh|apply alloc_next_fresh|].
  exists (alloc_nat (PipeUnix.pipes w)). split_and!; [apply alloc_nat_fresh|done..].
Qed.

Lemma win_pipe_create_cases w rd wr :
  let '(w1, e, r', wr') := PipeWin.pipe_create w rd wr in
  (e = 0 ∧ (size (PipeWin.handles w) + 2 ≤ PipeWin.quota w)%nat ∧ r' ≠ wr' ∧
   PipeWin.handles w !! r' = None ∧ PipeWin.handles w !! wr' = None ∧
   ∃ i, PipeWin.pipes w !! i = None ∧
     PipeWin.handles w1
     = <[wr' := PipeWin.HWrite i]> (<[r' := PipeWin.HRead i]> (PipeWin.handles w)) ∧
     PipeWin.pipes w1 = <[i := PipeWin.Pipe [] true true]> (PipeWin.pipes w) ∧
     PipeWin.pipe_cap w1 = PipeWin.pipe_cap w) ∨
  (e = 1 ∧ ¬ (size (PipeWin.handles w) + 2 ≤ PipeWin.quota w)%nat ∧ r' = rd ∧ wr' = wr ∧
   PipeWin.handles w1 = PipeWin.handles w ∧ PipeWin.pipes w1 = PipeWin.pipes w ∧
   PipeWin.last_error w1 = PipeWin.ERROR_TOO_MANY_OPEN_FILES).
Proof.
  unfold PipeWin.pipe_create, PipeWin.sys_CreatePipe.
  destruct (decide (size (PipeWin.handles w) + 2 ≤ PipeWin.quota w)%nat); simpl; [left|by right].
  split_and!; [done|done|apply alloc_next_ne|apply alloc_fresh|apply alloc_next_fresh|].
  exists (alloc_nat (PipeWin.pipes w)). split_and!; [apply alloc_nat_fresh|done..].
Qed.

(** X1.  [pipe_create] either returns 0 and has opened exactly two
    descriptors (handles), distinct and not in use before, on the read
    end and the write end of one new, empty pipe; or it returns a non-zero
    value (-1 on UNIX, 1 on Windows), opens nothing and leaves the two
    objects [rd] and [wr] point to as they were.  It fails exactly when
    the caller has no room for two more descriptors. *)
Theorem pipe_create_opens_two_fresh_ends_or_nothing :
  (∀ w rd wr,
     let '(w1, e, r', wr') := PipeUnix.pipe_create w rd wr in
     (e = 0 ∧ (size (PipeUnix.fds w) + 2 ≤ PipeUnix.nofile w)%nat ∧ r' ≠ wr' ∧
      PipeUnix.fds w !! r' = None ∧ PipeUnix.fds w !! wr' = None ∧
      ∃ i, PipeUnix.pipes w !! i = None ∧
        PipeUnix.fds w1
        = <[wr' := PipeUnix.FdWrite i]> (<[r' := PipeUnix.FdRead i]> (PipeUnix.fds w)) ∧
        PipeUnix.pipes w1 = <[i := PipeUnix.Pipe [] true true]> (PipeUnix.pipes w)) ∨
     (e = -1 ∧ ¬ (size (PipeUnix.fds w) + 2 ≤ PipeUnix.nofile w)%nat ∧ r' = rd ∧ wr' = wr ∧
      PipeUnix.fds w1 = PipeUnix.fds w ∧ PipeUnix.pipes w1 = PipeUnix.pipes w)) ∧
  (∀ w rd wr,
     let '(w1, e, r', wr') := PipeWin.pipe_create w rd wr in
     (e = 0 ∧ (size (PipeWin.handles w) + 2 ≤ PipeWin.quota w)%nat ∧ r' ≠ wr' ∧
      PipeWin.handles w !! r' = None ∧ PipeWin.handles w !! wr' = None ∧
      ∃ i, PipeWin.pipes w !! i = None ∧
        PipeWin.handles w1
        = <[wr' := PipeWin.HWrite i]> (<[r' := PipeWin.HRead i]> (PipeWin.handles w)) ∧
        PipeWin.pipes w1 = <[i := PipeWin.Pipe [] true true]> (PipeWin.pipes w)) ∨
     (e = 1 ∧ ¬ (size (PipeWin.handles w) + 2 ≤ PipeWin.quota w)%nat ∧ r' = rd ∧ wr' = wr ∧
      PipeWin.handles w1 = PipeWin.handles w ∧ PipeWin.pipes w1 = PipeWin.pipes w)).
Proof.
  split.
  - intros w rd wr. pose proof (unix_pipe_create_cases w rd wr) as H.
    destruct (PipeUnix.pipe_create w rd wr) as [[[w1 e] r'] wr'].
    destruct H as [(? & ? & ? & ? & ? & i & ? & ? & ? & ?)|(? & ? & ? & ? & ? & ? & ?)].
    + left. split_and!; try done. by exists i.
    + by right.
  - intros w rd wr. pose proof (win_pipe_create_cases w rd wr) as H.
    destruct (PipeWin.pipe_create w rd wr) as [[[w1 e] r'] wr'].
    destruct H as [(? & ? & ? & ? & ? & i & ? & ? & ? & ?)|(? & ? & ? & ? & ? & ? & ?)].
    + left. split_and!; try done. by exists i.
    + by right.
Qed.

(** X2.  A [pipe_read] into a buffer of [size] bytes that returns gives
    -1 and no data, or a count between 0 and [size] together with exactly
    that many bytes: it never delivers more than the buffer holds. *)
Theorem pipe_read_stays_within_buffer :
  (∀ w p size w' n d,
     0 ≤ size → PipeUnix.pipe_read w p size = Ret (w', n, d) →
     (n = -1 ∧ d = []) ∨ (0 ≤ n ≤ size ∧ n = Z.of_nat (length d))) ∧
  (∀ w p cap w' n d,
     0 ≤ cap → PipeWin.pipe_read w p cap = Ret (w', n, d) →
     (n = -1 ∧ d = []) ∨ (0 ≤ n ≤ cap ∧ n = Z.of_nat (length d))).
Proof.
  split.
  - intros w p size w' n d Hsize. unfold PipeUnix.pipe_read, PipeUnix.sys_read.
    intros H. repeat case_match; simplify_eq/=; auto.
    + right. lia.
    + right. rewrite length_take. lia.
  - intros w p cap w' n d Hcap. unfold PipeWin.pipe_read, PipeWin.sys_ReadFile.
    assert (0 ≤ to_uint cap ≤ cap) as Hu
      by (unfold to_uint; split; [apply Z.mod_pos_bound; lia|apply Z.mod_le; lia]).
    revert Hu. generalize (to_uint cap). intros c Hu.
    intros H. repeat case_match; simplify_eq/=; auto;
      repeat case_decide; simplify_eq/=; auto.
    + right. lia.
    + right. rewrite length_take. lia.
Qed.

Lemma pipe_read_stays_within_buffer_witness :
  (4 = -1 ∧ [x68; x65; x6c; x6c] = []) ∨
  (0 ≤ 4 ≤ 4 ∧ 4 = Z.of_nat (length [x68; x65; x6c; x6c])).
Proof.
  eapply (proj1 pipe_read_stays_within_buffer
            (PipeUnix.set_pipes <[0%nat := PipeUnix.Pipe hello true true]>
               (PipeUnix.pipe_create pipe_unix_world 0 0).1.1.1) 3 4).
  - lia.
  - vm_compute. reflexivity.
Defined.

(** X3.  A [pipe_read] on the read end of a pipe that asks for at least
    one byte (on Windows: and for fewer than 2^32, the sizes [ReadFile]
    takes) returns 0 only at the end of the stream: the pipe is empty and
    its write end is closed.  It never returns 0 while data is pending or
    while the writer is still there, and a failure is never reported as
    0. *)
Theorem pipe_read_zero_means_end_of_stream :
  (∀ w p i size w' d,
     PipeUnix.fds w !! p = Some (PipeUnix.FdRead i) →
     0 < size → PipeUnix.pipe_read w p size = Ret (w', 0, d) →
     d = [] ∧ unix_draining w p []) ∧
  (∀ w p i cap w' d,
     PipeWin.handles w !! p = Some (PipeWin.HRead i) →
     0 < cap < 2 ^ 32 → PipeWin.pipe_read w p cap = Ret (w', 0, d) →
     d = [] ∧ win_draining w p []).
Proof.
  split.
  - intros w p i size w' d Hp Hsize. unfold PipeUnix.pipe_read, PipeUnix.sys_read.
    rewrite Hp. intros H.
    destruct (PipeUnix.pipes w !! i) as [[buf rd wo]|] eqn:Hi; simplify_eq/=.
    destruct buf as [|b buf]; simpl in H.
    + rewrite bool_decide_eq_false_2 in H by lia.
      destruct wo; simplify_eq/=. split; [done|]. by exists i, rd.
    + exfalso. injection H as _ Hn _. destruct (Z.to_nat size) eqn:Hs; simpl in Hn; lia.
  - intros w p i cap w' d Hp Hcap. unfold PipeWin.pipe_read, PipeWin.sys_ReadFile.
    rewrite Hp, to_uint_small by lia. intros H.
    destruct (PipeWin.pipes w !! i) as [[buf rd wo]|] eqn:Hi; simplify_eq/=.
    destruct buf as [|b buf]; simpl in H.
    + destruct wo; simplify_eq/=. split; [done|]. by exists i, rd.
    + exfalso. injection H as _ Hn _. destruct (Z.to_nat cap) eqn:Hs; simpl in Hn; lia.
Qed.

Lemma pipe_read_zero_means_end_of_stream_witness :
  (@nil byte = [] ∧
   unix_draining
     (PipeUnix.pipe_close (PipeUnix.pipe_create pipe_unix_world 0 0).1.1.1 4) 3 []) ∧
  (@nil byte = [] ∧
   win_draining
     (PipeWin.pipe_close (PipeWin.pipe_create pipe_win_world 0 0).1.1.1 6) 5 []).
Proof.
  split.
  - eapply (proj1 pipe_read_zero_means_end_of_stream _ 3 0%nat 100).
    + vm_compute. reflexivity.
    + lia.
    + vm_compute. reflexivity.
  - eapply (proj2 pipe_read_zero_means_end_of_stream _ 5 0%nat 100).
    + vm_compute. reflexivity.
    + lia.
    + vm_compute. reflexivity.
Defined.

(** X4.  An end of a pipe used after a close.  UNIX: once the read end is
    closed, a [pipe_write] of at least one byte on the write end raises
    [SIGPIPE], which ends the process unless the signal is ignored (no
    sample does that); only then does the call return -1, with [EPIPE]; a
    [pipe_write] of no byte returns 0.  A [pipe_read] on the closed read
    end and a [pipe_write] on a closed write end return -1, with [EBADF].
    Windows: the same three calls, for at least one byte and fewer than
    2^32, return -1. *)
Theorem pipe_use_after_close :
  (∀ w rd0 wr0 w1 r wr b data size,
     PipeUnix.pipe_create w rd0 wr0 = (w1, 0, r, wr) →
     PipeUnix.pipe_write (PipeUnix.pipe_close w1 r) wr (b :: data)
     = (if PipeUnix.sigpipe_ignored w
        then Ret (PipeUnix.set_errno PipeUnix.EPIPE (PipeUnix.pipe_close w1 r), -1)
        else Killed PipeUnix.SIGPIPE) ∧
     PipeUnix.pipe_write (PipeUnix.pipe_close w1 r) wr [] = Ret (PipeUnix.pipe_close w1 r, 0) ∧
     (∃ w2, PipeUnix.pipe_read (PipeUnix.pipe_close w1 r) r size = Ret (w2, -1, []) ∧
        PipeUnix.errno w2 = PipeUnix.EBADF) ∧
     (∃ w2, PipeUnix.pipe_write (PipeUnix.pipe_close w1 wr) wr (b :: data) = Ret (w2, -1) ∧
        PipeUnix.errno w2 = PipeUnix.EBADF)) ∧
  (∀ w rd0 wr0 w1 r wr b data cap,
     PipeWin.pipe_create w rd0 wr0 = (w1, 0, r, wr) →
     Z.of_nat (length (b :: data)) < 2 ^ 32 → 0 < cap < 2 ^ 32 →
     (∃ w2, PipeWin.pipe_write (PipeWin.pipe_close w1 r) wr (b :: data) = Ret (w2, -1)) ∧
     (∃ w2, PipeWin.pipe_read (PipeWin.pipe_close w1 r) r cap = Ret (w2, -1, [])) ∧
     (∃ w2, PipeWin.pipe_write (PipeWin.pipe_close w1 wr) wr (b :: data) = Ret (w2, -1))).
Proof.
  split.
  - intros w rd0 wr0 w1 r wr b data size Hc.
    assert (PipeUnix.sigpipe_ignored w1 = PipeUnix.sigpipe_ignored w) as Hsig.
    { revert Hc. unfold PipeUnix.pipe_create, PipeUnix.sys_pipe.
      case_decide; simpl; intros; by simplify_eq/=. }
    destruct (unix_pipe_create_ok _ _ _ _ _ _ Hc) as (i & Hne & Hr & Hw & Hi).
    unfold PipeUnix.pipe_close, PipeUnix.sys_close. rewrite Hr, Hw. simpl. split_and!.
    + unfold PipeUnix.pipe_write, PipeUnix.sys_write. simpl.
      rewrite lookup_delete_ne, Hw by done. rewrite lookup_alter_eq, Hi. simpl.
      by rewrite Hsig.
    + unfold PipeUnix.pipe_write, PipeUnix.sys_write. simpl.
      rewrite lookup_delete_ne, Hw by done. by rewrite lookup_alter_eq, Hi.
    + unfold PipeUnix.pipe_read, PipeUnix.sys_read. simpl.
      rewrite lookup_delete_eq. by eexists.
    + unfold PipeUnix.pipe_write, PipeUnix.sys_write. simpl.
      rewrite lookup_delete_eq. by eexists.
  - intros w rd0 wr0 w1 r wr b data cap Hc Hlen Hcap.
    destruct (win_pipe_create_ok _ _ _ _ _ _ Hc) as (i & Hne & Hr & Hw & Hi).
    unfold PipeWin.pipe_close, PipeWin.sys_CloseHandle. rewrite Hr, Hw. simpl. split_and!.
    + unfold PipeWin.pipe_write. rewrite to_uint_small, Nat2Z.id, firstn_all by lia.
      unfold PipeWin.sys_WriteFile. simpl.
      rewrite lookup_delete_ne, Hw by done. rewrite lookup_alter_eq, Hi. simpl. by eexists.
    + unfold PipeWin.pipe_read, PipeWin.sys_ReadFile. simpl.
      rewrite lookup_delete_eq. simpl. by eexists.
    + unfold PipeWin.pipe_write. rewrite to_uint_small, Nat2Z.id, firstn_all by lia.
      unfold PipeWin.sys_WriteFile. simpl.
      rewrite lookup_delete_eq. simpl. by eexists.
Qed.

Lemma pipe_use_after_close_witness :
  (PipeUnix.pipe_write
     (PipeUnix.pipe_close (PipeUnix.pipe_create pipe_unix_world 0 0).1.1.1 3) 4
     (x68 :: [x65; x6c; x6c; x6f; x21])
   = (if PipeUnix.sigpipe_ignored pipe_unix_world
      then Ret (PipeUnix.set_errno PipeUnix.EPIPE
                  (PipeUnix.pipe_close (PipeUnix.pipe_create pipe_unix_world 0 0).1.1.1 3),
                -1)
      else Killed PipeUnix.SIGPIPE) ∧
   PipeUnix.pipe_write
     (PipeUnix.pipe_close (PipeUnix.pipe_create pipe_unix_world 0 0).1.1.1 3) 4 []
   = Ret (PipeUnix.pipe_close (PipeUnix.pipe_create pipe_unix_world 0 0).1.1.1 3, 0) ∧
   (∃ w2, PipeUnix.pipe_read
            (PipeUnix.pipe_close (PipeUnix.pipe_create pipe_unix_world 0 0).1.1.1 3) 3 100
          = Ret (w2, -1, []) ∧ PipeUnix.errno w2 = PipeUnix.EBADF) ∧
   (∃ w2, PipeUnix.pipe_write
            (PipeUnix.pipe_close (PipeUnix.pipe_create pipe_unix_world 0 0).1.1.1 4) 4
            (x68 :: [x65; x6c; x6c; x6f; x21])
          = Ret (w2, -1) ∧ PipeUnix.errno w2 = PipeUnix.EBADF)) ∧
  ((∃ w2, PipeWin.pipe_write
            (PipeWin.pipe_close (PipeWin.pipe_create pipe_win_world 0 0).1.1.1 5) 6
            (x68 :: [x65; x6c; x6c; x6f; x21]) = Ret (w2, -1)) ∧
   (∃ w2, PipeWin.pipe_read
            (PipeWin.pipe_close (PipeWin.pipe_create pipe_win_world 0 0).1.1.1 5) 5 100
          = Ret (w2, -1, [])) ∧
   (∃ w2, PipeWin.pipe_write
            (PipeWin.pipe_close (PipeWin.pipe_create pipe_win_world 0 0).1.1.1 6) 6
            (x68 :: [x65; x6c; x6c; x6f; x21]) = Ret (w2, -1))).
Proof.
  split.
  - apply (proj1 pipe_use_after_close pipe_unix_world 0 0).
    vm_compute. reflexivity.
  - apply (proj2 pipe_use_after_close pipe_win_world 0 0).
    + vm_compute. reflexivity.
    + simpl. lia.
    + lia.
Defined.

Lemma unix_pipe_write_ok w wr i buf wo data :
  PipeUnix.fds w !! wr = Some (PipeUnix.FdWrite i) →
  PipeUnix.pipes w !! i = Some (PipeUnix.Pipe buf true wo) →
  data ≠ [] →
  (length buf + length data ≤ PipeUnix.pipe_cap w)%nat →
  PipeUnix.pipe_write w wr data
  = Ret (PipeUnix.set_pipes <[i := PipeUnix.Pipe (buf ++ data) true wo]> w,
         Z.of_nat (length data)).
Proof.
  intros Hw Hi Hdata Hcap. unfold PipeUnix.pipe_write, PipeUnix.sys_write.
  rewrite Hw, Hi. destruct data as [|b data]; [done|]. simpl. by rewrite decide_True.
Qed.

Lemma unix_pipe_read_fds w p size w' n d :
  PipeUnix.pipe_read w p size = Ret (w', n, d) → PipeUnix.fds w' = PipeUnix.fds w.
Proof.
  unfold PipeUnix.pipe_read, PipeUnix.sys_read. intros H.
  repeat case_match; by simplify_eq/=.
Qed.

Lemma unix_pipe_close_fds w p :
  PipeUnix.fds (PipeUnix.pipe_close w p) = delete p (PipeUnix.fds w).
Proof.
  unfold PipeUnix.pipe_close, PipeUnix.sys_close.
  destruct (PipeUnix.fds w !! p) as [d|] eqn:Hd; simpl.
  - by destruct d.
  - by rewrite delete_id.
Qed.

Lemma win_pipe_write_ok w wr i buf wo data :
  PipeWin.handles w !! wr = Some (PipeWin.HWrite i) →
  PipeWin.pipes w !! i = Some (PipeWin.Pipe buf true wo) →
  Z.of_nat (length data) < 2 ^ 32 →
  (length buf + length data ≤ PipeWin.pipe_cap w)%nat →
  PipeWin.pipe_write w wr data
  = Ret (PipeWin.set_pipes <[i := PipeWin.Pipe (buf ++ data) true wo]> w,
         Z.of_nat (length data)).
Proof.
  intros Hw Hi Hlen Hcap. unfold PipeWin.pipe_write.
  rewrite to_uint_small, Nat2Z.id, firstn_all by lia.
  unfold PipeWin.sys_WriteFile. rewrite Hw, Hi. simpl. by rewrite decide_True.
Qed.

Lemma win_pipe_read_handles w p cap w' n d :
  PipeWin.pipe_read w p cap = Ret (w', n, d) → PipeWin.handles w' = PipeWin.handles w.
Proof.
  unfold PipeWin.pipe_read, PipeWin.sys_ReadFile. intros H.
  repeat case_match; simplify_eq/=; repeat case_decide; by simplify_eq/=.
Qed.

Lemma win_pipe_close_handles w p :
  PipeWin.handles (PipeWin.pipe_close w p) = delete p (PipeWin.handles w).
Proof.
  unfold PipeWin.pipe_close, PipeWin.sys_CloseHandle.
  destruct (PipeWin.handles w !! p) as [d|] eqn:Hd; simpl.
  - by destruct d.
  - by rewrite delete_id.
Qed.

(** X5.  [main] of pipe.c, in any process whose pipes hold at least the
    six bytes of "hello!": if the process has room for two more descriptors
    every assertion holds, [main] returns, and the descriptor table is
    again what it was (both ends closed); if it has not, the first
    assertion (line 88) fails and nothing was opened.  On both platforms. *)
Theorem pipe_main_passes_its_assertions :
  (∀ w r0 w0,
     (6 ≤ PipeUnix.pipe_cap w)%nat →
     ∃ w', PipeUnix.fds w' = PipeUnix.fds w ∧
       PipeMainUnix.main w r0 w0
       = Ret (w', if decide (size (PipeUnix.fds w) + 2 ≤ PipeUnix.nofile w)%nat
                  then Returns else AssertionFailed 88)) ∧
  (∀ w r0 w0,
     (6 ≤ PipeWin.pipe_cap w)%nat →
     ∃ w', PipeWin.handles w' = PipeWin.handles w ∧
       PipeMainWin.main w r0 w0
       = Ret (w', if decide (size (PipeWin.handles w) + 2 ≤ PipeWin.quota w)%nat
                  then Returns else AssertionFailed 88)).
Proof.
  split.
  - intros w r0 w0 Hcap. unfold PipeMainUnix.main.
    pose proof (unix_pipe_create_cases w r0 w0) as H.
    destruct (PipeUnix.pipe_create w r0 w0) as [[[w1 e] r] wr].
    destruct H as [(-> & Hroom & Hne & Hr & Hw & i & Hi & Hfds & Hpipes & Hc)
                  |(-> & Hroom & _ & _ & Hfds & _ & _)].
    + rewrite (decide_True _ _ Hroom), decide_False by lia.
      assert (PipeUnix.fds w1 !! r = Some (PipeUnix.FdRead i)) as Hr1
        by (by rewrite Hfds, lookup_insert_ne, lookup_insert_eq).
      assert (PipeUnix.fds w1 !! wr = Some (PipeUnix.FdWrite i)) as Hw1
        by (by rewrite Hfds, lookup_insert_eq).
      assert (PipeUnix.pipes w1 !! i = Some (PipeUnix.Pipe [] true true)) as Hi1
        by (by rewrite Hpipes, lookup_insert_eq).
      rewrite (unix_pipe_write_ok w1 wr i [] true hello Hw1 Hi1)
        by (done || (rewrite Hc; simpl; lia)).
      cbn [mbind result_bind app]. rewrite decide_False by (simpl; lia).
      set (w2 := PipeUnix.set_pipes _ w1).
      assert (unix_draining (PipeUnix.pipe_close w2 wr) r hello) as Hd.
      { apply (unix_close_writer _ _ _ i); try done. unfold w2. simpl.
        by rewrite lookup_insert_eq. }
      destruct (unix_read_step _ r hello 100 Hd) as (w3 & Hread & Hd3).
      rewrite Hread. cbn [mbind result_bind]. rewrite decide_False by (simpl; lia).
      destruct (unix_read_step _ r _ 100 Hd3) as (w4 & Hread4 & Hd4).
      rewrite Hread4. cbn [mbind result_bind].
      rewrite decide_False by (vm_compute; intros Hx; by apply Hx).
      eexists. split; [|reflexivity].
      rewrite unix_pipe_close_fds.
      rewrite (unix_pipe_read_fds _ _ _ _ _ _ Hread4).
      rewrite (unix_pipe_read_fds _ _ _ _ _ _ Hread).
      rewrite unix_pipe_close_fds. unfold w2. simpl. rewrite Hfds.
      by apply delete_two_inserted.
    + rewrite (decide_False _ _ Hroom), decide_True by lia. by exists w1.
  - intros w r0 w0 Hcap. unfold PipeMainWin.main.
    pose proof (win_pipe_create_cases w r0 w0) as H.
    destruct (PipeWin.pipe_create w r0 w0) as [[[w1 e] r] wr].
    destruct H as [(-> & Hroom & Hne & Hr & Hw & i & Hi & Hfds & Hpipes & Hc)
                  |(-> & Hroom & _ & _ & Hfds & _ & _)].
    + rewrite (decide_True _ _ Hroom), decide_False by lia.
      assert (PipeWin.handles w1 !! r = Some (PipeWin.HRead i)) as Hr1
        by (by rewrite Hfds, lookup_insert_ne, lookup_insert_eq).
      assert (PipeWin.handles w1 !! wr = Some (PipeWin.HWrite i)) as Hw1
        by (by rewrite Hfds, lookup_insert_eq).
      assert (PipeWin.pipes w1 !! i = Some (PipeWin.Pipe [] true true)) as Hi1
        by (by rewrite Hpipes, lookup_insert_eq).
      rewrite (win_pipe_write_ok w1 wr i [] true hello Hw1 Hi1)
        by ((simpl; lia) || (rewrite Hc; simpl; lia)).
      cbn [mbind result_bind app]. rewrite decide_False by (simpl; lia).
      set (w2 := PipeWin.set_pipes _ w1).
      assert (win_draining (PipeWin.pipe_close w2 wr) r hello) as Hd.
      { apply (win_close_writer _ _ _ i); try done. unfold w2. simpl.
        by rewrite lookup_insert_eq. }
      destruct (win_read_step _ r _ _ 100 Hd) as (w3 & Hread & Hd3).
      rewrite Hread. cbn [mbind result_bind]. rewrite decide_False by (simpl; lia).
      destruct (win_read_end _ r 100 Hd3) as (Hread4 & Hd4).
      rewrite Hread4. cbn [mbind result_bind].
      rewrite decide_False by (intros Hx; by apply Hx).
      eexists. split; [|reflexivity].
      rewrite win_pipe_close_handles. simpl.
      rewrite (win_pipe_read_handles _ _ _ _ _ _ Hread).
      rewrite win_pipe_close_handles. unfold w2. simpl. rewrite Hfds.
      by apply delete_two_inserted.
    + rewrite (decide_False _ _ Hroom), decide_True by lia. by exists w1.
Qed.

Lemma pipe_main_passes_its_assertions_witness :
  ∃ w', PipeUnix.fds w' = PipeUnix.fds pipe_unix_world ∧
    PipeMainUnix.main pipe_unix_world 0 0
    = Ret (w', if decide (size (PipeUnix.fds pipe_unix_world) + 2
                          ≤ PipeUnix.nofile pipe_unix_world)%nat
               then Returns else AssertionFailed 88).
Proof.
  apply (proj1 pipe_main_passes_its_assertions pipe_unix_world 0 0).
  vm_compute. lia.
Defined.


(** ** ps-exec.c, ps-exec-wait.c: the runs of [main] *)

Lemma alloc_le {A} (lo : Z) (m : gmap Z A) : alloc lo m ≤ lo + Z.of_nat (size m).
Proof.
  unfold alloc. destruct (head _) as [n|] eqn:Hh; simpl; [|lia].
  apply head_Some_elem_of, list_elem_of_filter in Hh as [_ Hin].
  apply elem_of_seqZ in Hin. lia.
Qed.

(** The Windows [ps_exec] on arguments that fit: what [CreateProcessW] is
    called with. *)
Lemma win_ps_exec_joined (decode : string → list Z) junk w filename (argv : list string) :
  length junk = 1000%nat →
  argv ≠ [] →
  (∀ a, a ∈ argv → 0 ∉ decode a) →
  (length (spec_command_line (decode <$> argv)) < 1000)%nat →
  (length (decode filename) < 1000)%nat →
  PsWin.ps_exec decode junk w filename argv
  = Ret (PsWin.spawn w (wide decode filename) (spec_command_line (decode <$> argv))).
Proof.
  intros Hjunk Hne Hnul Hfit Hfn.
  destruct argv as [|a argv]; [done|].
  unfold PsWin.ps_exec. rewrite mb2wc_fits by lia.
  rewrite decide_False by lia.
  destruct (join_args_fits decode junk a argv Hjunk Hfit) as (tail & n & ->).
  pose proof (spec_command_line_no_nul decode (a :: argv) Hnul) as Hcmd.
  set (cmd := spec_command_line (decode <$> a :: argv)) in *.
  simpl. change (decode filename ++ [0]) with (decode filename ++ 0 :: []).
  rewrite !wcs_terminated. by rewrite (upto0_id cmd).
Qed.

Lemma win_ps_exec_one (decode : string → list Z) junk w filename a :
  length junk = 1000%nat →
  0 ∉ decode a →
  (length (decode a) < 1000)%nat →
  (length (decode filename) < 1000)%nat →
  PsWin.ps_exec decode junk w filename [a]
  = Ret (PsWin.spawn w (wide decode filename) (decode a)).
Proof.
  intros Hjunk Hnul Hfit Hfn.
  apply (win_ps_exec_joined decode junk w filename [a]); try done.
  intros b Hb. apply list_elem_of_singleton in Hb as ->. done.
Qed.

Lemma win_spawn_started w app cmdline :
  win_can_start w app →
  ∃ w1, PsWin.spawn w app cmdline = (w1, alloc 4 (PsWin.handles w)) ∧
    PsWin.handles w1
    = <[alloc 4 (PsWin.handles w) := PsWin.HProcess (PsWin.WRunning app cmdline)]>
        (PsWin.handles w) ∧
    PsWin.mem w1 = PsWin.mem w.
Proof.
  intros [Hinj Hin].
  assert (∀ w, app ∈ PsWin.exes w →
    let hp := alloc 4 (PsWin.handles w) in
    let m := <[hp := PsWin.HProcess (PsWin.WRunning app cmdline)]> (PsWin.handles w) in
    PsWin.handles
      (PsWin.sys_CloseHandle
         (PsWin.set_handles <[alloc 4 m := PsWin.HThread]>
            (PsWin.set_handles <[hp := PsWin.HProcess (PsWin.WRunning app cmdline)]> w))
         (alloc 4 m)).1 = m) as Hgo.
  { intros w0 _ hp m. unfold PsWin.sys_CloseHandle. simpl.
    rewrite lookup_insert_eq. simpl. apply delete_insert_id, alloc_fresh. }
  unfold PsWin.spawn, PsWin.sys_CreateProcessW.
  destruct (PsWin.inject w) as [|e rest] eqn:Hi; simpl in Hinj.
  - rewrite decide_True by done. simpl. eexists. split; [reflexivity|].
    split; [by apply Hgo|]. unfold PsWin.sys_CloseHandle. simpl.
    by rewrite lookup_insert_eq.
  - subst e. simpl. rewrite decide_True by done. simpl. eexists. split; [reflexivity|].
    split; [by apply (Hgo (PsWin.set_inject rest w))|].
    unfold PsWin.sys_CloseHandle. simpl. by rewrite lookup_insert_eq.
Qed.

Lemma win_spawn_refused w app cmdline :
  ¬ win_can_start w app →
  ∃ w1, PsWin.spawn w app cmdline = (w1, PsWin._PS_NULL) ∧
    PsWin.handles w1 = PsWin.handles w ∧ PsWin.mem w1 = PsWin.mem w.
Proof.
  intros Hno. unfold PsWin.spawn, PsWin.sys_CreateProcessW.
  destruct (PsWin.inject w) as [|e rest] eqn:Hi.
  - destruct (decide (app ∈ PsWin.exes w)) as [Hin|Hnot]; simpl.
    + exfalso. apply Hno. split; [by rewrite Hi|done].
    + by eexists.
  - destruct (decide (e = 0)) as [->|He]; simpl; [|by eexists].
    destruct (decide (app ∈ PsWin.exes w)) as [Hin|Hnot]; simpl.
    + exfalso. apply Hno. split; [by rewrite Hi|done].
    + by eexists.
Qed.

Lemma win_close_handles w h :
  PsWin.handles (PsWin.ps_close w h) = delete h (PsWin.handles w).
Proof.
  unfold PsWin.ps_close, PsWin.sys_CloseHandle.
  destruct (PsWin.handles w !! h) eqn:Hh; simpl; [done|]. by rewrite delete_id.
Qed.

(** X6.  [main] of ps-exec.c.  UNIX: its assertion holds whenever the
    process may have one more child, whether or not dir-list can be
    executed; [main] then returns and leaves the child behind, running
    dir-list or, if there is no such program, terminated with status 255
    and not waited for.  The assertion fails only when no process could be
    created.  Windows: the assertion holds exactly when [CreateProcessW]
    can start dir-list.exe, and [main] then returns with every handle it
    was given closed again; otherwise the assertion fails with the handle
    table untouched. *)
Theorem ps_exec_main_assertion :
  (∀ w,
     let '(w', e) := PsExecMainUnix.main w in
     if decide (size (PsUnix.procs w) < PsUnix.nproc w)%nat
     then e = Returns ∧
          ∃ p, PsUnix.procs w !! p = None ∧
            PsUnix.procs w' =
              <[p := if decide ("dir-list" ∈ PsUnix.exes w)
                     then PsUnix.Running "dir-list" ["dir-list"]
                     else PsUnix.Zombie PsUnix.CLD_EXITED 255]> (PsUnix.procs w)
     else e = AssertionFailed 92 ∧ PsUnix.procs w' = PsUnix.procs w) ∧
  (∀ decode junk w,
     length junk = 1000%nat →
     0 ∉ decode "dir-list" →
     (length (decode "dir-list") < 1000)%nat →
     (length (decode "dir-list.exe") < 1000)%nat →
     ∃ w', PsWin.handles w' = PsWin.handles w ∧
       PsExecMainWin.main decode junk w
       = Ret (w', if decide (win_can_start w (wide decode "dir-list.exe"))
                  then Returns else AssertionFailed 92)).
Proof.
  split.
  - intros w. unfold PsExecMainUnix.main.
    pose proof (unix_ps_exec_cases w "dir-list" ["dir-list"]) as Hc.
    unfold PsUnix.ps_exec, PsUnix.sys_vfork in *.
    destruct (decide (size (PsUnix.procs w) < PsUnix.nproc w)%nat) as [Hroom|Hroom].
    + destruct Hc as [[Hp _]|(Hp & Hfresh & Hprocs)].
      * pose proof (alloc_ge 2 (PsUnix.procs w)). unfold PsUnix._PS_NULL in Hp. lia.
      * rewrite decide_False by (unfold PsUnix._PS_NULL; lia).
        split; [done|]. eexists. split; [exact Hfresh|exact Hprocs].
    + by rewrite decide_True.
  - intros decode junk w Hjunk Hnul Harg Hfn. unfold PsExecMainWin.main.
    rewrite win_ps_exec_one by done. cbn [mbind result_bind].
    destruct (decide (win_can_start w (wide decode "dir-list.exe"))) as [Hs|Hs].
    + destruct (win_spawn_started w _ (decode "dir-list") Hs) as (w1 & -> & Hh & _).
      pose proof (alloc_ge 4 (PsWin.handles w)).
      rewrite decide_False
        by (unfold PsWin._PS_NULL, PsWin.INVALID_HANDLE_VALUE; lia).
      eexists. split; [|reflexivity].
      rewrite win_close_handles, Hh. apply delete_insert_id, alloc_fresh.
    + destruct (win_spawn_refused w _ (decode "dir-list") Hs) as (w1 & -> & Hh & _).
      rewrite decide_True by done. by eexists.
Qed.

Lemma ps_exec_main_assertion_witness :
  ∃ w', PsWin.handles w' = PsWin.handles win_ps_fresh ∧
    PsExecMainWin.main ascii_units junk1000 win_ps_fresh
    = Ret (w', if decide (win_can_start win_ps_fresh (wide ascii_units "dir-list.exe"))
               then Returns else AssertionFailed 92).
Proof.
  apply (proj2 ps_exec_main_assertion ascii_units junk1000 win_ps_fresh).
  - reflexivity.
  - apply (bool_decide_eq_true_1 _). vm_compute. reflexivity.
  - vm_compute. lia.
  - vm_compute. lia.
Defined.

(** X7.  [main] of ps-exec-wait.c, when std-echo can be started and the
    child is still running when it is polled: every assertion holds and
    [main] returns.  The child was found running (time-out), killed, and
    waited for; [code] holds -9; nothing of the child is left (on UNIX no
    entry in the process table, on Windows no open handle).  On Windows the
    closing [ps_close] acts on the handle that the successful [ps_wait] has
    closed already: it fails with [ERROR_INVALID_HANDLE]. *)
Theorem ps_exec_wait_main_passes_its_assertions :
  (∀ w code,
     "std-echo" ∈ PsUnix.exes w →
     (size (PsUnix.procs w) < PsUnix.nproc w)%nat →
     Z.of_nat (size (PsUnix.procs w)) < 2 ^ 31 - 2 →
     code ≠ NULL → is_Some (PsUnix.mem w !! code) →
     ∃ w' pid,
       PsExecWaitMainUnix.main w code = Ret (w', Returns, [pid]) ∧
       PsUnix.procs w !! pid = None ∧
       PsUnix.procs w' = PsUnix.procs w ∧
       PsUnix.mem w' = <[code := -9]> (PsUnix.mem w)) ∧
  (∀ decode sys_GetProcessId junk w code,
     length junk = 1000%nat →
     0 ∉ decode "std-echo" →
     (length (decode "std-echo") < 1000)%nat →
     (length (decode "std-echo.exe") < 1000)%nat →
     win_can_start w (wide decode "std-echo.exe") →
     code ≠ NULL → is_Some (PsWin.mem w !! code) →
     ∃ w' pid,
       PsExecWaitMainWin.main decode sys_GetProcessId junk w code
       = Ret (w', Returns, [pid]) ∧
       PsWin.handles w' = PsWin.handles w ∧
       PsWin.mem w' = <[code := -9]> (PsWin.mem w) ∧
       PsWin.err_last w' = PsWin.ERROR_INVALID_HANDLE).
Proof.
  split.
  - intros w code Hexe Hroom Hsmall Hcode Hmem. unfold PsExecWaitMainUnix.main.
    pose proof (alloc_ge 2 (PsUnix.procs w)) as Hge.
    pose proof (alloc_le 2 (PsUnix.procs w)) as Hle.
    pose proof (alloc_fresh 2 (PsUnix.procs w)) as Hfresh.
    unfold PsUnix.ps_exec, PsUnix.sys_vfork, PsUnix.sys_execve.
    rewrite (decide_True _ _ Hroom), (decide_True _ _ Hexe).
    set (p := alloc 2 (PsUnix.procs w)) in *.
    rewrite decide_False by (unfold PsUnix._PS_NULL; lia).
    set (w1 := PsUnix.set_procs _ w).
    assert (0 < p < 2 ^ 31) as Hp by lia.
    unfold PsUnix.ps_id. rewrite (to_uint_pid p) by done.
    rewrite (unix_ps_wait_running w1 p "std-echo" ["std-echo"])
      by (done || (unfold w1; simpl; by rewrite lookup_insert_eq)).
    cbn [mbind result_bind]. rewrite decide_False by done.
    rewrite decide_False by (intros H; by apply H).
    unfold PsUnix.ps_kill.
    rewrite (unix_kill_running _ p "std-echo" ["std-echo"])
      by (unfold w1; simpl; by rewrite lookup_insert_eq).
    rewrite decide_False by (intros H; by apply H).
    rewrite (unix_ps_wait_zombie _ p 1 PsUnix.CLD_KILLED PsUnix.SIGKILL code);
      [|done|simpl; by rewrite lookup_insert_eq|by right].
    cbn [mbind result_bind]. rewrite decide_False by (intros H; by apply H).
    rewrite decide_True by done. rewrite decide_False by done.
    unfold PsExecWaitMainUnix.load. simpl. rewrite lookup_insert_eq.
    cbn [mbind result_bind]. rewrite decide_False by (intros H; by apply H).
    eexists _, _. split; [reflexivity|]. split; [exact Hfresh|]. split; [|done].
    simpl. rewrite insert_insert_eq. by apply delete_insert_id.
  - intros decode gpid junk w code Hjunk Hnul Harg Hfn Hs Hcode Hmem.
    unfold PsExecWaitMainWin.main.
    rewrite win_ps_exec_one by done. cbn [mbind result_bind].
    destruct (win_spawn_started w _ (decode "std-echo") Hs) as (w1 & -> & Hh & Hm).
    pose proof (alloc_ge 4 (PsWin.handles w)) as Hge.
    pose proof (alloc_fresh 4 (PsWin.handles w)) as Hfresh.
    set (h := alloc 4 (PsWin.handles w)) in *.
    rewrite decide_False by (unfold PsWin._PS_NULL, PsWin.INVALID_HANDLE_VALUE; lia).
    rewrite (win_ps_wait_running w1 h (wide decode "std-echo.exe") (decode "std-echo"))
      by (by rewrite Hh, lookup_insert_eq).
    cbn [mbind result_bind]. rewrite decide_False by done.
    rewrite decide_False by (intros H; by apply H).
    rewrite (win_kill_running _ h (wide decode "std-echo.exe") (decode "std-echo"))
      by (simpl; by rewrite Hh, lookup_insert_eq).
    rewrite decide_False by (intros H; by apply H).
    rewrite (win_ps_wait_exited _ h 1 (to_uint (-9)) code);
      [|simpl; by rewrite lookup_insert_eq|right; simpl; by rewrite Hm].
    cbn [mbind result_bind]. rewrite decide_False by (intros H; by apply H).
    rewrite decide_True by done.
    unfold PsExecWaitMainWin.load. simpl. rewrite lookup_insert_eq.
    cbn [mbind result_bind].
    rewrite decide_False by (intros H; apply H; vm_compute; reflexivity).
    eexists _, _. split; [reflexivity|]. split_and!.
    + rewrite win_close_handles. simpl. rewrite Hh, insert_insert_eq, delete_insert_eq.
      rewrite (delete_id (PsWin.handles w) h) by done. by apply delete_id.
    + unfold PsWin.ps_close, PsWin.sys_CloseHandle. simpl.
      rewrite lookup_delete_eq. simpl. by rewrite Hm.
    + unfold PsWin.ps_close, PsWin.sys_CloseHandle. simpl.
      by rewrite lookup_delete_eq.
Qed.

Lemma ps_exec_wait_main_passes_its_assertions_witness :
  ∃ w' pid,
    PsExecWaitMainUnix.main unix_ps_fresh 100 = Ret (w', Returns, [pid]) ∧
    PsUnix.procs unix_ps_fresh !! pid = None ∧
    PsUnix.procs w' = PsUnix.procs unix_ps_fresh ∧
    PsUnix.mem w' = <[100 := -9]> (PsUnix.mem unix_ps_fresh).
Proof.
  apply (proj1 ps_exec_wait_main_passes_its_assertions unix_ps_fresh 100).
  - apply (bool_decide_eq_true_1 _). vm_compute. reflexivity.
  - vm_compute. lia.
  - vm_compute. reflexivity.
  - done.
  - vm_compute. eauto.
Defined.

(** X8.  [main] of ps-exec-wait.c on Windows, when std-echo.exe cannot
    be started: [ps_exec] returns [_PS_NULL] and the assertion of line 174
    fails, with nothing printed, no handle opened and [code] untouched. *)
Theorem ps_exec_wait_main_without_program_on_windows :
  ∀ decode sys_GetProcessId junk w code,
    length junk = 1000%nat →
    0 ∉ decode "std-echo" →
    (length (decode "std-echo") < 1000)%nat →
    (length (decode "std-echo.exe") < 1000)%nat →
    ¬ win_can_start w (wide decode "std-echo.exe") →
    ∃ w',
      PsExecWaitMainWin.main decode sys_GetProcessId junk w code
      = Ret (w', AssertionFailed 174, []) ∧
      PsWin.handles w' = PsWin.handles w ∧
      PsWin.mem w' = PsWin.mem w.
Proof.
  intros decode gpid junk w code Hjunk Hnul Harg Hfn Hs.
  unfold PsExecWaitMainWin.main.
  rewrite win_ps_exec_one by done. cbn [mbind result_bind].
  destruct (win_spawn_refused w _ (decode "std-echo") Hs) as (w1 & -> & Hh & Hm).
  rewrite decide_True by done. by eexists.
Qed.

Lemma ps_exec_wait_main_without_program_on_windows_witness :
  ∃ w',
    PsExecWaitMainWin.main ascii_units (λ _ p, p) junk1000 win_ps_bare 100
    = Ret (w', AssertionFailed 174, []) ∧
    PsWin.handles w' = PsWin.handles win_ps_bare ∧
    PsWin.mem w' = PsWin.mem win_ps_bare.
Proof.
  apply (ps_exec_wait_main_without_program_on_windows ascii_units (λ _ p, p) junk1000
           win_ps_bare 100).
  - reflexivity.
  - apply (bool_decide_eq_true_1 _). vm_compute. reflexivity.
  - vm_compute. lia.
  - vm_compute. lia.
  - apply (bool_decide_eq_true_1 _). vm_compute. reflexivity.
Defined.

(** ** pipe-named.c: the steps of a server and of a client *)

(** *** UNIX *)

Lemma named_unix_unlink_frame w name :
  let w0 := (NamedUnix.sys_unlink w name).1 in
  NamedUnix.inject w0 = NamedUnix.inject w ∧ NamedUnix.fds w0 = NamedUnix.fds w ∧
  NamedUnix.paths w0 !! name = None ∧ NamedUnix.conns w0 = NamedUnix.conns w.
Proof.
  unfold NamedUnix.sys_unlink.
  destruct (NamedUnix.paths w !! name) eqn:Hn; simpl; split_and!; try done.
  by rewrite lookup_delete_eq.
Qed.

Lemma named_unix_create_ok size w name :
  NamedUnix.inject w = [] → NamedUnix.paths w !! name = None →
  Z.of_nat (String.length name) + 1 ≤ size →
  ∃ w1 l,
    NamedUnix.pipe_create_named size w name = (w1, alloc 0 (NamedUnix.fds w)) ∧
    NamedUnix.fds w1
    = <[alloc 0 (NamedUnix.fds w) := NamedUnix.SockListen l]> (NamedUnix.fds w) ∧
    NamedUnix.paths w1 = <[name := Some l]> (NamedUnix.paths w) ∧
    NamedUnix.queues w !! l = None ∧
    NamedUnix.queues w1 = <[l := []]> (NamedUnix.queues w) ∧
    NamedUnix.conns w1 = NamedUnix.conns w ∧
    NamedUnix.inject w1 = [].
Proof.
  intros Hinj Hpath Hlen.
  unfold NamedUnix.pipe_create_named. rewrite decide_False by lia.
  unfold NamedUnix.sys_socket, NamedUnix.pop_fault. rewrite Hinj. simpl.
  pose proof (alloc_ge 0 (NamedUnix.fds w)) as Hge.
  rewrite decide_False by lia.
  unfold NamedUnix.sys_bind, NamedUnix.pop_fault. simpl. rewrite Hinj. simpl.
  rewrite lookup_insert_eq, Hpath. simpl.
  unfold NamedUnix.sys_listen, NamedUnix.pop_fault. simpl. rewrite Hinj. simpl.
  rewrite lookup_insert_eq. simpl.
  eexists _, (alloc_nat (NamedUnix.queues w)). split; [reflexivity|]. simpl.
  split_and!; try done.
  - by rewrite !insert_insert_eq.
  - apply map_eq. intros s. destruct (decide (s = name)) as [->|Hs].
    + by rewrite lookup_alter_eq, !lookup_insert_eq.
    + by rewrite lookup_alter_ne, !lookup_insert_ne.
  - apply alloc_nat_fresh.
Qed.

Lemma named_unix_connect_ok size w name l q :
  NamedUnix.inject w = [] → NamedUnix.paths w !! name = Some (Some l) →
  NamedUnix.queues w !! l = Some q →
  Z.of_nat (String.length name) + 1 ≤ size →
  ∃ w1 k,
    NamedUnix.pipe_connect size w name = (w1, alloc 0 (NamedUnix.fds w)) ∧
    NamedUnix.conns w !! k = None ∧
    NamedUnix.fds w1
    = <[alloc 0 (NamedUnix.fds w) := NamedUnix.SockConn k false]> (NamedUnix.fds w) ∧
    NamedUnix.paths w1 = NamedUnix.paths w ∧
    NamedUnix.queues w1 = <[l := q ++ [k]]> (NamedUnix.queues w) ∧
    NamedUnix.conns w1 = <[k := NamedUnix.Conn [] [] true true]> (NamedUnix.conns w) ∧
    NamedUnix.inject w1 = [].
Proof.
  intros Hinj Hpath Hq Hlen.
  unfold NamedUnix.pipe_connect. rewrite decide_False by lia.
  unfold NamedUnix.sys_socket, NamedUnix.pop_fault. rewrite Hinj. simpl.
  pose proof (alloc_ge 0 (NamedUnix.fds w)) as Hge.
  rewrite decide_False by lia.
  unfold NamedUnix.sys_connect, NamedUnix.pop_fault. simpl. rewrite Hinj. simpl.
  rewrite lookup_insert_eq, Hpath, Hq. simpl.
  eexists _, (alloc_nat (NamedUnix.conns w)). split; [reflexivity|]. simpl.
  split_and!; try done.
  - apply alloc_nat_fresh.
  - by rewrite insert_insert_eq.
Qed.

Lemma named_unix_connect_refused size w name :
  NamedUnix.inject w = [] →
  (∀ l, NamedUnix.paths w !! name = Some (Some l) → NamedUnix.queues w !! l = None) →
  ∃ w1, NamedUnix.pipe_connect size w name = (w1, NamedUnix.PIPE_NULL) ∧
    NamedUnix.fds w1 = NamedUnix.fds w ∧ NamedUnix.conns w1 = NamedUnix.conns w ∧
    NamedUnix.queues w1 = NamedUnix.queues w.
Proof.
  intros Hinj Hno. unfold NamedUnix.pipe_connect.
  destruct (decide _); [by eexists|].
  unfold NamedUnix.sys_socket, NamedUnix.pop_fault. rewrite Hinj. simpl.
  pose proof (alloc_ge 0 (NamedUnix.fds w)) as Hge.
  pose proof (alloc_fresh 0 (NamedUnix.fds w)) as Hfresh.
  rewrite decide_False by lia.
  unfold NamedUnix.sys_connect, NamedUnix.pop_fault. simpl. rewrite Hinj. simpl.
  rewrite lookup_insert_eq.
  destruct (NamedUnix.paths w !! name) as [[l|]|] eqn:Hp; simpl.
  - rewrite (Hno l eq_refl). simpl. unfold NamedUnix.sys_close. simpl.
    rewrite lookup_insert_eq. simpl. eexists. split; [reflexivity|]. simpl.
    split_and!; try done. by apply delete_insert_id.
  - unfold NamedUnix.sys_close. simpl.
    rewrite lookup_insert_eq. simpl. eexists. split; [reflexivity|]. simpl.
    split_and!; try done. by apply delete_insert_id.
  - unfold NamedUnix.sys_close. simpl.
    rewrite lookup_insert_eq. simpl. eexists. split; [reflexivity|]. simpl.
    split_and!; try done. by apply delete_insert_id.
Qed.

Lemma named_unix_write_ok w p k server kk data :
  NamedUnix.fds w !! p = Some (NamedUnix.SockConn k server) →
  NamedUnix.conns w !! k = Some kk →
  NamedUnix.peer_open server kk = true →
  NamedUnix.pipe_write w p data
  = (NamedUnix.set_conns
       <[k := NamedUnix.set_inbound (negb server)
                (NamedUnix.inbound (negb server) kk ++ data) kk]> w,
     Z.of_nat (length data)).
Proof.
  intros Hp Hk Ho. unfold NamedUnix.pipe_write, NamedUnix.sys_write.
  by rewrite Hp, Hk, Ho.
Qed.

Lemma named_unix_close_conn w p k server :
  NamedUnix.fds w !! p = Some (NamedUnix.SockConn k server) →
  NamedUnix.pipe_close w p
  = NamedUnix.set_conns (alter (NamedUnix.shut server) k) (NamedUnix.set_fds (delete p) w).
Proof.
  intros Hp. unfold NamedUnix.pipe_close, NamedUnix.sys_close. by rewrite Hp.
Qed.

Lemma named_unix_accept_ok w p l k q :
  NamedUnix.inject w = [] →
  NamedUnix.fds w !! p = Some (NamedUnix.SockListen l) →
  NamedUnix.queues w !! l = Some (k :: q) →
  NamedUnix.pipe_accept w p
  = Ret (NamedUnix.set_queues <[l := q]>
           (NamedUnix.set_fds <[alloc 0 (NamedUnix.fds w) := NamedUnix.SockConn k true]> w),
         alloc 0 (NamedUnix.fds w)).
Proof.
  intros Hinj Hp Hq. unfold NamedUnix.pipe_accept, NamedUnix.sys_accept, NamedUnix.pop_fault.
  rewrite Hinj. simpl. by rewrite Hp, Hq.
Qed.

Lemma named_unix_read_data w p k server kk b rest size :
  NamedUnix.fds w !! p = Some (NamedUnix.SockConn k server) →
  NamedUnix.conns w !! k = Some kk →
  NamedUnix.inbound server kk = b :: rest →
  NamedUnix.pipe_read w p size
  = Ret (NamedUnix.set_conns
           <[k := NamedUnix.set_inbound server (drop (Z.to_nat size) (b :: rest)) kk]> w,
         Z.of_nat (length (take (Z.to_nat size) (b :: rest))),
         take (Z.to_nat size) (b :: rest)).
Proof.
  intros Hp Hk Hin. unfold NamedUnix.pipe_read, NamedUnix.sys_read.
  by rewrite Hp, Hk, Hin.
Qed.

Lemma named_unix_read_end w p k server kk size :
  NamedUnix.fds w !! p = Some (NamedUnix.SockConn k server) →
  NamedUnix.conns w !! k = Some kk →
  NamedUnix.inbound server kk = [] →
  NamedUnix.peer_open server kk = false →
  NamedUnix.pipe_read w p size = Ret (w, 0, []).
Proof.
  intros Hp Hk Hin Ho. unfold NamedUnix.pipe_read, NamedUnix.sys_read.
  by rewrite Hp, Hk, Hin, Ho.
Qed.

(** The client's [main] against a listener with nobody waiting: it
    connects, writes "hello!" and closes; its connection waits in the
    queue with the six bytes in it. *)
Lemma named_unix_client_run size w name l :
  name = "/tmp/cpspg.pipe"%string →
  16 ≤ size →
  NamedUnix.inject w = [] → NamedUnix.paths w !! name = Some (Some l) →
  NamedUnix.queues w !! l = Some [] →
  ∃ w1 k,
    PipeNamedMainUnix.main size w None id = Ret (w1, Returns, []) ∧
    NamedUnix.fds w1 = NamedUnix.fds w ∧
    NamedUnix.queues w1 = <[l := [k]]> (NamedUnix.queues w) ∧
    NamedUnix.conns w !! k = None ∧
    NamedUnix.conns w1 = <[k := NamedUnix.Conn hello [] true false]> (NamedUnix.conns w) ∧
    NamedUnix.inject w1 = [].
Proof.
  intros -> Hsize Hinj Hpath Hq. unfold PipeNamedMainUnix.main.
  rewrite decide_False by done.
  destruct (named_unix_connect_ok size w "/tmp/cpspg.pipe" l [] Hinj Hpath Hq)
    as (w1 & k & -> & Hk & Hfds & Hpaths & Hqs & Hconns & Hinj1); [simpl; lia|].
  pose proof (alloc_ge 0 (NamedUnix.fds w)) as Hge.
  pose proof (alloc_fresh 0 (NamedUnix.fds w)) as Hfresh.
  set (c := alloc 0 (NamedUnix.fds w)) in *.
  rewrite decide_False by (unfold NamedUnix.PIPE_NULL; lia).
  rewrite (named_unix_write_ok w1 c k false (NamedUnix.Conn [] [] true true))
    by (done || (by rewrite Hfds, lookup_insert_eq) || (by rewrite Hconns, lookup_insert_eq)).
  rewrite decide_False by (simpl; lia).
  rewrite (named_unix_close_conn _ c k false) by (simpl; by rewrite Hfds, lookup_insert_eq).
  eexists _, k. split; [reflexivity|]. simpl. split_and!; try done.
  - rewrite Hfds. by apply delete_insert_id.
  - rewrite Hconns. apply map_eq. intros j. destruct (decide (j = k)) as [->|Hj].
    + by rewrite lookup_alter_eq, !lookup_insert_eq.
    + by rewrite lookup_alter_ne, !lookup_insert_ne.
Qed.

(** X9.  pipe-named.c on UNIX, a server and a client: the server's
    [main] removes any stale socket file, creates the pipe and waits; a
    client's [main] connects, writes "hello!" and closes.  Then every
    assertion of both holds, although the client is gone before the server
    accepts: the server reads the six bytes, prints them with a newline and
    returns with its descriptor table as it was.  This holds whatever
    sockets, files and connections there were before, as long as the
    system refuses none of the calls. *)
Theorem named_pipe_main_unix_server_reads_hello :
  ∀ size w,
    16 ≤ size → NamedUnix.inject w = [] →
    ∃ w',
      PipeNamedMainUnix.main size w (Some "server") (unix_client_run size)
      = Ret (w', Returns, hello ++ [x0a]) ∧
      NamedUnix.fds w' = NamedUnix.fds w.
Proof.
  intros size w Hsize Hinj. unfold PipeNamedMainUnix.main.
  rewrite decide_True by done.
  destruct (named_unix_unlink_frame w "/tmp/cpspg.pipe") as (Hinj0 & Hfds0 & Hpath0 & Hconns0).
  set (w0 := (NamedUnix.sys_unlink w "/tmp/cpspg.pipe").1) in *.
  rewrite Hinj in Hinj0.
  destruct (named_unix_create_ok size w0 "/tmp/cpspg.pipe" Hinj0 Hpath0)
    as (w1 & l & -> & Hfds1 & Hpaths1 & Hl & Hqs1 & Hconns1 & Hinj1); [simpl; lia|].
  rewrite Hfds0 in *.
  pose proof (alloc_ge 0 (NamedUnix.fds w)) as Hge.
  pose proof (alloc_fresh 0 (NamedUnix.fds w)) as Hfresh.
  set (p := alloc 0 (NamedUnix.fds w)) in *.
  rewrite decide_False by (unfold NamedUnix.PIPE_NULL; lia).
  destruct (named_unix_client_run size w1 "/tmp/cpspg.pipe" l eq_refl Hsize Hinj1)
    as (w2 & k & Hrun & Hfds2 & Hqs2 & Hk & Hconns2 & Hinj2).
  { by rewrite Hpaths1, lookup_insert_eq. }
  { by rewrite Hqs1, lookup_insert_eq. }
  unfold unix_client_run. rewrite Hrun.
  rewrite (named_unix_accept_ok w2 p l k []); try done; cycle 1.
  { by rewrite Hfds2, Hfds1, lookup_insert_eq. }
  { by rewrite Hqs2, lookup_insert_eq. }
  cbn [mbind result_bind].
  pose proof (alloc_ge 0 (NamedUnix.fds w2)) as Hge2.
  pose proof (alloc_fresh 0 (NamedUnix.fds w2)) as Hfresh2.
  set (pc := alloc 0 (NamedUnix.fds w2)) in *.
  rewrite decide_False by (unfold NamedUnix.PIPE_NULL; lia).
  rewrite (named_unix_read_data _ pc k true (NamedUnix.Conn hello [] true false) x68
             [x65; x6c; x6c; x6f; x21]); cycle 1.
  { simpl. by rewrite lookup_insert_eq. }
  { simpl. by rewrite Hconns2, lookup_insert_eq. }
  { done. }
  cbn [mbind result_bind]. rewrite decide_False by (vm_compute; discriminate).
  eexists. split; [reflexivity|].
  unfold NamedUnix.pipe_close, NamedUnix.pipe_peer_close.
  rewrite !named_close_fds. simpl. rewrite Hfds2, Hfds1.
  rewrite Hfds2, Hfds1 in Hfresh2. apply lookup_insert_None in Hfresh2 as [Hpc Hne].
  by apply delete_two_inserted.
Qed.

Lemma named_pipe_main_unix_server_reads_hello_witness :
  ∃ w',
    PipeNamedMainUnix.main 108 named_unix_empty (Some "server") (unix_client_run 108)
    = Ret (w', Returns, hello ++ [x0a]) ∧
    NamedUnix.fds w' = NamedUnix.fds named_unix_empty.
Proof.
  apply (named_pipe_main_unix_server_reads_hello 108 named_unix_empty).
  - lia.
  - reflexivity.
Defined.

(** *** Windows *)

Lemma named_win_name decode name :
  0 ∉ decode name → (length (decode name) < 1000)%nat →
  MultiByteToWideChar decode name 1000
  = (Z.of_nat (length (decode name)) + 1, Some (decode name ++ [0])) ∧
  wcs (decode name ++ [0]) = Some (decode name).
Proof.
  intros Hnul Hlen. split; [apply mb2wc_fits; lia|].
  change (decode name ++ [0]) with (decode name ++ 0 :: []).
  by rewrite wcs_terminated, upto0_id.
Qed.

Lemma named_win_create_ok decode w name :
  0 ∉ decode name → (length (decode name) < 1000)%nat →
  NamedWin.inject w = [] → NamedWin.names w !! decode name = None →
  ∃ w1 i,
    NamedWin.pipe_create_named decode w name = (w1, alloc 4 (NamedWin.handles w)) ∧
    NamedWin.handles w1
    = <[alloc 4 (NamedWin.handles w) := NamedWin.HServer i]> (NamedWin.handles w) ∧
    NamedWin.names w1 = <[decode name := i]> (NamedWin.names w) ∧
    NamedWin.insts w !! i = None ∧
    NamedWin.insts w1
    = <[i := NamedWin.Inst (decode name) NamedWin.NoClient [] [] true]> (NamedWin.insts w) ∧
    NamedWin.inject w1 = [].
Proof.
  intros Hnul Hlen Hinj Hname. unfold NamedWin.pipe_create_named.
  destruct (named_win_name decode name Hnul Hlen) as [-> Hw].
  rewrite decide_False by lia. simpl. rewrite Hw.
  unfold NamedWin.sys_CreateNamedPipeW, NamedWin.pop_fault. rewrite Hinj. simpl.
  rewrite Hname. eexists _, (alloc_nat (NamedWin.insts w)). split; [reflexivity|].
  simpl. split_and!; try done. apply alloc_nat_fresh.
Qed.


Lemma named_win_connect_ok decode w name i k :
  0 ∉ decode name → (length (decode name) < 1000)%nat →
  NamedWin.inject w = [] → NamedWin.names w !! decode name = Some i →
  NamedWin.insts w !! i = Some k → NamedWin.client k = NamedWin.NoClient →
  NamedWin.pipe_connect decode w name
  = (NamedWin.set_handles <[alloc 4 (NamedWin.handles w) := NamedWin.HClient i]>
       (NamedWin.set_insts
          <[i := NamedWin.Inst (NamedWin.iname k) NamedWin.Attached (NamedWin.c2s k)
                   (NamedWin.s2c k) (NamedWin.srv_open k)]> w),
     alloc 4 (NamedWin.handles w)).
Proof.
  intros Hnul Hlen Hinj Hname Hi Hc. unfold NamedWin.pipe_connect.
  destruct (named_win_name decode name Hnul Hlen) as [-> Hw].
  rewrite decide_False by lia. simpl. rewrite Hw.
  unfold NamedWin.sys_CreateFileW, NamedWin.pop_fault. rewrite Hinj. simpl.
  rewrite Hname. simpl. rewrite Hi. simpl. by rewrite Hc.
Qed.

Lemma named_win_connect_refused decode w name :
  0 ∉ decode name → (length (decode name) < 1000)%nat →
  NamedWin.inject w = [] → NamedWin.names w !! decode name = None →
  NamedWin.pipe_connect decode w name
  = (NamedWin.sys_SetLastError w NamedWin.ERROR_FILE_NOT_FOUND, NamedWin.PIPE_NULL).
Proof.
  intros Hnul Hlen Hinj Hname. unfold NamedWin.pipe_connect.
  destruct (named_win_name decode name Hnul Hlen) as [-> Hw].
  rewrite decide_False by lia. simpl. rewrite Hw.
  unfold NamedWin.sys_CreateFileW, NamedWin.pop_fault. rewrite Hinj. simpl.
  by rewrite Hname.
Qed.

Lemma named_win_client_write w h i k data :
  Z.of_nat (length data) < 2 ^ 32 →
  NamedWin.handles w !! h = Some (NamedWin.HClient i) →
  NamedWin.insts w !! i = Some k → NamedWin.srv_open k = true →
  NamedWin.pipe_write w h data
  = (NamedWin.set_insts
       <[i := NamedWin.Inst (NamedWin.iname k) (NamedWin.client k) (NamedWin.c2s k ++ data)
                (NamedWin.s2c k) (NamedWin.srv_open k)]> w,
     Z.of_nat (length data)).
Proof.
  intros Hlen Hh Hi Ho. unfold NamedWin.pipe_write.
  rewrite to_uint_small, Nat2Z.id, firstn_all by lia.
  unfold NamedWin.sys_WriteFile. rewrite Hh, Hi, Ho. simpl. done.
Qed.

Lemma named_win_client_close w h i :
  NamedWin.handles w !! h = Some (NamedWin.HClient i) →
  NamedWin.pipe_close w h
  = NamedWin.set_insts
      (alter (λ k, NamedWin.Inst (NamedWin.iname k) NamedWin.Gone (NamedWin.c2s k)
                     (NamedWin.s2c k) (NamedWin.srv_open k)) i)
      (NamedWin.set_handles (delete h) w).
Proof.
  intros Hh. unfold NamedWin.pipe_close, NamedWin.sys_CloseHandle. by rewrite Hh.
Qed.

Lemma named_win_accept_attached w h i k :
  NamedWin.handles w !! h = Some (NamedWin.HServer i) →
  NamedWin.insts w !! i = Some k → NamedWin.client k = NamedWin.Attached →
  NamedWin.pipe_accept w h
  = Ret (NamedWin.sys_SetLastError w NamedWin.ERROR_PIPE_CONNECTED, h).
Proof.
  intros Hh Hi Hc. unfold NamedWin.pipe_accept, NamedWin.sys_ConnectNamedPipe.
  rewrite Hh. simpl. rewrite Hi. simpl. rewrite Hc. simpl. done.
Qed.

Lemma named_win_accept_gone w h i k :
  NamedWin.handles w !! h = Some (NamedWin.HServer i) →
  NamedWin.insts w !! i = Some k → NamedWin.client k = NamedWin.Gone →
  NamedWin.pipe_accept w h
  = Ret (NamedWin.sys_SetLastError w NamedWin.ERROR_NO_DATA, NamedWin.PIPE_NULL).
Proof.
  intros Hh Hi Hc. unfold NamedWin.pipe_accept, NamedWin.sys_ConnectNamedPipe.
  rewrite Hh. simpl. rewrite Hi. simpl. rewrite Hc. simpl. done.
Qed.

Lemma named_win_server_read w h i k b rest cap :
  0 ≤ cap < 2 ^ 32 →
  NamedWin.handles w !! h = Some (NamedWin.HServer i) →
  NamedWin.insts w !! i = Some k → NamedWin.c2s k = b :: rest →
  NamedWin.pipe_read w h cap
  = Ret (NamedWin.set_insts
           <[i := NamedWin.Inst (NamedWin.iname k) (NamedWin.client k)
                    (drop (Z.to_nat cap) (b :: rest)) (NamedWin.s2c k) (NamedWin.srv_open k)]> w,
         Z.of_nat (length (take (Z.to_nat cap) (b :: rest))),
         take (Z.to_nat cap) (b :: rest)).
Proof.
  intros Hcap Hh Hi Hc. unfold NamedWin.pipe_read, NamedWin.sys_ReadFile.
  rewrite to_uint_small by done. rewrite Hh, Hi, Hc. simpl. done.
Qed.

(** The client's run up to its [pipe_close], against a pipe that waits
    for a client. *)
Lemma named_win_client_writes decode w i :
  0 ∉ decode "\\.\pipe\cpspg.pipe" →
  (length (decode "\\.\pipe\cpspg.pipe") < 1000)%nat →
  NamedWin.inject w = [] →
  NamedWin.names w !! decode "\\.\pipe\cpspg.pipe" = Some i →
  NamedWin.insts w !! i
  = Some (NamedWin.Inst (decode "\\.\pipe\cpspg.pipe") NamedWin.NoClient [] [] true) →
  let c := alloc 4 (NamedWin.handles w) in
  let w2 := win_client_writes decode w in
  NamedWin.pipe_connect decode w "\\.\pipe\cpspg.pipe" = ((NamedWin.pipe_connect decode w "\\.\pipe\cpspg.pipe").1, c) ∧
  NamedWin.pipe_write (NamedWin.pipe_connect decode w "\\.\pipe\cpspg.pipe").1 c hello
  = (w2, 6) ∧
  NamedWin.handles w2 = <[c := NamedWin.HClient i]> (NamedWin.handles w) ∧
  NamedWin.insts w2
  = <[i := NamedWin.Inst (decode "\\.\pipe\cpspg.pipe") NamedWin.Attached hello [] true]>
      (NamedWin.insts w) ∧
  NamedWin.inject w2 = [].
Proof.
  intros Hnul Hlen Hinj Hname Hi c w2. unfold w2, win_client_writes.
  rewrite (named_win_connect_ok decode w _ i _ Hnul Hlen Hinj Hname Hi eq_refl).
  fold c. simpl.
  rewrite (named_win_client_write _ c i
             (NamedWin.Inst (decode "\\.\pipe\cpspg.pipe") NamedWin.Attached [] [] true))
    by ((simpl; lia) || (simpl; by rewrite ?lookup_insert_eq)).
  simpl. split_and!; try done. by rewrite insert_insert_eq.
Qed.

(** X10.  pipe-named.c on Windows, a server and a client.  The server's
    [pipe_accept] only succeeds while the client still holds its end.  If
    the client has connected and written "hello!" but not yet closed, every
    assertion of the server holds and it prints the six bytes and a
    newline.  If the client's whole [main] (connect, write, close) has run
    before the server reaches [pipe_accept], the call returns [PIPE_NULL]
    and the assertion of line 210 fails, with the six bytes lying unread in
    the pipe. *)
Theorem named_pipe_main_win_accept_needs_live_client :
  ∀ decode w,
    0 ∉ decode "\\.\pipe\cpspg.pipe" →
    (length (decode "\\.\pipe\cpspg.pipe") < 1000)%nat →
    NamedWin.inject w = [] →
    NamedWin.names w !! decode "\\.\pipe\cpspg.pipe" = None →
    (∃ w', PipeNamedMainWin.main decode w (Some "server") (win_client_writes decode)
           = Ret (w', Returns, hello ++ [x0a])) ∧
    (∃ w' i k,
       PipeNamedMainWin.main decode w (Some "server") (win_client_run decode)
       = Ret (w', AssertionFailed 210, []) ∧
       NamedWin.handles w' !! alloc 4 (NamedWin.handles w) = Some (NamedWin.HServer i) ∧
       NamedWin.insts w' !! i = Some k ∧ NamedWin.c2s k = hello).
Proof.
  intros decode w Hnul Hlen Hinj Hname.
  destruct (named_win_create_ok decode w _ Hnul Hlen Hinj Hname)
    as (w1 & i & Hcreate & Hh1 & Hn1 & Hi & Hi1 & Hinj1).
  pose proof (alloc_ge 4 (NamedWin.handles w)) as Hge.
  set (p := alloc 4 (NamedWin.handles w)) in *.
  assert (NamedWin.names w1 !! decode "\\.\pipe\cpspg.pipe" = Some i) as Hname1
    by (by rewrite Hn1, lookup_insert_eq).
  assert (NamedWin.insts w1 !! i
          = Some (NamedWin.Inst (decode "\\.\pipe\cpspg.pipe") NamedWin.NoClient [] [] true))
    as Hinst1 by (by rewrite Hi1, lookup_insert_eq).
  destruct (named_win_client_writes decode w1 i Hnul Hlen Hinj1 Hname1 Hinst1)
    as (Hconn & Hwrite & Hh2 & Hi2 & Hinj2).
  pose proof (alloc_fresh 4 (NamedWin.handles w1)) as Hfresh.
  set (c := alloc 4 (NamedWin.handles w1)) in *.
  assert (c ≠ p) as Hcp.
  { intros Heq. rewrite Heq, Hh1, lookup_insert_eq in Hfresh. done. }
  split.
  - unfold PipeNamedMainWin.main. rewrite decide_True by done.
    rewrite Hcreate.
    rewrite decide_False by (unfold NamedWin.PIPE_NULL, NamedWin.INVALID_HANDLE_VALUE; lia).
    set (w2 := win_client_writes decode w1) in *.
    rewrite (named_win_accept_attached w2 p i
               (NamedWin.Inst (decode "\\.\pipe\cpspg.pipe") NamedWin.Attached hello [] true));
      [|by rewrite Hh2, lookup_insert_ne, Hh1, lookup_insert_eq
       |by rewrite Hi2, lookup_insert_eq|done].
    cbn [mbind result_bind].
    rewrite decide_False by (unfold NamedWin.PIPE_NULL, NamedWin.INVALID_HANDLE_VALUE; lia).
    rewrite (named_win_server_read _ p i
               (NamedWin.Inst (decode "\\.\pipe\cpspg.pipe") NamedWin.Attached hello [] true)
               x68 [x65; x6c; x6c; x6f; x21]);
      [|lia|simpl; by rewrite Hh2, lookup_insert_ne, Hh1, lookup_insert_eq
       |simpl; by rewrite Hi2, lookup_insert_eq|done].
    cbn [mbind result_bind]. rewrite decide_False by (vm_compute; discriminate).
    eexists. reflexivity.
  - unfold PipeNamedMainWin.main. rewrite decide_True by done.
    rewrite Hcreate.
    rewrite decide_False by (unfold NamedWin.PIPE_NULL, NamedWin.INVALID_HANDLE_VALUE; lia).
    assert (win_client_run decode w1
            = NamedWin.pipe_close (win_client_writes decode w1) c) as Hrun.
    { unfold win_client_run, PipeNamedMainWin.main. rewrite decide_False by done.
      rewrite Hconn. fold c.
      rewrite decide_False
        by (pose proof (alloc_ge 4 (NamedWin.handles w1));
            unfold NamedWin.PIPE_NULL, NamedWin.INVALID_HANDLE_VALUE; lia).
      rewrite Hwrite. by rewrite decide_False by lia. }
    rewrite Hrun.
    rewrite (named_win_client_close _ c i) by (by rewrite Hh2, lookup_insert_eq).
    set (w3 := NamedWin.set_insts _ _).
    assert (NamedWin.handles w3 !! p = Some (NamedWin.HServer i)) as Hp3.
    { unfold w3. simpl. rewrite Hh2, delete_insert_eq, lookup_delete_ne by done.
      by rewrite Hh1, lookup_insert_eq. }
    assert (NamedWin.insts w3 !! i
            = Some (NamedWin.Inst (decode "\\.\pipe\cpspg.pipe") NamedWin.Gone hello [] true))
      as Hi3.
    { unfold w3. simpl. by rewrite lookup_alter_eq, Hi2, lookup_insert_eq. }
    rewrite (named_win_accept_gone w3 p i _ Hp3 Hi3 eq_refl).
    cbn [mbind result_bind]. rewrite decide_True by done.
    eexists _, i, _. split; [reflexivity|]. by split_and!.
Qed.

Lemma named_pipe_main_win_accept_needs_live_client_witness :
  (∃ w', PipeNamedMainWin.main ascii_units named_win_empty (Some "server")
           (win_client_writes ascii_units)
         = Ret (w', Returns, hello ++ [x0a])) ∧
  (∃ w' i k,
     PipeNamedMainWin.main ascii_units named_win_empty (Some "server")
       (win_client_run ascii_units)
     = Ret (w', AssertionFailed 210, []) ∧
     NamedWin.handles w' !! alloc 4 (NamedWin.handles named_win_empty)
     = Some (NamedWin.HServer i) ∧
     NamedWin.insts w' !! i = Some k ∧ NamedWin.c2s k = hello).
Proof.
  apply (named_pipe_main_win_accept_needs_live_client ascii_units named_win_empty).
  - apply (bool_decide_eq_true_1 _). vm_compute. reflexivity.
  - vm_compute. lia.
  - reflexivity.
  - vm_compute. reflexivity.
Defined.


(** ** pipe-named.c: names, second clients, disconnection *)





(** X12.  A second client.  UNIX: a client connects and the server
    accepts it; while that connection is in use a second client connects
    and the server accepts it too: each [pipe_accept] returns a new
    descriptor on the connection of the client that connected, and the
    first connection stays open at both ends.  Windows: the pipe has the
    one instance that [pipe_create_named] made, so while a client is
    attached a second [pipe_connect] fails with [PIPE_NULL]. *)
Theorem named_pipe_second_client :
  (∀ size w name l,
     NamedUnix.inject w = [] → NamedUnix.paths w !! name = Some (Some l) →
     NamedUnix.queues w !! l = Some [] →
     Z.of_nat (String.length name) + 1 ≤ size →
     ∀ p, NamedUnix.fds w !! p = Some (NamedUnix.SockListen l) →
     ∃ w1 c1 k1 w2 a1 w3 c2 k2 w4 a2,
       NamedUnix.pipe_connect size w name = (w1, c1) ∧
       NamedUnix.fds w1 !! c1 = Some (NamedUnix.SockConn k1 false) ∧
       NamedUnix.pipe_accept w1 p = Ret (w2, a1) ∧
       NamedUnix.fds w2 !! a1 = Some (NamedUnix.SockConn k1 true) ∧
       NamedUnix.pipe_connect size w2 name = (w3, c2) ∧
       NamedUnix.fds w3 !! c2 = Some (NamedUnix.SockConn k2 false) ∧
       NamedUnix.pipe_accept w3 p = Ret (w4, a2) ∧
       NamedUnix.fds w4 !! a2 = Some (NamedUnix.SockConn k2 true) ∧
       k1 ≠ k2 ∧ a1 ≠ a2 ∧
       NamedUnix.fds w4 !! c1 = Some (NamedUnix.SockConn k1 false) ∧
       NamedUnix.fds w4 !! a1 = Some (NamedUnix.SockConn k1 true) ∧
       NamedUnix.conns w4 !! k1 = Some (NamedUnix.Conn [] [] true true)) ∧
  (∀ decode w name i k,
     0 ∉ decode name → (length (decode name) < 1000)%nat →
     NamedWin.inject w = [] → NamedWin.names w !! decode name = Some i →
     NamedWin.insts w !! i = Some k → NamedWin.client k = NamedWin.NoClient →
     ∃ w1 c1,
       NamedWin.pipe_connect decode w name = (w1, c1) ∧ c1 ≠ NamedWin.PIPE_NULL ∧
       ∃ w2, NamedWin.pipe_connect decode w1 name = (w2, NamedWin.PIPE_NULL) ∧
         NamedWin.handles w2 = NamedWin.handles w1).
Proof.
  split.
  - intros size w name l Hinj Hpath Hq Hlen p Hp.
    destruct (named_unix_connect_ok size w name l [] Hinj Hpath Hq Hlen)
      as (w1 & k1 & Hc1 & Hk1 & Hfds1 & Hpaths1 & Hqs1 & Hconns1 & Hinj1).
    pose proof (alloc_fresh 0 (NamedUnix.fds w)) as Hf1.
    set (c1 := alloc 0 (NamedUnix.fds w)) in *.
    assert (p ≠ c1) as Hpc1 by (intros ->; congruence).
    assert (NamedUnix.fds w1 !! p = Some (NamedUnix.SockListen l)) as Hp1
      by (by rewrite Hfds1, lookup_insert_ne).
    pose proof (named_unix_accept_ok w1 p l k1 [] Hinj1 Hp1) as Ha1.
    rewrite Hqs1, lookup_insert_eq in Ha1. specialize (Ha1 eq_refl).
    pose proof (alloc_fresh 0 (NamedUnix.fds w1)) as Hf2.
    set (a1 := alloc 0 (NamedUnix.fds w1)) in *.
    set (w2 := NamedUnix.set_queues _ _) in Ha1.
    assert (a1 ≠ c1) as Hac1.
    { intros Heq. rewrite Heq, Hfds1, lookup_insert_eq in Hf2. done. }
    assert (p ≠ a1) as Hpa1 by (intros ->; congruence).
    assert (NamedUnix.fds w2 = <[a1 := NamedUnix.SockConn k1 true]> (NamedUnix.fds w1))
      as Hfds2 by done.
    assert (NamedUnix.queues w2 !! l = Some []) as Hq2
      by (unfold w2; simpl; by rewrite lookup_insert_eq).
    destruct (named_unix_connect_ok size w2 name l [] Hinj1)
      as (w3 & k2 & Hc2 & Hk2 & Hfds3 & Hpaths3 & Hqs3 & Hconns3 & Hinj3);
      [unfold w2; simpl; by rewrite Hpaths1|done|done|].
    pose proof (alloc_fresh 0 (NamedUnix.fds w2)) as Hf3.
    set (c2 := alloc 0 (NamedUnix.fds w2)) in *.
    assert (c2 ≠ a1) as Hc2a1.
    { intros Heq. rewrite Heq, Hfds2, lookup_insert_eq in Hf3. done. }
    assert (c2 ≠ c1) as Hc2c1.
    { intros Heq. rewrite Heq, Hfds2, lookup_insert_ne, Hfds1, lookup_insert_eq in Hf3
        by done. done. }
    assert (p ≠ c2) as Hpc2.
    { intros ->. rewrite Hfds2, lookup_insert_ne, Hp1 in Hf3 by done. done. }
    assert (k1 ≠ k2) as Hk12.
    { intros Heq. rewrite <- Heq in Hk2.
      change (NamedUnix.conns w2) with (NamedUnix.conns w1) in Hk2.
      rewrite Hconns1, lookup_insert_eq in Hk2. done. }
    assert (NamedUnix.fds w3 !! p = Some (NamedUnix.SockListen l)) as Hp3
      by (by rewrite Hfds3, lookup_insert_ne, Hfds2, lookup_insert_ne).
    pose proof (named_unix_accept_ok w3 p l k2 [] Hinj3 Hp3) as Ha2.
    rewrite Hqs3, lookup_insert_eq in Ha2. specialize (Ha2 eq_refl).
    pose proof (alloc_fresh 0 (NamedUnix.fds w3)) as Hf4.
    set (a2 := alloc 0 (NamedUnix.fds w3)) in *.
    assert (a2 ≠ a1) as Ha21.
    { intros Heq. rewrite Heq, Hfds3, lookup_insert_ne, Hfds2, lookup_insert_eq in Hf4
        by done. done. }
    assert (a2 ≠ c1) as Ha2c1.
    { intros Heq.
      rewrite Heq, Hfds3, lookup_insert_ne, Hfds2, lookup_insert_ne, Hfds1,
        lookup_insert_eq in Hf4 by done. done. }
    eexists w1, c1, k1, w2, a1, w3, c2, k2, _, a2.
    split_and!; try done.
    + by rewrite Hfds1, lookup_insert_eq.
    + by rewrite Hfds2, lookup_insert_eq.
    + by rewrite Hfds3, lookup_insert_eq.
    + simpl. by rewrite lookup_insert_eq.
    + simpl. rewrite lookup_insert_ne, Hfds3, lookup_insert_ne, Hfds2, lookup_insert_ne,
        Hfds1, lookup_insert_eq by done. done.
    + simpl. rewrite lookup_insert_ne, Hfds3, lookup_insert_ne, Hfds2, lookup_insert_eq
        by done. done.
    + simpl. rewrite Hconns3, lookup_insert_ne by done.
      change (NamedUnix.conns w2) with (NamedUnix.conns w1).
      by rewrite Hconns1, lookup_insert_eq.
  - intros decode w name i k Hnul Hlen Hinj Hname Hi Hc.
    rewrite (named_win_connect_ok decode w name i k Hnul Hlen Hinj Hname Hi Hc).
    pose proof (alloc_ge 4 (NamedWin.handles w)) as Hge.
    eexists _, _. split; [reflexivity|].
    split; [unfold NamedWin.PIPE_NULL, NamedWin.INVALID_HANDLE_VALUE; lia|].
    unfold NamedWin.pipe_connect.
    destruct (named_win_name decode name Hnul Hlen) as [-> Hw].
    rewrite decide_False by lia. simpl. rewrite Hw.
    unfold NamedWin.sys_CreateFileW, NamedWin.pop_fault. simpl. rewrite Hinj. simpl.
    rewrite Hname. simpl. rewrite lookup_insert_eq. simpl.
    eexists. split; reflexivity.
Qed.

Lemma named_pipe_second_client_witness :
  (∃ w1 c1 k1 w2 a1 w3 c2 k2 w4 a2,
     NamedUnix.pipe_connect 108 named_unix_listening "/tmp/cpspg.pipe" = (w1, c1) ∧
     NamedUnix.fds w1 !! c1 = Some (NamedUnix.SockConn k1 false) ∧
     NamedUnix.pipe_accept w1 0 = Ret (w2, a1) ∧
     NamedUnix.fds w2 !! a1 = Some (NamedUnix.SockConn k1 true) ∧
     NamedUnix.pipe_connect 108 w2 "/tmp/cpspg.pipe" = (w3, c2) ∧
     NamedUnix.fds w3 !! c2 = Some (NamedUnix.SockConn k2 false) ∧
     NamedUnix.pipe_accept w3 0 = Ret (w4, a2) ∧
     NamedUnix.fds w4 !! a2 = Some (NamedUnix.SockConn k2 true) ∧
     k1 ≠ k2 ∧ a1 ≠ a2 ∧
     NamedUnix.fds w4 !! c1 = Some (NamedUnix.SockConn k1 false) ∧
     NamedUnix.fds w4 !! a1 = Some (NamedUnix.SockConn k1 true) ∧
     NamedUnix.conns w4 !! k1 = Some (NamedUnix.Conn [] [] true true)) ∧
  (∃ w1 c1,
     NamedWin.pipe_connect ascii_units named_win_listening "\\.\pipe\cpspg.pipe" = (w1, c1) ∧
     c1 ≠ NamedWin.PIPE_NULL ∧
     ∃ w2, NamedWin.pipe_connect ascii_units w1 "\\.\pipe\cpspg.pipe"
           = (w2, NamedWin.PIPE_NULL) ∧
       NamedWin.handles w2 = NamedWin.handles w1).
Proof.
  split.
  - apply (proj1 named_pipe_second_client 108 named_unix_listening "/tmp/cpspg.pipe" 0%nat).
    + reflexivity.
    + vm_compute. reflexivity.
    + vm_compute. reflexivity.
    + by vm_compute.
    + vm_compute. reflexivity.
  - apply (proj2 named_pipe_second_client ascii_units named_win_listening
             "\\.\pipe\cpspg.pipe" 0%nat
             (NamedWin.Inst (ascii_units "\\.\pipe\cpspg.pipe") NamedWin.NoClient [] [] true)).
    + apply (bool_decide_eq_true_1 _). vm_compute. reflexivity.
    + vm_compute. lia.
    + reflexivity.
    + vm_compute. reflexivity.
    + vm_compute. reflexivity.
    + reflexivity.
Defined.

(** X13.  What the client sees after the server has dropped it with
    [pipe_peer_close].  UNIX, when the server had read all the client had
    written: the client still reads what the server had written, then its
    reads return 0 (end of stream).  Windows: [pipe_peer_close]
    disconnects the client, what the server had written and the client had
    not read is discarded, and the client's reads and writes all fail with
    -1, so the client is never told of an end of stream. *)
Theorem named_pipe_peer_close_seen_by_client :
  (∀ w c pc k kk size,
     NamedUnix.fds w !! c = Some (NamedUnix.SockConn k false) →
     NamedUnix.fds w !! pc = Some (NamedUnix.SockConn k true) →
     NamedUnix.conns w !! k = Some kk →
     NamedUnix.c2s kk = [] →
     0 < size →
     let w1 := NamedUnix.pipe_peer_close w pc in
     ∃ w2 w3,
       NamedUnix.pipe_read w1 c size
       = Ret (w2, Z.of_nat (length (take (Z.to_nat size) (NamedUnix.s2c kk))),
              take (Z.to_nat size) (NamedUnix.s2c kk)) ∧
       ((length (NamedUnix.s2c kk) ≤ Z.to_nat size)%nat →
        NamedUnix.pipe_read w2 c size = Ret (w3, 0, []))) ∧
  (∀ w c p i cap data,
     NamedWin.handles w !! c = Some (NamedWin.HClient i) →
     NamedWin.handles w !! p = Some (NamedWin.HServer i) →
     let w1 := NamedWin.pipe_peer_close w p in
     (∃ w2, NamedWin.pipe_read w1 c cap = Ret (w2, -1, [])) ∧
     (∃ w2, NamedWin.pipe_write w1 c data = (w2, -1))).
Proof.
  split.
  - intros w c pc k kk size Hc Hpc Hk _ Hsize w1.
    assert (c ≠ pc) as Hne by (intros ->; congruence).
    assert (NamedUnix.fds w1 !! c = Some (NamedUnix.SockConn k false)) as Hc1.
    { unfold w1, NamedUnix.pipe_peer_close. by rewrite named_close_fds, lookup_delete_ne. }
    assert (NamedUnix.conns w1 !! k = Some (NamedUnix.shut true kk)) as Hk1.
    { unfold w1, NamedUnix.pipe_peer_close, NamedUnix.sys_close. rewrite Hpc. simpl.
      by rewrite lookup_alter_eq, Hk. }
    destruct (NamedUnix.s2c kk) as [|b rest] eqn:Hs.
    + exists w1, w1. rewrite take_nil. simpl.
      assert (NamedUnix.pipe_read w1 c size = Ret (w1, 0, [])) as Hr
        by (by apply (named_unix_read_end w1 c k false (NamedUnix.shut true kk))).
      by rewrite Hr.
    + eexists _, _. split.
      { by apply (named_unix_read_data w1 c k false (NamedUnix.shut true kk) b rest). }
      intros Hall.
      apply (named_unix_read_end _ c k false
               (NamedUnix.set_inbound false [] (NamedUnix.shut true kk))); try done.
      simpl. rewrite lookup_insert_eq. by rewrite drop_ge.
  - intros w c p i cap data Hc Hp w1.
    assert (NamedWin.handles w1 !! c = Some NamedWin.HDetached) as Hc1.
    { unfold w1, NamedWin.pipe_peer_close, NamedWin.sys_DisconnectNamedPipe.
      rewrite Hp. simpl. rewrite lookup_fmap, Hc. simpl. by rewrite decide_True. }
    split.
    + unfold NamedWin.pipe_read, NamedWin.sys_ReadFile. rewrite Hc1. simpl. by eexists.
    + unfold NamedWin.pipe_write, NamedWin.sys_WriteFile. rewrite Hc1. simpl. by eexists.
Qed.

Lemma named_pipe_peer_close_seen_by_client_witness :
  (let w1 := NamedUnix.pipe_peer_close named_unix_served 2 in
   ∃ w2 w3,
     NamedUnix.pipe_read w1 1 100
     = Ret (w2, Z.of_nat (length (take (Z.to_nat 100) (@nil byte))),
            take (Z.to_nat 100) []) ∧
     ((length (@nil byte) ≤ Z.to_nat 100)%nat →
      NamedUnix.pipe_read w2 1 100 = Ret (w3, 0, []))) ∧
  (let w1 := NamedWin.pipe_peer_close named_win_connected 4 in
   (∃ w2, NamedWin.pipe_read w1 5 100 = Ret (w2, -1, [])) ∧
   (∃ w2, NamedWin.pipe_write w1 5 hello = (w2, -1))).
Proof.
  split.
  - apply (proj1 named_pipe_peer_close_seen_by_client named_unix_served 1 2 0%nat
             (NamedUnix.Conn [] [] true true) 100).
    + vm_compute. reflexivity.
    + vm_compute. reflexivity.
    + vm_compute. reflexivity.
    + reflexivity.
    + lia.
  - apply (proj2 named_pipe_peer_close_seen_by_client named_win_connected 5 4 0%nat 100 hello).
    + vm_compute. reflexivity.
    + vm_compute. reflexivity.
Defined.

(** ** semaphore.c: the steps of a user of a semaphore *)

(** *** UNIX *)

Lemma sem_unix_open_new vmax name_ok w n v :
  SemUnix.inject w = [] → name_ok n = true → SemUnix.names w !! n = None → v ≤ vmax →
  SemUnix.cpsem_open vmax name_ok w n SemUnix.CPSEM_CREATE v
  = (SemUnix.set_maps
       <[alloc 4096 (SemUnix.maps w) := SemUnix.Opened (alloc_nat (SemUnix.sems w)) 0]>
       (SemUnix.set_names <[n := alloc_nat (SemUnix.sems w)]>
          (SemUnix.set_sems <[alloc_nat (SemUnix.sems w) := v]> w)),
     alloc 4096 (SemUnix.maps w)).
Proof.
  intros Hinj Hname Hn Hv. unfold SemUnix.cpsem_open, SemUnix.sys_sem_open, SemUnix.pop_fault.
  rewrite Hinj. simpl. rewrite Hname. simpl. rewrite Hn.
  by rewrite decide_False by lia.
Qed.

Lemma sem_unix_open_existing vmax name_ok w n flags v o :
  SemUnix.inject w = [] → name_ok n = true → SemUnix.names w !! n = Some o →
  flags = 0 ∨ flags = SemUnix.CPSEM_CREATE →
  ∃ s k,
    SemUnix.cpsem_open vmax name_ok w n flags v
    = (SemUnix.set_maps <[s := SemUnix.Opened o k]> w, s) ∧
    s ≠ SemUnix.CPSEM_NULL ∧
    (SemUnix.maps w !! s = None ∧ k = 0%nat ∧
     (∀ a m, SemUnix.maps w !! a = Some m → SemUnix.sem_of m = o → a = SemUnix.SEM_FAILED) ∨
     SemUnix.maps w !! s = Some (SemUnix.Opened o (Nat.pred k)) ∧ k ≠ 0%nat).
Proof.
  intros Hinj Hname Hn Hflags. unfold SemUnix.cpsem_open.
  apply (sem_unix_sys_open_existing vmax name_ok w w n); try done.
  - unfold SemUnix.pop_fault. by rewrite Hinj.
  - destruct Hflags as [-> | ->]; [by left|by right].
Qed.


Lemma sem_unix_wait_ok w s o k v :
  SemUnix.maps w !! s = Some (SemUnix.Opened o k) → SemUnix.sems w !! o = Some v → 0 < v →
  SemUnix.cpsem_wait w s = Ret (SemUnix.set_sems <[o := v - 1]> w, 0).
Proof.
  intros Hs Ho Hv. unfold SemUnix.cpsem_wait, SemUnix.sys_sem_wait.
  rewrite Hs. simpl. rewrite Ho. simpl. by rewrite decide_True.
Qed.

Lemma sem_unix_wait_blocks w s o k v :
  SemUnix.maps w !! s = Some (SemUnix.Opened o k) → SemUnix.sems w !! o = Some v → v ≤ 0 →
  SemUnix.cpsem_wait w s = Blocks.
Proof.
  intros Hs Ho Hv. unfold SemUnix.cpsem_wait, SemUnix.sys_sem_wait.
  rewrite Hs. simpl. rewrite Ho. simpl. by rewrite decide_False by lia.
Qed.

Lemma sem_unix_post_ok vmax w s o k v :
  SemUnix.maps w !! s = Some (SemUnix.Opened o k) → SemUnix.sems w !! o = Some v → v < vmax →
  SemUnix.cpsem_post vmax w s = (SemUnix.set_sems <[o := v + 1]> w, 0).
Proof.
  intros Hs Ho Hv. unfold SemUnix.cpsem_post, SemUnix.sys_sem_post.
  rewrite Hs. simpl. rewrite Ho. simpl. by rewrite decide_True.
Qed.

Lemma sem_unix_value w s o k v :
  SemUnix.maps w !! s = Some (SemUnix.Opened o k) → SemUnix.sems w !! o = Some v →
  SemUnix.value_of w s = Some v.
Proof. intros Hs Ho. unfold SemUnix.value_of. rewrite Hs. simpl. exact Ho. Qed.

Lemma sem_unix_value_inv w s v :
  SemUnix.value_of w s = Some v →
  ∃ o k, SemUnix.maps w !! s = Some (SemUnix.Opened o k) ∧ SemUnix.sems w !! o = Some v.
Proof.
  unfold SemUnix.value_of. destruct (SemUnix.maps w !! s) as [[o k]|]; simpl; [|done].
  intros H. by exists o, k.
Qed.

(** *** Windows *)

Lemma sem_win_name decode n :
  (length (decode n) < 1000)%nat →
  MultiByteToWideChar decode n 1000
  = (Z.of_nat (length (decode n)) + 1, Some (decode n ++ [0])) ∧
  wcs (decode n ++ [0]) = Some (wide decode n).
Proof.
  intros Hlen. split; [apply mb2wc_fits; lia|].
  change (decode n ++ [0]) with (decode n ++ 0 :: []).
  by rewrite wcs_terminated.
Qed.

Lemma sem_win_open_new decode w n v :
  (length (decode n) < 1000)%nat → 0 ≤ v ≤ 65535 →
  SemWin.inject w = [] → SemWin.names w !! wide decode n = None →
  SemWin.cpsem_open decode w n SemWin.CPSEM_CREATE v
  = (SemWin.sys_SetLastError
       (SemWin.set_handles <[alloc 4 (SemWin.handles w) := alloc_nat (SemWin.sems w)]>
          (SemWin.set_names <[wide decode n := alloc_nat (SemWin.sems w)]>
             (SemWin.set_sems <[alloc_nat (SemWin.sems w) := SemWin.Sem v 65535]> w))) 0,
     alloc 4 (SemWin.handles w)).
Proof.
  intros Hlen Hv Hinj Hn. unfold SemWin.cpsem_open.
  destruct (sem_win_name decode n Hlen) as [-> Hw].
  rewrite decide_False by lia. simpl. rewrite Hw.
  unfold SemWin.sys_CreateSemaphoreW, SemWin.pop_fault. rewrite Hinj. simpl.
  rewrite to_int_small by lia. rewrite decide_False by lia. by rewrite Hn.
Qed.

Lemma sem_win_open_existing decode w n v o :
  (length (decode n) < 1000)%nat → 0 ≤ v ≤ 65535 →
  SemWin.inject w = [] → SemWin.names w !! wide decode n = Some o →
  SemWin.cpsem_open decode w n SemWin.CPSEM_CREATE v
  = (SemWin.sys_SetLastError
       (SemWin.set_handles <[alloc 4 (SemWin.handles w) := o]> w) SemWin.ERROR_ALREADY_EXISTS,
     alloc 4 (SemWin.handles w)).
Proof.
  intros Hlen Hv Hinj Hn. unfold SemWin.cpsem_open.
  destruct (sem_win_name decode n Hlen) as [-> Hw].
  rewrite decide_False by lia. simpl. rewrite Hw.
  unfold SemWin.sys_CreateSemaphoreW, SemWin.pop_fault. rewrite Hinj. simpl.
  rewrite to_int_small by lia. rewrite decide_False by lia. by rewrite Hn.
Qed.

Lemma sem_win_wait_ok w h o c m :
  SemWin.handles w !! h = Some o → SemWin.sems w !! o = Some (SemWin.Sem c m) → 0 < c →
  SemWin.cpsem_wait w h = Ret (SemWin.set_sems <[o := SemWin.Sem (c - 1) m]> w, 0).
Proof.
  intros Hh Ho Hc. unfold SemWin.cpsem_wait, SemWin.sys_WaitForSingleObject.
  rewrite Hh. simpl. rewrite Ho. simpl. by rewrite decide_True.
Qed.

Lemma sem_win_wait_blocks w h o c m :
  SemWin.handles w !! h = Some o → SemWin.sems w !! o = Some (SemWin.Sem c m) → c ≤ 0 →
  SemWin.cpsem_wait w h = Blocks.
Proof.
  intros Hh Ho Hc. unfold SemWin.cpsem_wait, SemWin.sys_WaitForSingleObject.
  rewrite Hh. simpl. rewrite Ho. simpl. by rewrite decide_False by lia.
Qed.

Lemma sem_win_post_ok w h o c m :
  SemWin.handles w !! h = Some o → SemWin.sems w !! o = Some (SemWin.Sem c m) → c + 1 ≤ m →
  SemWin.cpsem_post w h = (SemWin.set_sems <[o := SemWin.Sem (c + 1) m]> w, 0).
Proof.
  intros Hh Ho Hc. unfold SemWin.cpsem_post, SemWin.sys_ReleaseSemaphore.
  rewrite Hh. simpl. rewrite Ho. simpl. by rewrite decide_True.
Qed.

Lemma sem_win_value w h o c m :
  SemWin.handles w !! h = Some o → SemWin.sems w !! o = Some (SemWin.Sem c m) →
  SemWin.value_of w h = Some c.
Proof. intros Hh Ho. unfold SemWin.value_of. rewrite Hh. simpl. by rewrite Ho. Qed.

(** X14.  [cpsem_wait] and [cpsem_post] on an open semaphore.  With a
    positive counter [cpsem_wait] returns 0 and has taken one from it; a
    following [cpsem_post] returns 0 and the counter is what it was.  With
    the counter at 0 [cpsem_wait] does not return.  At the maximum
    ([SEM_VALUE_MAX]; on Windows the maximum the semaphore was created
    with, 0xffff from [cpsem_open]) [cpsem_post] fails, with -1 on UNIX and
    1 on Windows, and leaves the counter alone. *)
Theorem cpsem_wait_post_counter :
  (∀ vmax w s v,
     SemUnix.value_of w s = Some v → v ≤ vmax →
     (0 < v → ∃ w1 w2,
        SemUnix.cpsem_wait w s = Ret (w1, 0) ∧ SemUnix.value_of w1 s = Some (v - 1) ∧
        SemUnix.cpsem_post vmax w1 s = (w2, 0) ∧ SemUnix.value_of w2 s = Some v) ∧
     (v ≤ 0 → SemUnix.cpsem_wait w s = Blocks) ∧
     (v = vmax → ∃ w1,
        SemUnix.cpsem_post vmax w s = (w1, -1) ∧ SemUnix.value_of w1 s = Some v)) ∧
  (∀ w h o c m,
     SemWin.handles w !! h = Some o → SemWin.sems w !! o = Some (SemWin.Sem c m) → c ≤ m →
     (0 < c → ∃ w1 w2,
        SemWin.cpsem_wait w h = Ret (w1, 0) ∧ SemWin.value_of w1 h = Some (c - 1) ∧
        SemWin.cpsem_post w1 h = (w2, 0) ∧ SemWin.value_of w2 h = Some c) ∧
     (c ≤ 0 → SemWin.cpsem_wait w h = Blocks) ∧
     (c = m → ∃ w1,
        SemWin.cpsem_post w h = (w1, 1) ∧ SemWin.value_of w1 h = Some c)).
Proof.
  split.
  - intros vmax w s v Hval Hmax.
    destruct (sem_unix_value_inv w s v Hval) as (o & k & Hs & Ho). split_and!.
    + intros Hv. eexists _, _. split; [by apply (sem_unix_wait_ok w s o k v)|].
      split; [apply (sem_unix_value _ s o k); simpl; [done|by rewrite lookup_insert_eq]|].
      split.
      * apply (sem_unix_post_ok vmax _ s o k (v - 1)); simpl;
          [done|by rewrite lookup_insert_eq|lia].
      * apply (sem_unix_value _ s o k); simpl; [done|].
        rewrite lookup_insert_eq. f_equal. lia.
    + intros Hv. by apply (sem_unix_wait_blocks w s o k v).
    + intros ->. unfold SemUnix.cpsem_post, SemUnix.sys_sem_post.
      rewrite Hs. simpl. rewrite Ho. simpl. rewrite decide_False by lia.
      eexists. split; [reflexivity|]. by apply (sem_unix_value _ s o k).
  - intros w h o c m Hh Ho Hmax. split_and!.
    + intros Hc. eexists _, _. split; [by apply (sem_win_wait_ok w h o c m)|].
      split; [apply (sem_win_value _ h o (c - 1) m); simpl;
              [done|by rewrite lookup_insert_eq]|].
      split.
      * apply (sem_win_post_ok _ h o (c - 1) m); simpl;
          [done|by rewrite lookup_insert_eq|lia].
      * apply (sem_win_value _ h o c m); simpl; [done|].
        rewrite lookup_insert_eq. do 2 f_equal. lia.
    + intros Hc. by apply (sem_win_wait_blocks w h o c m).
    + intros ->. unfold SemWin.cpsem_post, SemWin.sys_ReleaseSemaphore.
      rewrite Hh. simpl. rewrite Ho. simpl. rewrite decide_False by lia.
      eexists. split; [reflexivity|]. by apply (sem_win_value _ h o m m).
Qed.


Lemma cpsem_wait_post_counter_witness :
  (0 < 1 → ∃ w1 w2,
     SemUnix.cpsem_wait
       (SemUnix.cpsem_open 2147483647 linux_sem_name sem_unix_empty "/cpspg.sem"
          SemUnix.CPSEM_CREATE 1).1 4096 = Ret (w1, 0) ∧
     SemUnix.value_of w1 4096 = Some (1 - 1) ∧
     SemUnix.cpsem_post 2147483647 w1 4096 = (w2, 0) ∧ SemUnix.value_of w2 4096 = Some 1) ∧
  (1 ≤ 0 →
   SemUnix.cpsem_wait
     (SemUnix.cpsem_open 2147483647 linux_sem_name sem_unix_empty "/cpspg.sem"
        SemUnix.CPSEM_CREATE 1).1 4096 = Blocks) ∧
  (1 = 2147483647 → ∃ w1,
     SemUnix.cpsem_post 2147483647
       (SemUnix.cpsem_open 2147483647 linux_sem_name sem_unix_empty "/cpspg.sem"
          SemUnix.CPSEM_CREATE 1).1 4096 = (w1, -1) ∧
     SemUnix.value_of w1 4096 = Some 1).
Proof.
  apply (proj1 cpsem_wait_post_counter 2147483647
           (SemUnix.cpsem_open 2147483647 linux_sem_name sem_unix_empty "/cpspg.sem"
              SemUnix.CPSEM_CREATE 1).1 4096 1).
  - vm_compute. reflexivity.
  - lia.
Defined.








(** ** signal-cpu-exception.c: what [sig_subscribe] arms *)

Lemma to_int_signal s : 0 ≤ s < 2 ^ 32 → 1 ≤ to_int s ≤ 64 → to_int s = s.
Proof.
  unfold to_int. intros Hs Hr. destruct (decide (s < 2 ^ 31)) as [Hlt|Hge].
  - rewrite Z.mod_small by lia. lia.
  - exfalso. assert ((s + 2 ^ 31) mod 2 ^ 32 = s - 2 ^ 31) as Heq.
    { replace (s + 2 ^ 31) with (s - 2 ^ 31 + 1 * 2 ^ 32) by lia.
      rewrite Z.mod_add by lia. apply Z.mod_small. lia. }
    lia.
Qed.

Lemma unix_sigaction_cases w n fl :
  (catchable n ∧ SigUnix.sys_sigaction w n fl = (SigUnix.set_actions <[n := fl]> w, 0)) ∨
  (¬ catchable n ∧
   SigUnix.sys_sigaction w n fl = (SigUnix.set_errno SigUnix.EINVAL w, -1)).
Proof.
  unfold SigUnix.sys_sigaction, catchable. case_decide; [by left|by right].
Qed.

Lemma unix_subscribe_stack_absent sigs w :
  SigUnix.CPSIG_STACK ∉ sigs → SigUnix.subscribe_stack w sigs = (w, None, false).
Proof.
  induction sigs as [|s sigs IH]; intros Hno; simpl; [done|].
  apply not_elem_of_cons in Hno as [Hs Hno]. rewrite decide_False by done. by apply IH.
Qed.

Lemma unix_subscribe_stack_present sigs w :
  SigUnix.CPSIG_STACK ∈ sigs →
  SigUnix.subscribe_stack w sigs = SigUnix.subscribe_stack w [SigUnix.CPSIG_STACK].
Proof.
  induction sigs as [|s sigs IH]; intros Hin; [by apply elem_of_nil in Hin|].
  simpl. destruct (decide (s = SigUnix.CPSIG_STACK)) as [->|Hs].
  - by rewrite ?decide_True by done.
  - apply elem_of_cons in Hin as [?|Hin]; [done|].
    rewrite IH by done. simpl. by rewrite ?decide_True by done.
Qed.

(** The set-up of the alternate stack, run once: it fails before anything
    is installed, or installs the handler of [SIGSEGV] on the new stack. *)
Lemma unix_subscribe_stack_once w :
  let '(w1, ret, have) := SigUnix.subscribe_stack w [SigUnix.CPSIG_STACK] in
  SigUnix._sig_userhandler w1 = SigUnix._sig_userhandler w ∧
  SigUnix.alive w1 = SigUnix.alive w ∧
  ((ret = Some (-1) ∧ have = false ∧ SigUnix.actions w1 = SigUnix.actions w ∧
    SigUnix.altstack w1 = SigUnix.altstack w ∧
    ∃ e, e ≠ 0 ∧ (head (SigUnix.inject w) = Some e ∨
                  ∃ rest, SigUnix.inject w = 0 :: e :: rest)) ∨
   (ret = None ∧ have = true ∧
    SigUnix.actions w1 = <[SigUnix.SIGSEGV := sa_onstack]> (SigUnix.actions w) ∧
    is_Some (SigUnix.altstack w1))).
Proof.
  simpl. rewrite ?decide_True by done.
  unfold SigUnix.sys_malloc, SigUnix.pop_fault.
  destruct (SigUnix.inject w) as [|e rest] eqn:Hinj; simpl.
  - unfold SigUnix.sys_sigaltstack, SigUnix.pop_fault. simpl. rewrite Hinj. simpl.
    split_and!; try done. right. split_and!; try done; by eexists.
  - destruct (decide (e ≠ 0)) as [He|He]; simpl.
    + split_and!; try done. left. split_and!; try done. exists e. split; [done|by left].
    + assert (e = 0) as -> by (destruct (decide (e = 0)); [done|by destruct He]).
      unfold SigUnix.sys_sigaltstack, SigUnix.pop_fault. simpl.
      destruct rest as [|e' rest']; simpl.
      * split_and!; try done. right. split_and!; try done; by eexists.
      * destruct (decide (e' ≠ 0)) as [He'|He']; simpl.
        -- split_and!; try done. left. split_and!; try done.
           exists e'. split; [done|]. right. by exists rest'.
        -- split_and!; try done. right. split_and!; try done; by eexists.
Qed.

(** The second loop, when it runs to its end. *)
Lemma unix_subscribe_rest_ok have sigs : ∀ w w',
  uints sigs →
  SigUnix.subscribe_rest w have sigs = (w', 0) →
  SigUnix.altstack w' = SigUnix.altstack w ∧ SigUnix.alive w' = SigUnix.alive w ∧
  (∀ s, s ∈ sigs → s ≠ SigUnix.CPSIG_STACK → ¬ (s = SigUnix.SIGSEGV ∧ have = true) →
     SigUnix.actions w' !! s = Some sa_plain ∧ catchable s) ∧
  (∀ n, (∀ s, s ∈ sigs →
           s = SigUnix.CPSIG_STACK ∨ (s = SigUnix.SIGSEGV ∧ have = true) ∨ s ≠ n) →
     SigUnix.actions w' !! n = SigUnix.actions w !! n).
Proof.
  induction sigs as [|s sigs IH]; intros w w' Hu H; simpl in H.
  - injection H as <-. split_and!; try done. intros s Hs. by apply elem_of_nil in Hs.
  - apply Forall_cons in Hu as [Hs Hu].
    destruct (decide (s = SigUnix.CPSIG_STACK ∨ s = SigUnix.SIGSEGV ∧ have = true))
      as [Hskip|Hskip].
    + destruct (IH w w' Hu H) as (Ha & Hl & Hin & Hfr). split_and!; try done.
      * intros s' Hs' H1 H2. apply elem_of_cons in Hs' as [->|Hs']; [|by apply Hin].
        exfalso. destruct Hskip as [?|?]; done.
      * intros n Hn. apply Hfr. intros s' Hs'. apply Hn. by right.
    + fold sa_plain in H.
      destruct (unix_sigaction_cases w (to_int s) sa_plain) as [[Hc Hact]|[Hc Hact]];
        rewrite Hact in H; [|rewrite decide_True in H by lia; by injection H].
      rewrite decide_False in H by (intros Hx; by apply Hx).
      assert (to_int s = s) as Hts by (apply to_int_signal; [done|apply Hc]).
      rewrite Hts in *.
      destruct (IH _ w' Hu H) as (Ha & Hl & Hin & Hfr). split_and!; try done.
      * intros s' Hs' H1 H2. destruct (decide (s' ∈ sigs)) as [Hin'|Hnot]; [by apply Hin|].
        apply elem_of_cons in Hs' as [->|?]; [|done].
        split; [|done]. rewrite Hfr; [simpl; by rewrite lookup_insert_eq|].
        intros s'' Hs''. right; right. by intros ->.
      * intros n Hn. rewrite Hfr; [|intros s' Hs'; apply Hn; by right].
        simpl. apply lookup_insert_ne.
        destruct (Hn s) as [?|[?|?]]; [by left|..|done]; exfalso; apply Hskip; auto.
Qed.

Lemma unix_subscribe_rest_result have sigs : ∀ w,
  (SigUnix.subscribe_rest w have sigs).2 = 0 ∨ (SigUnix.subscribe_rest w have sigs).2 = -1.
Proof.
  induction sigs as [|s sigs IH]; intros w; simpl; [by left|].
  case_decide; [apply IH|].
  destruct (SigUnix.sys_sigaction w _ _) as [w1 r]. case_decide; [by right|apply IH].
Qed.

(** What a successful [sig_subscribe] has done. *)
Lemma unix_sig_subscribe_ok :
  ∀ w handler sigs w',
    uints sigs →
    SigUnix.sig_subscribe w handler sigs = (w', 0) →
    SigUnix._sig_userhandler w' = handler ∧
    (∀ s, s ∈ sigs → armed w' (SigUnix.signal_of s)) ∧
    (SigUnix.CPSIG_STACK ∈ sigs →
     is_Some (SigUnix.altstack w') ∧
     SigUnix.actions w' !! SigUnix.SIGSEGV = Some sa_onstack) ∧
    (∀ n, n ∉ (SigUnix.signal_of <$> sigs) →
       SigUnix.actions w' !! n = SigUnix.actions w !! n).
Proof.
  intros w handler sigs w' Hu H.
  split; [by rewrite <- (sig_subscribe_userhandler w handler sigs), H|].
  unfold SigUnix.sig_subscribe in H.
  destruct (decide (SigUnix.CPSIG_STACK ∈ sigs)) as [Hin|Hno].
  - rewrite (unix_subscribe_stack_present sigs _ Hin) in H.
    pose proof (unix_subscribe_stack_once (SigUnix.set_userhandler handler w)) as Hst.
    destruct (SigUnix.subscribe_stack _ [SigUnix.CPSIG_STACK]) as [[w1 ret] have].
    destruct Hst as (_ & _ & [(-> & _)|(-> & -> & Hact & Halt)]); [by injection H|].
    destruct (unix_subscribe_rest_ok true sigs w1 w' Hu H) as (Ha & _ & Hl & Hfr).
    assert (SigUnix.actions w' !! SigUnix.SIGSEGV = Some sa_onstack) as Hsegv.
    { rewrite Hfr; [by rewrite Hact, lookup_insert_eq|].
      intros s Hs. destruct (decide (s = SigUnix.SIGSEGV)); auto. }
    split_and!.
    + intros s Hs. unfold SigUnix.signal_of.
      destruct (decide (s = SigUnix.CPSIG_STACK)) as [->|Hs1];
        [by exists sa_onstack|].
      destruct (decide (s = SigUnix.SIGSEGV)) as [->|Hs2]; [by exists sa_onstack|].
      exists sa_plain. split; [|done]. apply Hl; try done. by intros [? _].
    + intros _. by rewrite Ha.
    + intros n Hn. rewrite Hfr.
      * rewrite Hact. simpl. apply lookup_insert_ne. intros <-. apply Hn.
        apply list_elem_of_fmap. exists SigUnix.CPSIG_STACK. done.
      * intros s Hs. destruct (decide (s = SigUnix.CPSIG_STACK)) as [?|Hs1]; [by left|].
        right; right. intros ->. apply Hn. apply list_elem_of_fmap. exists n.
        split; [|done]. unfold SigUnix.signal_of. by rewrite decide_False.
  - rewrite (unix_subscribe_stack_absent sigs _ Hno) in H.
    destruct (unix_subscribe_rest_ok false sigs _ w' Hu H) as (Ha & _ & Hl & Hfr).
    split_and!.
    + intros s Hs. unfold SigUnix.signal_of.
      rewrite decide_False by (by intros ->).
      exists sa_plain. split; [|done]. apply Hl; try done; [by intros ->|by intros [_ ?]].
    + done.
    + intros n Hn. rewrite Hfr; [done|].
      intros s Hs. right; right. intros ->. apply Hn. apply list_elem_of_fmap. exists n.
      split; [|done]. unfold SigUnix.signal_of. rewrite decide_False; [done|].
      by intros ->.
Qed.

(** X18.  What a successful [sig_subscribe] has done (UNIX).  The user's
    handler is recorded; every kind listed in [sigs] is armed, that is, the
    signal that reports it is caught by [_sig_exc_handler] with
    [SA_SIGINFO] and [SA_RESETHAND]; when [CPSIG_STACK] is listed an
    alternate stack is set and [SIGSEGV] is caught on it ([SA_ONSTACK]),
    wherever [CPSIG_SEGV] stands in the list; and the action of every
    signal that reports no listed kind is what it was. *)
Theorem sig_subscribe_arms_the_listed_kinds :
  ∀ w handler sigs w',
    uints sigs →
    SigUnix.sig_subscribe w handler sigs = (w', 0) →
    SigUnix._sig_userhandler w' = handler ∧
    (∀ s, s ∈ sigs → armed w' (SigUnix.signal_of s)) ∧
    (SigUnix.CPSIG_STACK ∈ sigs →
     is_Some (SigUnix.altstack w') ∧
     SigUnix.actions w' !! SigUnix.SIGSEGV = Some sa_onstack) ∧
    (∀ n, n ∉ (SigUnix.signal_of <$> sigs) →
       SigUnix.actions w' !! n = SigUnix.actions w !! n).
Proof. exact unix_sig_subscribe_ok. Qed.

Lemma sig_subscribe_arms_the_listed_kinds_witness :
  SigUnix._sig_userhandler (SigUnix.sig_subscribe sig_unix_fresh 7 main_sigs).1 = 7 ∧
  (∀ s, s ∈ main_sigs →
     armed (SigUnix.sig_subscribe sig_unix_fresh 7 main_sigs).1 (SigUnix.signal_of s)) ∧
  (SigUnix.CPSIG_STACK ∈ main_sigs →
   is_Some (SigUnix.altstack (SigUnix.sig_subscribe sig_unix_fresh 7 main_sigs).1) ∧
   SigUnix.actions (SigUnix.sig_subscribe sig_unix_fresh 7 main_sigs).1 !! SigUnix.SIGSEGV
   = Some sa_onstack) ∧
  (∀ n, n ∉ (SigUnix.signal_of <$> main_sigs) →
     SigUnix.actions (SigUnix.sig_subscribe sig_unix_fresh 7 main_sigs).1 !! n
     = SigUnix.actions sig_unix_fresh !! n).
Proof.
  apply (sig_subscribe_arms_the_listed_kinds sig_unix_fresh 7 main_sigs).
  - repeat (apply Forall_cons; split; [vm_compute; split; [discriminate|reflexivity]|]).
    apply Forall_nil. done.
  - vm_compute. reflexivity.
Defined.

(** X19.  Stack overflows (UNIX).  After a successful [sig_subscribe]
    whose list holds [CPSIG_STACK], a [SIGSEGV] raised with the thread's
    stack used up still reaches the user's handler, once, with the
    signal's number, the faulting address and the code: the handler runs
    on the alternate stack.  After a successful [sig_subscribe] whose list
    holds [CPSIG_SEGV] but not [CPSIG_STACK], the same fault terminates the
    process and the user's handler is not called. *)
Theorem sig_stack_overflow_needs_cpsig_stack :
  ∀ code w handler sigs w' f,
    uints sigs →
    SigUnix.sig_subscribe w handler sigs = (w', 0) →
    SigUnix.alive w = true →
    SigUnix.signo f = SigUnix.SIGSEGV → SigUnix.stack_exhausted f = true →
    (SigUnix.CPSIG_STACK ∈ sigs →
     ∃ w'', SigUnix.deliver code w' f = (w'', [unix_report f])) ∧
    (SigUnix.CPSIG_STACK ∉ sigs → SigUnix.CPSIG_SEGV ∈ sigs →
     SigUnix.deliver code w' f = (SigUnix.set_alive false w', [])).
Proof.
  intros code w handler sigs w' f Hu H Halive Hsig Hex.
  assert (SigUnix.alive w' = true) as Halive'.
  { unfold SigUnix.sig_subscribe in H.
    destruct (decide (SigUnix.CPSIG_STACK ∈ sigs)) as [Hin|Hno].
    - rewrite (unix_subscribe_stack_present sigs _ Hin) in H.
      pose proof (unix_subscribe_stack_once (SigUnix.set_userhandler handler w)) as Hst.
      destruct (SigUnix.subscribe_stack _ [SigUnix.CPSIG_STACK]) as [[w1 ret] have].
      destruct Hst as (_ & Hal & [(-> & _)|(-> & -> & _)]); [by injection H|].
      destruct (unix_subscribe_rest_ok true sigs w1 w' Hu H) as (_ & Hal' & _).
      by rewrite Hal', Hal.
    - rewrite (unix_subscribe_stack_absent sigs _ Hno) in H.
      destruct (unix_subscribe_rest_ok false sigs _ w' Hu H) as (_ & Hal' & _).
      by rewrite Hal'. }
  destruct (unix_sig_subscribe_ok w handler sigs w' Hu H)
    as (_ & Harm & Hstack & _).
  split.
  - intros Hin. destruct (Hstack Hin) as [[sp Hsp] Hact].
    unfold SigUnix.deliver. rewrite Halive'. simpl. rewrite Hsig, Hact, Hex, Hsp. simpl.
    unfold SigUnix._sig_exc_handler, unix_report. rewrite ?Hsig. by eexists.
  - intros Hno Hin.
    assert (SigUnix.actions w' !! SigUnix.SIGSEGV = Some sa_plain) as Hact.
    { unfold SigUnix.sig_subscribe in H.
      rewrite (unix_subscribe_stack_absent sigs _ Hno) in H.
      destruct (unix_subscribe_rest_ok false sigs _ w' Hu H) as (_ & _ & Hl & _).
      apply Hl; [done|done|by intros [_ ?]]. }
    unfold SigUnix.deliver. rewrite Halive'. simpl. rewrite Hsig, Hact, Hex. simpl.
    done.
Qed.


Lemma sig_stack_overflow_needs_cpsig_stack_witness :
  (SigUnix.CPSIG_STACK ∈ main_sigs →
   ∃ w'', SigUnix.deliver unix_reporting_handler
            (SigUnix.sig_subscribe sig_unix_fresh 7 main_sigs).1 stack_overflow_fault
          = (w'', [unix_report stack_overflow_fault])) ∧
  (SigUnix.CPSIG_STACK ∉ main_sigs → SigUnix.CPSIG_SEGV ∈ main_sigs →
   SigUnix.deliver unix_reporting_handler
     (SigUnix.sig_subscribe sig_unix_fresh 7 main_sigs).1 stack_overflow_fault
   = (SigUnix.set_alive false (SigUnix.sig_subscribe sig_unix_fresh 7 main_sigs).1, [])).
Proof.
  apply (sig_stack_overflow_needs_cpsig_stack unix_reporting_handler sig_unix_fresh 7
           main_sigs).
  - repeat (apply Forall_cons; split; [vm_compute; split; [discriminate|reflexivity]|]).
    apply Forall_nil. done.
  - vm_compute. reflexivity.
  - reflexivity.
  - reflexivity.
  - reflexivity.
Defined.

(** The second loop on signals that [sigaction] accepts, followed by one
    that it refuses. *)
Lemma unix_subscribe_rest_refused bad rest good : ∀ w,
  SigUnix.CPSIG_STACK ∉ good → bad ≠ SigUnix.CPSIG_STACK →
  Forall catchable good → ¬ catchable (to_int bad) →
  ∃ w', SigUnix.subscribe_rest w false (good ++ bad :: rest) = (w', -1) ∧
    (∀ s, s ∈ good → SigUnix.actions w' !! s = Some sa_plain) ∧
    (∀ n, SigUnix.actions w !! n = Some sa_plain → SigUnix.actions w' !! n = Some sa_plain).
Proof.
  induction good as [|s good IH]; intros w Hno Hbad Hgood Hrefused; simpl.
  - rewrite decide_False by (intros [?|[_ ?]]; done). fold sa_plain.
    destruct (unix_sigaction_cases w (to_int bad) sa_plain) as [[Hc _]|[_ ->]]; [done|].
    rewrite decide_True by lia. eexists. split; [done|]. split; [|done].
    intros s Hs. by apply elem_of_nil in Hs.
  - apply not_elem_of_cons in Hno as [Hs Hno]. apply Forall_cons in Hgood as [Hc Hgood].
    rewrite decide_False by (intros [?|[_ ?]]; done). fold sa_plain.
    assert (to_int s = s) as -> by (apply to_int_small; destruct Hc as [? _]; lia).
    destruct (unix_sigaction_cases w s sa_plain) as [[_ ->]|[Hn _]]; [|done].
    rewrite decide_False by (intros Hx; by apply Hx).
    destruct (IH (SigUnix.set_actions <[s := sa_plain]> w) Hno Hbad Hgood Hrefused)
      as (w' & -> & Hin & Hkeep).
    exists w'. split; [done|]. split.
    + intros s' Hs'. apply elem_of_cons in Hs' as [->|Hs']; [|by apply Hin].
      apply Hkeep. simpl. by rewrite lookup_insert_eq.
    + intros n Hn. apply Hkeep. simpl.
      destruct (decide (n = s)) as [->|Hne]; [by rewrite lookup_insert_eq|].
      by rewrite lookup_insert_ne.
Qed.

(** X20.  A failing [sig_subscribe] (UNIX) returns -1 after it has
    replaced the user's handler, and what it has installed by then stays
    installed.  If [CPSIG_STACK] is listed and the memory for the alternate
    stack cannot be had, no action and no stack has changed.  If the list
    holds a number that [sigaction] refuses, the kinds listed before it are
    armed all the same. *)
Theorem sig_subscribe_failure_is_partial :
  (∀ w handler sigs e rest,
     SigUnix.CPSIG_STACK ∈ sigs → SigUnix.inject w = e :: rest → e ≠ 0 →
     ∃ w', SigUnix.sig_subscribe w handler sigs = (w', -1) ∧
       SigUnix._sig_userhandler w' = handler ∧
       SigUnix.actions w' = SigUnix.actions w ∧
       SigUnix.altstack w' = SigUnix.altstack w) ∧
  (∀ w handler good bad rest,
     SigUnix.CPSIG_STACK ∉ good ++ bad :: rest →
     Forall catchable good → ¬ catchable (to_int bad) →
     ∃ w', SigUnix.sig_subscribe w handler (good ++ bad :: rest) = (w', -1) ∧
       SigUnix._sig_userhandler w' = handler ∧
       ∀ s, s ∈ good → armed w' s).
Proof.
  split.
  - intros w handler sigs e rest Hin Hinj He.
    pose proof (sig_subscribe_userhandler w handler sigs) as Hh.
    unfold SigUnix.sig_subscribe in *.
    rewrite (unix_subscribe_stack_present sigs _ Hin) in *.
    pose proof (unix_subscribe_stack_once (SigUnix.set_userhandler handler w)) as Hst.
    simpl in *. unfold SigUnix.sys_malloc, SigUnix.pop_fault in *. simpl in *.
    rewrite Hinj in *. simpl in *. rewrite decide_True in * by done. simpl in *.
    eexists. split; [reflexivity|]. by split_and!.
  - intros w handler good bad rest Hno Hgood Hbad.
    pose proof (sig_subscribe_userhandler w handler (good ++ bad :: rest)) as Hh.
    unfold SigUnix.sig_subscribe in *.
    rewrite (unix_subscribe_stack_absent _ _ Hno) in *.
    apply not_elem_of_app in Hno as [Hno1 Hno2].
    apply not_elem_of_cons in Hno2 as [Hb _].
    destruct (unix_subscribe_rest_refused bad rest good
                (SigUnix.set_userhandler handler w) Hno1 (not_eq_sym Hb) Hgood Hbad)
      as (w' & Heq & Hin & _).
    rewrite Heq in *. exists w'. split; [done|]. split; [done|].
    intros s Hs. exists sa_plain. by split; [apply Hin|].
Qed.

Lemma sig_subscribe_failure_is_partial_witness :
  (∃ w', SigUnix.sig_subscribe sig_unix_no_memory 7 main_sigs = (w', -1) ∧
     SigUnix._sig_userhandler w' = 7 ∧
     SigUnix.actions w' = SigUnix.actions sig_unix_no_memory ∧
     SigUnix.altstack w' = SigUnix.altstack sig_unix_no_memory) ∧
  (∃ w', SigUnix.sig_subscribe sig_unix_fresh 7
           ([SigUnix.CPSIG_ILL] ++ SigUnix.SIGCANCEL :: [SigUnix.CPSIG_FPE]) = (w', -1) ∧
     SigUnix._sig_userhandler w' = 7 ∧
     ∀ s, s ∈ [SigUnix.CPSIG_ILL] → armed w' s).
Proof.
  split.
  - apply (proj1 sig_subscribe_failure_is_partial sig_unix_no_memory 7 main_sigs
             SigUnix.ENOMEM []).
    + apply (bool_decide_eq_true_1 _). vm_compute. reflexivity.
    + reflexivity.
    + discriminate.
  - apply (proj2 sig_subscribe_failure_is_partial sig_unix_fresh 7
             [SigUnix.CPSIG_ILL] SigUnix.SIGCANCEL [SigUnix.CPSIG_FPE]).
    + apply (bool_decide_eq_true_1 _). vm_compute. reflexivity.
    + apply Forall_cons. split; [|by apply Forall_nil].
      unfold catchable, SigUnix.CPSIG_ILL, SigUnix.SIGILL, SigUnix.SIGKILL, SigUnix.SIGSTOP,
        SigUnix.SIGCANCEL, SigUnix.SIGSETXID. lia.
    + unfold catchable. intros (_ & _ & _ & Hc & _). by apply Hc.
Defined.





(** ** ps-exec-out.c: the child's output through a pipe *)

Lemma out_pipe_create_ok w r0 w0 :
  (size (OutUnix.fds w) + 2 ≤ OutUnix.nofile w)%nat →
  let i := alloc_nat (OutUnix.pipes w) in
  let r := alloc 0 (OutUnix.fds w) in
  let wr := alloc 0 (<[r := OutUnix.FdRead i]> (OutUnix.fds w)) in
  OutUnix.pipe_create w r0 w0
  = (OutUnix.set_fds <[wr := OutUnix.FdWrite i]>
       (OutUnix.set_fds <[r := OutUnix.FdRead i]> (OutUnix.set_pipes <[i := []]> w)),
     0, r, wr).
Proof.
  intros Hroom. unfold OutUnix.pipe_create, OutUnix.sys_pipe.
  by rewrite decide_True by done.
Qed.

(** [ps_exec_info] as [main] calls it: no redirection of the input, both
    outputs to the descriptor [wr]. *)
Lemma out_ps_exec_info_ok w filename args wr d :
  0 ≤ wr → OutUnix.fds w !! wr = Some d →
  (size (OutUnix.procs w) < OutUnix.nproc w)%nat →
  OutUnix.ps_exec_info w filename (OutUnix.ExecInfo args OutUnix.PIPE_NULL wr wr)
  = (OutUnix.set_procs
       <[alloc 2 (OutUnix.procs w) :=
           if decide (filename ∈ OutUnix.exes w)
           then OutUnix.Running filename args
                  (<[OutUnix.STDERR_FILENO := d]>
                     (<[OutUnix.STDOUT_FILENO := d]> (OutUnix.fds w)))
           else OutUnix.Zombie OutUnix.CLD_EXITED 255]> w,
     alloc 2 (OutUnix.procs w)).
Proof.
  intros Hpos Hwr Hroom. unfold OutUnix.ps_exec_info, OutUnix.sys_vfork.
  rewrite decide_True by done.
  unfold OutUnix.redirect. simpl.
  rewrite !decide_True by lia.
  unfold OutUnix.sys_dup2. rewrite Hwr. simpl.
  assert ((<[OutUnix.STDOUT_FILENO := d]> (OutUnix.fds w)) !! wr = Some d) as ->.
  { destruct (decide (wr = OutUnix.STDOUT_FILENO)) as [->|?];
      [by rewrite lookup_insert_eq|by rewrite lookup_insert_ne]. }
  simpl. unfold OutUnix.sys_execve. simpl.
  by destruct (decide (filename ∈ OutUnix.exes w)).
Qed.

(** X22.  [ps_exec_info] with both outputs sent to an open descriptor
    [wr] and the input left alone, as [main] calls it.  If the caller may
    have one more child, a child is returned (never [_PS_NULL]) and nothing
    of the caller's own descriptors changes: the redirections are made in
    the child.  If the program can be executed the child runs it with its
    standard output and standard error open on what [wr] is open on, and
    every other descriptor, the standard input and both ends of the pipe
    among them, inherited as it was.  If it cannot, the child has
    terminated with status 255. *)
Theorem ps_exec_info_redirects_the_child_only :
  ∀ w filename args wr d,
    0 ≤ wr → OutUnix.fds w !! wr = Some d →
    (size (OutUnix.procs w) < OutUnix.nproc w)%nat →
    ∃ w' p,
      OutUnix.ps_exec_info w filename (OutUnix.ExecInfo args OutUnix.PIPE_NULL wr wr)
      = (w', p) ∧
      p ≠ OutUnix._PS_NULL ∧ OutUnix.procs w !! p = None ∧
      OutUnix.fds w' = OutUnix.fds w ∧ OutUnix.pipes w' = OutUnix.pipes w ∧
      OutUnix.files w' = OutUnix.files w ∧
      (filename ∈ OutUnix.exes w →
       ∃ t, OutUnix.procs w' !! p = Some (OutUnix.Running filename args t) ∧
         t !! OutUnix.STDOUT_FILENO = Some d ∧ t !! OutUnix.STDERR_FILENO = Some d ∧
         ∀ fd, fd ≠ OutUnix.STDOUT_FILENO → fd ≠ OutUnix.STDERR_FILENO →
           t !! fd = OutUnix.fds w !! fd) ∧
      (filename ∉ OutUnix.exes w →
       OutUnix.procs w' !! p = Some (OutUnix.Zombie OutUnix.CLD_EXITED 255)).
Proof.
  intros w filename args wr d Hpos Hwr Hroom.
  rewrite (out_ps_exec_info_ok w filename args wr d Hpos Hwr Hroom).
  pose proof (alloc_ge 2 (OutUnix.procs w)) as Hge.
  eexists _, _. split; [reflexivity|].
  split; [unfold OutUnix._PS_NULL; lia|]. split; [apply alloc_fresh|].
  simpl. split_and!; try done.
  - intros Hin. rewrite decide_True by done. eexists. rewrite lookup_insert_eq.
    split; [done|]. split_and!.
    + by rewrite lookup_insert_ne, lookup_insert_eq.
    + by rewrite lookup_insert_eq.
    + intros fd H1 H2. by rewrite !lookup_insert_ne.
  - intros Hno. rewrite decide_False by done. by rewrite lookup_insert_eq.
Qed.

Lemma ps_exec_info_redirects_the_child_only_witness :
  ∃ w' p t,
    OutUnix.ps_exec_info out_unix_world "std-echo"
      (OutUnix.ExecInfo ["std-echo"] OutUnix.PIPE_NULL 1 1) = (w', p) ∧
    p ≠ OutUnix._PS_NULL ∧ OutUnix.fds w' = OutUnix.fds out_unix_world ∧
    OutUnix.procs w' !! p = Some (OutUnix.Running "std-echo" ["std-echo"] t) ∧
    t !! OutUnix.STDERR_FILENO = Some (OutUnix.FdFile 0).
Proof.
  destruct (ps_exec_info_redirects_the_child_only out_unix_world "std-echo" ["std-echo"]
              1 (OutUnix.FdFile 0)) as (w' & p & He & Hp & _ & Hfds & _ & _ & Hrun & _).
  - lia.
  - vm_compute. reflexivity.
  - vm_compute. lia.
  - destruct Hrun as (t & Ht & _ & Herr & _).
    + apply (bool_decide_eq_true_1 _). vm_compute. reflexivity.
    + by exists w', p, t.
Defined.

Lemma out_child_run_zombie pid acts : ∀ w c st,
  OutUnix.procs w !! pid = Some (OutUnix.Zombie c st) → OutUnix.child_run pid w acts = w.
Proof.
  induction acts as [|a acts IH]; intros w c st Hz; [done|].
  unfold OutUnix.child_run in *. simpl.
  assert (OutUnix.child_step pid w a = w) as ->
    by (unfold OutUnix.child_step; by rewrite Hz).
  by apply (IH w c st).
Qed.

Lemma out_child_run_silent pid acts : ∀ w,
  silent acts →
  OutUnix.fds (OutUnix.child_run pid w acts) = OutUnix.fds w ∧
  OutUnix.pipes (OutUnix.child_run pid w acts) = OutUnix.pipes w ∧
  OutUnix.files (OutUnix.child_run pid w acts) = OutUnix.files w ∧
  (is_Some (OutUnix.procs w !! pid) →
   is_Some (OutUnix.procs (OutUnix.child_run pid w acts) !! pid)).
Proof.
  induction acts as [|a acts IH]; intros w Hs; [done|].
  apply Forall_cons in Hs as [[status ->] Hs].
  unfold OutUnix.child_run in *. simpl.
  destruct (IH (OutUnix.child_step pid w (OutUnix.ChildExits status)) Hs)
    as (Hf & Hp & Hfi & Hpr).
  rewrite Hf, Hp, Hfi. unfold OutUnix.child_step in *.
  destruct (OutUnix.procs w !! pid) as [[image args t|c st]|] eqn:Hpid; simpl;
    split_and!; try done.
  - intros _. apply Hpr. simpl. by rewrite lookup_insert_eq.
  - intros _. apply Hpr. by rewrite Hpid.
Qed.

Lemma out_pipe_read_data w r i b rest size :
  OutUnix.fds w !! r = Some (OutUnix.FdRead i) →
  OutUnix.pipes w !! i = Some (b :: rest) →
  OutUnix.pipe_read w r size
  = Ret (OutUnix.set_pipes <[i := drop (Z.to_nat size) (b :: rest)]> w,
         Z.of_nat (length (take (Z.to_nat size) (b :: rest))),
         take (Z.to_nat size) (b :: rest)).
Proof.
  intros Hr Hi. unfold OutUnix.pipe_read, OutUnix.sys_read. by rewrite Hr, Hi.
Qed.

Lemma out_stdout_write_file w f data :
  OutUnix.fds w !! OutUnix.STDOUT_FILENO = Some (OutUnix.FdFile f) →
  OutUnix.stdout_write w data
  = Ret (OutUnix.set_files <[f := default [] (OutUnix.files w !! f) ++ data]> w,
         Z.of_nat (length data)).
Proof.
  intros Hf. unfold OutUnix.stdout_write, OutUnix.sys_write.
  change 1 with OutUnix.STDOUT_FILENO. by rewrite Hf.
Qed.

Lemma out_pipe_close_frame w p :
  OutUnix.fds (OutUnix.pipe_close w p) = delete p (OutUnix.fds w) ∧
  OutUnix.files (OutUnix.pipe_close w p) = OutUnix.files w ∧
  OutUnix.procs (OutUnix.pipe_close w p) = OutUnix.procs w.
Proof.
  unfold OutUnix.pipe_close, OutUnix.sys_close.
  destruct (OutUnix.fds w !! p) eqn:Hp; simpl; [done|]. by rewrite delete_id.
Qed.

(** The state of [main] when it reaches [pipe_read]: a pipe [i] behind
    two new descriptors, and a child. *)
Lemma out_main_start w r0 w0 :
  (size (OutUnix.fds w) + 2 ≤ OutUnix.nofile w)%nat →
  (size (OutUnix.procs w) < OutUnix.nproc w)%nat →
  ∃ w2 i r wr p,
    r ≠ wr ∧ OutUnix.fds w !! r = None ∧ OutUnix.fds w !! wr = None ∧
    OutUnix.procs w !! p = None ∧
    OutUnix.fds w2
    = <[wr := OutUnix.FdWrite i]> (<[r := OutUnix.FdRead i]> (OutUnix.fds w)) ∧
    OutUnix.pipes w2 !! i = Some [] ∧
    OutUnix.files w2 = OutUnix.files w ∧
    OutUnix.pipe_cap w2 = OutUnix.pipe_cap w ∧
    OutUnix.procs w2 !! p
    = Some (if decide ("std-echo" ∈ OutUnix.exes w)
            then OutUnix.Running "std-echo" ["std-echo"]
                   (<[OutUnix.STDERR_FILENO := OutUnix.FdWrite i]>
                      (<[OutUnix.STDOUT_FILENO := OutUnix.FdWrite i]> (OutUnix.fds w2)))
            else OutUnix.Zombie OutUnix.CLD_EXITED 255) ∧
    ∀ acts,
      OutUnix.main w r0 w0 acts
      = '(w, n, buf) ← OutUnix.pipe_read (OutUnix.child_run p w2 acts) r 1000;
        if decide (n < 0) then Ret (w, AssertionFailed 218)
        else
          '(w, _) ← OutUnix.stdout_write w (take (Z.to_nat n) buf);
          Ret (OutUnix.pipe_close (OutUnix.pipe_close (OutUnix.ps_close w p) r) wr, Returns).
Proof.
  intros Hfds Hprocs.
  pose proof (out_pipe_create_ok w r0 w0 Hfds) as Hc. simpl in Hc.
  set (i := alloc_nat (OutUnix.pipes w)) in *.
  pose proof (alloc_fresh 0 (OutUnix.fds w)) as Hr.
  set (r := alloc 0 (OutUnix.fds w)) in *.
  pose proof (alloc_fresh 0 (<[r := OutUnix.FdRead i]> (OutUnix.fds w))) as Hwr.
  pose proof (alloc_ge 0 (<[r := OutUnix.FdRead i]> (OutUnix.fds w))) as Hge.
  set (wr := alloc 0 (<[r := OutUnix.FdRead i]> (OutUnix.fds w))) in *.
  apply lookup_insert_None in Hwr as [Hwr Hne].
  set (w1 := OutUnix.set_fds <[wr := OutUnix.FdWrite i]> _) in Hc.
  assert (OutUnix.fds w1 !! wr = Some (OutUnix.FdWrite i)) as Hwr1
    by (unfold w1; simpl; by rewrite lookup_insert_eq).
  pose proof (out_ps_exec_info_ok w1 "std-echo" ["std-echo"] wr (OutUnix.FdWrite i)
                Hge Hwr1 Hprocs) as He.
  pose proof (alloc_fresh 2 (OutUnix.procs w1)) as Hp.
  pose proof (alloc_ge 2 (OutUnix.procs w1)) as Hpge.
  set (p := alloc 2 (OutUnix.procs w1)) in *.
  set (w2 := OutUnix.set_procs _ w1) in He.
  exists w2, i, r, wr, p. split_and!; try done.
  - unfold w2, w1. simpl. by rewrite lookup_insert_eq.
  - unfold w2. simpl. by rewrite lookup_insert_eq.
  - intros acts. unfold OutUnix.main. rewrite Hc.
    rewrite decide_False by (intros Hx; by apply Hx).
    rewrite He. rewrite decide_False by (unfold OutUnix._PS_NULL; lia). done.
Qed.

(** X23.  [main] of ps-exec-out.c, when std-echo can be executed and the
    child's first output, on its standard output or its standard error, is
    there before it exits: every assertion holds, [main] returns, the
    process's own standard output has received exactly that output, up to
    the 1000 bytes of [buf], and both ends of the pipe are closed again.
    The child is still there when [main] returns: it was not waited
    for. *)
Theorem ps_exec_out_main_relays_the_first_output :
  ∀ w r0 w0 f fd data rest,
    (size (OutUnix.fds w) + 2 ≤ OutUnix.nofile w)%nat →
    (size (OutUnix.procs w) < OutUnix.nproc w)%nat →
    "std-echo" ∈ OutUnix.exes w →
    OutUnix.fds w !! OutUnix.STDOUT_FILENO = Some (OutUnix.FdFile f) →
    fd = OutUnix.STDOUT_FILENO ∨ fd = OutUnix.STDERR_FILENO →
    data ≠ [] → (length data ≤ OutUnix.pipe_cap w)%nat → silent rest →
    ∃ w' p,
      OutUnix.main w r0 w0 (OutUnix.ChildWrites fd data :: rest) = Ret (w', Returns) ∧
      OutUnix.files w' !! f = Some (default [] (OutUnix.files w !! f) ++ take 1000 data) ∧
      OutUnix.fds w' = OutUnix.fds w ∧
      OutUnix.procs w !! p = None ∧ is_Some (OutUnix.procs w' !! p).
Proof.
  intros w r0 w0 f fd data rest Hfds Hprocs Hexe Hout Hfd Hdata Hcap Hrest.
  destruct (out_main_start w r0 w0 Hfds Hprocs)
    as (w2 & i & r & wr & p & Hne & Hr & Hwr & Hp & Hfds2 & Hi & Hfiles2 & Hcap2 & Hchild & Hmain).
  rewrite Hmain. rewrite decide_True in Hchild by done.
  assert (r ≠ OutUnix.STDOUT_FILENO) as Hr1 by (intros ->; congruence).
  assert (wr ≠ OutUnix.STDOUT_FILENO) as Hwr1 by (intros ->; congruence).
  (* the child's write *)
  assert (OutUnix.child_step p w2 (OutUnix.ChildWrites fd data)
          = OutUnix.set_pipes <[i := data]> w2) as Hstep.
  { unfold OutUnix.child_step. rewrite Hchild.
    assert ((<[OutUnix.STDERR_FILENO := OutUnix.FdWrite i]>
               (<[OutUnix.STDOUT_FILENO := OutUnix.FdWrite i]> (OutUnix.fds w2))) !! fd
            = Some (OutUnix.FdWrite i)) as ->.
    { destruct Hfd as [-> | ->];
        [by rewrite lookup_insert_ne, lookup_insert_eq|by rewrite lookup_insert_eq]. }
    rewrite Hi. simpl. rewrite decide_True; [done|].
    split; [|rewrite Hcap2; lia].
    left. exists r, (OutUnix.FdRead i).
    rewrite Hfds2, lookup_insert_ne, lookup_insert_eq by done. done. }
  unfold OutUnix.child_run. simpl. rewrite Hstep.
  fold (OutUnix.child_run p (OutUnix.set_pipes <[i := data]> w2) rest).
  destruct (out_child_run_silent p rest (OutUnix.set_pipes <[i := data]> w2) Hrest)
    as (Hf3 & Hp3 & Hfi3 & Hpr3).
  set (w3 := OutUnix.child_run p _ rest) in *. simpl in Hf3, Hp3, Hfi3, Hpr3.
  (* the parent's read *)
  destruct data as [|b data']; [done|].
  rewrite (out_pipe_read_data w3 r i b data' 1000);
    [|by rewrite Hf3, Hfds2, lookup_insert_ne, lookup_insert_eq
     |by rewrite Hp3, lookup_insert_eq].
  cbn [mbind result_bind]. rewrite decide_False by lia.
  rewrite Nat2Z.id, firstn_all.
  change (Z.to_nat 1000) with 1000%nat.
  set (buf := take 1000 (b :: data')).
  set (w4 := OutUnix.set_pipes _ w3).
  (* the copy to the standard output *)
  rewrite (out_stdout_write_file w4 f buf)
    by (unfold w4; simpl; by rewrite Hf3, Hfds2, !lookup_insert_ne).
  cbn [mbind result_bind]. unfold OutUnix.ps_close.
  set (w5 := OutUnix.set_files _ w4).
  destruct (out_pipe_close_frame w5 r) as (Hf6 & Hfi6 & Hpr6).
  destruct (out_pipe_close_frame (OutUnix.pipe_close w5 r) wr) as (Hf7 & Hfi7 & Hpr7).
  eexists _, p. split; [reflexivity|]. split_and!.
  - rewrite Hfi7, Hfi6. unfold w5, w4. simpl.
    by rewrite lookup_insert_eq, Hfi3, Hfiles2.
  - rewrite Hf7, Hf6. unfold w5, w4. simpl. rewrite Hf3, Hfds2.
    rewrite (delete_insert_ne _ r wr) by done.
    rewrite (delete_insert_id (OutUnix.fds w) r) by done.
    by apply delete_insert_id.
  - done.
  - rewrite Hpr7, Hpr6. unfold w5, w4. simpl. apply Hpr3. by rewrite Hchild.
Qed.

Lemma ps_exec_out_main_relays_the_first_output_witness :
  ∃ w' p,
    OutUnix.main out_unix_world 0 0
      (OutUnix.ChildWrites OutUnix.STDOUT_FILENO hello :: [OutUnix.ChildExits 0])
    = Ret (w', Returns) ∧
    OutUnix.files w' !! 0%nat
    = Some (default [] (OutUnix.files out_unix_world !! 0%nat) ++ take 1000 hello) ∧
    OutUnix.fds w' = OutUnix.fds out_unix_world ∧
    OutUnix.procs out_unix_world !! p = None ∧ is_Some (OutUnix.procs w' !! p).
Proof.
  apply (ps_exec_out_main_relays_the_first_output out_unix_world 0 0 0%nat
           OutUnix.STDOUT_FILENO hello [OutUnix.ChildExits 0]).
  - vm_compute. lia.
  - vm_compute. lia.
  - apply (bool_decide_eq_true_1 _). vm_compute. reflexivity.
  - vm_compute. reflexivity.
  - by left.
  - discriminate.
  - vm_compute. lia.
  - apply Forall_cons. split; [by eexists|]. apply Forall_nil. done.
Defined.

(** X24.  [main] of ps-exec-out.c with a child that writes nothing: if
    std-echo cannot be executed (the child has then terminated by the time
    [ps_exec_info] returns), or if the child only exits, the [pipe_read]
    of [main] never returns.  [main] itself still holds the write end of
    the pipe, so the read can see no end of stream. *)
Theorem ps_exec_out_main_waits_forever_for_a_silent_child :
  ∀ w r0 w0 acts,
    (size (OutUnix.fds w) + 2 ≤ OutUnix.nofile w)%nat →
    (size (OutUnix.procs w) < OutUnix.nproc w)%nat →
    "std-echo" ∉ OutUnix.exes w ∨ silent acts →
    OutUnix.main w r0 w0 acts = Blocks.
Proof.
  intros w r0 w0 acts Hfds Hprocs Hsilent.
  destruct (out_main_start w r0 w0 Hfds Hprocs)
    as (w2 & i & r & wr & p & Hne & Hr & Hwr & Hp & Hfds2 & Hi & Hfiles2 & Hcap2 & Hchild & Hmain).
  rewrite Hmain.
  assert (OutUnix.fds (OutUnix.child_run p w2 acts) = OutUnix.fds w2 ∧
          OutUnix.pipes (OutUnix.child_run p w2 acts) = OutUnix.pipes w2) as [Hf3 Hp3].
  { destruct Hsilent as [Hno|Hs].
    - rewrite decide_False in Hchild by done.
      by rewrite (out_child_run_zombie p acts w2 _ _ Hchild).
    - destruct (out_child_run_silent p acts w2 Hs) as (? & ? & _). done. }
  unfold OutUnix.pipe_read, OutUnix.sys_read.
  rewrite Hf3, Hfds2, lookup_insert_ne, lookup_insert_eq by done.
  rewrite Hp3, Hi. rewrite decide_True; [done|]. split; [|done].
  left. exists wr, (OutUnix.FdWrite i). rewrite Hf3, Hfds2, lookup_insert_eq. done.
Qed.

Lemma ps_exec_out_main_waits_forever_for_a_silent_child_witness :
  OutUnix.main out_unix_world 0 0 [OutUnix.ChildExits 0] = Blocks.
Proof.
  apply (ps_exec_out_main_waits_forever_for_a_silent_child out_unix_world 0 0).
  - vm_compute. lia.
  - vm_compute. lia.
  - right. apply Forall_cons. split; [by eexists|]. apply Forall_nil. done.
Defined.


(** ** semaphore.c: the runs of [main] *)

(** [main] from the moment it holds the semaphore [o] behind [s], with
    the counter at [v]. *)
Lemma sem_unix_main_region vmax (others : SemUnix.world → SemUnix.world) w1 s o k v :
  sem_unix_quiet others →
  SemUnix.maps w1 !! s = Some (SemUnix.Opened o k) → SemUnix.sems w1 !! o = Some v →
  (0 < v → v ≤ vmax →
   ∃ w',
     ('(w, r) ← SemUnix.cpsem_wait w1 s;
      if decide (0 ≠ r) then Ret (w, AssertionFailed 136)
      else
        let w := others w in
        let '(w, r) := SemUnix.cpsem_post vmax w s in
        if decide (0 ≠ r) then Ret (w, AssertionFailed 143)
        else Ret (SemUnix.cpsem_close w s, Returns)) = Ret (w', Returns) ∧
     SemUnix.names w' = SemUnix.names w1 ∧
     SemUnix.sems w' = SemUnix.sems w1 ∧
     SemUnix.maps w' = match k with
                       | O => delete s (SemUnix.maps w1)
                       | S k' => <[s := SemUnix.Opened o k']> (SemUnix.maps w1)
                       end) ∧
  (v ≤ 0 →
   ('(w, r) ← SemUnix.cpsem_wait w1 s;
    if decide (0 ≠ r) then Ret (w, AssertionFailed 136)
    else
      let w := others w in
      let '(w, r) := SemUnix.cpsem_post vmax w s in
      if decide (0 ≠ r) then Ret (w, AssertionFailed 143)
      else Ret (SemUnix.cpsem_close w s, Returns)) = Blocks).
Proof.
  intros Hq Hs Ho. split.
  - intros Hpos Hmax.
    rewrite (sem_unix_wait_ok w1 s o k v Hs Ho Hpos). cbn [mbind result_bind].
    rewrite decide_False by (intros Hx; by apply Hx).
    set (w2 := SemUnix.set_sems _ w1). cbn zeta.
    destruct (Hq w2) as (Hn3 & Hs3 & Hm3).
    set (w3 := others w2) in *.
    assert (SemUnix.maps w3 !! s = Some (SemUnix.Opened o k)) as Hs' by (by rewrite Hm3).
    assert (SemUnix.sems w3 !! o = Some (v - 1)) as Ho'
      by (rewrite Hs3; unfold w2; simpl; by rewrite lookup_insert_eq).
    rewrite (sem_unix_post_ok vmax w3 s o k (v - 1) Hs' Ho') by lia.
    rewrite decide_False by (intros Hx; by apply Hx).
    eexists. split; [reflexivity|].
    unfold SemUnix.cpsem_close, SemUnix.sys_sem_close. simpl. rewrite Hs'.
    assert (<[o := v - 1 + 1]> (SemUnix.sems w3) = SemUnix.sems w1) as Hback.
    { rewrite Hs3. unfold w2. simpl. rewrite insert_insert_eq. apply insert_id.
      rewrite Ho. f_equal. lia. }
    destruct k as [|k']; simpl; rewrite Hn3, Hm3, Hback; unfold w2; simpl; by split_and!.
  - intros Hle. by rewrite (sem_unix_wait_blocks w1 s o k v Hs Ho Hle).
Qed.

Lemma sem_win_main_region (others : SemWin.world → SemWin.world) w1 h o c m :
  sem_win_quiet others →
  SemWin.handles w1 !! h = Some o → SemWin.sems w1 !! o = Some (SemWin.Sem c m) →
  (0 < c → c ≤ m →
   ∃ w3,
     ('(w, r) ← SemWin.cpsem_wait w1 h;
      if decide (0 ≠ r) then Ret (w, AssertionFailed 136)
      else
        let w := others w in
        let '(w, r) := SemWin.cpsem_post w h in
        if decide (0 ≠ r) then Ret (w, AssertionFailed 143)
        else Ret (SemWin.cpsem_close w h, Returns)) = Ret (SemWin.cpsem_close w3 h, Returns) ∧
     SemWin.names w3 = SemWin.names w1 ∧
     SemWin.sems w3 = SemWin.sems w1 ∧
     SemWin.handles w3 = SemWin.handles w1) ∧
  (c ≤ 0 →
   ('(w, r) ← SemWin.cpsem_wait w1 h;
    if decide (0 ≠ r) then Ret (w, AssertionFailed 136)
    else
      let w := others w in
      let '(w, r) := SemWin.cpsem_post w h in
      if decide (0 ≠ r) then Ret (w, AssertionFailed 143)
      else Ret (SemWin.cpsem_close w h, Returns)) = Blocks).
Proof.
  intros Hq Hs Ho. split.
  - intros Hpos Hmax.
    rewrite (sem_win_wait_ok w1 h o c m Hs Ho Hpos). cbn [mbind result_bind].
    rewrite decide_False by (intros Hx; by apply Hx).
    set (w2 := SemWin.set_sems _ w1). cbn zeta.
    destruct (Hq w2) as (Hn3 & Hs3 & Hm3).
    set (w3 := others w2) in *.
    assert (SemWin.handles w3 !! h = Some o) as Hs' by (by rewrite Hm3).
    assert (SemWin.sems w3 !! o = Some (SemWin.Sem (c - 1) m)) as Ho'
      by (rewrite Hs3; unfold w2; simpl; by rewrite lookup_insert_eq).
    rewrite (sem_win_post_ok w3 h o (c - 1) m Hs' Ho') by lia.
    rewrite decide_False by (intros Hx; by apply Hx).
    eexists. split; [reflexivity|]. simpl.
    rewrite Hn3, Hs3, Hm3. unfold w2. simpl. split_and!; try done.
    rewrite insert_insert_eq. apply insert_id. rewrite Ho. do 2 f_equal. lia.
  - intros Hle. by rewrite (sem_win_wait_blocks w1 h o c m Hs Ho Hle).
Qed.

(** X25.  [main] of semaphore.c without arguments, while nobody else
    touches the semaphores.  If the name is free, or if the semaphore
    exists with a positive counter, every assertion holds and [main]
    returns with nothing left open; if the semaphore exists with its
    counter at 0, [main] does not get past [cpsem_wait].  UNIX: [main]
    never removes the semaphore; one it has created is still there, under
    its name, with its counter back at 1, and one it has found has its
    counter back at what it was.  Windows: a semaphore that [main] has
    created is gone when [main] returns, and the name is free again. *)
Theorem semaphore_main_enters_and_leaves :
  (∀ vmax name_ok w others,
     SemUnix.inject w = [] → name_ok "/cpspg.sem" = true → 1 ≤ vmax →
     sem_unix_quiet others →
     (SemUnix.names w !! "/cpspg.sem" = None →
      ∃ w' o,
        SemMainUnix.main vmax name_ok w None others = Ret (w', Returns) ∧
        SemUnix.names w' !! "/cpspg.sem" = Some o ∧ SemUnix.sems w' !! o = Some 1 ∧
        SemUnix.maps w' = SemUnix.maps w) ∧
     (∀ o v,
        SemUnix.names w !! "/cpspg.sem" = Some o → SemUnix.sems w !! o = Some v →
        (0 < v ≤ vmax →
         ∃ w', SemMainUnix.main vmax name_ok w None others = Ret (w', Returns) ∧
           SemUnix.names w' = SemUnix.names w ∧ SemUnix.sems w' = SemUnix.sems w ∧
           SemUnix.maps w' = SemUnix.maps w) ∧
        (v ≤ 0 → SemMainUnix.main vmax name_ok w None others = Blocks))) ∧
  (∀ decode w others,
     (length (decode "/cpspg.sem") < 1000)%nat → SemWin.inject w = [] →
     sem_win_quiet others → sem_win_wf w →
     (SemWin.names w !! wide decode "/cpspg.sem" = None →
      ∃ w',
        SemMainWin.main decode w None others = Ret (w', Returns) ∧
        SemWin.handles w' = SemWin.handles w ∧
        SemWin.names w' !! wide decode "/cpspg.sem" = None) ∧
     (∀ o c m,
        SemWin.names w !! wide decode "/cpspg.sem" = Some o →
        SemWin.sems w !! o = Some (SemWin.Sem c m) →
        (0 < c ≤ m →
         ∃ w', SemMainWin.main decode w None others = Ret (w', Returns) ∧
           SemWin.handles w' = SemWin.handles w) ∧
        (c ≤ 0 → SemMainWin.main decode w None others = Blocks))).
Proof.
  split.
  - intros vmax name_ok w others Hinj Hname Hmax Hq.
    pose proof (alloc_ge 4096 (SemUnix.maps w)) as Hge.
    pose proof (alloc_fresh 4096 (SemUnix.maps w)) as Hfresh.
    split.
    + intros Hn. unfold SemMainUnix.main. rewrite decide_False by done.
      rewrite (sem_unix_open_new vmax name_ok w _ 1 Hinj Hname Hn Hmax).
      rewrite decide_False by (unfold SemUnix.CPSEM_NULL, SemUnix.SEM_FAILED; lia).
      set (s := alloc 4096 (SemUnix.maps w)) in *.
      set (o := alloc_nat (SemUnix.sems w)).
      set (w1 := SemUnix.set_maps _ _).
      destruct (sem_unix_main_region vmax others w1 s o 0 1 Hq) as [Hrun _];
        [unfold w1; simpl; by rewrite lookup_insert_eq
        |unfold w1; simpl; by rewrite lookup_insert_eq|].
      destruct (Hrun ltac:(lia) Hmax) as (w' & Hmain & Hn' & Hs' & Hm').
      exists w', o. split; [exact Hmain|]. rewrite Hn', Hs', Hm'. unfold w1. simpl.
      rewrite !lookup_insert_eq. split_and!; try done. by apply delete_insert_id.
    + intros o v Hn Ho. unfold SemMainUnix.main. rewrite decide_False by done.
      destruct (sem_unix_open_existing vmax name_ok w "/cpspg.sem" SemUnix.CPSEM_CREATE 1 o
                  Hinj Hname Hn (or_intror eq_refl)) as (s & k & -> & Hne & Hold).
      rewrite decide_False by done.
      set (w1 := SemUnix.set_maps _ _).
      destruct (sem_unix_main_region vmax others w1 s o k v Hq) as [Hrun Hblock];
        [unfold w1; simpl; by rewrite lookup_insert_eq|done|].
      split; [|exact Hblock].
      intros [Hpos Hle]. destruct (Hrun Hpos Hle) as (w' & Hmain & Hn' & Hs' & Hm').
      exists w'. split; [exact Hmain|]. rewrite Hn', Hs', Hm'. unfold w1. simpl.
      split_and!; try done.
      destruct Hold as [(Hnone & -> & _)|[Hsome Hk]].
      * by apply delete_insert_id.
      * destruct k as [|k']; [done|]. simpl in Hsome.
        rewrite insert_insert_eq. by apply insert_id.
  - intros decode w others Hlen Hinj Hq Hwf.
    pose proof (alloc_ge 4 (SemWin.handles w)) as Hge.
    pose proof (alloc_fresh 4 (SemWin.handles w)) as Hfresh.
    split.
    + intros Hn. unfold SemMainWin.main. rewrite decide_False by done.
      rewrite (sem_win_open_new decode w _ 1 Hlen ltac:(lia) Hinj Hn).
      rewrite decide_False by (unfold SemWin.CPSEM_NULL, NULL; lia).
      pose proof (alloc_nat_fresh (SemWin.sems w)) as Hofresh.
      set (h := alloc 4 (SemWin.handles w)) in *.
      set (o := alloc_nat (SemWin.sems w)) in *.
      set (w1 := SemWin.sys_SetLastError _ 0).
      destruct (sem_win_main_region others w1 h o 1 65535 Hq) as [Hrun _];
        [unfold w1; simpl; by rewrite lookup_insert_eq
        |unfold w1; simpl; by rewrite lookup_insert_eq|].
      destruct (Hrun ltac:(lia) ltac:(lia)) as (w3 & Hmain & Hn' & Hs' & Hm').
      eexists. split; [exact Hmain|].
      assert (map_Forall (λ _ o', o' ≠ o) (SemWin.handles w)) as Hnone.
      { intros h' o' Hh ->. destruct (Hwf h' o Hh) as [x Hx]. by rewrite Hofresh in Hx. }
      unfold SemWin.cpsem_close, SemWin.sys_CloseHandle.
      rewrite Hm'. unfold w1 at 1. simpl. rewrite lookup_insert_eq. simpl.
      rewrite Hm'. unfold w1 at 1. simpl.
      rewrite delete_insert_id by done.
      rewrite decide_True by done. simpl. rewrite Hm', Hn'. unfold w1. simpl.
      split; [by apply delete_insert_id|].
      apply map_lookup_filter_None. right. intros o' Ho'. simpl.
      rewrite lookup_insert_eq in Ho'. injection Ho' as <-. by intros ?.
    + intros o c m Hn Ho. unfold SemMainWin.main. rewrite decide_False by done.
      rewrite (sem_win_open_existing decode w _ 1 o Hlen ltac:(lia) Hinj Hn).
      rewrite decide_False by (unfold SemWin.CPSEM_NULL, NULL; lia).
      set (h := alloc 4 (SemWin.handles w)) in *.
      set (w1 := SemWin.sys_SetLastError _ _).
      destruct (sem_win_main_region others w1 h o c m Hq) as [Hrun Hblock];
        [unfold w1; simpl; by rewrite lookup_insert_eq|done|].
      split; [|exact Hblock].
      intros [Hpos Hle]. destruct (Hrun Hpos Hle) as (w3 & Hmain & Hn' & Hs' & Hm').
      eexists. split; [exact Hmain|].
      unfold SemWin.cpsem_close, SemWin.sys_CloseHandle.
      rewrite Hm'. unfold w1 at 1. simpl. rewrite lookup_insert_eq. simpl.
      case_decide; simpl; rewrite Hm'; unfold w1; simpl; by apply delete_insert_id.
Qed.

Lemma semaphore_main_enters_and_leaves_witness :
  ∃ w' o,
    SemMainUnix.main 2147483647 linux_sem_name sem_unix_empty None id = Ret (w', Returns) ∧
    SemUnix.names w' !! "/cpspg.sem" = Some o ∧ SemUnix.sems w' !! o = Some 1 ∧
    SemUnix.maps w' = SemUnix.maps sem_unix_empty.
Proof.
  apply (proj1 semaphore_main_enters_and_leaves 2147483647 linux_sem_name sem_unix_empty id).
  - reflexivity.
  - vm_compute. reflexivity.
  - lia.
  - intros w. done.
  - reflexivity.
Defined.

(** X26.  [main] of semaphore.c with the argument "unlink".  UNIX: if
    the semaphore exists the assertion holds and [main] returns with the
    name removed, while the semaphore itself and what the users have open
    stay as they are; so a second run with "unlink", like a run in a system
    without the semaphore, fails the assertion of line 127.  Windows:
    [main] returns and has changed nothing, whether the semaphore exists
    or not. *)
Theorem semaphore_main_unlink :
  (∀ vmax name_ok w others,
     (∀ o, SemUnix.names w !! "/cpspg.sem" = Some o →
        ∃ w' w'',
          SemMainUnix.main vmax name_ok w (Some "unlink") others = Ret (w', Returns) ∧
          SemUnix.names w' = delete "/cpspg.sem" (SemUnix.names w) ∧
          SemUnix.sems w' = SemUnix.sems w ∧ SemUnix.maps w' = SemUnix.maps w ∧
          SemMainUnix.main vmax name_ok w' (Some "unlink") others
          = Ret (w'', AssertionFailed 127) ∧
          SemUnix.errno w'' = SemUnix.ENOENT) ∧
     (SemUnix.names w !! "/cpspg.sem" = None →
      SemMainUnix.main vmax name_ok w (Some "unlink") others
      = Ret (SemUnix.set_errno SemUnix.ENOENT w, AssertionFailed 127))) ∧
  (∀ decode w others,
     SemMainWin.main decode w (Some "unlink") others = Ret (w, Returns)).
Proof.
  assert (∀ vmax name_ok w others,
            SemUnix.names w !! "/cpspg.sem" = None →
            SemMainUnix.main vmax name_ok w (Some "unlink") others
            = Ret (SemUnix.set_errno SemUnix.ENOENT w, AssertionFailed 127)) as Hmissing.
  { intros vmax name_ok w others Hn. unfold SemMainUnix.main.
    rewrite decide_True by done.
    unfold SemUnix.cpsem_unlink, SemUnix.sys_sem_unlink. rewrite Hn.
    by rewrite decide_True by lia. }
  split.
  - intros vmax name_ok w others. split; [|apply Hmissing].
    intros o Hn.
    exists (SemUnix.set_names (delete "/cpspg.sem") w),
           (SemUnix.set_errno SemUnix.ENOENT (SemUnix.set_names (delete "/cpspg.sem") w)).
    split_and!; try done.
    + unfold SemMainUnix.main. rewrite decide_True by done.
      unfold SemUnix.cpsem_unlink, SemUnix.sys_sem_unlink. rewrite Hn.
      by rewrite decide_False by (intros Hx; by apply Hx).
    + apply Hmissing. simpl. by rewrite lookup_delete_eq.
  - intros decode w others. unfold SemMainWin.main. rewrite decide_True by done.
    unfold SemWin.cpsem_unlink. by rewrite decide_False by (intros Hx; by apply Hx).
Qed.

Lemma semaphore_main_unlink_witness :
  ∃ w' w'',
    SemMainUnix.main 2147483647 linux_sem_name sem_unix_after_main (Some "unlink") id
    = Ret (w', Returns) ∧
    SemUnix.names w' = delete "/cpspg.sem" (SemUnix.names sem_unix_after_main) ∧
    SemUnix.sems w' = SemUnix.sems sem_unix_after_main ∧
    SemUnix.maps w' = SemUnix.maps sem_unix_after_main ∧
    SemMainUnix.main 2147483647 linux_sem_name w' (Some "unlink") id
    = Ret (w'', AssertionFailed 127) ∧
    SemUnix.errno w'' = SemUnix.ENOENT.
Proof.
  apply (proj1 (proj1 semaphore_main_unlink 2147483647 linux_sem_name sem_unix_after_main id)
           0%nat).
  vm_compute. reflexivity.
Defined.


(** ** ps-exec-out.c on Windows: the child's output through a pipe *)

Lemma out_win_pipe_create_ok w r0 w0 :
  (size (OutWin.handles w) + 2 ≤ OutWin.quota w)%nat →
  let i := alloc_nat (OutWin.pipes w) in
  let r := alloc 4 (OutWin.handles w) in
  let wr := alloc 4 (<[r := OutWin.Handle (OutWin.HRead i) false]> (OutWin.handles w)) in
  OutWin.pipe_create w r0 w0
  = (OutWin.set_handles <[wr := OutWin.Handle (OutWin.HWrite i) false]>
       (OutWin.set_handles <[r := OutWin.Handle (OutWin.HRead i) false]>
          (OutWin.set_pipes <[i := []]> w)),
     0, r, wr).
Proof.
  intros Hroom. unfold OutWin.pipe_create, OutWin.sys_CreatePipe.
  by rewrite decide_True by done.
Qed.

Lemma out_win_pipe_create_full w r0 w0 :
  ¬ (size (OutWin.handles w) + 2 ≤ OutWin.quota w)%nat →
  OutWin.pipe_create w r0 w0
  = (OutWin.sys_SetLastError w OutWin.ERROR_TOO_MANY_OPEN_FILES, 1, r0, w0).
Proof.
  intros Hroom. unfold OutWin.pipe_create, OutWin.sys_CreatePipe.
  by rewrite decide_False by done.
Qed.

(** The standard handles [ps_exec_info] prepares when both outputs go to
    [wr] and the input is left alone. *)
Lemma out_win_startup_outputs w args wr e :
  wr ≠ OutWin.INVALID_HANDLE_VALUE → OutWin.handles w !! wr = Some e →
  OutWin.startup w (OutWin.ExecInfo args OutWin.PIPE_NULL wr wr)
  = (OutWin.set_handles <[wr := OutWin.Handle (OutWin.obj e) true]>
       (OutWin.set_handles <[wr := OutWin.Handle (OutWin.obj e) true]> w),
     OutWin.StartupInfo OutWin.STARTF_USESTDHANDLES (OutWin.std_in (OutWin.stdh w)) wr wr).
Proof.
  intros Hwr He. unfold OutWin.startup. simpl.
  rewrite decide_True by (right; by left).
  rewrite !decide_True by done.
  unfold OutWin.sys_SetHandleInformation. rewrite He. simpl.
  rewrite lookup_insert_eq. simpl. done.
Qed.

Lemma out_win_spawn_started w app cmdline si :
  out_win_can_start w app →
  let pid := alloc_nat (OutWin.procs w) in
  let child :=
    OutWin.WRunning app cmdline
      (filter (λ kv, OutWin.inheritable kv.2 = true) (OutWin.handles w))
      (if decide (Z.land (OutWin.dwFlags si) OutWin.STARTF_USESTDHANDLES ≠ 0)
       then OutWin.Std (OutWin.hStdInput si) (OutWin.hStdOutput si) (OutWin.hStdError si)
       else OutWin.stdh w) in
  ∃ w1, OutWin.spawn w app cmdline si = (w1, alloc 4 (OutWin.handles w)) ∧
    OutWin.handles w1
    = <[alloc 4 (OutWin.handles w) := OutWin.Handle (OutWin.HProcess pid) false]>
        (OutWin.handles w) ∧
    OutWin.procs w1 = <[pid := child]> (OutWin.procs w) ∧
    OutWin.pipes w1 = OutWin.pipes w ∧ OutWin.devices w1 = OutWin.devices w ∧
    OutWin.stdh w1 = OutWin.stdh w ∧ OutWin.pipe_cap w1 = OutWin.pipe_cap w.
Proof.
  intros [Hinj Hin] pid child.
  unfold OutWin.spawn, OutWin.sys_CreateProcessW.
  destruct (OutWin.inject w) as [|e rest] eqn:Hi; simpl in Hinj;
    [|subst e; rewrite (decide_True (P := 0 = 0)) by done];
    rewrite (decide_True (P := app ∈ _)) by done;
    rewrite (decide_True (P := 1 ≠ 0)) by done;
    cbn zeta; rewrite (decide_False (P := 1 = 0)) by done;
    unfold OutWin.sys_CloseHandle; simpl; rewrite lookup_insert_eq; simpl;
    (eexists; split; [reflexivity|]); simpl; split_and!; try done;
    apply delete_insert_id, alloc_fresh.
Qed.

Lemma out_win_spawn_refused w app cmdline si :
  ¬ out_win_can_start w app →
  ∃ w1, OutWin.spawn w app cmdline si = (w1, OutWin._PS_NULL) ∧
    OutWin.handles w1 = OutWin.handles w ∧ OutWin.procs w1 = OutWin.procs w ∧
    OutWin.pipes w1 = OutWin.pipes w ∧ OutWin.devices w1 = OutWin.devices w.
Proof.
  intros Hno. unfold OutWin.spawn, OutWin.sys_CreateProcessW.
  destruct (OutWin.inject w) as [|e rest] eqn:Hi.
  - destruct (decide (app ∈ OutWin.exes w)) as [Hin|Hnot]; simpl.
    + exfalso. apply Hno. split; [by rewrite Hi|done].
    + by eexists.
  - destruct (decide (e = 0)) as [->|He]; simpl; [|by eexists].
    destruct (decide (app ∈ OutWin.exes w)) as [Hin|Hnot]; simpl.
    + exfalso. apply Hno. split; [by rewrite Hi|done].
    + by eexists.
Qed.

(** [ps_exec_info] on one argument that fits: what [CreateProcessW] is
    called with. *)
Lemma out_win_ps_exec_info_one (decode : string → list Z) junk w filename a i o e :
  length junk = 1000%nat →
  0 ∉ decode a →
  (length (decode a) < 1000)%nat →
  (length (decode filename) < 1000)%nat →
  OutWin.ps_exec_info decode junk w filename (OutWin.ExecInfo [a] i o e)
  = Ret (let '(w1, si) := OutWin.startup w (OutWin.ExecInfo [a] i o e) in
         OutWin.spawn w1 (wide decode filename) (decode a) si).
Proof.
  intros Hjunk Hnul Hfit Hfn.
  unfold OutWin.ps_exec_info. rewrite mb2wc_fits by lia.
  rewrite decide_False by lia.
  destruct (join_args_fits decode junk a [] Hjunk Hfit) as (tail & n & Hj).
  change (OutWin.argv (OutWin.ExecInfo [a] i o e)) with [a]. rewrite Hj.
  cbn [mbind result_bind].
  destruct (OutWin.startup w (OutWin.ExecInfo [a] i o e)) as [w1 si].
  simpl. change (decode filename ++ [0]) with (decode filename ++ 0 :: []).
  rewrite !wcs_terminated. by rewrite (upto0_id (decode a)).
Qed.

(** X27.  [ps_exec_info] on Windows with one argument that fits, both
    outputs sent to an open handle [wr] and the input left alone, as
    [main] calls it.  The redirection is prepared in the caller: [wr] is
    made inheritable in the caller's own handle table and stays so,
    whether or not the process can be started.  If [CreateProcessW] can
    start the program, a process handle is returned (never [_PS_NULL]),
    the thread handle is closed again, and the child runs with [wr] as its
    standard output and standard error, the caller's standard input as its
    standard input, and a handle table made of the caller's inheritable
    handles.  If it cannot, [_PS_NULL] is returned and no process exists. *)
Theorem ps_exec_info_win_makes_the_handle_inheritable :
  ∀ decode junk w filename a wr e,
    length junk = 1000%nat → 0 ∉ decode a →
    (length (decode a) < 1000)%nat → (length (decode filename) < 1000)%nat →
    wr ≠ OutWin.INVALID_HANDLE_VALUE → OutWin.handles w !! wr = Some e →
    let shared := <[wr := OutWin.Handle (OutWin.obj e) true]> (OutWin.handles w) in
    ∃ w' p,
      OutWin.ps_exec_info decode junk w filename (OutWin.ExecInfo [a] OutWin.PIPE_NULL wr wr)
      = Ret (w', p) ∧
      OutWin.pipes w' = OutWin.pipes w ∧ OutWin.devices w' = OutWin.devices w ∧
      if decide (out_win_can_start w (wide decode filename)) then
        p ≠ OutWin._PS_NULL ∧ shared !! p = None ∧
        ∃ pid, OutWin.procs w !! pid = None ∧
          OutWin.handles w' = <[p := OutWin.Handle (OutWin.HProcess pid) false]> shared ∧
          OutWin.procs w'
          = <[pid := OutWin.WRunning (wide decode filename) (decode a)
                       (filter (λ kv, OutWin.inheritable kv.2 = true) shared)
                       (OutWin.Std (OutWin.std_in (OutWin.stdh w)) wr wr)]> (OutWin.procs w)
      else p = OutWin._PS_NULL ∧ OutWin.handles w' = shared ∧
           OutWin.procs w' = OutWin.procs w.
Proof.
  intros decode junk w filename a wr e Hjunk Hnul Hfit Hfn Hwr He shared.
  rewrite out_win_ps_exec_info_one by done.
  rewrite (out_win_startup_outputs w [a] wr e Hwr He).
  set (w1 := OutWin.set_handles _ (OutWin.set_handles _ w)).
  assert (OutWin.handles w1 = shared) as Hh1
    by (unfold w1, shared; simpl; by rewrite insert_insert_eq).
  set (si := OutWin.StartupInfo _ _ _ _).
  destruct (decide (out_win_can_start w (wide decode filename))) as [Hs|Hs].
  - destruct (out_win_spawn_started w1 (wide decode filename) (decode a) si Hs)
      as (w2 & -> & Hh & Hp & Hpi & Hd & _).
    rewrite Hh1 in Hh, Hp. simpl in Hp.
    pose proof (alloc_ge 4 (OutWin.handles w1)) as Hge.
    pose proof (alloc_fresh 4 (OutWin.handles w1)) as Hfresh.
    rewrite Hh1 in Hfresh.
    eexists _, _. split; [reflexivity|]. rewrite Hpi, Hd.
    split; [done|]. split; [done|].
    split; [unfold OutWin._PS_NULL, OutWin.INVALID_HANDLE_VALUE; lia|].
    rewrite Hh1. split; [done|].
    exists (alloc_nat (OutWin.procs w)). split; [apply alloc_nat_fresh|].
    split; [exact Hh|exact Hp].
  - destruct (out_win_spawn_refused w1 (wide decode filename) (decode a) si Hs)
      as (w2 & -> & Hh & Hp & Hpi & Hd).
    eexists _, _. split; [reflexivity|]. rewrite Hpi, Hd, Hh, Hp. done.
Qed.

Lemma ps_exec_info_win_makes_the_handle_inheritable_witness :
  ∃ w' p,
    OutWin.ps_exec_info ascii_units junk1000 out_win_world "std-echo.exe"
      (OutWin.ExecInfo ["std-echo"] OutWin.PIPE_NULL 8 8) = Ret (w', p) ∧
    p ≠ OutWin._PS_NULL.
Proof.
  destruct (ps_exec_info_win_makes_the_handle_inheritable ascii_units junk1000 out_win_world
              "std-echo.exe" "std-echo" 8 (OutWin.Handle (OutWin.HDevice true 0) true))
    as (w' & p & He & _ & _ & Hrest).
  - reflexivity.
  - apply (bool_decide_eq_true_1 _). vm_compute. reflexivity.
  - vm_compute. lia.
  - vm_compute. lia.
  - discriminate.
  - vm_compute. reflexivity.
  - rewrite decide_True in Hrest.
    + exists w', p. split; [exact He|]. apply Hrest.
    + split; [reflexivity|]. apply (bool_decide_eq_true_1 _). vm_compute. reflexivity.
Defined.


Lemma out_win_child_steps_silent pid acts : ∀ w,
  win_silent acts →
  OutWin.handles (foldl (OutWin.child_step pid) w acts) = OutWin.handles w ∧
  OutWin.pipes (foldl (OutWin.child_step pid) w acts) = OutWin.pipes w ∧
  OutWin.devices (foldl (OutWin.child_step pid) w acts) = OutWin.devices w ∧
  OutWin.stdh (foldl (OutWin.child_step pid) w acts) = OutWin.stdh w.
Proof.
  induction acts as [|a acts IH]; intros w Hs; [done|].
  apply Forall_cons in Hs as [[code ->] Hs]. simpl.
  destruct (IH (OutWin.child_step pid w (OutWin.ChildExits code)) Hs)
    as (Hh & Hp & Hd & Hst).
  rewrite Hh, Hp, Hd, Hst. unfold OutWin.child_step.
  by destruct (OutWin.procs w !! pid) as [[image cmdline t std|c]|].
Qed.

(** The state of [main] when it reaches [pipe_read], if the program could
    be started: a pipe [i] behind two new handles, the write end
    inheritable, and a child that has it as its standard output and
    standard error. *)
Lemma out_win_main_start decode decode_bytes junk w r0 w0 :
  length junk = 1000%nat → 0 ∉ decode "std-echo" →
  (length (decode "std-echo") < 1000)%nat → (length (decode "std-echo.exe") < 1000)%nat →
  (size (OutWin.handles w) + 2 ≤ OutWin.quota w)%nat →
  out_win_can_start w (wide decode "std-echo.exe") →
  ∃ w2 i r wr p pid image cmdline t sin,
    r ≠ wr ∧ p ≠ r ∧ p ≠ wr ∧
    OutWin.handles w !! r = None ∧ OutWin.handles w !! wr = None ∧
    OutWin.handles w !! p = None ∧
    OutWin.handles w2
    = <[p := OutWin.Handle (OutWin.HProcess pid) false]>
        (<[wr := OutWin.Handle (OutWin.HWrite i) true]>
           (<[r := OutWin.Handle (OutWin.HRead i) false]> (OutWin.handles w))) ∧
    OutWin.pipes w2 !! i = Some [] ∧
    OutWin.devices w2 = OutWin.devices w ∧ OutWin.stdh w2 = OutWin.stdh w ∧
    OutWin.pipe_cap w2 = OutWin.pipe_cap w ∧
    OutWin.procs w2 !! pid = Some (OutWin.WRunning image cmdline t (OutWin.Std sin wr wr)) ∧
    OutWin.obj <$> t !! wr = Some (OutWin.HWrite i) ∧
    ∀ acts,
      OutWin.main decode decode_bytes junk w r0 w0 acts
      = '(w, n, buf) ← OutWin.pipe_read (OutWin.child_run p w2 acts) r 1000;
        if decide (n < 0) then Ret (w, AssertionFailed 218)
        else
          '(w, _) ← OutWin.stdout_write decode_bytes w (take (Z.to_nat n) buf);
          Ret (OutWin.pipe_close (OutWin.pipe_close (OutWin.ps_close w p) r) wr, Returns).
Proof.
  intros Hjunk Hnul Harg Hfn Hroom Hs.
  pose proof (out_win_pipe_create_ok w r0 w0 Hroom) as Hc. simpl in Hc.
  set (i := alloc_nat (OutWin.pipes w)) in *.
  pose proof (alloc_fresh 4 (OutWin.handles w)) as Hr.
  set (r := alloc 4 (OutWin.handles w)) in *.
  pose proof (alloc_fresh 4 (<[r := OutWin.Handle (OutWin.HRead i) false]> (OutWin.handles w)))
    as Hwr.
  pose proof (alloc_ge 4 (<[r := OutWin.Handle (OutWin.HRead i) false]> (OutWin.handles w)))
    as Hge.
  set (wr := alloc 4 (<[r := OutWin.Handle (OutWin.HRead i) false]> (OutWin.handles w))) in *.
  apply lookup_insert_None in Hwr as [Hwr Hne].
  set (w1 := OutWin.set_handles <[wr := OutWin.Handle (OutWin.HWrite i) false]> _) in Hc.
  assert (OutWin.handles w1 !! wr = Some (OutWin.Handle (OutWin.HWrite i) false)) as Hwr1
    by (unfold w1; simpl; by rewrite lookup_insert_eq).
  assert (wr ≠ OutWin.INVALID_HANDLE_VALUE) as Hvalid
    by (unfold OutWin.INVALID_HANDLE_VALUE; lia).
  pose proof (out_win_ps_exec_info_one decode junk w1 "std-echo.exe" "std-echo"
                OutWin.PIPE_NULL wr wr Hjunk Hnul Harg Hfn) as He.
  rewrite (out_win_startup_outputs w1 ["std-echo"] wr _ Hvalid Hwr1) in He.
  set (w1' := OutWin.set_handles _ (OutWin.set_handles _ w1)) in He.
  assert (OutWin.handles w1'
          = <[wr := OutWin.Handle (OutWin.HWrite i) true]>
              (<[r := OutWin.Handle (OutWin.HRead i) false]> (OutWin.handles w))) as Hsh
    by (unfold w1', w1; simpl; by rewrite !insert_insert_eq).
  set (si := OutWin.StartupInfo _ _ _ _) in He.
  destruct (out_win_spawn_started w1' (wide decode "std-echo.exe") (decode "std-echo") si Hs)
    as (w2 & Hsp & Hh2 & Hp2 & Hpi & Hd & Hst & Hcap).
  rewrite Hsp in He.
  pose proof (alloc_fresh 4 (OutWin.handles w1')) as Hpfresh.
  pose proof (alloc_ge 4 (OutWin.handles w1')) as Hpge.
  set (p := alloc 4 (OutWin.handles w1')) in *.
  set (pid := alloc_nat (OutWin.procs w1')) in *.
  rewrite Hsh in Hpfresh, Hh2, Hp2.
  apply lookup_insert_None in Hpfresh as [Hpfresh Hpwr].
  apply lookup_insert_None in Hpfresh as [Hpfresh Hpr].
  eexists w2, i, r, wr, p, pid, _, _, _, _.
  split_and!; try done.
  - rewrite Hpi. unfold w1', w1. simpl. by rewrite lookup_insert_eq.
  - by rewrite Hp2, lookup_insert_eq.
  - assert (filter (λ kv : Z * OutWin.hentry, OutWin.inheritable kv.2 = true)
              (<[wr := OutWin.Handle (OutWin.HWrite i) true]>
                 (<[r := OutWin.Handle (OutWin.HRead i) false]> (OutWin.handles w))) !! wr
            = Some (OutWin.Handle (OutWin.HWrite i) true)) as ->; [|done].
    apply map_lookup_filter_Some. split; [by rewrite lookup_insert_eq|done].
  - intros acts. unfold OutWin.main. rewrite Hc.
    rewrite decide_False by (intros Hx; by apply Hx).
    rewrite He. cbn [mbind result_bind].
    by rewrite decide_False by (unfold OutWin._PS_NULL, OutWin.INVALID_HANDLE_VALUE; lia).
Qed.


Lemma out_win_pipe_read_data w r i b rest cap :
  0 ≤ cap < 2 ^ 32 →
  OutWin.obj <$> OutWin.handles w !! r = Some (OutWin.HRead i) →
  OutWin.pipes w !! i = Some (b :: rest) →
  OutWin.pipe_read w r cap
  = Ret (OutWin.set_pipes <[i := drop (Z.to_nat cap) (b :: rest)]> w,
         Z.of_nat (length (take (Z.to_nat cap) (b :: rest))),
         take (Z.to_nat cap) (b :: rest)).
Proof.
  intros Hcap Hr Hi. unfold OutWin.pipe_read, OutWin.sys_ReadFile.
  rewrite to_uint_small by done. rewrite Hr, Hi.
  cbn [mbind result_bind]. by rewrite decide_False by done.
Qed.

Lemma out_win_pipe_read_blocks w r wr i e cap :
  OutWin.obj <$> OutWin.handles w !! r = Some (OutWin.HRead i) →
  OutWin.pipes w !! i = Some [] →
  OutWin.handles w !! wr = Some e → OutWin.obj e = OutWin.HWrite i →
  OutWin.pipe_read w r cap = Blocks.
Proof.
  intros Hr Hi Hwr He. unfold OutWin.pipe_read, OutWin.sys_ReadFile. rewrite Hr, Hi.
  rewrite decide_True; [done|]. left. by exists wr, e.
Qed.

Lemma out_win_stdout_write_device decode_bytes w console f inh data :
  OutWin.handles w !! OutWin.std_out (OutWin.stdh w)
  = Some (OutWin.Handle (OutWin.HDevice console f) inh) →
  data ≠ [] → (length data ≤ 1000)%nat → (length (decode_bytes data) ≤ 1000)%nat →
  ∃ w',
    OutWin.stdout_write decode_bytes w data = Ret (w', Z.of_nat (length data)) ∧
    OutWin.handles w' = OutWin.handles w ∧ OutWin.procs w' = OutWin.procs w ∧
    OutWin.devices w'
    = <[f := default [] (OutWin.devices w !! f)
             ++ [if console then OutWin.Units (decode_bytes data) else OutWin.Bytes data]]>
        (OutWin.devices w).
Proof.
  intros Hout Hdata Hlen Hfit. unfold OutWin.stdout_write.
  assert (OutWin.sys_GetStdHandle w OutWin.STD_OUTPUT_HANDLE = OutWin.std_out (OutWin.stdh w))
    as -> by done.
  unfold OutWin.sys_GetConsoleMode. rewrite Hout. destruct console; simpl.
  - unfold OutWin.sys_MultiByteToWideChar_n.
    rewrite to_int_small by lia.
    rewrite decide_False by (destruct data; [done|simpl; lia]).
    rewrite decide_False by lia. cbn [mbind result_bind].
    rewrite Nat2Z.id, firstn_all.
    rewrite (decide_False (P := 1000 < 0)) by lia.
    rewrite (decide_False (P := 1000 = 0)) by lia.
    rewrite decide_True by lia. cbn [mbind result_bind].
    rewrite Nat2Z.id, firstn_all.
    unfold OutWin.sys_WriteConsoleW. rewrite Hout. simpl.
    eexists. split; [reflexivity|]. done.
  - rewrite to_uint_small, Nat2Z.id, firstn_all by lia.
    unfold OutWin.sys_WriteFile. simpl. rewrite Hout. simpl.
    eexists. split; [reflexivity|]. done.
Qed.

Lemma out_win_close_frame w p :
  OutWin.handles (OutWin.pipe_close w p) = delete p (OutWin.handles w) ∧
  OutWin.devices (OutWin.pipe_close w p) = OutWin.devices w ∧
  OutWin.procs (OutWin.pipe_close w p) = OutWin.procs w.
Proof.
  unfold OutWin.pipe_close, OutWin.sys_CloseHandle.
  destruct (OutWin.handles w !! p) eqn:Hp; simpl; [done|]. by rewrite delete_id.
Qed.

(** X28.  [main] of ps-exec-out.c on Windows when std-echo.exe cannot be
    started: [ps_exec_info] returns [_PS_NULL] and the assertion of line
    213 fails, with the two ends of the pipe still open and the write end
    already made inheritable; no process was created.  (On UNIX the same
    situation leaves [main] asleep in [pipe_read].)  Without room for two
    more handles it is the assertion of line 199 that fails. *)
Theorem ps_exec_out_main_win_without_program :
  ∀ decode decode_bytes junk w r0 w0 acts,
    length junk = 1000%nat → 0 ∉ decode "std-echo" →
    (length (decode "std-echo") < 1000)%nat → (length (decode "std-echo.exe") < 1000)%nat →
    ¬ out_win_can_start w (wide decode "std-echo.exe") →
    if decide (size (OutWin.handles w) + 2 ≤ OutWin.quota w)%nat then
      ∃ w' i r wr,
        OutWin.main decode decode_bytes junk w r0 w0 acts = Ret (w', AssertionFailed 213) ∧
        r ≠ wr ∧ OutWin.handles w !! r = None ∧ OutWin.handles w !! wr = None ∧
        OutWin.handles w'
        = <[wr := OutWin.Handle (OutWin.HWrite i) true]>
            (<[r := OutWin.Handle (OutWin.HRead i) false]> (OutWin.handles w)) ∧
        OutWin.procs w' = OutWin.procs w
    else
      ∃ w', OutWin.main decode decode_bytes junk w r0 w0 acts = Ret (w', AssertionFailed 199) ∧
        OutWin.handles w' = OutWin.handles w.
Proof.
  intros decode decode_bytes junk w r0 w0 acts Hjunk Hnul Harg Hfn Hs.
  destruct (decide (size (OutWin.handles w) + 2 ≤ OutWin.quota w)%nat) as [Hroom|Hroom].
  - pose proof (out_win_pipe_create_ok w r0 w0 Hroom) as Hc. simpl in Hc.
    set (i := alloc_nat (OutWin.pipes w)) in *.
    pose proof (alloc_fresh 4 (OutWin.handles w)) as Hr.
    set (r := alloc 4 (OutWin.handles w)) in *.
    pose proof (alloc_fresh 4 (<[r := OutWin.Handle (OutWin.HRead i) false]> (OutWin.handles w)))
      as Hwr.
    pose proof (alloc_ge 4 (<[r := OutWin.Handle (OutWin.HRead i) false]> (OutWin.handles w)))
      as Hge.
    set (wr := alloc 4 (<[r := OutWin.Handle (OutWin.HRead i) false]> (OutWin.handles w))) in *.
    apply lookup_insert_None in Hwr as [Hwr Hne].
    set (w1 := OutWin.set_handles <[wr := OutWin.Handle (OutWin.HWrite i) false]> _) in Hc.
    assert (OutWin.handles w1 !! wr = Some (OutWin.Handle (OutWin.HWrite i) false)) as Hwr1
      by (unfold w1; simpl; by rewrite lookup_insert_eq).
    assert (wr ≠ OutWin.INVALID_HANDLE_VALUE) as Hvalid
      by (unfold OutWin.INVALID_HANDLE_VALUE; lia).
    pose proof (out_win_ps_exec_info_one decode junk w1 "std-echo.exe" "std-echo"
                  OutWin.PIPE_NULL wr wr Hjunk Hnul Harg Hfn) as He.
    rewrite (out_win_startup_outputs w1 ["std-echo"] wr _ Hvalid Hwr1) in He.
    set (w1' := OutWin.set_handles _ (OutWin.set_handles _ w1)) in He.
    set (si := OutWin.StartupInfo _ _ _ _) in He.
    destruct (out_win_spawn_refused w1' (wide decode "std-echo.exe") (decode "std-echo") si Hs)
      as (w2 & Hsp & Hh2 & Hp2 & _).
    rewrite Hsp in He.
    exists w2, i, r, wr. split_and!; try done.
    + unfold OutWin.main. rewrite Hc.
      rewrite decide_False by (intros Hx; by apply Hx).
      rewrite He. cbn [mbind result_bind]. by rewrite decide_True by done.
    + rewrite Hh2. unfold w1', w1. simpl. by rewrite !insert_insert_eq.
  - exists (OutWin.sys_SetLastError w OutWin.ERROR_TOO_MANY_OPEN_FILES). split; [|done].
    unfold OutWin.main. rewrite (out_win_pipe_create_full w r0 w0 Hroom).
    by rewrite decide_True by done.
Qed.

Lemma ps_exec_out_main_win_without_program_witness :
  if decide (size (OutWin.handles out_win_bare) + 2 ≤ OutWin.quota out_win_bare)%nat then
    ∃ w' i r wr,
      OutWin.main ascii_units byte_units junk1000 out_win_bare 0 0 []
      = Ret (w', AssertionFailed 213) ∧
      r ≠ wr ∧ OutWin.handles out_win_bare !! r = None ∧
      OutWin.handles out_win_bare !! wr = None ∧
      OutWin.handles w'
      = <[wr := OutWin.Handle (OutWin.HWrite i) true]>
          (<[r := OutWin.Handle (OutWin.HRead i) false]> (OutWin.handles out_win_bare)) ∧
      OutWin.procs w' = OutWin.procs out_win_bare
  else
    ∃ w', OutWin.main ascii_units byte_units junk1000 out_win_bare 0 0 []
          = Ret (w', AssertionFailed 199) ∧
      OutWin.handles w' = OutWin.handles out_win_bare.
Proof.
  apply (ps_exec_out_main_win_without_program ascii_units byte_units junk1000 out_win_bare
           0 0 []).
  - reflexivity.
  - apply (bool_decide_eq_true_1 _). vm_compute. reflexivity.
  - vm_compute. lia.
  - vm_compute. lia.
  - intros [_ Hin]. by apply elem_of_empty in Hin.
Defined.

(** X29.  [main] of ps-exec-out.c on Windows, when std-echo.exe can be
    started and the child's first output, on its standard output or its
    standard error, is there before it exits: every assertion holds,
    [main] returns, and its handle table is again what it was (the process
    handle and both ends of the pipe are closed).  The process's own
    standard output has received exactly that output, up to the 1000 bytes
    of [buf]: as bytes if it is a file, and transcoded to UTF-16 and
    written with [WriteConsoleW] if it is a console. *)
Theorem ps_exec_out_main_win_relays_the_first_output :
  ∀ decode decode_bytes junk w r0 w0 console f inh to_stderr data rest,
    length junk = 1000%nat → 0 ∉ decode "std-echo" →
    (length (decode "std-echo") < 1000)%nat → (length (decode "std-echo.exe") < 1000)%nat →
    (size (OutWin.handles w) + 2 ≤ OutWin.quota w)%nat →
    out_win_can_start w (wide decode "std-echo.exe") →
    OutWin.handles w !! OutWin.std_out (OutWin.stdh w)
    = Some (OutWin.Handle (OutWin.HDevice console f) inh) →
    data ≠ [] → (length data ≤ OutWin.pipe_cap w)%nat →
    (length (decode_bytes (take 1000 data)) ≤ 1000)%nat →
    win_silent rest →
    ∃ w',
      OutWin.main decode decode_bytes junk w r0 w0 (OutWin.ChildWrites to_stderr data :: rest)
      = Ret (w', Returns) ∧
      OutWin.devices w' !! f
      = Some (default [] (OutWin.devices w !! f)
              ++ [if console then OutWin.Units (decode_bytes (take 1000 data))
                  else OutWin.Bytes (take 1000 data)]) ∧
      OutWin.handles w' = OutWin.handles w.
Proof.
  intros decode decode_bytes junk w r0 w0 console f inh to_stderr data rest
    Hjunk Hnul Harg Hfn Hroom Hs Hout Hdata Hcap Hfit Hrest.
  destruct (out_win_main_start decode decode_bytes junk w r0 w0 Hjunk Hnul Harg Hfn Hroom Hs)
    as (w2 & i & r & wr & p & pid & image & cmdline & t & sin &
        Hne & Hpr & Hpwr & Hr & Hwr & Hp & Hh2 & Hi & Hd2 & Hst2 & Hcap2 & Hchild & Ht & Hmain).
  rewrite Hmain.
  set (so := OutWin.std_out (OutWin.stdh w)) in *.
  assert (so ≠ r ∧ so ≠ wr ∧ so ≠ p) as (Hsr & Hswr & Hsp)
    by (split_and!; intros ->; congruence).
  (* the child's write *)
  assert (OutWin.child_run p w2 (OutWin.ChildWrites to_stderr data :: rest)
          = foldl (OutWin.child_step pid) (OutWin.set_pipes <[i := data]> w2) rest) as ->.
  { unfold OutWin.child_run. rewrite Hh2, lookup_insert_eq. simpl.
    f_equal. unfold OutWin.child_step. rewrite Hchild.
    assert ((if to_stderr then OutWin.std_err (OutWin.Std sin wr wr)
             else OutWin.std_out (OutWin.Std sin wr wr)) = wr) as -> by (by destruct to_stderr).
    rewrite Ht, Hi. simpl. rewrite decide_True; [done|].
    split; [|rewrite Hcap2; lia].
    left. exists r, (OutWin.Handle (OutWin.HRead i) false).
    rewrite Hh2, !lookup_insert_ne, lookup_insert_eq by done. done. }
  destruct (out_win_child_steps_silent pid rest (OutWin.set_pipes <[i := data]> w2) Hrest)
    as (Hh3 & Hp3 & Hd3 & Hst3).
  set (w3 := foldl _ _ rest) in *. simpl in Hh3, Hp3, Hd3, Hst3.
  (* the parent's read *)
  destruct data as [|b data']; [done|].
  rewrite (out_win_pipe_read_data w3 r i b data' 1000);
    [|lia|rewrite Hh3, Hh2, !lookup_insert_ne, lookup_insert_eq by done; done
     |by rewrite Hp3, lookup_insert_eq].
  cbn [mbind result_bind]. rewrite decide_False by lia.
  rewrite Nat2Z.id, firstn_all.
  change (Z.to_nat 1000) with 1000%nat.
  set (buf := take 1000 (b :: data')) in *.
  set (w4 := OutWin.set_pipes _ w3).
  (* the copy to the standard output *)
  destruct (out_win_stdout_write_device decode_bytes w4 console f inh buf)
    as (w5 & -> & Hh5 & _ & Hd5).
  { unfold w4. simpl. rewrite Hst3, Hst2, Hh3, Hh2. fold so.
    rewrite !lookup_insert_ne by done. done. }
  { unfold buf. done. }
  { unfold buf. rewrite length_take. lia. }
  { done. }
  cbn [mbind result_bind]. unfold OutWin.ps_close.
  fold (OutWin.pipe_close w5 p).
  destruct (out_win_close_frame w5 p) as (Hh6 & Hd6 & _).
  destruct (out_win_close_frame (OutWin.pipe_close w5 p) r) as (Hh7 & Hd7 & _).
  destruct (out_win_close_frame (OutWin.pipe_close (OutWin.pipe_close w5 p) r) wr)
    as (Hh8 & Hd8 & _).
  eexists. split; [reflexivity|]. split.
  - rewrite Hd8, Hd7, Hd6, Hd5. unfold w4. simpl.
    by rewrite lookup_insert_eq, Hd3, Hd2.
  - rewrite Hh8, Hh7, Hh6, Hh5. unfold w4. simpl. rewrite Hh3, Hh2.
    rewrite delete_insert_id
      by (by rewrite !lookup_insert_ne).
    rewrite (delete_insert_ne _ r wr) by done.
    rewrite (delete_insert_id (OutWin.handles w) r) by done.
    by apply delete_insert_id.
Qed.

Lemma ps_exec_out_main_win_relays_the_first_output_witness :
  ∃ w',
    OutWin.main ascii_units byte_units junk1000 out_win_world 0 0
      (OutWin.ChildWrites false hello :: [OutWin.ChildExits 0])
    = Ret (w', Returns) ∧
    OutWin.devices w' !! 0%nat
    = Some (default [] (OutWin.devices out_win_world !! 0%nat)
            ++ [if true then OutWin.Units (byte_units (take 1000 hello))
                else OutWin.Bytes (take 1000 hello)]) ∧
    OutWin.handles w' = OutWin.handles out_win_world.
Proof.
  apply (ps_exec_out_main_win_relays_the_first_output ascii_units byte_units junk1000
           out_win_world 0 0 true 0%nat true false hello [OutWin.ChildExits 0]).
  - reflexivity.
  - apply (bool_decide_eq_true_1 _). vm_compute. reflexivity.
  - vm_compute. lia.
  - vm_compute. lia.
  - vm_compute. lia.
  - split; [reflexivity|]. apply (bool_decide_eq_true_1 _). vm_compute. reflexivity.
  - vm_compute. reflexivity.
  - discriminate.
  - vm_compute. lia.
  - vm_compute. lia.
  - apply Forall_cons. split; [by eexists|]. apply Forall_nil. done.
Defined.

(** X30.  [main] of ps-exec-out.c on Windows with a child that was
    started and only exits, without writing anything: the [pipe_read] of
    [main] never returns.  [main] itself still holds the write end of the
    pipe, so the read cannot fail with [ERROR_BROKEN_PIPE]. *)
Theorem ps_exec_out_main_win_waits_forever_for_a_silent_child :
  ∀ decode decode_bytes junk w r0 w0 acts,
    length junk = 1000%nat → 0 ∉ decode "std-echo" →
    (length (decode "std-echo") < 1000)%nat → (length (decode "std-echo.exe") < 1000)%nat →
    (size (OutWin.handles w) + 2 ≤ OutWin.quota w)%nat →
    out_win_can_start w (wide decode "std-echo.exe") →
    win_silent acts →
    OutWin.main decode decode_bytes junk w r0 w0 acts = Blocks.
Proof.
  intros decode decode_bytes junk w r0 w0 acts Hjunk Hnul Harg Hfn Hroom Hs Hsilent.
  destruct (out_win_main_start decode decode_bytes junk w r0 w0 Hjunk Hnul Harg Hfn Hroom Hs)
    as (w2 & i & r & wr & p & pid & image & cmdline & t & sin &
        Hne & Hpr & Hpwr & Hr & Hwr & Hp & Hh2 & Hi & Hd2 & Hst2 & Hcap2 & Hchild & Ht & Hmain).
  rewrite Hmain.
  assert (OutWin.child_run p w2 acts = foldl (OutWin.child_step pid) w2 acts) as ->
    by (unfold OutWin.child_run; by rewrite Hh2, lookup_insert_eq).
  destruct (out_win_child_steps_silent pid acts w2 Hsilent) as (Hh3 & Hp3 & _).
  rewrite (out_win_pipe_read_blocks _ r wr i (OutWin.Handle (OutWin.HWrite i) true) 1000);
    [done| | | |done].
  - rewrite Hh3, Hh2, !lookup_insert_ne, lookup_insert_eq by done. done.
  - by rewrite Hp3.
  - rewrite Hh3, Hh2, lookup_insert_ne, lookup_insert_eq by done. done.
Qed.

Lemma ps_exec_out_main_win_waits_forever_for_a_silent_child_witness :
  OutWin.main ascii_units byte_units junk1000 out_win_world 0 0 [OutWin.ChildExits 0] = Blocks.
Proof.
  apply (ps_exec_out_main_win_waits_forever_for_a_silent_child ascii_units byte_units junk1000
           out_win_world 0 0).
  - reflexivity.
  - apply (bool_decide_eq_true_1 _). vm_compute. reflexivity.
  - vm_compute. lia.
  - vm_compute. lia.
  - vm_compute. lia.
  - split; [reflexivity|]. apply (bool_decide_eq_true_1 _). vm_compute. reflexivity.
  - apply Forall_cons. split; [by eexists|]. apply Forall_nil. done.
Defined.

